(** * SmartCache: TTL + LRU + persistence, two implementations

    The repository holds two independent implementations of the same cache:

    - [V1]: the class of [hw1/c3/v1] (store [Map<K, CacheEntry>], a second
      [Map<K, LRUNode>] and [head]/[tail] fields; evicts one expired entry or
      the tail; [ttl > 0] guards the expiry; [parseKey] decodes keys);
    - [V2]: the class of [hw1/c3/v2/SmartCache.ts] ([Map<K, LRUNode>] whose
      nodes carry value and expiry, a [DoublyLinkedList]; eviction purges
      every expired entry and then removes the tail).

    Both are embedded at the level of the source: the linked nodes live in an
    arena addressed by index, [prev]/[next] are optional addresses, and every
    method is a function on the state that rewires those links exactly as the
    TypeScript does.  [Date.now()] is an explicit argument [now] (epoch
    milliseconds, one reading per public call), [localStorage] is an explicit
    store threaded through the calls. *)

From Stdlib Require Import ZArith Lia Ascii DecimalString.
From stdpp Require Import base tactics option list sets strings.

Open Scope Z_scope.
Open Scope string_scope.
Open Scope list_scope.

(** ** JavaScript numbers, as far as keys need them

    Keys are converted with the built-ins [String(key)], [Number(keyStr)] and
    [isNaN].  They are not code of the repository, so they are a signature;
    [num_eq] is the equality [Map] uses on numbers (SameValueZero). *)

Class JsNum := {
  num : Type;
  num_eq :: EqDecision num;
  Number : string -> num;
  isNaN : num -> bool;
  num_to_string : num -> string
}.

(** An instance for the decimal integers: [None] is [NaN], [Number] reads an
    optional sign and decimal digits (the empty string is [0], as in
    JavaScript) and makes everything else [NaN]; [String] prints in decimal.  It
    agrees with JavaScript on the strings and integers used below. *)

Definition dec_digits (s : string) : option Z :=
  match s with
  | "" => None
  | _ => (fun d => Z.of_N (N.of_uint d)) <$> NilEmpty.uint_of_string s
  end.

Definition dec_Number (s : string) : option Z :=
  match s with
  | "" => Some 0
  | String "-"%char s' => Z.opp <$> dec_digits s'
  | String "+"%char s' => dec_digits s'
  | _ => dec_digits s
  end.

Definition dec_to_string (n : option Z) : string :=
  match n with
  | None => "NaN"
  | Some z => NilEmpty.string_of_int (Z.to_int z)
  end.

#[global] Instance DecNum : JsNum := {|
  num := option Z;
  Number := dec_Number;
  isNaN := fun n => match n with None => true | Some _ => false end;
  num_to_string := dec_to_string
|}.

(** ** Keys: [string | number | boolean] *)

Section Keys.
Context `{JsNum}.

Inductive SerializableKey :=
| KStr (s : string)
| KNum (n : num)
| KBool (b : bool).

#[global] Instance SerializableKey_eq_dec : EqDecision SerializableKey.
Proof. solve_decision. Defined.

(** [String(key)] *)
Definition String_key (k : SerializableKey) : string :=
  match k with
  | KStr s => s
  | KNum n => num_to_string n
  | KBool true => "true"
  | KBool false => "false"
  end.

End Keys.

(** ** [Map]: an association list in insertion order

    [Map.prototype.set] on a key already present replaces the value where it
    stands; a new key goes to the end.  [entries()] enumerates in that order. *)

Section JsMap.
Context {K V : Type} `{EqDecision K}.

Fixpoint jm_get (k : K) (m : list (K * V)) : option V :=
  match m with
  | [] => None
  | (k', v) :: m' => if decide (k' = k) then Some v else jm_get k m'
  end.

Definition jm_has (k : K) (m : list (K * V)) : bool :=
  match jm_get k m with Some _ => true | None => false end.

Fixpoint jm_set (k : K) (v : V) (m : list (K * V)) : list (K * V) :=
  match m with
  | [] => [(k, v)]
  | (k', v') :: m' =>
      if decide (k' = k) then (k, v) :: m' else (k', v') :: jm_set k v m'
  end.

Fixpoint jm_delete (k : K) (m : list (K * V)) : list (K * V) :=
  match m with
  | [] => []
  | (k', v') :: m' =>
      if decide (k' = k) then m' else (k', v') :: jm_delete k m'
  end.

Definition jm_size (m : list (K * V)) : Z := Z.of_nat (length m).

End JsMap.

(** ** Plain objects used as [Record<string, E>]

    Property enumeration ([Object.entries], [JSON.stringify]) lists the array
    indices first, in ascending numeric order, then the other names in the
    order of their creation.  Assigning to a name already present keeps its
    place. *)

Definition array_index (s : string) : option N :=
  match NilEmpty.uint_of_string s with
  | Some d =>
      let n := N.of_uint d in
      if decide (s <> "" /\ NilEmpty.string_of_uint (N.to_uint n) = s
                 /\ (n < 4294967295)%N)
      then Some n else None
  | None => None
  end.

Section JsObject.
Context {E : Type}.

Fixpoint obj_insert_index (i : N) (k : string) (e : E)
    (o : list (string * E)) : list (string * E) :=
  match o with
  | [] => [(k, e)]
  | (k', e') :: o' =>
      match array_index k' with
      | Some j =>
          if (j <? i)%N then (k', e') :: obj_insert_index i k e o'
          else (k, e) :: o
      | None => (k, e) :: o
      end
  end.

(** [o[k] = e] on an object created by [{}], for [e] an object or [null]
    (every value assigned below is one).  The name [__proto__] is the
    accessor inherited from [Object.prototype]: the assignment replaces the
    prototype of [o] and creates no property, so that [Object.entries] and
    [JSON.stringify] do not see it; the properties of [o] stay as they
    are. *)
Definition obj_set (k : string) (e : E) (o : list (string * E))
    : list (string * E) :=
  if decide (k = "__proto__") then o
  else if jm_has k o then jm_set k e o
  else match array_index k with
       | Some i => obj_insert_index i k e o
       | None => o ++ [(k, e)]
       end.

End JsObject.

(** ** [localStorage] and the persisted blob

    A stored text is represented by what [JSON.parse] makes of it:
    [Unparsable] when [JSON.parse] throws or the text is empty, [Doc d] when
    it yields an object whose properties, in enumeration order, are [d]; a
    property is either [null] ([None]) or an entry of the expected shape.
    [JSON.stringify] of such an object is read back as the same object, so
    writing stores [Doc d] itself; a [localStorage] that is present takes
    every write (one that refuses a write, for lack of room, is not
    modelled).  [localStorage] may be missing altogether (no such global),
    which is [None]. *)

Inductive blob (E : Type) :=
| Unparsable
| Doc (d : list (string * option E)).
Arguments Unparsable {E}.
Arguments Doc {E} d.

Definition Storage (E : Type) : Type := option (list (string * blob E)).

Definition getItem {E} (name : string) (st : list (string * blob E))
    : option (blob E) := jm_get name st.

Definition setItem {E} (name : string) (b : blob E)
    (st : list (string * blob E)) : list (string * blob E) := jm_set name b st.

(** The [persist] option: [boolean | string]. *)
Inductive persist_opt :=
| PBool (b : bool)
| PStr (s : string).

(** Truthiness of a [persist] value and of a string. *)
Definition truthy_persist (p : persist_opt) : bool :=
  match p with
  | PBool b => b
  | PStr s => if decide (s = "") then false else true
  end.

Definition truthy_string (s : string) : bool :=
  if decide (s = "") then false else true.

(** ** Linked nodes in an arena

    A node reference is the index of the node in the arena; [new LRUNode(..)]
    appends.  Nodes nobody refers to any more simply stay behind. *)

Abbreviation addr := nat.

Definition alloc {Nd : Type} (n : Nd) (h : list Nd) : addr * list Nd :=
  (length h, h ++ [n]).

Class Linked (Nd : Type) := {
  lprev : Nd -> option addr;
  lnext : Nd -> option addr;
  lset_prev : option addr -> Nd -> Nd;
  lset_next : option addr -> Nd -> Nd;
  lprev_set_prev : forall p n, lprev (lset_prev p n) = p;
  lnext_set_prev : forall p n, lnext (lset_prev p n) = lnext n;
  lprev_set_next : forall p n, lprev (lset_next p n) = lprev n;
  lnext_set_next : forall p n, lnext (lset_next p n) = p
}.

(** Reading a link through a reference. *)
Definition rd_prev {Nd} `{!Linked Nd} (h : list Nd) (a : addr) : option addr :=
  n ← h !! a; lprev n.
Definition rd_next {Nd} `{!Linked Nd} (h : list Nd) (a : addr) : option addr :=
  n ← h !! a; lnext n.

(** [dseg h p l q]: the nodes [l], in this order, are linked to each other in
    both directions; the first one's [prev] is [p], the last one's [next] is
    [q]. *)
Definition first_or {A} (l : list A) (q : option A) : option A :=
  match l with [] => q | b :: _ => Some b end.

Definition last_or {A} (l : list A) (p : option A) : option A :=
  match last l with Some a => Some a | None => p end.

Fixpoint dseg {Nd} `{!Linked Nd} (h : list Nd) (p : option addr) (l : list addr)
    (q : option addr) : Prop :=
  match l with
  | [] => True
  | a :: l' =>
      (a < length h)%nat /\ rd_prev h a = p /\ rd_next h a = first_or l' q
      /\ dseg h (Some a) l' q
  end.

(** [dll h hd tl l]: [hd] and [tl] delimit a well-formed doubly linked list
    whose nodes are [l] from most to least recently used: no node occurs
    twice (so there is no cycle), both ends are [null]-terminated, [hd] and
    [tl] are the first and the last node ([null] when there is none). *)
Definition dll {Nd} `{!Linked Nd} (h : list Nd) (hd tl : option addr)
    (l : list addr) : Prop :=
  NoDup l /\ dseg h None l None /\ hd = head l /\ tl = last l.

(** Following [next] from a reference, at most [fuel] nodes. *)
Fixpoint walk {Nd} `{!Linked Nd} (fuel : nat) (h : list Nd) (p : option addr)
    : list addr :=
  match fuel, p with
  | S f, Some a => a :: walk f h (rd_next h a)
  | _, _ => []
  end.

(** * Implementation 1: [Map] of entries + [Map] of nodes + [head]/[tail] *)

Module V1.
Section Model.
Context `{JsNum} {V : Type}.

(** [this.options], after the constructor has filled in the defaults. *)
Record CacheOptions := {
  maxSize : Z;
  defaultTTL : Z;
  persist : persist_opt
}.

Record CacheEntry := {
  value : V;
  expiresAt : option Z;
  lastUsed : Z
}.

Record LRUNode := {
  key : SerializableKey;
  prev : option addr;
  next : option addr
}.

Record SmartCache := {
  cache : list (SerializableKey * CacheEntry);
  lruMap : list (SerializableKey * addr);
  nodes : list LRUNode;
  head : option addr;
  tail : option addr;
  options : CacheOptions;
  storageKey : string
}.

Definition World : Type := Storage CacheEntry.

Definition set_prev (p : option addr) (n : LRUNode) : LRUNode :=
  {| key := key n; prev := p; next := next n |}.
Definition set_next (q : option addr) (n : LRUNode) : LRUNode :=
  {| key := key n; prev := prev n; next := q |}.

#[global] Instance LRUNode_linked : Linked LRUNode := {|
  lprev := prev;
  lnext := next;
  lset_prev := set_prev;
  lset_next := set_next;
  lprev_set_prev := fun _ _ => eq_refl;
  lnext_set_prev := fun _ _ => eq_refl;
  lprev_set_next := fun _ _ => eq_refl;
  lnext_set_next := fun _ _ => eq_refl
|}.

Definition with_cache (m : list (SerializableKey * CacheEntry))
    (c : SmartCache) : SmartCache :=
  {| cache := m; lruMap := lruMap c; nodes := nodes c; head := head c;
     tail := tail c; options := options c; storageKey := storageKey c |}.
Definition with_lruMap (m : list (SerializableKey * addr))
    (c : SmartCache) : SmartCache :=
  {| cache := cache c; lruMap := m; nodes := nodes c; head := head c;
     tail := tail c; options := options c; storageKey := storageKey c |}.
Definition with_nodes (h : list LRUNode) (c : SmartCache) : SmartCache :=
  {| cache := cache c; lruMap := lruMap c; nodes := h; head := head c;
     tail := tail c; options := options c; storageKey := storageKey c |}.
Definition with_head (p : option addr) (c : SmartCache) : SmartCache :=
  {| cache := cache c; lruMap := lruMap c; nodes := nodes c; head := p;
     tail := tail c; options := options c; storageKey := storageKey c |}.
Definition with_tail (p : option addr) (c : SmartCache) : SmartCache :=
  {| cache := cache c; lruMap := lruMap c; nodes := nodes c; head := head c;
     tail := p; options := options c; storageKey := storageKey c |}.

(** [isExpired(entry)] *)
Definition isExpired (now : Z) (entry : CacheEntry) : bool :=
  match expiresAt entry with
  | None => false
  | Some t => bool_decide (now > t)
  end.

(** [addToLRU(key)] *)
Definition addToLRU (k : SerializableKey) (c : SmartCache) : SmartCache :=
  let '(node, h) := alloc {| key := k; prev := None; next := None |} (nodes c) in
  let c := with_lruMap (jm_set k node (lruMap c)) (with_nodes h c) in
  match head c with
  | None => with_tail (Some node) (with_head (Some node) c)
  | Some hd =>
      let c := with_nodes (alter (set_next (Some hd)) node (nodes c)) c in
      let c := with_nodes (alter (set_prev (Some node)) hd (nodes c)) c in
      with_head (Some node) c
  end.

(** [removeFromLRU(key)] *)
Definition removeFromLRU (k : SerializableKey) (c : SmartCache) : SmartCache :=
  match jm_get k (lruMap c) with
  | None => c
  | Some node =>
      let c :=
        match rd_prev (nodes c) node with
        | Some p =>
            with_nodes (alter (set_next (rd_next (nodes c) node)) p (nodes c)) c
        | None => with_head (rd_next (nodes c) node) c
        end in
      let c :=
        match rd_next (nodes c) node with
        | Some q =>
            with_nodes (alter (set_prev (rd_prev (nodes c) node)) q (nodes c)) c
        | None => with_tail (rd_prev (nodes c) node) c
        end in
      with_lruMap (jm_delete k (lruMap c)) c
  end.

(** [moveToFront(key)] *)
Definition moveToFront (k : SerializableKey) (c : SmartCache) : SmartCache :=
  match jm_get k (lruMap c) with
  | None => c
  | Some node =>
      if decide (head c = Some node) then c
      else
        let c :=
          match rd_prev (nodes c) node with
          | Some p =>
              with_nodes (alter (set_next (rd_next (nodes c) node)) p (nodes c)) c
          | None => c
          end in
        let c :=
          match rd_next (nodes c) node with
          | Some q =>
              with_nodes (alter (set_prev (rd_prev (nodes c) node)) q (nodes c)) c
          | None => with_tail (rd_prev (nodes c) node) c
          end in
        let c := with_nodes (alter (set_prev None) node (nodes c)) c in
        let c := with_nodes (alter (set_next (head c)) node (nodes c)) c in
        let c :=
          match head c with
          | Some hd => with_nodes (alter (set_prev (Some node)) hd (nodes c)) c
          | None => c
          end in
        with_head (Some node) c
  end.

(** [saveToStorage()]: only the store changes.  Without a [localStorage]
    the [ReferenceError] is caught and nothing happens. *)
Definition snapshot (now : Z) (m : list (SerializableKey * CacheEntry))
    : list (string * option CacheEntry) :=
  fold_left
    (fun data '(k, entry) =>
       if isExpired now entry then data
       else obj_set (String_key k) (Some entry) data)
    m [].

Definition saveToStorage (now : Z) (c : SmartCache) (w : World) : World :=
  if truthy_string (storageKey c) then
    match w with
    | None => None
    | Some st => Some (setItem (storageKey c) (Doc (snapshot now (cache c))) st)
    end
  else w.

(** [delete(key)] *)
Definition delete (k : SerializableKey) (now : Z) (s : World * SmartCache)
    : World * SmartCache :=
  let '(w, c) := s in
  if jm_has k (cache c) then
    let c := with_cache (jm_delete k (cache c)) c in
    let c := removeFromLRU k c in
    (if truthy_persist (persist (options c)) then saveToStorage now c w else w,
     c)
  else s.

(** [cleanExpired()] *)
Definition cleanExpired (now : Z) (s : World * SmartCache)
    : World * SmartCache :=
  let keysToDelete :=
    (filter (fun kv => isExpired now kv.2 = true) (cache s.2)).*1 in
  fold_left (fun s k => delete k now s) keysToDelete s.

(** [evictLRU()] *)
Definition evictLRU (now : Z) (s : World * SmartCache) : World * SmartCache :=
  match tail s.2 with
  | None => s
  | Some t =>
      match List.find (fun kv => isExpired now (snd kv)) (cache s.2) with
      | Some (k, _) => delete k now s
      | None =>
          match nodes s.2 !! t with
          | Some n => delete (key n) now s
          | None => s
          end
      end
  end.

(** [set(key, value, ttlMs?)] *)
Definition set (k : SerializableKey) (v : V) (ttlMs : option Z) (now : Z)
    (s : World * SmartCache) : World * SmartCache :=
  let '(w, c) := s in
  let c := if jm_has k (cache c) then removeFromLRU k c else c in
  let '(w, c) :=
    if bool_decide (jm_size (cache c) >= maxSize (options c))
       && negb (jm_has k (cache c))
    then evictLRU now (w, c) else (w, c) in
  let ttl := default (defaultTTL (options c)) ttlMs in
  let expiresAt := if bool_decide (ttl > 0) then Some (now + ttl) else None in
  let entry := {| value := v; expiresAt := expiresAt; lastUsed := now |} in
  let c := with_cache (jm_set k entry (cache c)) c in
  let c := addToLRU k c in
  (if truthy_persist (persist (options c)) then saveToStorage now c w else w, c).

(** [get(key)] *)
Definition get (k : SerializableKey) (now : Z) (s : World * SmartCache)
    : option V * (World * SmartCache) :=
  let '(w, c) := s in
  match jm_get k (cache c) with
  | None => (None, s)
  | Some entry =>
      if isExpired now entry then (None, delete k now s)
      else
        let entry' :=
          {| value := value entry; expiresAt := expiresAt entry;
             lastUsed := now |} in
        let c := with_cache (jm_set k entry' (cache c)) c in
        let c := moveToFront k c in
        (Some (value entry), (w, c))
  end.

(** [has(key)] *)
Definition has (k : SerializableKey) (now : Z) (s : World * SmartCache)
    : bool * (World * SmartCache) :=
  match jm_get k (cache s.2) with
  | None => (false, s)
  | Some entry =>
      if isExpired now entry then (false, delete k now s) else (true, s)
  end.

(** [clear()] *)
Definition clear (now : Z) (s : World * SmartCache) : World * SmartCache :=
  let '(w, c) := s in
  let c := with_cache [] c in
  let c := with_lruMap [] c in
  let c := with_head None c in
  let c := with_tail None c in
  (if truthy_persist (persist (options c)) then saveToStorage now c w else w, c).

(** [size()] *)
Definition size (now : Z) (s : World * SmartCache)
    : Z * (World * SmartCache) :=
  let s := cleanExpired now s in
  (jm_size (cache s.2), s).

(** [parseKey(keyStr)] *)
Definition parseKey (keyStr : string) : SerializableKey :=
  if decide (keyStr = "true" \/ keyStr = "false")
  then KBool (bool_decide (keyStr = "true"))
  else
    let asNumber := Number keyStr in
    if negb (isNaN asNumber)
       && bool_decide (keyStr = num_to_string asNumber)
    then KNum asNumber
    else KStr keyStr.

(** The loop of [loadFromStorage()].  Reading [entry.expiresAt] of a [null]
    property throws; the handler is outside the loop, so what was inserted
    before stays. *)
Fixpoint restore (now : Z) (d : list (string * option CacheEntry))
    (c : SmartCache) : SmartCache :=
  match d with
  | [] => c
  | (keyStr, entry) :: d' =>
      let k := parseKey keyStr in
      match entry with
      | None => c
      | Some e =>
          if match expiresAt e with
             | None => false
             | Some t => bool_decide (now > t)
             end
          then restore now d' c
          else restore now d' (addToLRU k (with_cache (jm_set k e (cache c)) c))
      end
  end.

(** [loadFromStorage()] *)
Definition loadFromStorage (now : Z) (w : World) (c : SmartCache)
    : SmartCache :=
  if truthy_string (storageKey c) then
    match w with
    | None => c
    | Some st =>
        match getItem (storageKey c) st with
        | None => c
        | Some Unparsable => c
        | Some (Doc data) => restore now data c
        end
    end
  else c.

(** [new SmartCache(options)]; [defaultTTL] and [persist] are optional. *)
Definition new (maxSize_ : Z) (defaultTTL_ : option Z)
    (persist_ : option persist_opt) (now : Z) (w : World) : SmartCache :=
  let opts :=
    {| maxSize := maxSize_;
       defaultTTL := default 0 defaultTTL_;
       persist := default (PBool false) persist_ |} in
  let c :=
    {| cache := []; lruMap := []; nodes := []; head := None; tail := None;
       options := opts;
       storageKey :=
         match persist opts with
         | PStr s => s
         | PBool true => "smart-cache-default"
         | PBool false => ""
         end |} in
  if truthy_persist (persist opts) then loadFromStorage now w c else c.

End Model.
End V1.

(** * Implementation 2: [Map] of nodes + [DoublyLinkedList] *)

Module V2.
Section Model.
Context `{JsNum} {V : Type}.

(** [SerializedEntry<V>] *)
Record SerializedEntry := {
  ser_value : V;
  ser_expiresAt : option Z
}.

Record LRUNode := {
  key : SerializableKey;
  value : V;
  expiresAt : option Z;
  prev : option addr;
  next : option addr
}.

Record DoublyLinkedList := {
  head : option addr;
  tail : option addr
}.

(** [maxSize = None] is [Infinity]. *)
Record SmartCache := {
  map : list (SerializableKey * addr);
  lruList : DoublyLinkedList;
  nodes : list LRUNode;
  maxSize : option Z;
  defaultTTL : option Z;
  persistKey : option string
}.

Definition World : Type := Storage SerializedEntry.

Definition set_prev (p : option addr) (n : LRUNode) : LRUNode :=
  {| key := key n; value := value n; expiresAt := expiresAt n;
     prev := p; next := next n |}.
Definition set_next (q : option addr) (n : LRUNode) : LRUNode :=
  {| key := key n; value := value n; expiresAt := expiresAt n;
     prev := prev n; next := q |}.
Definition set_value (v : V) (n : LRUNode) : LRUNode :=
  {| key := key n; value := v; expiresAt := expiresAt n;
     prev := prev n; next := next n |}.
Definition set_expiresAt (e : option Z) (n : LRUNode) : LRUNode :=
  {| key := key n; value := value n; expiresAt := e;
     prev := prev n; next := next n |}.

#[global] Instance LRUNode2_linked : Linked LRUNode := {|
  lprev := prev;
  lnext := next;
  lset_prev := set_prev;
  lset_next := set_next;
  lprev_set_prev := fun _ _ => eq_refl;
  lnext_set_prev := fun _ _ => eq_refl;
  lprev_set_next := fun _ _ => eq_refl;
  lnext_set_next := fun _ _ => eq_refl
|}.

Definition with_map (m : list (SerializableKey * addr)) (c : SmartCache)
    : SmartCache :=
  {| map := m; lruList := lruList c; nodes := nodes c; maxSize := maxSize c;
     defaultTTL := defaultTTL c; persistKey := persistKey c |}.
Definition with_list (hl : list LRUNode * DoublyLinkedList) (c : SmartCache)
    : SmartCache :=
  {| map := map c; lruList := hl.2; nodes := hl.1; maxSize := maxSize c;
     defaultTTL := defaultTTL c; persistKey := persistKey c |}.
Definition with_nodes (h : list LRUNode) (c : SmartCache) : SmartCache :=
  {| map := map c; lruList := lruList c; nodes := h; maxSize := maxSize c;
     defaultTTL := defaultTTL c; persistKey := persistKey c |}.

(** ** [DoublyLinkedList]: the methods act on the arena and the list
    object. *)

(** [addToFront(node)] *)
Definition addToFront (node : addr) (hl : list LRUNode * DoublyLinkedList)
    : list LRUNode * DoublyLinkedList :=
  let '(h, l) := hl in
  let h := alter (set_next (head l)) node h in
  let h := alter (set_prev None) node h in
  let h :=
    match head l with
    | Some hd => alter (set_prev (Some node)) hd h
    | None => h
    end in
  let l := {| head := Some node; tail := tail l |} in
  let l :=
    match tail l with
    | None => {| head := head l; tail := Some node |}
    | Some _ => l
    end in
  (h, l).

(** [remove(node)] *)
Definition remove (node : addr) (hl : list LRUNode * DoublyLinkedList)
    : list LRUNode * DoublyLinkedList :=
  let '(h, l) := hl in
  let '(h, l) :=
    match rd_prev h node with
    | Some p => (alter (set_next (rd_next h node)) p h, l)
    | None => (h, {| head := rd_next h node; tail := tail l |})
    end in
  let '(h, l) :=
    match rd_next h node with
    | Some q => (alter (set_prev (rd_prev h node)) q h, l)
    | None => (h, {| head := head l; tail := rd_prev h node |})
    end in
  let h := alter (set_prev None) node h in
  let h := alter (set_next None) node h in
  (h, l).

(** [moveToFront(node)] *)
Definition moveToFront (node : addr) (hl : list LRUNode * DoublyLinkedList)
    : list LRUNode * DoublyLinkedList :=
  if decide (head hl.2 = Some node) then hl
  else addToFront node (remove node hl).

(** [removeTail()] *)
Definition removeTail (hl : list LRUNode * DoublyLinkedList)
    : option addr * (list LRUNode * DoublyLinkedList) :=
  match tail hl.2 with
  | None => (None, hl)
  | Some tailNode => (Some tailNode, remove tailNode hl)
  end.

(** [clear()] of the list *)
Definition list_clear (hl : list LRUNode * DoublyLinkedList)
    : list LRUNode * DoublyLinkedList :=
  (hl.1, {| head := None; tail := None |}).

(** ** [SmartCache] *)

Definition the_list (c : SmartCache) : list LRUNode * DoublyLinkedList :=
  (nodes c, lruList c).

(** [isExpired(node)], the node given by reference. *)
Definition isExpired (now : Z) (h : list LRUNode) (node : addr) : bool :=
  match n ← h !! node; expiresAt n with
  | None => false
  | Some t => bool_decide (now > t)
  end.

(** The object [syncToStorage()] builds from [this.map.entries()]. *)
Definition snapshot (now : Z) (c : SmartCache)
    : list (string * option SerializedEntry) :=
  fold_left
    (fun entries '(k, node) =>
       if isExpired now (nodes c) node then entries
       else
         match nodes c !! node with
         | Some n =>
             obj_set (String_key k)
               (Some {| ser_value := value n; ser_expiresAt := expiresAt n |})
               entries
         | None => entries
         end)
    (map c) [].

(** [syncToStorage()] *)
Definition syncToStorage (now : Z) (c : SmartCache) (w : World) : World :=
  match persistKey c, w with
  | Some name, Some st =>
      if truthy_string name then Some (setItem name (Doc (snapshot now c)) st)
      else w
  | _, _ => w
  end.

(** [cleanExpired()] *)
Definition cleanExpired (now : Z) (c : SmartCache) : SmartCache :=
  let keysToDelete :=
    (filter (fun kn => isExpired now (nodes c) kn.2 = true) (map c)).*1 in
  fold_left
    (fun c k =>
       match jm_get k (map c) with
       | Some node =>
           with_map (jm_delete k (map c)) (with_list (remove node (the_list c)) c)
       | None => c
       end)
    keysToDelete c.

(** [evictLRU()] *)
Definition evictLRU (now : Z) (c : SmartCache) : SmartCache :=
  let c := cleanExpired now c in
  if match maxSize c with
     | Some n => bool_decide (jm_size (map c) >= n)
     | None => false
     end
  then
    match removeTail (the_list c) with
    | (Some lru, hl) =>
        let c := with_list hl c in
        match nodes c !! lru with
        | Some n => with_map (jm_delete (key n) (map c)) c
        | None => c
        end
    | (None, _) => c
    end
  else c.

(** [set(key, value, ttlMs?)] *)
Definition set (k : SerializableKey) (v : V) (ttlMs : option Z) (now : Z)
    (s : World * SmartCache) : World * SmartCache :=
  let '(w, c) := s in
  let ttl := match ttlMs with Some t => Some t | None => defaultTTL c end in
  let expiresAt_ :=
    match ttl with Some t => Some (now + t) | None => None end in
  let c :=
    match jm_get k (map c) with
    | Some existingNode =>
        let c := with_nodes (alter (set_value v) existingNode (nodes c)) c in
        let c :=
          with_nodes (alter (set_expiresAt expiresAt_) existingNode (nodes c)) c in
        with_list (moveToFront existingNode (the_list c)) c
    | None =>
        let c :=
          if match maxSize c with
             | Some n => bool_decide (jm_size (map c) >= n)
             | None => false
             end
          then evictLRU now c else c in
        let '(newNode, h) :=
          alloc {| key := k; value := v; expiresAt := expiresAt_;
                   prev := None; next := None |} (nodes c) in
        let c := with_nodes h c in
        let c := with_list (addToFront newNode (the_list c)) c in
        with_map (jm_set k newNode (map c)) c
    end in
  (syncToStorage now c w, c).

(** [delete(key)] *)
Definition delete (k : SerializableKey) (now : Z) (s : World * SmartCache)
    : World * SmartCache :=
  let '(w, c) := s in
  match jm_get k (map c) with
  | Some node =>
      let c := with_list (remove node (the_list c)) c in
      let c := with_map (jm_delete k (map c)) c in
      (syncToStorage now c w, c)
  | None => s
  end.

(** [get(key)] *)
Definition get (k : SerializableKey) (now : Z) (s : World * SmartCache)
    : option V * (World * SmartCache) :=
  let '(w, c) := s in
  match jm_get k (map c) with
  | None => (None, s)
  | Some node =>
      if isExpired now (nodes c) node then (None, delete k now s)
      else
        let c := with_list (moveToFront node (the_list c)) c in
        (value <$> nodes c !! node, (w, c))
  end.

(** [has(key)] *)
Definition has (k : SerializableKey) (now : Z) (s : World * SmartCache)
    : bool * (World * SmartCache) :=
  match jm_get k (map s.2) with
  | None => (false, s)
  | Some node =>
      if isExpired now (nodes s.2) node then (false, delete k now s)
      else (true, s)
  end.

(** [clear()] *)
Definition clear (now : Z) (s : World * SmartCache) : World * SmartCache :=
  let '(w, c) := s in
  let c := with_map [] c in
  let c := with_list (list_clear (the_list c)) c in
  (syncToStorage now c w, c).

(** [size()] *)
Definition size (now : Z) (s : World * SmartCache)
    : Z * (World * SmartCache) :=
  let c := cleanExpired now s.2 in
  (jm_size (map c), (s.1, c)).

(** The key conversion of [loadFromStorage()]. *)
Definition convertKey (keyStr : string) : SerializableKey :=
  if negb (isNaN (Number keyStr)) then KNum (Number keyStr) else KStr keyStr.

(** The loop of [loadFromStorage()]; a [null] property makes
    [entry.expiresAt] throw, and the handler is outside the loop. *)
Fixpoint restore (now : Z) (d : list (string * option SerializedEntry))
    (c : SmartCache) : SmartCache :=
  match d with
  | [] => c
  | (keyStr, entry) :: d' =>
      match entry with
      | None => c
      | Some e =>
          if match ser_expiresAt e with
             | None => false
             | Some t => bool_decide (now > t)
             end
          then restore now d' c
          else
            let k := convertKey keyStr in
            let '(node, h) :=
              alloc {| key := k; value := ser_value e;
                       expiresAt := ser_expiresAt e;
                       prev := None; next := None |} (nodes c) in
            let c := with_nodes h c in
            let c := with_list (addToFront node (the_list c)) c in
            restore now d' (with_map (jm_set k node (map c)) c)
      end
  end.

(** [loadFromStorage()] *)
Definition loadFromStorage (now : Z) (w : World) (c : SmartCache)
    : SmartCache :=
  match persistKey c, w with
  | Some name, Some st =>
      if truthy_string name then
        match getItem name st with
        | None => c
        | Some Unparsable => c
        | Some (Doc entries) => restore now entries c
        end
      else c
  | _, _ => c
  end.

(** [new SmartCache(options)]; every option may be left out. *)
Definition new (maxSize_ defaultTTL_ : option Z)
    (persist_ : option persist_opt) (now : Z) (w : World) : SmartCache :=
  let c :=
    {| map := []; lruList := {| head := None; tail := None |}; nodes := [];
       maxSize := maxSize_; defaultTTL := defaultTTL_; persistKey := None |} in
  match persist_ with
  | Some p =>
      if truthy_persist p then
        let c :=
          {| map := map c; lruList := lruList c; nodes := nodes c;
             maxSize := maxSize c; defaultTTL := defaultTTL c;
             persistKey :=
               Some match p with
                    | PStr s => s
                    | PBool _ => "smartcache_default"
                    end |} in
        loadFromStorage now w c
      else c
  | None => c
  end.

End Model.
End V2.

(** * Invariants *)

(** ** Implementation 1 *)

Section V1Inv.
Context `{JsNum} {V : Type}.
Implicit Types (c : V1.SmartCache (V:=V)) (k : SerializableKey)
  (w : V1.World (V:=V)).

Definition v1_lru_rep (c : V1.SmartCache (V:=V)) (L : list (SerializableKey * addr)) : Prop :=
  dll (V1.nodes c) (V1.head c) (V1.tail c) L.*2 /\ NoDup L.*1 /\ V1.lruMap c ≡ₚ L /\
  (forall k a, (k, a) ∈ L -> V1.key <$> V1.nodes c !! a = Some k).


(** The recency order of the keys, read off the list from [head]. *)
Definition v1_order (c : V1.SmartCache (V:=V)) : list addr :=
  walk (length (V1.nodes c)) (V1.nodes c) (V1.head c).

Definition v1_lru_keys (c : V1.SmartCache (V:=V)) : list SerializableKey :=
  omap (fun a => V1.key <$> V1.nodes c !! a) (v1_order c).

(** [v1_abs c ks]: store and recency index are in lockstep, and [ks] is the
    recency order of the keys. *)
Definition v1_abs (c : V1.SmartCache (V:=V)) (ks : list SerializableKey) : Prop :=
  exists L, v1_lru_rep c L /\ L.*1 = ks /\ NoDup (V1.cache c).*1
            /\ forall k, k ∈ (V1.cache c).*1 <-> k ∈ ks.

Definition v1_wf (c : V1.SmartCache (V:=V)) : Prop := exists ks, v1_abs c ks.

Definition v1_expired_keys now c : list SerializableKey :=
  (filter (fun kv => V1.isExpired now kv.2 = true) (V1.cache c)).*1.

(** What [evictLRU()] removes: the first expired entry in iteration order,
    or else the key of the tail node. *)
Definition v1_victim now c : option SerializableKey :=
  match V1.tail c with
  | None => None
  | Some t =>
      match List.find (fun kv => V1.isExpired now (snd kv)) (V1.cache c) with
      | Some (k, _) => Some k
      | None => V1.key <$> V1.nodes c !! t
      end
  end.

(** The entry [set] stores. *)
Definition v1_entry (v : V) (ttlMs : option Z) (now : Z)
    (o : V1.CacheOptions) : V1.CacheEntry (V:=V) :=
  {| V1.value := v;
     V1.expiresAt :=
       if bool_decide (default (V1.defaultTTL o) ttlMs > 0)
       then Some (now + default (V1.defaultTTL o) ttlMs) else None;
     V1.lastUsed := now |}.

(** The state in which [set] stores the entry: the old node unlinked, or
    room made for a new key. *)
Definition v1_set_pre k now w c : V1.SmartCache (V:=V) :=
  if jm_has k (V1.cache c) then V1.removeFromLRU k c
  else if bool_decide (jm_size (V1.cache c) >= V1.maxSize (V1.options c))
       then (V1.evictLRU now (w, c)).2 else c.

(** The entries [loadFromStorage()] inserts, in order: the non-expired ones
    before the first [null] property. *)
Fixpoint v1_restorable (now : Z) (d : list (string * option (V1.CacheEntry (V:=V))))
    : list (SerializableKey * V1.CacheEntry (V:=V)) :=
  match d with
  | [] => []
  | (_, None) :: _ => []
  | (keyStr, Some e) :: d' =>
      if V1.isExpired now e then v1_restorable now d'
      else (V1.parseKey keyStr, e) :: v1_restorable now d'
  end.

End V1Inv.

(** ** Implementation 2 *)

Section V2Inv.
Context `{JsNum} {V : Type}.
Implicit Types (c : V2.SmartCache (V:=V)) (k : SerializableKey)
  (w : V2.World (V:=V)).

(** What a node carries besides its links. *)
Definition v2_payload (n : V2.LRUNode (V:=V))
    : SerializableKey * V2.SerializedEntry (V:=V) :=
  (V2.key n, {| V2.ser_value := V2.value n; V2.ser_expiresAt := V2.expiresAt n |}).

Definition v2_rep c (L : list (SerializableKey * addr)) : Prop :=
  dll (V2.nodes c) (V2.head (V2.lruList c)) (V2.tail (V2.lruList c)) L.*2
  /\ NoDup L.*1 /\ V2.map c ≡ₚ L
  /\ (forall k a, (k, a) ∈ L -> V2.key <$> V2.nodes c !! a = Some k).

(** The store as a map from keys to entries: each key of [this.map] with the
    value and expiry of its node. *)
Definition v2_store c : list (SerializableKey * V2.SerializedEntry (V:=V)) :=
  omap (fun ka => n ← V2.nodes c !! ka.2; Some (ka.1, (v2_payload n).2))
       (V2.map c).

Definition v2_order c : list addr :=
  walk (length (V2.nodes c)) (V2.nodes c) (V2.head (V2.lruList c)).

Definition v2_lru_keys c : list SerializableKey :=
  omap (fun a => V2.key <$> V2.nodes c !! a) (v2_order c).

Definition v2_abs c (ks : list SerializableKey) : Prop :=
  exists L, v2_rep c L /\ L.*1 = ks.

Definition v2_wf c : Prop := exists ks, v2_abs c ks.

(** The entry stored under a key: value and expiry of the key's node. *)
Definition v2_entry c k : option (V2.SerializedEntry (V:=V)) :=
  a ← jm_get k (V2.map c); n ← V2.nodes c !! a; Some (v2_payload n).2.

(** Same configuration. *)
Definition v2_same_config c c' : Prop :=
  V2.maxSize c' = V2.maxSize c /\ V2.defaultTTL c' = V2.defaultTTL c
  /\ V2.persistKey c' = V2.persistKey c.

(** Same contents of every node, links apart. *)
Definition v2_same_payload (h h' : list (V2.LRUNode (V:=V))) : Prop :=
  forall b, v2_payload <$> h' !! b = v2_payload <$> h !! b.

(** [this.map.size >= this.maxSize] *)
Definition v2_at_capacity c : bool :=
  match V2.maxSize c with
  | Some n => bool_decide (jm_size (V2.map c) >= n)
  | None => false
  end.

(** The key of the tail node. *)
Definition v2_tail_key c : option SerializableKey :=
  t ← V2.tail (V2.lruList c); V2.key <$> V2.nodes c !! t.

(** The expiry [set] computes. *)
Definition v2_expiry (ttlMs : option Z) (now : Z) c : option Z :=
  match match ttlMs with Some t => Some t | None => V2.defaultTTL c end with
  | Some t => Some (now + t)
  | None => None
  end.

(** The state in which [set] inserts a new key. *)
Definition v2_set_pre now c : V2.SmartCache (V:=V) :=
  if v2_at_capacity c then V2.evictLRU now c else c.

(** The entries [loadFromStorage()] inserts, in order: the non-expired ones
    before the first [null] property, under their converted keys. *)
Fixpoint v2_restorable (now : Z)
    (d : list (string * option (V2.SerializedEntry (V:=V))))
    : list (SerializableKey * V2.SerializedEntry (V:=V)) :=
  match d with
  | [] => []
  | (_, None) :: _ => []
  | (keyStr, Some e) :: d' =>
      if match V2.ser_expiresAt e with
         | None => false
         | Some t => bool_decide (now > t)
         end
      then v2_restorable now d'
      else (V2.convertKey keyStr, e) :: v2_restorable now d'
  end.

Definition v2_expired_keys now c : list SerializableKey :=
  (filter (fun ka => V2.isExpired now (V2.nodes c) ka.2 = true) (V2.map c)).*1.

End V2Inv.

(** * Calls, traces and further notions *)

Section Notions.
Context `{JsNum} {V : Type}.

(** A public call, construction apart. *)
Inductive op :=
| OSet (k : SerializableKey) (v : V) (ttlMs : option Z)
| OGet (k : SerializableKey)
| OHas (k : SerializableKey)
| ODelete (k : SerializableKey)
| OClear
| OSize.

(** A JavaScript object has each property once. *)
Definition storage_ok {E} (w : Storage E) : Prop :=
  forall st name d, w = Some st -> getItem name st = Some (Doc d) -> NoDup d.*1.

Definition v1_step (o : op) (now : Z) (s : V1.World * V1.SmartCache)
    : V1.World * V1.SmartCache (V:=V) :=
  match o with
  | OSet k v ttlMs => V1.set k v ttlMs now s
  | OGet k => (V1.get k now s).2
  | OHas k => (V1.has k now s).2
  | ODelete k => V1.delete k now s
  | OClear => V1.clear now s
  | OSize => (V1.size now s).2
  end.

Definition v1_run (tr : list (op * Z)) (s : V1.World * V1.SmartCache)
    : V1.World * V1.SmartCache (V:=V) :=
  fold_left (fun s on => v1_step on.1 on.2 s) tr s.

(** The states a program can bring a cache into: construction, then any
    calls at any times. *)
Definition v1_reachable (s : V1.World * V1.SmartCache (V:=V)) : Prop :=
  exists maxSize_ defaultTTL_ persist_ now0 w0 tr,
    storage_ok w0
    /\ s = v1_run tr (w0, V1.new maxSize_ defaultTTL_ persist_ now0 w0).

Definition v2_step (o : op) (now : Z) (s : V2.World * V2.SmartCache)
    : V2.World * V2.SmartCache (V:=V) :=
  match o with
  | OSet k v ttlMs => V2.set k v ttlMs now s
  | OGet k => (V2.get k now s).2
  | OHas k => (V2.has k now s).2
  | ODelete k => V2.delete k now s
  | OClear => V2.clear now s
  | OSize => (V2.size now s).2
  end.

Definition v2_run (tr : list (op * Z)) (s : V2.World * V2.SmartCache)
    : V2.World * V2.SmartCache (V:=V) :=
  fold_left (fun s on => v2_step on.1 on.2 s) tr s.

(** The states a program can bring a cache of implementation 2 into. *)
Definition v2_reachable (s : V2.World * V2.SmartCache (V:=V)) : Prop :=
  exists maxSize_ defaultTTL_ persist_ now0 w0 tr,
    s = v2_run tr (w0, V2.new maxSize_ defaultTTL_ persist_ now0 w0).

(** The call is a [set] of the key. *)
Definition sets_key (k : SerializableKey) (o : op) : Prop :=
  match o with
  | OSet k' _ _ => k' = k
  | _ => False
  end.

(** [entry.expiresAt !== null && now > entry.expiresAt] *)
Definition v2_entry_expired (now : Z) (e : V2.SerializedEntry (V:=V)) : bool :=
  match V2.ser_expiresAt e with
  | None => false
  | Some t => bool_decide (now > t)
  end.

(** [this.tail.key] *)
Definition v1_tail_key (c : V1.SmartCache (V:=V)) : option SerializableKey :=
  a ← V1.tail c; V1.key <$> V1.nodes c !! a.

(** No entry of the store has an expiry. *)
Definition v1_never_expires (c : V1.SmartCache (V:=V)) : Prop :=
  Forall (fun kv => V1.expiresAt kv.2 = None) (V1.cache c).

Definition v2_never_expires (c : V2.SmartCache (V:=V)) : Prop :=
  forall b n, V2.nodes c !! b = Some n -> V2.expiresAt n = None.

(** A cache in lockstep whose entries never expire and which stores new
    entries without expiry. *)
Definition v1_live (c : V1.SmartCache (V:=V)) (ks : list SerializableKey)
    (n : Z) : Prop :=
  v1_abs c ks /\ v1_never_expires c
  /\ V1.maxSize (V1.options c) = n /\ V1.defaultTTL (V1.options c) = 0.

Definition v2_live (c : V2.SmartCache (V:=V)) (ks : list SerializableKey)
    (n : Z) : Prop :=
  v2_abs c ks /\ v2_never_expires c
  /\ V2.maxSize c = Some n /\ V2.defaultTTL c = None.

(** The recency order after [set] where nothing expires. *)
Definition lru_after_set (k : SerializableKey) (ks : list SerializableKey)
    (n : Z) : list SerializableKey :=
  k :: if bool_decide (k ∈ ks) then filter (fun x => x <> k) ks
       else if bool_decide (Z.of_nat (length ks) >= n)
            then match last ks with
                 | Some j => filter (fun x => x <> j) ks
                 | None => ks
                 end
            else ks.

(** No node of the arena is expired at [now]. *)
Definition v2_nodes_live (now : Z) (h : list (V2.LRUNode (V:=V))) : Prop :=
  forall b, V2.isExpired now h b = false.

(** Every address in [this.map] is a node of the arena. *)
Definition v2_valid (c : V2.SmartCache (V:=V)) : Prop :=
  forall k a, (k, a) ∈ V2.map c -> (a < length (V2.nodes c))%nat.

End Notions.

(** The name under which a cache persists, from its [persist] option. *)
Definition v1_storage_name (p : persist_opt) : string :=
  match p with
  | PStr s => s
  | PBool true => "smart-cache-default"
  | PBool false => ""
  end.

Definition v2_storage_name (p : persist_opt) : string :=
  match p with
  | PStr s => s
  | PBool _ => "smartcache_default"
  end.

(** The loop of [saveToStorage()] and [syncToStorage()]: one property per
    entry that is not expired, named by the string form of the key. *)
Definition snapshot_step `{JsNum} {E : Type} (expired : E -> bool)
    (o : list (string * option E)) '((k, e) : SerializableKey * E)
    : list (string * option E) :=
  if expired e then o else obj_set (String_key k) (Some e) o.

(** The two worlds agree on every name but [name], and a missing
    [localStorage] stays missing. *)
Definition same_elsewhere {E} (name : string) (w w' : Storage E) : Prop :=
  match w, w' with
  | None, None => True
  | Some st, Some st' => forall n, n <> name -> getItem n st' = getItem n st
  | _, _ => False
  end.

(** * Properties *)

Set Warnings "-clear-no-such-hyp".

(** ** Insertion-ordered maps *)

Section JsMapFacts.
Context {K V : Type} `{EqDecision K}.
Implicit Types (k : K) (v : V) (m : list (K * V)).

Lemma jm_get_None k m : jm_get k m = None <-> k ∉ m.*1.
Proof.
  induction m as [|[k' v'] m IH]; simpl.
  - split; [intros _; apply not_elem_of_nil | done].
  - rewrite not_elem_of_cons. destruct (decide (k' = k)) as [->|Hne].
    + split; [done | by intros [? _]].
    + rewrite IH. intuition congruence.
Qed.

Lemma jm_get_Some_elem k v m : jm_get k m = Some v -> (k, v) ∈ m.
Proof.
  induction m as [|[k' v'] m IH]; simpl; [done|].
  case_decide; subst.
  - intros [= ->]. left.
  - intros. right. auto.
Qed.

Lemma jm_get_elem k v m : NoDup m.*1 -> (k, v) ∈ m -> jm_get k m = Some v.
Proof.
  induction m as [|[k' v'] m IH]; simpl; intros Hnd Hin.
  - by apply elem_of_nil in Hin.
  - apply NoDup_cons in Hnd as [Hk Hnd].
    apply elem_of_cons in Hin as [[= -> ->]|Hin].
    + by rewrite decide_True.
    + rewrite decide_False; [auto|].
      intros ->. apply Hk. apply list_elem_of_fmap. by exists (k, v).
Qed.

Lemma jm_get_is_Some k m : is_Some (jm_get k m) <-> k ∈ m.*1.
Proof.
  destruct (jm_get k m) as [v|] eqn:E.
  - split; [intros _|eauto].
    apply jm_get_Some_elem in E. apply list_elem_of_fmap. by exists (k, v).
  - apply jm_get_None in E. split; [by intros [? ?]|done].
Qed.

Lemma jm_has_true k m : jm_has k m = true <-> k ∈ m.*1.
Proof.
  unfold jm_has. rewrite <- jm_get_is_Some.
  destruct (jm_get k m); split; (done || eauto || by intros [? ?]).
Qed.

Lemma jm_has_false k m : jm_has k m = false <-> k ∉ m.*1.
Proof.
  rewrite <- jm_has_true. destruct (jm_has k m); naive_solver.
Qed.

Lemma jm_get_set_eq k v m : jm_get k (jm_set k v m) = Some v.
Proof.
  induction m as [|[k' v'] m IH]; simpl.
  - by rewrite decide_True.
  - case_decide; simpl.
    + by rewrite decide_True.
    + by rewrite decide_False.
Qed.

Lemma jm_get_set_ne k k' v m :
  k <> k' -> jm_get k' (jm_set k v m) = jm_get k' m.
Proof.
  intros Hne. induction m as [|[k0 v0] m IH]; simpl.
  - by rewrite decide_False.
  - case_decide; simpl; subst.
    + by rewrite !decide_False.
    + case_decide; auto.
Qed.

Lemma jm_set_keys k v m :
  (jm_set k v m).*1 = if jm_has k m then m.*1 else m.*1 ++ [k].
Proof.
  unfold jm_has. induction m as [|[k' v'] m IH]; [done|].
  cbn [jm_set jm_get]. case_decide; subst; [done|].
  csimpl. rewrite IH. by destruct (jm_get k m).
Qed.

Lemma jm_set_length k v m :
  length (jm_set k v m) = if jm_has k m then length m else S (length m).
Proof.
  unfold jm_has. induction m as [|[k' v'] m IH]; [done|].
  cbn [jm_set jm_get]. case_decide; simpl; [done|].
  rewrite IH. by destruct (jm_get k m).
Qed.

Lemma jm_set_NoDup k v m : NoDup m.*1 -> NoDup (jm_set k v m).*1.
Proof.
  intros Hnd. rewrite jm_set_keys. destruct (jm_has k m) eqn:E; [done|].
  apply jm_has_false in E. apply NoDup_app. split_and!; [done| |apply NoDup_singleton].
  intros x Hx ->%list_elem_of_singleton. done.
Qed.

Lemma jm_set_elem k v m x :
  NoDup m.*1 ->
  x ∈ jm_set k v m <-> x = (k, v) \/ (x.1 <> k /\ x ∈ m).
Proof.
  intros Hnd. induction m as [|[k' v'] m IH]; cbn [jm_set].
  - rewrite list_elem_of_singleton. split; [auto|].
    intros [|[_ []%elem_of_nil]]; done.
  - apply NoDup_cons in Hnd as [Hk Hnd]. case_decide; subst.
    + rewrite !elem_of_cons. split.
      * intros [->|Hx]; [auto|]. right. split; [|auto].
        intros <-. apply Hk. apply list_elem_of_fmap. by exists x.
      * intros [->|[Hne [->|Hx]]]; auto. done.
    + rewrite !elem_of_cons, IH by done. split.
      * intros [->|[->|[? ?]]]; simpl; auto.
      * intros [->|[? [->|?]]]; auto.
Qed.

Lemma jm_delete_elem k m x :
  NoDup m.*1 -> x ∈ jm_delete k m <-> x.1 <> k /\ x ∈ m.
Proof.
  intros Hnd. induction m as [|[k' v'] m IH]; cbn [jm_delete].
  - split; [by intros []%elem_of_nil | by intros [_ []%elem_of_nil]].
  - apply NoDup_cons in Hnd as [Hk Hnd]. case_decide; subst.
    + rewrite elem_of_cons. split.
      * intros Hx. split; [|auto].
        intros <-. apply Hk. apply list_elem_of_fmap. by exists x.
      * intros [Hne [->|Hx]]; done.
    + rewrite !elem_of_cons, IH by done. split.
      * intros [->|[? ?]]; simpl; auto.
      * intros [? [->|?]]; auto.
Qed.

Lemma jm_delete_key_elem k m x :
  NoDup m.*1 -> x ∈ (jm_delete k m).*1 <-> x <> k /\ x ∈ m.*1.
Proof.
  intros Hnd. rewrite !list_elem_of_fmap. split.
  - intros [[k0 v0] [-> [Hne Hin]%jm_delete_elem]]; [|done]. split; [done|].
    by exists (k0, v0).
  - intros [Hne [[k0 v0] [-> Hin]]]. exists (k0, v0). split; [done|].
    by apply jm_delete_elem.
Qed.

Lemma jm_delete_NoDup k m : NoDup m.*1 -> NoDup (jm_delete k m).*1.
Proof.
  induction m as [|[k' v'] m IH]; cbn [jm_delete]; [done|].
  csimpl. intros [Hk Hnd]%NoDup_cons. case_decide; [done|].
  csimpl. apply NoDup_cons. split; [|auto].
  intros [x [Hx1 [_ Hx]%jm_delete_elem]]%list_elem_of_fmap; [|done].
  apply Hk. apply list_elem_of_fmap. eauto.
Qed.

Lemma jm_get_delete_eq k m : NoDup m.*1 -> jm_get k (jm_delete k m) = None.
Proof.
  intros Hnd. apply jm_get_None.
  intros [x [-> [Hne _]%jm_delete_elem]]%list_elem_of_fmap; done.
Qed.

Lemma jm_get_delete_ne k k' m :
  k <> k' -> jm_get k' (jm_delete k m) = jm_get k' m.
Proof.
  intros Hne. induction m as [|[k0 v0] m IH]; cbn [jm_delete jm_get]; [done|].
  case_decide; subst.
  - by rewrite decide_False.
  - cbn [jm_get]. case_decide; auto.
Qed.

Lemma jm_delete_length k m :
  length (jm_delete k m) = if jm_has k m then pred (length m) else length m.
Proof.
  unfold jm_has. induction m as [|[k' v'] m IH]; [done|].
  cbn [jm_delete jm_get]. case_decide; simpl; [done|].
  rewrite IH. destruct (jm_get k m) eqn:E; [|done].
  destruct m; [done|]. done.
Qed.

Lemma jm_delete_absent k m : k ∉ m.*1 -> jm_delete k m = m.
Proof.
  induction m as [|[k' v'] m IH]; cbn [jm_delete]; [done|].
  csimpl. intros [? ?]%not_elem_of_cons. rewrite decide_False by done.
  f_equal. auto.
Qed.

End JsMapFacts.

(** ** Linked nodes *)

Section LinkedFacts.
Context {Nd : Type} `{!Linked Nd}.
Implicit Types (h : list Nd) (a b : addr) (l : list addr) (p q : option addr).

Lemma rd_prev_alter f b h a :
  rd_prev (alter f b h) a
  = if decide (b = a) then n ← h !! a; lprev (f n) else rd_prev h a.
Proof.
  unfold rd_prev. rewrite list_lookup_alter.
  repeat case_decide; subst; try done. by destruct (h !! a).
Qed.

Lemma rd_next_alter f b h a :
  rd_next (alter f b h) a
  = if decide (b = a) then n ← h !! a; lnext (f n) else rd_next h a.
Proof.
  unfold rd_next. rewrite list_lookup_alter.
  repeat case_decide; subst; try done. by destruct (h !! a).
Qed.

Lemma rd_prev_keep f b h a :
  (forall n, lprev (f n) = lprev n) -> rd_prev (alter f b h) a = rd_prev h a.
Proof.
  intros Hf. rewrite rd_prev_alter. case_decide; [|done].
  unfold rd_prev. destruct (h !! a); simpl; auto.
Qed.

Lemma rd_next_keep f b h a :
  (forall n, lnext (f n) = lnext n) -> rd_next (alter f b h) a = rd_next h a.
Proof.
  intros Hf. rewrite rd_next_alter. case_decide; [|done].
  unfold rd_next. destruct (h !! a); simpl; auto.
Qed.

Lemma rd_prev_set_next x b h a :
  rd_prev (alter (lset_next x) b h) a = rd_prev h a.
Proof. apply rd_prev_keep, lprev_set_next. Qed.

Lemma rd_next_set_prev x b h a :
  rd_next (alter (lset_prev x) b h) a = rd_next h a.
Proof. apply rd_next_keep, lnext_set_prev. Qed.

Lemma rd_prev_set_prev x b h a :
  (a < length h)%nat ->
  rd_prev (alter (lset_prev x) b h) a = if decide (b = a) then x else rd_prev h a.
Proof.
  intros [n Hn]%lookup_lt_is_Some. rewrite rd_prev_alter.
  case_decide; [|done]. rewrite Hn; simpl. apply lprev_set_prev.
Qed.

Lemma rd_next_set_next x b h a :
  (a < length h)%nat ->
  rd_next (alter (lset_next x) b h) a = if decide (b = a) then x else rd_next h a.
Proof.
  intros [n Hn]%lookup_lt_is_Some. rewrite rd_next_alter.
  case_decide; [|done]. rewrite Hn; simpl. apply lnext_set_next.
Qed.

Lemma rd_prev_app h h' a :
  (a < length h)%nat -> rd_prev (h ++ h') a = rd_prev h a.
Proof. intros. unfold rd_prev. by rewrite lookup_app_l. Qed.

Lemma rd_next_app h h' a :
  (a < length h)%nat -> rd_next (h ++ h') a = rd_next h a.
Proof. intros. unfold rd_next. by rewrite lookup_app_l. Qed.

(** A segment only depends on the links of its own nodes. *)
Lemma dseg_ext h h' p l q :
  (forall c, c ∈ l -> (c < length h)%nat ->
     (c < length h')%nat /\ rd_prev h' c = rd_prev h c
     /\ rd_next h' c = rd_next h c) ->
  dseg h p l q -> dseg h' p l q.
Proof.
  revert p. induction l as [|a l IH]; intros p Hext; simpl; [done|].
  intros (Ha & Hp & Hn & Hseg).
  destruct (Hext a) as (Ha' & Hp' & Hn'); [left|done|].
  split_and!; [done|congruence|congruence|].
  apply IH; [|done]. intros c Hc. apply Hext. by right.
Qed.

Lemma dseg_valid h p l q a : dseg h p l q -> a ∈ l -> (a < length h)%nat.
Proof.
  revert p. induction l as [|b l IH]; intros p; simpl.
  - by intros _ ?%elem_of_nil.
  - intros (Hb & _ & _ & Hseg) [->|Ha]%elem_of_cons; eauto.
Qed.

Lemma dseg_app h p l1 l2 q :
  dseg h p (l1 ++ l2) q
  <-> dseg h p l1 (first_or l2 q) /\ dseg h (last_or l1 p) l2 q.
Proof.
  revert p. induction l1 as [|a l1 IH]; intros p; simpl.
  - unfold last_or; simpl. tauto.
  - rewrite IH. unfold last_or. rewrite last_cons.
    assert (first_or (l1 ++ l2) q = first_or l1 (first_or l2 q)) as ->
      by (by destruct l1).
    assert (match last l1 with Some y => Some y | None => Some a end
            = match last l1 with Some a0 => Some a0 | None => Some a end) as Hl
      by done.
    destruct (last l1) eqn:E; simpl; tauto.
Qed.

Lemma dseg_snoc h p l a q :
  dseg h p (l ++ [a]) q
  <-> dseg h p l (Some a) /\ (a < length h)%nat
      /\ rd_prev h a = last_or l p /\ rd_next h a = q.
Proof. rewrite dseg_app. simpl. tauto. Qed.

(** Reading the links of a node inside a list. *)
Lemma dll_links h hd tl l1 a l2 :
  dll h hd tl (l1 ++ a :: l2) ->
  (a < length h)%nat /\ rd_prev h a = last l1 /\ rd_next h a = head l2.
Proof.
  intros (_ & Hseg & _ & _). apply dseg_app in Hseg as [_ Hseg].
  simpl in Hseg. destruct Hseg as (Ha & Hp & Hn & _).
  split_and!; [done| |].
  - rewrite Hp. unfold last_or. by destruct (last l1).
  - rewrite Hn. by destruct l2.
Qed.

Lemma dll_nil h : dll h None None [].
Proof. split_and!; [constructor|done..]. Qed.

Lemma dll_inv_nil h hd tl : dll h hd tl [] -> hd = None /\ tl = None.
Proof. by intros (_ & _ & -> & ->). Qed.

Lemma dll_valid h hd tl l a : dll h hd tl l -> a ∈ l -> (a < length h)%nat.
Proof. intros (_ & Hseg & _) ?. eapply dseg_valid; eauto. Qed.

(** Null ends mean: no node. *)
Lemma dll_head_None h hd tl l : dll h hd tl l -> hd = None <-> l = [].
Proof. intros (_ & _ & -> & _). by destruct l. Qed.

Lemma dll_tail_None h hd tl l : dll h hd tl l -> tl = None <-> l = [].
Proof.
  intros (_ & _ & _ & ->). split; [|by intros ->].
  intros Hl. destruct l as [|a l]; [done|].
  rewrite last_cons in Hl. by destruct (last l).
Qed.

(** Unlinking the node [a]: its neighbours are tied to each other. *)
Lemma dll_unlink h h' hd tl l1 a l2 :
  dll h hd tl (l1 ++ a :: l2) ->
  length h' = length h ->
  (forall c, c ∈ l1 ++ l2 ->
     rd_prev h' c = (if decide (head l2 = Some c) then last l1 else rd_prev h c)
     /\ rd_next h' c
        = (if decide (last l1 = Some c) then head l2 else rd_next h c)) ->
  dll h' (head (l1 ++ l2)) (last (l1 ++ l2)) (l1 ++ l2).
Proof.
  intros (Hnd & Hseg & _ & _) Hlen Hext.
  apply NoDup_app in Hnd as (Hnd1 & Hdisj & [Ha2 Hnd2]%NoDup_cons).
  assert (NoDup (l1 ++ l2)) as Hnd.
  { apply NoDup_app. split_and!; [done| |done].
    intros x Hx1 Hx2. apply (Hdisj x Hx1). by right. }
  split_and!; [done| |done..].
  apply dseg_app in Hseg as [Hseg1 Hseg2]. simpl in Hseg1, Hseg2.
  destruct Hseg2 as (_ & _ & _ & Hseg2).
  apply dseg_app. split.
  - (* the part before [a] *)
    destruct (decide (l1 = [])) as [->|Hne1]; [done|].
    destruct (exists_last Hne1) as (l1' & b & ->).
    apply dseg_snoc in Hseg1 as (Hs & Hb & Hbp & Hbn).
    apply dseg_snoc. rewrite last_snoc in Hext.
    assert (b ∈ (l1' ++ [b]) ++ l2) as Hbin by set_solver.
    destruct (Hext b Hbin) as [Hp' Hn'].
    rewrite decide_True in Hn' by done.
    assert (head l2 <> Some b) as Hhb.
    { intros Hh. apply (Hdisj b); [set_solver|].
      right. destruct l2; simplify_eq/=. left. }
    rewrite decide_False in Hp' by done.
    split_and!; [|lia|congruence|by destruct l2].
    eapply dseg_ext; [|done]. intros c Hc Hlt.
    destruct (Hext c) as [Hp Hn]; [set_solver|].
    apply NoDup_app in Hnd1 as (_ & Hd1 & _).
    rewrite decide_False in Hn.
    2:{ intros [= ->]. apply (Hd1 c Hc). left. }
    rewrite decide_False in Hp.
    2:{ intros Hh. apply (Hdisj c); [set_solver|].
        right. destruct l2; simplify_eq/=. left. }
    split_and!; [lia|done|done].
  - (* the part after [a] *)
    destruct l2 as [|b l2]; [done|]. simpl in *.
    destruct Hseg2 as (Hb & Hbp & Hbn & Hs).
    assert (b ∈ l1 ++ b :: l2) as Hbin by set_solver.
    destruct (Hext b Hbin) as [Hp' Hn'].
    rewrite decide_True in Hp' by done.
    assert (last l1 <> Some b) as Hlb.
    { intros Hl. apply (Hdisj b); [|set_solver].
      apply last_Some in Hl as [? ->]. set_solver. }
    rewrite decide_False in Hn' by done.
    apply NoDup_cons in Hnd2 as [Hb2 Hnd2].
    split_and!; [lia| |congruence|].
    + rewrite Hp'. unfold last_or. by destruct (last l1).
    + eapply dseg_ext; [|done]. intros c Hc Hlt.
      destruct (Hext c) as [Hp Hn]; [set_solver|].
      rewrite decide_False in Hp by (intros [= ->]; done).
      rewrite decide_False in Hn.
      2:{ intros Hl. apply (Hdisj c); [|set_solver].
          apply last_Some in Hl as [? ->]. set_solver. }
      split_and!; [lia|done|done].
Qed.

(** Linking the node [a] in front of the list. *)
Lemma dll_link_front h h' hd tl l a :
  dll h hd tl l ->
  a ∉ l ->
  (a < length h')%nat ->
  (length h <= length h')%nat ->
  rd_prev h' a = None ->
  rd_next h' a = head l ->
  (forall c, c ∈ l ->
     rd_prev h' c = (if decide (head l = Some c) then Some a else rd_prev h c)
     /\ rd_next h' c = rd_next h c) ->
  dll h' (Some a) (last (a :: l)) (a :: l).
Proof.
  intros (Hnd & Hseg & _ & _) Ha Hlt Hlen Hp Hn Hext.
  split_and!; [by apply NoDup_cons|..|done|done].
  simpl. split_and!; [done|done|by destruct l|].
  destruct l as [|b l]; [done|]. simpl in *.
  destruct Hseg as (Hb & Hbp & Hbn & Hs).
  apply NoDup_cons in Hnd as [Hbl Hnd].
  destruct (Hext b) as [Hp' Hn']; [left|].
  rewrite decide_True in Hp' by done.
  split_and!; [lia|done|congruence|].
  eapply dseg_ext; [|done]. intros c Hc Hc'.
  destruct (Hext c) as [Hpc Hnc]; [by right|].
  rewrite decide_False in Hpc by (intros [= ->]; done).
  split_and!; [lia|done|done].
Qed.

(** Walking [next] from the head enumerates the list. *)
Lemma dseg_walk h p l fuel :
  dseg h p l None -> (length l <= fuel)%nat -> walk fuel h (head l) = l.
Proof.
  revert p fuel. induction l as [|a l IH]; intros p fuel; simpl.
  - by destruct fuel.
  - intros (Ha & Hp & Hn & Hs) Hf. destruct fuel as [|fuel]; [lia|].
    simpl. f_equal. rewrite Hn.
    replace (first_or l None) with (head l) by (by destruct l).
    eapply IH; [done|lia].
Qed.

Lemma dll_length h hd tl l : dll h hd tl l -> (length l <= length h)%nat.
Proof.
  intros (Hnd & Hseg & _).
  assert (length l <= length (seq 0%nat (length h)))%nat as Hle.
  { apply submseteq_length, NoDup_submseteq; [done|].
    intros a Ha. apply elem_of_seq. split; [lia|].
    simpl. eapply dseg_valid; eauto. }
  by rewrite length_seq in Hle.
Qed.

Lemma dll_walk h hd tl l : dll h hd tl l -> walk (length h) h hd = l.
Proof.
  intros Hdll. pose proof (dll_length _ _ _ _ Hdll) as Hlen.
  destruct Hdll as (_ & Hseg & -> & _). eapply dseg_walk; eauto.
Qed.

End LinkedFacts.

Lemma filter_all {T} (P : T -> Prop) `{!forall x, Decision (P x)} (l : list T) :
  Forall P l -> filter P l = l.
Proof.
  induction 1 as [|x l Hx Hl IH]; [done|].
  rewrite filter_cons_True by done. by f_equal.
Qed.

Section ListFacts.
Context {A B : Type} `{EqDecision A}.

Lemma filter_key_split (L1 L2 : list (A * B)) k a :
  NoDup (L1 ++ (k, a) :: L2).*1 ->
  filter (fun x => x.1 <> k) (L1 ++ (k, a) :: L2) = L1 ++ L2.
Proof.
  rewrite fmap_app, fmap_cons. simpl.
  intros (Hnd1 & Hdisj & [Hk2 Hnd2]%NoDup_cons)%NoDup_app.
  rewrite filter_app, filter_cons_False by naive_solver.
  rewrite !filter_all; [done|..]; apply Forall_forall; intros [k' a'] Hin ?;
    simplify_eq/=.
  - apply Hk2. apply list_elem_of_fmap. by eexists (_, _).
  - apply (Hdisj k); [|left]. apply list_elem_of_fmap. by eexists (_, _).
Qed.

Lemma jm_delete_perm k (m L : list (A * B)) :
  NoDup m.*1 -> m ≡ₚ L -> jm_delete k m ≡ₚ filter (fun x => x.1 <> k) L.
Proof.
  intros Hnd Hperm. apply NoDup_Permutation.
  - eapply NoDup_fmap_1 with (f := fst). by apply jm_delete_NoDup.
  - apply NoDup_filter. rewrite <- Hperm. by eapply NoDup_fmap_1.
  - intros x. rewrite jm_delete_elem, list_elem_of_filter, Hperm; done.
Qed.

Lemma jm_set_perm k v (m L : list (A * B)) :
  NoDup m.*1 -> m ≡ₚ L -> k ∉ m.*1 -> jm_set k v m ≡ₚ (k, v) :: L.
Proof.
  intros Hnd Hperm Hk. apply NoDup_Permutation.
  - eapply NoDup_fmap_1 with (f := fst). by apply jm_set_NoDup.
  - apply NoDup_cons. split.
    + intros Hin. apply Hk. rewrite Hperm. apply list_elem_of_fmap.
      by eexists (_, _).
    + rewrite <- Hperm. by eapply NoDup_fmap_1.
  - intros x. rewrite jm_set_elem, elem_of_cons, <- Hperm by done.
    split; [intros [->|[_ ?]]; auto|].
    intros [->|Hx]; [auto|]. right. split; [|done].
    intros <-. apply Hk. apply list_elem_of_fmap. by exists x.
Qed.

End ListFacts.

Lemma rd_prev_alloc {Nd} `{!Linked Nd} (h : list Nd) n :
  rd_prev (h ++ [n]) (length h) = lprev n.
Proof. unfold rd_prev. by rewrite list_lookup_middle. Qed.

Lemma rd_next_alloc {Nd} `{!Linked Nd} (h : list Nd) n :
  rd_next (h ++ [n]) (length h) = lnext n.
Proof. unfold rd_next. by rewrite list_lookup_middle. Qed.

Ltac len_solve := rewrite ?length_alter, ?length_app; simpl; lia.

Ltac rd_simpl :=
  repeat first
    [ rewrite rd_prev_set_next
    | rewrite rd_next_set_prev
    | rewrite rd_prev_set_prev by len_solve
    | rewrite rd_next_set_next by len_solve
    | rewrite rd_prev_alloc
    | rewrite rd_next_alloc
    | rewrite rd_prev_app by len_solve
    | rewrite rd_next_app by len_solve ].

Section LinkedOps.
Context {Nd : Type} `{!Linked Nd}.
Implicit Types (h : list Nd) (a b : addr) (l : list addr) (p q : option addr).

Lemma dll_frame h hd tl l f a :
  a ∉ l -> dll h hd tl l -> dll (alter f a h) hd tl l.
Proof.
  intros Ha (Hnd & Hseg & Hhd & Htl). split_and!; try done.
  eapply dseg_ext; [|done]. intros c Hc Hlt.
  rewrite length_alter, rd_prev_alter, rd_next_alter.
  rewrite !decide_False by (intros ->; done). done.
Qed.

(** The two assignments that take [a] out of the list, as both
    implementations write them. *)
Lemma dll_unlink_alter h hd tl l1 a l2 :
  dll h hd tl (l1 ++ a :: l2) ->
  let h1 := match last l1 with
            | Some p => alter (lset_next (head l2)) p h
            | None => h
            end in
  let h2 := match head l2 with
            | Some q => alter (lset_prev (last l1)) q h1
            | None => h1
            end in
  dll h2 (match last l1 with Some _ => hd | None => head l2 end)
         (match head l2 with Some _ => tl | None => last l1 end)
         (l1 ++ l2).
Proof.
  intros Hdll h1 h2.
  pose proof Hdll as (Hnd & _ & Hhd & Htl).
  apply NoDup_app in Hnd as (Hnd1 & Hdisj & [Ha2 Hnd2]%NoDup_cons).
  assert (forall b, b ∈ l1 ++ l2 -> (b < length h)%nat) as Hlt.
  { intros b Hb. eapply dll_valid; [exact Hdll|set_solver]. }
  assert ((match last l1 with Some _ => hd | None => head l2 end)
          = head (l1 ++ l2)) as ->.
  { rewrite Hhd, !head_app. destruct l1 as [|x l1]; [done|].
    rewrite last_cons. by destruct (last l1). }
  assert ((match head l2 with Some _ => tl | None => last l1 end)
          = last (l1 ++ l2)) as ->.
  { rewrite Htl, !last_app. destruct l2 as [|x l2]; [done|].
    simpl. rewrite !last_cons. by destruct (last l2). }
  eapply dll_unlink; [exact Hdll| |].
  - subst h1 h2. repeat case_match; by rewrite ?length_alter.
  - intros c Hc. pose proof (Hlt c Hc) as Hc'. subst h1 h2.
    destruct (last l1) as [p|] eqn:Hl1, (head l2) as [q|] eqn:Hl2; rd_simpl;
      repeat case_decide; simplify_eq; try done.
Qed.

End LinkedOps.

(** ** Implementation 1: the recency list *)

Section V1Facts.
Context `{JsNum} {V : Type}.
Implicit Types (c : V1.SmartCache (V:=V)) (k : SerializableKey) (L : list (SerializableKey * addr)).

Lemma v1_key_alter (f : V1.LRUNode -> V1.LRUNode) b (h : list V1.LRUNode) a :
  (forall n, V1.key (f n) = V1.key n) ->
  V1.key <$> alter f b h !! a = V1.key <$> h !! a.
Proof.
  intros Hf. rewrite list_lookup_alter. case_decide; subst; [|done].
  destruct (h !! a); simpl; [|done]. by rewrite Hf.
Qed.

Ltac v1_cbn :=
  cbn [V1.with_cache V1.with_lruMap V1.with_nodes V1.with_head V1.with_tail
       V1.cache V1.lruMap V1.nodes V1.head V1.tail V1.options V1.storageKey
       fst snd] in *.

Ltac v1_fold :=
  change (V1.set_prev ?x) with (lset_prev (Nd:=V1.LRUNode) x) in *;
  change (V1.set_next ?x) with (lset_next (Nd:=V1.LRUNode) x) in *.

Lemma v1_addToLRU_rep k c L :
  v1_lru_rep c L -> k ∉ L.*1 ->
  v1_lru_rep (V1.addToLRU k c) ((k, length (V1.nodes c)) :: L).
Proof.
  intros (Hdll & Hnd & Hperm & Hkeys) Hk.
  assert (forall b, b ∈ L.*2 -> (b < length (V1.nodes c))%nat) as Hlt.
  { intros b Hb. eapply dll_valid; eauto. }
  assert (length (V1.nodes c) ∉ L.*2) as Ha.
  { intros Hin%Hlt. lia. }
  pose proof Hdll as (_ & _ & Hhead & Htail).
  assert (NoDup (V1.lruMap c).*1) as HndM by (by rewrite Hperm).
  assert (jm_has k (V1.lruMap c) = false) as HkM.
  { apply jm_has_false. by rewrite Hperm. }
  unfold v1_lru_rep, V1.addToLRU, alloc. v1_cbn.
  assert (V1.lruMap (V1.with_lruMap (jm_set k (length (V1.nodes c)) (V1.lruMap c)) c)
          ≡ₚ (k, length (V1.nodes c)) :: L) as HpermM.
  { v1_cbn. apply NoDup_Permutation.
    - eapply NoDup_fmap_1 with (f := fst). by apply jm_set_NoDup.
    - apply NoDup_cons. split.
      + intros Hin. apply Hk. apply list_elem_of_fmap. by eexists (_, _).
      + eapply NoDup_fmap_1 with (f := fst). done.
    - intros x. rewrite jm_set_elem, elem_of_cons, <- Hperm by done.
      split; [intros [->|[_ ?]]; auto|].
      intros [->|Hx]; [auto|]. right. split; [|done].
      intros <-. apply jm_has_false in HkM. apply HkM.
      apply list_elem_of_fmap. by exists x. }
  assert (forall k' a', (k', a') ∈ (k, length (V1.nodes c)) :: L ->
            forall f g, (forall n, V1.key (f n) = V1.key n) ->
                        (forall n, V1.key (g n) = V1.key n) ->
            forall b1 b2,
            V1.key <$>
              alter f b1 (alter g b2
                (V1.nodes c ++ [{| V1.key := k; V1.prev := None; V1.next := None |}]))
              !! a' = Some k') as HkeysM.
  { intros k' a' Hin f g Hf Hg b1 b2. rewrite !v1_key_alter by done.
    apply elem_of_cons in Hin as [[= -> ->]|Hin].
    - by rewrite list_lookup_middle.
    - rewrite lookup_app_l; [by apply Hkeys|].
      apply Hlt. apply list_elem_of_fmap. by eexists (_, _). }
  destruct (V1.head c) as [hd|] eqn:Hhd; v1_cbn.
  - assert (V1.tail c = last (length (V1.nodes c) :: L.*2)) as Htl'.
    { rewrite last_cons, Htail. destruct (last L.*2) eqn:El; [done|].
      apply last_None in El. rewrite El in Hhead. done. }
    assert (hd ∈ L.*2) as Hhdin.
    { destruct (L.*2); simplify_eq/=. left. }
    apply Hlt in Hhdin as Hhdlt.
    split_and!; [|by apply NoDup_cons|done|].
    + rewrite Htl'. csimpl.
      eapply dll_link_front; [exact Hdll|done|..]; try len_solve.
      * v1_fold. rd_simpl. rewrite decide_False by lia. by rd_simpl.
      * v1_fold. rd_simpl. by rewrite decide_True.
      * intros b Hb. apply Hlt in Hb as Hblt. v1_fold. rd_simpl.
        rewrite (decide_False (P := length _ = b)) by lia. rd_simpl.
        split; [|done]. rewrite <- Hhead. repeat case_decide; naive_solver.
    + intros k' a' Hin. apply HkeysM; done.
  - assert (L = []) as ->.
    { destruct L; [done|]. by simplify_eq/=. }
    split_and!; [|by apply NoDup_cons|done|].
    + csimpl. pose proof (dll_link_front (V1.nodes c)
        (V1.nodes c ++ [{| V1.key := k; V1.prev := None; V1.next := None |}])
        None None [] (length (V1.nodes c))) as Hl.
      apply Hl; try done; try len_solve.
      * apply dll_nil.
      * by rd_simpl.
      * by rd_simpl.
      * by intros b ?%elem_of_nil.
    + intros k' a' Hin.
      specialize (HkeysM k' a' Hin id id (fun _ => eq_refl) (fun _ => eq_refl) 0%nat 0%nat).
      revert HkeysM. rewrite !list_lookup_alter. 
      repeat case_decide; subst; destruct (_ !! _); simpl; done.
Qed.

Lemma v1_rep_lookup c L k a :
  v1_lru_rep c L -> jm_get k (V1.lruMap c) = Some a ->
  exists L1 L2, L = L1 ++ (k, a) :: L2.
Proof.
  intros (_ & _ & Hperm & _) Hget.
  apply jm_get_Some_elem in Hget. rewrite Hperm in Hget.
  by apply list_elem_of_split.
Qed.

Lemma v1_rep_absent c L k :
  v1_lru_rep c L -> jm_get k (V1.lruMap c) = None -> k ∉ L.*1.
Proof.
  intros (_ & _ & Hperm & _) Hget%jm_get_None. by rewrite <- Hperm.
Qed.

Lemma v1_removeFromLRU_rep k c L :
  v1_lru_rep c L ->
  v1_lru_rep (V1.removeFromLRU k c) (filter (fun x => x.1 <> k) L).
Proof.
  intros Hrep. unfold V1.removeFromLRU.
  destruct (jm_get k (V1.lruMap c)) as [a|] eqn:Hget.
  2:{ rewrite filter_all; [done|]. apply Forall_forall.
      intros [k' a'] Hin ?; simplify_eq/=.
      eapply v1_rep_absent; eauto. apply list_elem_of_fmap. by eexists (_, _). }
  destruct (v1_rep_lookup _ _ _ _ Hrep Hget) as (L1 & L2 & ->).
  destruct Hrep as (Hdll & Hnd & Hperm & Hkeys).
  rewrite filter_key_split by done.
  assert (NoDup (V1.lruMap c).*1) as HndM by (by rewrite Hperm).
  rewrite fmap_app, fmap_cons in Hdll. simpl in Hdll.
  pose proof (dll_links _ _ _ _ _ _ Hdll) as (Ha & Hp & Hn).
  pose proof Hdll as (Hnd2 & _ & Hhead & Htail).
  apply NoDup_app in Hnd2 as (Hnd21 & Hdisj & [Ha2 Hnd22]%NoDup_cons).
  assert (forall b, b ∈ L1.*2 ++ L2.*2 -> (b < length (V1.nodes c))%nat /\ b <> a)
    as Hlt.
  { intros b Hb. split; [eapply dll_valid; [exact Hdll|set_solver]|].
    intros ->. apply elem_of_app in Hb as [Hb|Hb]; [|done].
    apply (Hdisj a Hb). left. }
  assert (jm_delete k (V1.lruMap c) ≡ₚ L1 ++ L2) as HpermM.
  { rewrite <- (filter_key_split L1 L2 k a) by done. by apply jm_delete_perm. }
  assert (forall k' a', (k', a') ∈ L1 ++ L2 ->
            forall f g, (forall n, V1.key (f n) = V1.key n) ->
                        (forall n, V1.key (g n) = V1.key n) ->
            forall b1 b2,
            V1.key <$> alter f b1 (alter g b2 (V1.nodes c)) !! a' = Some k')
    as HkeysM.
  { intros k' a' Hin f g Hf Hg b1 b2. rewrite !v1_key_alter by done.
    apply Hkeys. set_solver. }
  assert (NoDup (L1 ++ L2).*1) as HndM'.
  { revert Hnd. rewrite !fmap_app, fmap_cons, !NoDup_app, NoDup_cons. set_solver. }
  pose proof (dll_unlink_alter _ _ _ _ _ _ Hdll) as Hu. simpl in Hu.
  unfold v1_lru_rep. rewrite fmap_app. v1_fold.
  rewrite Hp, Hn.
  destruct (last L1.*2) as [p|] eqn:Hlast; v1_cbn; rd_simpl; rewrite ?Hp, ?Hn;
    repeat case_decide; destruct (head L2.*2) as [q|] eqn:Hfirst; v1_cbn;
    (split_and!; [exact Hu|done|done|]).
  all: intros k' a' Hin.
  all: rewrite ?v1_key_alter by (by intros []); apply Hkeys; set_solver.
Qed.

Lemma v1_removeFromLRU_frame k c :
  V1.cache (V1.removeFromLRU k c) = V1.cache c
  /\ V1.options (V1.removeFromLRU k c) = V1.options c
  /\ V1.storageKey (V1.removeFromLRU k c) = V1.storageKey c.
Proof.
  unfold V1.removeFromLRU. repeat case_match; done.
Qed.

Lemma v1_addToLRU_frame k c :
  V1.cache (V1.addToLRU k c) = V1.cache c
  /\ V1.options (V1.addToLRU k c) = V1.options c
  /\ V1.storageKey (V1.addToLRU k c) = V1.storageKey c.
Proof.
  unfold V1.addToLRU, alloc. v1_cbn. repeat case_match; done.
Qed.

Lemma v1_moveToFront_frame k c :
  V1.cache (V1.moveToFront k c) = V1.cache c
  /\ V1.options (V1.moveToFront k c) = V1.options c
  /\ V1.storageKey (V1.moveToFront k c) = V1.storageKey c
  /\ V1.lruMap (V1.moveToFront k c) = V1.lruMap c.
Proof.
  unfold V1.moveToFront. repeat case_match; done.
Qed.

Lemma v1_moveToFront_rep k c L a :
  v1_lru_rep c L -> jm_get k (V1.lruMap c) = Some a ->
  v1_lru_rep (V1.moveToFront k c) ((k, a) :: filter (fun x => x.1 <> k) L).
Proof.
  intros Hrep Hget. unfold V1.moveToFront. rewrite Hget.
  destruct (v1_rep_lookup _ _ _ _ Hrep Hget) as (L1 & L2 & ->).
  destruct Hrep as (Hdll & Hnd & Hperm & Hkeys).
  rewrite filter_key_split by done.
  rewrite fmap_app, fmap_cons in Hdll. simpl in Hdll.
  pose proof (dll_links _ _ _ _ _ _ Hdll) as (Ha & Hp & Hn).
  pose proof Hdll as (Hnd2 & _ & Hhead & Htail).
  apply NoDup_app in Hnd2 as (Hnd21 & Hdisj & [Ha2 Hnd22]%NoDup_cons).
  assert (forall b, b ∈ L1.*2 ++ L2.*2 -> (b < length (V1.nodes c))%nat /\ b <> a)
    as Hlt.
  { intros b Hb. split; [eapply dll_valid; [exact Hdll|set_solver]|].
    intros ->. apply elem_of_app in Hb as [Hb|Hb]; [|done].
    apply (Hdisj a Hb). left. }
  case_decide as Hhd.
  { (* already the head *)
    rewrite Hhead in Hhd. destruct L1 as [|[k1 a1] L1]; simplify_eq/=.
    - split_and!; done.
    - exfalso. apply (Hdisj a); [left|left]. }
  destruct (last L1.*2) as [p|] eqn:Hlast.
  2:{ apply last_None, fmap_nil_inv in Hlast as ->. exfalso. by apply Hhd. }
  destruct (V1.head c) as [hd|] eqn:Hhdc.
  2:{ destruct L1; simplify_eq/=. }
  assert (hd ∈ L1.*2) as Hhdin.
  { apply last_Some in Hlast as [l' Hl']. rewrite Hl', <- app_assoc in Hhead.
    rewrite Hl'. destruct l'; simplify_eq/=; set_solver. }
  assert (p ∈ L1.*2) as Hpin.
  { apply last_Some in Hlast as [l' ->]. set_solver. }
  assert (p <> a) as Hpa by (apply Hlt; set_solver).
  assert (hd <> a) as Hhda by (apply Hlt; set_solver).
  pose proof (dll_unlink_alter _ _ _ _ _ _ Hdll) as Hu. simpl in Hu.
  rewrite Hlast in Hu.
  destruct (head L2.*2) as [q|] eqn:Hfirst.
  all: repeat (progress (v1_fold; rd_simpl; rewrite ?Hp, ?Hn, ?Hhdc,
                  ?(decide_False (P := p = a)) by done; v1_cbn)).
  all: unfold v1_lru_rep; v1_cbn.
  all: assert (NoDup ((k, a) :: L1 ++ L2).*1) as HndM'
    by (revert Hnd; rewrite !fmap_cons, !fmap_app, fmap_cons, !NoDup_app,
          !NoDup_cons, !NoDup_app; set_solver).
  all: assert (V1.lruMap c ≡ₚ (k, a) :: L1 ++ L2) as HpermM
    by (by rewrite Hperm, Permutation_middle).
  all: (split_and!; [|done|done|]).
  all: try (intros k' a' Hin; rewrite ?v1_key_alter by (by intros []);
            apply Hkeys; set_solver).
  all: rewrite fmap_cons; cbn [snd].
  all: pose proof Hu as (_ & _ & Hhu & Htu).
  all: assert (last (a :: (L1 ++ L2).*2) = last (L1 ++ L2).*2) as Hlast'
    by (rewrite fmap_app, last_cons;
        destruct (last (L1.*2 ++ L2.*2)) eqn:El; [done|];
        apply last_None in El; by rewrite El in Hhu).
  all: rewrite fmap_app in *.
  all: try rewrite Htu.
  all: rewrite <- Hlast'.
  all: eapply dll_link_front; [exact Hu|set_solver|len_solve|len_solve|..].
  all: try (rd_simpl; rewrite ?decide_False by done; rd_simpl;
            by rewrite ?decide_True by done).
  all: intros b Hb; destruct (Hlt b Hb) as [Hb1 Hb2]; rd_simpl;
    rewrite <- Hhu; repeat case_decide; simplify_eq; done.
Qed.
End V1Facts.

(** ** Implementation 1: the operations *)


Lemma fmap_filter_fst {A B} (P : A -> Prop)
    {D1 : forall x : A * B, Decision (P x.1)} {D2 : forall x, Decision (P x)}
    (L : list (A * B)) :
  (filter (fun x => P x.1) L).*1 = filter P L.*1.
Proof.
  induction L as [|[k a] L IH]; [done|].
  rewrite fmap_cons, !filter_cons. simpl.
  destruct (D1 (k, a)), (D2 k); csimpl; try done. by rewrite IH.
Qed.

Lemma filter_iff_in {A} (P Q : A -> Prop) `{!forall x, Decision (P x)}
    `{!forall x, Decision (Q x)} (l : list A) :
  (forall x, x ∈ l -> P x <-> Q x) -> filter P l = filter Q l.
Proof.
  induction l as [|x l IH]; intros Hiff; [done|].
  rewrite !filter_cons. rewrite IH by (intros y Hy; apply Hiff; by right).
  pose proof (Hiff x (list_elem_of_here _ _)).
  repeat case_decide; naive_solver.
Qed.

Section JsMapFilter.
Context {K V : Type} `{EqDecision K}.
Implicit Types (k : K) (m : list (K * V)).

Lemma jm_delete_filter k m :
  NoDup m.*1 -> jm_delete k m = filter (fun kv => kv.1 <> k) m.
Proof.
  induction m as [|[k' v'] m IH]; [done|].
  rewrite fmap_cons. intros [Hk Hnd]%NoDup_cons. cbn [jm_delete].
  rewrite filter_cons. simpl. repeat case_decide; simplify_eq/=; try done.
  - symmetry. apply filter_all, Forall_forall. intros [k0 v0] Hin ?.
    simplify_eq/=. apply Hk. apply list_elem_of_fmap. by eexists (_, _).
  - f_equal. auto.
Qed.

Lemma jm_fold_delete_filter (ks0 : list K) m :
  NoDup m.*1 ->
  fold_left (fun m k => jm_delete k m) ks0 m = filter (fun kv => kv.1 ∉ ks0) m.
Proof.
  revert m. induction ks0 as [|k ks0 IH]; intros m Hnd; simpl.
  - symmetry. apply filter_all, Forall_forall. intros x _. apply not_elem_of_nil.
  - rewrite IH by (by apply jm_delete_NoDup).
    rewrite jm_delete_filter, list_filter_filter by done.
    apply list_filter_iff. intros x. simpl. rewrite not_elem_of_cons. tauto.
Qed.

End JsMapFilter.

Section V1Ops.
Context `{JsNum} {V : Type}.
Implicit Types (c : V1.SmartCache (V:=V)) (k : SerializableKey)
  (L : list (SerializableKey * addr)) (ks : list SerializableKey)
  (w : V1.World (V:=V)) (s : V1.World (V:=V) * V1.SmartCache (V:=V))
  (d : list (string * option (V1.CacheEntry (V:=V)))).

Lemma v1_lru_rep_ext c c' L :
  V1.nodes c' = V1.nodes c -> V1.head c' = V1.head c -> V1.tail c' = V1.tail c ->
  V1.lruMap c' = V1.lruMap c ->
  v1_lru_rep c L -> v1_lru_rep c' L.
Proof. unfold v1_lru_rep. by intros -> -> -> ->. Qed.

Lemma v1_abs_lru_keys c ks : v1_abs c ks -> v1_lru_keys c = ks.
Proof.
  intros (L & (Hdll & _ & _ & Hkeys) & <- & _).
  unfold v1_lru_keys, v1_order. rewrite (dll_walk _ _ _ _ Hdll).
  clear Hdll. induction L as [|[k a] L IH]; [done|].
  csimpl. rewrite (Hkeys k a) by left. simpl. f_equal.
  apply IH. intros k' a' Hin. apply Hkeys. by right.
Qed.

Lemma v1_abs_NoDup c ks : v1_abs c ks -> NoDup ks.
Proof. by intros (L & (_ & Hnd & _) & <- & _). Qed.

Lemma v1_abs_length c ks : v1_abs c ks -> length (V1.cache c) = length ks.
Proof.
  intros Habs. pose proof (v1_abs_NoDup _ _ Habs) as Hnd.
  destruct Habs as (L & _ & <- & HndC & Hiff).
  rewrite <- (length_fmap fst (V1.cache c)).
  apply Permutation_length, NoDup_Permutation; done.
Qed.

Lemma v1_abs_head c ks : v1_abs c ks -> V1.head c = None <-> ks = [].
Proof.
  intros (L & (Hdll & _) & <- & _). rewrite (dll_head_None _ _ _ _ Hdll).
  destruct L; naive_solver.
Qed.

Lemma v1_abs_tail c ks : v1_abs c ks -> V1.tail c = None <-> ks = [].
Proof.
  intros (L & (Hdll & _) & <- & _). rewrite (dll_tail_None _ _ _ _ Hdll).
  destruct L; naive_solver.
Qed.

(** [this.tail.key] is the last key of the recency order. *)
Lemma v1_abs_tail_key c ks :
  v1_abs c ks ->
  (a ← V1.tail c; V1.key <$> V1.nodes c !! a) = last ks.
Proof.
  intros (L & (Hdll & _ & _ & Hkeys) & <- & _).
  destruct Hdll as (_ & _ & _ & ->).
  rewrite !fmap_last. destruct (last L) as [[k a]|] eqn:El; [|done].
  simpl. apply Hkeys. apply last_Some in El as [? ->]. set_solver.
Qed.

Lemma v1_delete_cache k now w c :
  V1.cache (V1.delete k now (w, c)).2 = jm_delete k (V1.cache c).
Proof.
  unfold V1.delete. destruct (jm_has k (V1.cache c)) eqn:E; simpl.
  - by rewrite (proj1 (v1_removeFromLRU_frame _ _)).
  - symmetry. by apply jm_delete_absent, jm_has_false.
Qed.

Lemma v1_delete_options k now w c :
  V1.options (V1.delete k now (w, c)).2 = V1.options c
  /\ V1.storageKey (V1.delete k now (w, c)).2 = V1.storageKey c.
Proof.
  unfold V1.delete. destruct (jm_has k (V1.cache c)) eqn:E; simpl; [|done].
  by rewrite (proj1 (proj2 (v1_removeFromLRU_frame _ _))),
             (proj2 (proj2 (v1_removeFromLRU_frame _ _))).
Qed.

Lemma v1_delete_abs k now w c ks :
  v1_abs c ks -> v1_abs (V1.delete k now (w, c)).2 (filter (fun x => x <> k) ks).
Proof.
  intros (L & Hrep & <- & Hnd & Hiff).
  exists (filter (fun x => x.1 <> k) L). rewrite v1_delete_cache.
  split_and!.
  - unfold V1.delete. destruct (jm_has k (V1.cache c)) eqn:E; simpl.
    + apply v1_removeFromLRU_rep. eapply v1_lru_rep_ext; [..|exact Hrep]; done.
    + apply jm_has_false in E. rewrite filter_all; [done|].
      apply Forall_forall. intros [k' a'] Hin ?; simplify_eq/=.
      apply E, Hiff. apply list_elem_of_fmap. by eexists (_, _).
  - apply (fmap_filter_fst (fun x => x <> k)).
  - by apply jm_delete_NoDup.
  - intros x. rewrite jm_delete_key_elem, list_elem_of_filter, Hiff; done.
Qed.

Lemma v1_fold_delete_cache now (ks0 : list SerializableKey) s :
  V1.cache (fold_left (fun s k => V1.delete k now s) ks0 s).2
  = fold_left (fun m k => jm_delete k m) ks0 (V1.cache s.2).
Proof.
  revert s. induction ks0 as [|k ks0 IH]; intros [w c]; [done|].
  cbn [fold_left]. rewrite IH. f_equal. apply v1_delete_cache.
Qed.

Lemma v1_fold_delete_options now (ks0 : list SerializableKey) s :
  V1.options (fold_left (fun s k => V1.delete k now s) ks0 s).2
  = V1.options s.2.
Proof.
  revert s. induction ks0 as [|k ks0 IH]; intros [w c]; [done|].
  cbn [fold_left]. rewrite IH. apply v1_delete_options.
Qed.

Lemma v1_fold_delete_abs now (ks0 : list SerializableKey) s ks :
  v1_abs s.2 ks ->
  v1_abs (fold_left (fun s k => V1.delete k now s) ks0 s).2
         (filter (fun x => x ∉ ks0) ks).
Proof.
  revert s ks. induction ks0 as [|k ks0 IH]; intros [w c] ks Habs.
  - simpl. rewrite filter_all; [done|]. apply Forall_forall.
    intros x _. apply not_elem_of_nil.
  - cbn [fold_left]. apply (v1_delete_abs k now w) in Habs.
    apply (IH (V1.delete k now (w, c))) in Habs.
    rewrite list_filter_filter in Habs.
    erewrite list_filter_iff; [exact Habs|].
    intros x. simpl. rewrite not_elem_of_cons. tauto.
Qed.

Lemma v1_expired_keys_elem now c k :
  NoDup (V1.cache c).*1 ->
  k ∈ v1_expired_keys now c
  <-> exists e, jm_get k (V1.cache c) = Some e /\ V1.isExpired now e = true.
Proof.
  intros Hnd. unfold v1_expired_keys. rewrite list_elem_of_fmap. split.
  - intros ([k' e] & -> & [He Hin]%list_elem_of_filter). exists e.
    split; [by apply jm_get_elem|done].
  - intros (e & Hget%jm_get_Some_elem & He). exists (k, e).
    split; [done|]. by apply list_elem_of_filter.
Qed.

Lemma v1_cleanExpired_cache now w c :
  NoDup (V1.cache c).*1 ->
  V1.cache (V1.cleanExpired now (w, c)).2
  = filter (fun kv => V1.isExpired now kv.2 <> true) (V1.cache c).
Proof.
  intros Hnd. unfold V1.cleanExpired. rewrite v1_fold_delete_cache.
  cbn [snd]. rewrite jm_fold_delete_filter by done.
  apply filter_iff_in. intros [k e] Hin. simpl.
  fold (v1_expired_keys now c). rewrite v1_expired_keys_elem by done.
  rewrite (jm_get_elem k e) by done. split.
  - intros Hne He. apply Hne. eauto.
  - intros Hne (e' & [= <-] & He). done.
Qed.

Lemma v1_cleanExpired_abs now w c ks :
  v1_abs c ks ->
  v1_abs (V1.cleanExpired now (w, c)).2
         (filter (fun k => k ∉ v1_expired_keys now c) ks).
Proof. intros Habs. by apply (v1_fold_delete_abs now _ (w, c)). Qed.

Lemma v1_cleanExpired_options now w c :
  V1.options (V1.cleanExpired now (w, c)).2 = V1.options c.
Proof. apply v1_fold_delete_options. Qed.

Lemma v1_evictLRU_delete now w c :
  (V1.evictLRU now (w, c)).2
  = match v1_victim now c with
    | Some k => (V1.delete k now (w, c)).2
    | None => c
    end.
Proof.
  unfold V1.evictLRU, v1_victim. cbn [snd].
  destruct (V1.tail c) as [t|]; [|done].
  destruct (find _ _) as [[k e]|]; [done|].
  by destruct (V1.nodes c !! t).
Qed.

Lemma v1_evictLRU_abs now w c ks :
  v1_abs c ks ->
  v1_abs (V1.evictLRU now (w, c)).2
    match v1_victim now c with
    | Some k => filter (fun x => x <> k) ks
    | None => ks
    end.
Proof.
  intros Habs. rewrite v1_evictLRU_delete.
  destruct (v1_victim now c); [by apply v1_delete_abs|done].
Qed.

(** In a well-formed non-empty cache there is a victim, and it is a key of
    the store. *)
Lemma v1_victim_spec now c ks :
  v1_abs c ks ->
  match v1_victim now c with
  | Some k =>
      k ∈ (V1.cache c).*1
      /\ ((exists e, jm_get k (V1.cache c) = Some e /\ V1.isExpired now e = true)
          \/ (Forall (fun kv => V1.isExpired now kv.2 = false) (V1.cache c)
              /\ last ks = Some k))
  | None => ks = []
  end.
Proof.
  intros Habs. unfold v1_victim.
  pose proof (v1_abs_tail_key _ _ Habs) as Htk.
  pose proof (v1_abs_tail _ _ Habs) as Ht.
  destruct Habs as (L & Hrep & <- & Hnd & Hiff).
  destruct (V1.tail c) as [t|]; [|by apply Ht].
  destruct (find _ _) as [[k e]|] eqn:Hfind.
  - apply find_some in Hfind as [Hin%list_elem_of_In He]. simpl in He.
    split; [apply list_elem_of_fmap; by eexists (_, _)|].
    left. exists e. split; [by apply jm_get_elem|done].
  - simpl in Htk. rewrite Htk.
    destruct (last L.*1) as [k|] eqn:El.
    + split; [apply Hiff; apply last_Some in El as [? ->]; set_solver|].
      right. split; [|done]. apply Forall_forall. intros kv Hin.
      apply list_elem_of_In in Hin.
      apply (find_none _ _ Hfind) in Hin. by destruct (V1.isExpired now kv.2).
    + apply last_None in El. destruct Ht as [_ Ht]. by specialize (Ht El).
Qed.

Lemma v1_evictLRU_options now w c :
  V1.options (V1.evictLRU now (w, c)).2 = V1.options c.
Proof.
  rewrite v1_evictLRU_delete. destruct (v1_victim now c); [|done].
  apply v1_delete_options.
Qed.

Lemma v1_set_pre_options k now w c :
  V1.options (v1_set_pre k now w c) = V1.options c.
Proof.
  unfold v1_set_pre. repeat case_match; try done.
  - apply v1_removeFromLRU_frame.
  - apply v1_evictLRU_options.
Qed.

Lemma v1_set_eq k v ttlMs now w c :
  (V1.set k v ttlMs now (w, c)).2
  = V1.addToLRU k
      (V1.with_cache
         (jm_set k (v1_entry v ttlMs now (V1.options c))
            (V1.cache (v1_set_pre k now w c)))
         (v1_set_pre k now w c)).
Proof.
  unfold V1.set, v1_set_pre.
  destruct (jm_has k (V1.cache c)) eqn:Hhas.
  - pose proof (v1_removeFromLRU_frame k c) as (Hc & Ho & _).
    cbv beta iota zeta. rewrite !Hc, !Ho, Hhas, andb_false_r.
    cbv beta iota zeta. cbn [snd]. by rewrite ?Hc, ?Ho.
  - cbv beta iota zeta. rewrite Hhas, andb_true_r.
    case_bool_decide; cbv beta iota zeta; [|done].
    pose proof (v1_evictLRU_options now w c) as Ho.
    destruct (V1.evictLRU now (w, c)) as [w1 c1] eqn:E. cbn [snd] in *.
    by rewrite Ho.
Qed.

Lemma v1_set_cache k v ttlMs now w c :
  V1.cache (V1.set k v ttlMs now (w, c)).2
  = jm_set k (v1_entry v ttlMs now (V1.options c))
      (V1.cache (v1_set_pre k now w c)).
Proof. rewrite v1_set_eq. by rewrite (proj1 (v1_addToLRU_frame _ _)). Qed.

Lemma v1_set_options k v ttlMs now w c :
  V1.options (V1.set k v ttlMs now (w, c)).2 = V1.options c.
Proof.
  rewrite v1_set_eq. rewrite (proj1 (proj2 (v1_addToLRU_frame _ _))).
  apply v1_set_pre_options.
Qed.

Lemma v1_set_abs k v ttlMs now w c ks :
  v1_abs c ks ->
  v1_abs (V1.set k v ttlMs now (w, c)).2
    (k :: if jm_has k (V1.cache c) then filter (fun x => x <> k) ks
          else if bool_decide (jm_size (V1.cache c) >= V1.maxSize (V1.options c))
               then match v1_victim now c with
                    | Some j => filter (fun x => x <> j) ks
                    | None => ks
                    end
               else ks).
Proof.
  intros Habs. rewrite v1_set_eq.
  set (e := v1_entry v ttlMs now (V1.options c)).
  (* the list part of the intermediate state, and its store *)
  assert (exists L,
    v1_lru_rep (v1_set_pre k now w c) L /\ (k ∉ L.*1)
    /\ NoDup (V1.cache (v1_set_pre k now w c)).*1
    /\ (forall x, (x ∈ (V1.cache (v1_set_pre k now w c)).*1 /\ x <> k)
                  <-> x ∈ L.*1)
    /\ L.*1 = (if jm_has k (V1.cache c) then filter (fun x => x <> k) ks
          else if bool_decide (jm_size (V1.cache c) >= V1.maxSize (V1.options c))
               then match v1_victim now c with
                    | Some j => filter (fun x => x <> j) ks
                    | None => ks
                    end
               else ks)) as (L & Hrep & HkL & Hnd & Hiff & HL).
  { unfold v1_set_pre. destruct (jm_has k (V1.cache c)) eqn:Hhas.
    - destruct Habs as (L & Hrep & <- & Hnd & Hiff).
      exists (filter (fun x => x.1 <> k) L).
      rewrite (proj1 (v1_removeFromLRU_frame k c)).
      rewrite (fmap_filter_fst (fun x => x <> k)).
      split_and!; [by apply v1_removeFromLRU_rep| |done| |done].
      + intros [? _]%list_elem_of_filter. done.
      + intros x. rewrite list_elem_of_filter, Hiff. tauto.
    - apply jm_has_false in Hhas.
      assert (forall c' ks', v1_abs c' ks' -> k ∉ ks' ->
        exists L, v1_lru_rep c' L /\ (k ∉ L.*1) /\ NoDup (V1.cache c').*1
          /\ (forall x, (x ∈ (V1.cache c').*1 /\ x <> k) <-> x ∈ L.*1) /\ L.*1 = ks')
        as Hgen.
      { intros c' ks' (L & Hrep & <- & Hnd & Hiff) Hk. exists L.
        split_and!; try done. intros x. rewrite Hiff.
        split; [tauto|]. intros Hx. split; [done|]. by intros ->. }
      assert (k ∉ ks) as Hkks.
      { destruct Habs as (L & _ & <- & _ & Hiff). by rewrite <- Hiff. }
      case_bool_decide.
      + apply Hgen; [by apply v1_evictLRU_abs|].
        destruct (v1_victim now c); [|done].
        intros [_ ?]%list_elem_of_filter. done.
      + by apply Hgen. }
  rewrite <- HL. clear HL.
  exists ((k, length (V1.nodes (v1_set_pre k now w c))) :: L).
  split_and!.
  - apply (v1_addToLRU_rep k
             (V1.with_cache (jm_set k e (V1.cache (v1_set_pre k now w c)))
                (v1_set_pre k now w c)) L); [|done].
    eapply v1_lru_rep_ext; [..|exact Hrep]; done.
  - done.
  - rewrite (proj1 (v1_addToLRU_frame _ _)). by apply jm_set_NoDup.
  - intros x. rewrite (proj1 (v1_addToLRU_frame _ _)). cbn [V1.with_cache V1.cache].
    rewrite elem_of_cons, <- Hiff.
    rewrite jm_set_keys. destruct (jm_has k _) eqn:Hh.
    + apply jm_has_true in Hh. destruct (decide (x = k)); naive_solver.
    + rewrite elem_of_app, list_elem_of_singleton.
      destruct (decide (x = k)); naive_solver.
Qed.

Lemma v1_rep_get c L k :
  v1_lru_rep c L -> k ∈ L.*1 -> exists a, jm_get k (V1.lruMap c) = Some a.
Proof.
  intros (_ & Hnd & Hperm & _) ([k' a] & -> & Hin)%list_elem_of_fmap.
  exists a. apply jm_get_elem; [by rewrite Hperm|by rewrite Hperm].
Qed.

Lemma v1_get_absent k now s :
  jm_get k (V1.cache s.2) = None -> V1.get k now s = (None, s).
Proof. destruct s as [w c]. unfold V1.get. cbn [snd]. by intros ->. Qed.

Lemma v1_get_expired k now s e :
  jm_get k (V1.cache s.2) = Some e -> V1.isExpired now e = true ->
  V1.get k now s = (None, V1.delete k now s).
Proof.
  destruct s as [w c]. unfold V1.get. cbn [snd]. by intros -> ->.
Qed.

Lemma v1_get_live k now w c e :
  jm_get k (V1.cache c) = Some e -> V1.isExpired now e = false ->
  V1.get k now (w, c)
  = (Some (V1.value e),
     (w, V1.moveToFront k
           (V1.with_cache
              (jm_set k {| V1.value := V1.value e;
                           V1.expiresAt := V1.expiresAt e;
                           V1.lastUsed := now |} (V1.cache c)) c))).
Proof. unfold V1.get. by intros -> ->. Qed.

Lemma v1_get_abs k now w c ks :
  v1_abs c ks ->
  v1_abs (V1.get k now (w, c)).2.2
    match jm_get k (V1.cache c) with
    | None => ks
    | Some e => if V1.isExpired now e then filter (fun x => x <> k) ks
                else k :: filter (fun x => x <> k) ks
    end.
Proof.
  intros Habs. destruct (jm_get k (V1.cache c)) as [e|] eqn:Hget.
  2:{ by rewrite v1_get_absent. }
  destruct (V1.isExpired now e) eqn:He.
  { rewrite (v1_get_expired _ _ _ e) by done. by apply v1_delete_abs. }
  rewrite (v1_get_live _ _ _ _ e) by done. cbn [snd].
  destruct Habs as (L & Hrep & <- & Hnd & Hiff).
  assert (k ∈ L.*1) as HkL.
  { apply Hiff. apply list_elem_of_fmap. exists (k, e).
    split; [done|]. by apply jm_get_Some_elem. }
  destruct (v1_rep_get _ _ _ Hrep HkL) as [a Ha].
  exists ((k, a) :: filter (fun x => x.1 <> k) L).
  pose proof (v1_moveToFront_frame k
    (V1.with_cache
       (jm_set k {| V1.value := V1.value e; V1.expiresAt := V1.expiresAt e;
                    V1.lastUsed := now |} (V1.cache c)) c))
    as (Hc & _ & _ & _).
  rewrite Hc. cbn [V1.with_cache V1.cache].
  split_and!.
  - apply v1_moveToFront_rep; [|done].
    eapply v1_lru_rep_ext; [..|exact Hrep]; done.
  - rewrite fmap_cons. cbn [fst]. f_equal.
    apply (fmap_filter_fst (fun x => x <> k)).
  - by apply jm_set_NoDup.
  - intros x. rewrite jm_set_keys.
    assert (jm_has k (V1.cache c) = true) as ->.
    { apply jm_has_true, Hiff, HkL. }
    rewrite Hiff, elem_of_cons, list_elem_of_filter.
    destruct (decide (x = k)); naive_solver.
Qed.

Lemma v1_get_options k now w c :
  V1.options (V1.get k now (w, c)).2.2 = V1.options c.
Proof.
  unfold V1.get. destruct (jm_get k (V1.cache c)) as [e|]; [|done].
  destruct (V1.isExpired now e).
  - apply v1_delete_options.
  - cbn [snd]. by rewrite (proj1 (proj2 (v1_moveToFront_frame _ _))).
Qed.

Lemma v1_has_state k now s :
  (V1.has k now s).2
  = match jm_get k (V1.cache s.2) with
    | Some e => if V1.isExpired now e then V1.delete k now s else s
    | None => s
    end.
Proof. unfold V1.has. by repeat case_match. Qed.

Lemma v1_has_abs k now w c ks :
  v1_abs c ks ->
  v1_abs (V1.has k now (w, c)).2.2
    match jm_get k (V1.cache c) with
    | None => ks
    | Some e => if V1.isExpired now e then filter (fun x => x <> k) ks else ks
    end.
Proof.
  intros Habs. rewrite v1_has_state. cbn [snd].
  destruct (jm_get k (V1.cache c)) as [e|]; [|done].
  destruct (V1.isExpired now e); [by apply v1_delete_abs|done].
Qed.

Lemma v1_clear_abs now w c : v1_abs (V1.clear now (w, c)).2 [].
Proof.
  exists []. unfold V1.clear, v1_lru_rep. cbn.
  split_and!; try done; try apply NoDup_nil_2.
  - apply dll_nil.
  - by intros k a ?%elem_of_nil.
Qed.

Lemma v1_size_abs now w c ks :
  v1_abs c ks ->
  v1_abs (V1.size now (w, c)).2.2
         (filter (fun k => k ∉ v1_expired_keys now c) ks).
Proof. apply v1_cleanExpired_abs. Qed.

(** ** Restoring from the store *)

(** [String(parseKey(s))] is [s]: decoding loses nothing. *)
Lemma v1_parseKey_String (str : string) : String_key (V1.parseKey str) = str.
Proof.
  unfold V1.parseKey. case_decide as Hb.
  - destruct Hb as [-> | ->]; reflexivity.
  - destruct (negb (isNaN (Number str))
              && bool_decide (str = num_to_string (Number str))) eqn:E; [|done].
    apply andb_true_iff in E as [_ E%bool_decide_eq_true]. by symmetry.
Qed.

Lemma v1_parseKey_inj (str1 str2 : string) :
  V1.parseKey str1 = V1.parseKey str2 -> str1 = str2.
Proof.
  intros Heq. by rewrite <- (v1_parseKey_String str1), Heq, v1_parseKey_String.
Qed.

Lemma v1_restorable_keys now d :
  forall k, k ∈ (v1_restorable now d).*1 ->
    exists str : string, str ∈ d.*1 /\ k = V1.parseKey str.
Proof.
  induction d as [|[s [e|]] d IH]; intros k; simpl.
  - by intros ?%elem_of_nil.
  - destruct (V1.isExpired now e).
    + intros (s' & ? & ?)%IH. exists s'. split; [by right|done].
    + csimpl. intros [->|(s' & ? & ?)%IH]%elem_of_cons.
      * exists s. split; [left|done].
      * exists s'. split; [by right|done].
  - by intros ?%elem_of_nil.
Qed.

Lemma v1_restorable_NoDup now d : NoDup d.*1 -> NoDup (v1_restorable now d).*1.
Proof.
  induction d as [|[s [e|]] d IH]; simpl; [constructor| |constructor].
  csimpl. intros [Hs Hnd]%NoDup_cons. destruct (V1.isExpired now e); [auto|].
  csimpl. apply NoDup_cons. split; [|auto].
  intros (s' & Hs' & Heq%v1_parseKey_inj)%v1_restorable_keys. by subst.
Qed.

Lemma v1_restore_abs now d c ks :
  v1_abs c ks ->
  NoDup ((V1.cache c).*1 ++ (v1_restorable now d).*1) ->
  v1_abs (V1.restore now d c) (rev (v1_restorable now d).*1 ++ ks)
  /\ V1.cache (V1.restore now d c) = V1.cache c ++ v1_restorable now d
  /\ V1.options (V1.restore now d c) = V1.options c.
Proof.
  revert c ks. induction d as [|[s [e|]] d IH]; intros c ks Habs Hnd;
    cbn [V1.restore v1_restorable] in *.
  - by rewrite app_nil_r.
  - fold (V1.isExpired now e).
    destruct (V1.isExpired now e) eqn:He; [by apply IH|].
    rewrite fmap_cons in Hnd. cbn [fst] in Hnd.
    set (k := V1.parseKey s) in *.
    assert (k ∉ (V1.cache c).*1) as Hk.
    { apply NoDup_app in Hnd as (_ & Hd & _). intros Hin.
      apply (Hd _ Hin). left. }
    set (c1 := V1.addToLRU k (V1.with_cache (jm_set k e (V1.cache c)) c)).
    assert (V1.cache c1 = V1.cache c ++ [(k, e)]) as Hc1.
    { unfold c1. rewrite (proj1 (v1_addToLRU_frame _ _)).
      cbn [V1.with_cache V1.cache].
      clear -Hk. induction (V1.cache c) as [|[k0 e0] m IHm]; [done|].
      csimpl in Hk. apply not_elem_of_cons in Hk as [? ?].
      cbn [jm_set]. rewrite decide_False by done. simpl. f_equal. auto. }
    assert (v1_abs c1 (k :: ks)) as Habs1.
    { destruct Habs as (L & Hrep & <- & HndC & Hiff).
      exists ((k, length (V1.nodes c)) :: L). split_and!.
      - apply (v1_addToLRU_rep k (V1.with_cache (jm_set k e (V1.cache c)) c) L).
        + eapply v1_lru_rep_ext; [..|exact Hrep]; done.
        + by rewrite <- Hiff.
      - done.
      - rewrite Hc1, fmap_app. apply NoDup_app. split_and!; [done| |].
        + intros x Hx ->%list_elem_of_singleton. done.
        + apply NoDup_singleton.
      - intros x. rewrite Hc1, fmap_app, elem_of_app, elem_of_cons, <- Hiff.
        csimpl. rewrite list_elem_of_singleton. tauto. }
    destruct (IH c1 (k :: ks) Habs1) as (Ha & Hc & Ho).
    { rewrite Hc1, fmap_app, <- app_assoc. done. }
    split_and!.
    + csimpl. rewrite <- app_assoc. done.
    + rewrite Hc, Hc1, <- app_assoc. done.
    + rewrite Ho. unfold c1. by rewrite (proj1 (proj2 (v1_addToLRU_frame _ _))).
  - by rewrite app_nil_r.
Qed.

End V1Ops.

(** ** Implementation 2: the list and the operations *)

Lemma filter_all_ne_key {A B} `{EqDecision A} (L1 L2 : list (A * B)) k a :
  NoDup (L1 ++ (k, a) :: L2).*1 ->
  (filter (fun x => x <> k) (L1 ++ (k, a) :: L2).*1) = (L1 ++ L2).*1.
Proof.
  intros Hnd. rewrite <- (fmap_filter_fst (fun x => x <> k)).
  by rewrite filter_key_split.
Qed.

Ltac v2_fold :=
  change (@V2.set_prev ?H0 ?V0 ?x)
    with (@lset_prev (@V2.LRUNode H0 V0) _ x) in *;
  change (@V2.set_next ?H0 ?V0 ?x)
    with (@lset_next (@V2.LRUNode H0 V0) _ x) in *.

Ltac v2_cbn :=
  unfold V2.the_list in *;
  cbn [V2.with_map V2.with_list V2.with_nodes
       V2.map V2.lruList V2.nodes V2.maxSize V2.defaultTTL V2.persistKey
       V2.head V2.tail fst snd] in *.

Section V2List.
Context `{JsNum} {V : Type}.
Implicit Types (h : list (V2.LRUNode (V:=V))) (dl : V2.DoublyLinkedList)
  (a b : addr).

Lemma v2_payload_alter (f : V2.LRUNode -> V2.LRUNode) b h a :
  (forall n, v2_payload (f n) = v2_payload n) ->
  v2_payload <$> alter f b h !! a = v2_payload <$> h !! a.
Proof.
  intros Hf. rewrite list_lookup_alter. case_decide; subst; [|done].
  destruct (h !! a); simpl; [|done]. by rewrite Hf.
Qed.

Lemma v2_remove_length a h dl : length (V2.remove a (h, dl)).1 = length h.
Proof. unfold V2.remove. repeat case_match; simplify_eq/=; by rewrite ?length_alter. Qed.

Lemma v2_remove_payload a h dl b :
  v2_payload <$> (V2.remove a (h, dl)).1 !! b = v2_payload <$> h !! b.
Proof.
  unfold V2.remove. repeat case_match; simplify_eq/=;
    by rewrite ?v2_payload_alter by (by intros []).
Qed.

Lemma v2_remove_dll a h dl l1 l2 :
  dll h (V2.head dl) (V2.tail dl) (l1 ++ a :: l2) ->
  dll (V2.remove a (h, dl)).1 (V2.head (V2.remove a (h, dl)).2)
      (V2.tail (V2.remove a (h, dl)).2) (l1 ++ l2).
Proof.
  intros Hdll.
  pose proof (dll_links _ _ _ _ _ _ Hdll) as (Ha & Hp & Hn).
  pose proof Hdll as (Hnd & _ & _ & _).
  apply NoDup_app in Hnd as (Hnd1 & Hdisj & [Ha2 Hnd2]%NoDup_cons).
  assert (a ∉ l1 ++ l2) as Hal.
  { intros [Hin|Hin]%elem_of_app; [|done]. apply (Hdisj a Hin). left. }
  pose proof (dll_unlink_alter _ _ _ _ _ _ Hdll) as Hu. simpl in Hu.
  unfold V2.remove. v2_fold. rewrite Hp, Hn.
  destruct (last l1) as [p|] eqn:Hlast.
  - assert (p <> a) as Hpa.
    { intros ->. apply (Hdisj a); [|left]. apply last_Some in Hlast as [? ->].
      set_solver. }
    rd_simpl. rewrite decide_False by done. rewrite Hn.
    destruct (head l2) as [q|] eqn:Hfirst; v2_cbn; rd_simpl;
      rewrite ?decide_False by done; rewrite ?Hp, ?Hn;
      repeat (apply dll_frame; [done|]); exact Hu.
  - rewrite Hn.
    destruct (head l2) as [q|] eqn:Hfirst; v2_cbn; rd_simpl; rewrite ?Hp, ?Hn;
      repeat (apply dll_frame; [done|]); exact Hu.
Qed.

Lemma v2_addToFront_length a h dl : length (V2.addToFront a (h, dl)).1 = length h.
Proof. unfold V2.addToFront. repeat case_match; simplify_eq/=; by rewrite ?length_alter. Qed.

Lemma v2_addToFront_payload a h dl b :
  v2_payload <$> (V2.addToFront a (h, dl)).1 !! b = v2_payload <$> h !! b.
Proof.
  unfold V2.addToFront. repeat case_match; simplify_eq/=;
    by rewrite ?v2_payload_alter by (by intros []).
Qed.

Lemma v2_addToFront_dll a h dl L :
  dll h (V2.head dl) (V2.tail dl) L -> a ∉ L -> (a < length h)%nat ->
  dll (V2.addToFront a (h, dl)).1 (V2.head (V2.addToFront a (h, dl)).2)
      (V2.tail (V2.addToFront a (h, dl)).2) (a :: L).
Proof.
  intros Hdll Ha Hlt.
  pose proof Hdll as (_ & _ & Hhd & Htl).
  assert (forall b, b ∈ L -> (b < length h)%nat /\ b <> a) as HL.
  { intros b Hb. split; [by eapply dll_valid|]. by intros ->. }
  unfold V2.addToFront. v2_fold.
  assert (V2.tail
            (match V2.tail {| V2.head := Some a; V2.tail := V2.tail dl |} with
             | Some _ => {| V2.head := Some a; V2.tail := V2.tail dl |}
             | None =>
                 {| V2.head :=
                      V2.head {| V2.head := Some a; V2.tail := V2.tail dl |};
                    V2.tail := Some a |}
             end) = last (a :: L)) as Htl'.
  { simpl. rewrite last_cons, <- Htl. by destruct (V2.tail dl). }
  assert (V2.head
            (match V2.tail {| V2.head := Some a; V2.tail := V2.tail dl |} with
             | Some _ => {| V2.head := Some a; V2.tail := V2.tail dl |}
             | None =>
                 {| V2.head :=
                      V2.head {| V2.head := Some a; V2.tail := V2.tail dl |};
                    V2.tail := Some a |}
             end) = Some a) as Hhd'.
  { simpl. by destruct (V2.tail dl). }
  cbn [fst snd]. rewrite Htl', Hhd'.
  destruct (V2.head dl) as [hd|] eqn:Hh.
  - assert (hd ∈ L) as Hhdin by (destruct L; simplify_eq/=; left).
    destruct (HL hd Hhdin) as [? ?].
    eapply dll_link_front; [exact Hdll|done|len_solve|len_solve|..].
    + rd_simpl. rewrite decide_False by done. rd_simpl. by rewrite decide_True.
    + rd_simpl. by rewrite decide_True.
    + intros b Hb. destruct (HL b Hb) as [? ?]. rd_simpl.
      rewrite (decide_False (P := a = b)) by done.
      rewrite <- Hhd. split; [|by rewrite decide_False by done].
      repeat case_decide; simplify_eq; done.
  - assert (L = []) as -> by (destruct L; simplify_eq/=; done).
    eapply dll_link_front; [exact Hdll|done|len_solve|len_solve|..].
    + rd_simpl. by rewrite decide_True.
    + rd_simpl. by rewrite decide_True.
    + by intros b ?%elem_of_nil.
Qed.

Lemma v2_moveToFront_length a h dl : length (V2.moveToFront a (h, dl)).1 = length h.
Proof.
  unfold V2.moveToFront. case_decide; [done|].
  destruct (V2.remove a (h, dl)) as [h' l'] eqn:E.
  rewrite v2_addToFront_length. by rewrite <- (v2_remove_length a h dl), E.
Qed.

Lemma v2_moveToFront_payload a h dl b :
  v2_payload <$> (V2.moveToFront a (h, dl)).1 !! b = v2_payload <$> h !! b.
Proof.
  unfold V2.moveToFront. case_decide; [done|].
  destruct (V2.remove a (h, dl)) as [h' l'] eqn:E.
  rewrite v2_addToFront_payload. by rewrite <- (v2_remove_payload a h dl b), E.
Qed.

Lemma v2_moveToFront_dll a h dl l1 l2 :
  dll h (V2.head dl) (V2.tail dl) (l1 ++ a :: l2) ->
  dll (V2.moveToFront a (h, dl)).1 (V2.head (V2.moveToFront a (h, dl)).2)
      (V2.tail (V2.moveToFront a (h, dl)).2) (a :: l1 ++ l2).
Proof.
  intros Hdll. unfold V2.moveToFront. cbn [snd].
  pose proof Hdll as (Hnd & _ & Hhd & _).
  apply NoDup_app in Hnd as (Hnd1 & Hdisj & [Ha2 Hnd2]%NoDup_cons).
  case_decide as Hh.
  - rewrite Hhd in Hh. destruct l1 as [|x l1]; simplify_eq/=; [done|].
    exfalso. apply (Hdisj a); left.
  - pose proof (v2_remove_dll _ _ _ _ _ Hdll) as Hr.
    pose proof (v2_remove_length a h dl) as Hlen.
    destruct (V2.remove a (h, dl)) as [h' l'] eqn:E. cbn [fst snd] in *.
    apply v2_addToFront_dll; [done| |].
    + intros [Hin|Hin]%elem_of_app; [|done]. apply (Hdisj a Hin). left.
    + rewrite Hlen. eapply dll_valid; [exact Hdll|]. set_solver.
Qed.

End V2List.

Section V2Ops.
Context `{JsNum} {V : Type}.
Implicit Types (c : V2.SmartCache (V:=V)) (k : SerializableKey)
  (L : list (SerializableKey * addr)) (ks : list SerializableKey)
  (w : V2.World (V:=V)) (s : V2.World (V:=V) * V2.SmartCache (V:=V))
  (h : list (V2.LRUNode (V:=V))).

Lemma v2_same_payload_refl h : v2_same_payload h h.
Proof. by intros b. Qed.

Lemma v2_same_payload_trans h1 h2 h3 :
  v2_same_payload h1 h2 -> v2_same_payload h2 h3 -> v2_same_payload h1 h3.
Proof. intros H12 H23 b. by rewrite H23, H12. Qed.

Lemma v2_same_config_refl c : v2_same_config c c.
Proof. by split_and!. Qed.

Lemma v2_same_config_trans c1 c2 c3 :
  v2_same_config c1 c2 -> v2_same_config c2 c3 -> v2_same_config c1 c3.
Proof. unfold v2_same_config. intros (-> & -> & ->) (-> & -> & ->). done. Qed.

Lemma v2_same_payload_key h h' a :
  v2_same_payload h h' -> V2.key <$> h' !! a = V2.key <$> h !! a.
Proof.
  intros Hp. specialize (Hp a).
  destruct (h' !! a) as [n'|], (h !! a) as [n|]; simpl in *; try done.
  injection Hp as Hk _ _. by rewrite Hk.
Qed.

Lemma v2_same_payload_length h h' :
  v2_same_payload h h' -> length h' = length h.
Proof.
  intros Hp.
  destruct (Nat.lt_trichotomy (length h') (length h)) as [Hlt|[?|Hlt]]; [|done|].
  - specialize (Hp (length h')).
    rewrite (lookup_ge_None_2 h') in Hp by lia.
    apply lookup_lt_is_Some in Hlt as [n Hn]. by rewrite Hn in Hp.
  - specialize (Hp (length h)).
    rewrite (lookup_ge_None_2 h) in Hp by lia.
    apply lookup_lt_is_Some in Hlt as [n Hn]. by rewrite Hn in Hp.
Qed.

Lemma v2_isExpired_ext now h h' a :
  v2_same_payload h h' -> V2.isExpired now h' a = V2.isExpired now h a.
Proof.
  intros Hp. specialize (Hp a). unfold V2.isExpired.
  destruct (h' !! a) as [n'|], (h !! a) as [n|]; simpl in *; try done.
  injection Hp as _ _ He. by rewrite He.
Qed.

Lemma v2_rep_lookup c L k a :
  v2_rep c L -> jm_get k (V2.map c) = Some a ->
  exists L1 L2, L = L1 ++ (k, a) :: L2.
Proof.
  intros (_ & _ & Hperm & _) Hget.
  apply jm_get_Some_elem in Hget. rewrite Hperm in Hget.
  by apply list_elem_of_split.
Qed.

Lemma v2_rep_get c L k :
  v2_rep c L -> k ∈ L.*1 -> exists a, jm_get k (V2.map c) = Some a.
Proof.
  intros (_ & Hnd & Hperm & _) ([k' a] & -> & Hin)%list_elem_of_fmap.
  exists a. apply jm_get_elem; [by rewrite Hperm|by rewrite Hperm].
Qed.

Lemma v2_abs_keys c ks : v2_abs c ks -> (V2.map c).*1 ≡ₚ ks.
Proof. intros (L & (_ & _ & Hperm & _) & <-). by rewrite Hperm. Qed.

Lemma v2_abs_NoDup c ks : v2_abs c ks -> NoDup ks.
Proof. by intros (L & (_ & Hnd & _) & <-). Qed.

Lemma v2_abs_map_NoDup c ks : v2_abs c ks -> NoDup (V2.map c).*1.
Proof. intros Habs. rewrite (v2_abs_keys _ _ Habs). by eapply v2_abs_NoDup. Qed.

Lemma v2_abs_length c ks : v2_abs c ks -> length (V2.map c) = length ks.
Proof.
  intros Habs. rewrite <- (length_fmap fst (V2.map c)).
  by rewrite (v2_abs_keys _ _ Habs).
Qed.

Lemma v2_abs_lru_keys c ks : v2_abs c ks -> v2_lru_keys c = ks.
Proof.
  intros (L & (Hdll & _ & _ & Hkeys) & <-).
  unfold v2_lru_keys, v2_order. rewrite (dll_walk _ _ _ _ Hdll).
  clear Hdll. induction L as [|[k a] L IH]; [done|].
  csimpl. rewrite (Hkeys k a) by left. simpl. f_equal.
  apply IH. intros k' a' Hin. apply Hkeys. by right.
Qed.

Lemma v2_abs_head c ks :
  v2_abs c ks -> V2.head (V2.lruList c) = None <-> ks = [].
Proof.
  intros (L & (Hdll & _) & <-). rewrite (dll_head_None _ _ _ _ Hdll).
  destruct L; naive_solver.
Qed.

Lemma v2_abs_tail c ks :
  v2_abs c ks -> V2.tail (V2.lruList c) = None <-> ks = [].
Proof.
  intros (L & (Hdll & _) & <-). rewrite (dll_tail_None _ _ _ _ Hdll).
  destruct L; naive_solver.
Qed.

(** Unlinking the node of [k] and dropping [k] from the map. *)
Lemma v2_unlink_rep c L k a :
  v2_rep c L -> jm_get k (V2.map c) = Some a ->
  v2_rep (V2.with_map (jm_delete k (V2.map c))
            (V2.with_list (V2.remove a (V2.the_list c)) c))
         (filter (fun x => x.1 <> k) L).
Proof.
  intros Hrep Hget.
  destruct (v2_rep_lookup _ _ _ _ Hrep Hget) as (L1 & L2 & ->).
  destruct Hrep as (Hdll & Hnd & Hperm & Hkeys).
  rewrite filter_key_split by done.
  assert (NoDup (V2.map c).*1) as HndM by (by rewrite Hperm).
  rewrite fmap_app, fmap_cons in Hdll. simpl in Hdll.
  unfold v2_rep. v2_cbn. split_and!.
  - rewrite fmap_app. by apply v2_remove_dll.
  - revert Hnd. rewrite !fmap_app, fmap_cons, !NoDup_app, NoDup_cons. set_solver.
  - rewrite <- (filter_key_split L1 L2 k a) by done. by apply jm_delete_perm.
  - intros k' a' Hin.
    rewrite (v2_same_payload_key (V2.nodes c)); [apply Hkeys; set_solver|].
    intros b. apply v2_remove_payload.
Qed.

Lemma v2_delete_eq k now w c :
  (V2.delete k now (w, c)).2
  = match jm_get k (V2.map c) with
    | Some a => V2.with_map (jm_delete k (V2.map c))
                  (V2.with_list (V2.remove a (V2.the_list c)) c)
    | None => c
    end.
Proof. unfold V2.delete. by destruct (jm_get k (V2.map c)). Qed.

Lemma v2_delete_map k now w c :
  V2.map (V2.delete k now (w, c)).2 = jm_delete k (V2.map c).
Proof.
  rewrite v2_delete_eq. destruct (jm_get k (V2.map c)) eqn:E; [done|].
  symmetry. by apply jm_delete_absent, jm_get_None.
Qed.

Lemma v2_delete_payload k now w c :
  v2_same_payload (V2.nodes c) (V2.nodes (V2.delete k now (w, c)).2).
Proof.
  rewrite v2_delete_eq. destruct (jm_get k (V2.map c)) eqn:E; [|done].
  intros b. apply v2_remove_payload.
Qed.

Lemma v2_delete_config k now w c :
  v2_same_config c (V2.delete k now (w, c)).2.
Proof.
  rewrite v2_delete_eq. by destruct (jm_get k (V2.map c)).
Qed.

Lemma v2_delete_abs k now w c ks :
  v2_abs c ks -> v2_abs (V2.delete k now (w, c)).2 (filter (fun x => x <> k) ks).
Proof.
  intros (L & Hrep & <-). exists (filter (fun x => x.1 <> k) L).
  split; [|apply (fmap_filter_fst (fun x => x <> k))].
  rewrite v2_delete_eq. destruct (jm_get k (V2.map c)) as [a|] eqn:Hget.
  - by apply v2_unlink_rep.
  - rewrite filter_all; [done|]. apply Forall_forall.
    intros [k' a'] Hin ?; simplify_eq/=.
    apply jm_get_None in Hget. apply Hget.
    destruct Hrep as (_ & _ & -> & _). apply list_elem_of_fmap. by eexists (_, _).
Qed.


(** One round of the second loop of [cleanExpired()]. *)
Lemma v2_clean_step k c w now :
  match jm_get k (V2.map c) with
  | Some node =>
      V2.with_map (jm_delete k (V2.map c))
        (V2.with_list (V2.remove node (V2.the_list c)) c)
  | None => c
  end = (V2.delete k now (w, c)).2.
Proof. by rewrite v2_delete_eq. Qed.

Lemma v2_cleanExpired_fold now c w :
  V2.cleanExpired now c
  = fold_left (fun c k => (V2.delete k now (w, c)).2) (v2_expired_keys now c) c.
Proof.
  unfold V2.cleanExpired, v2_expired_keys.
  generalize ((filter (fun ka => V2.isExpired now (V2.nodes c) ka.2 = true)
                 (V2.map c)).*1) as ks0.
  intros ks0. revert c. induction ks0 as [|k ks0 IH]; intros c; [done|].
  cbn [fold_left]. rewrite v2_clean_step with (w := w) (now := now). apply IH.
Qed.

Lemma v2_fold_delete now w (ks0 : list SerializableKey) c :
  let c' := fold_left (fun c k => (V2.delete k now (w, c)).2) ks0 c in
  V2.map c' = fold_left (fun m k => jm_delete k m) ks0 (V2.map c)
  /\ v2_same_payload (V2.nodes c) (V2.nodes c')
  /\ v2_same_config c c'
  /\ forall ks, v2_abs c ks -> v2_abs c' (filter (fun x => x ∉ ks0) ks).
Proof.
  revert c. induction ks0 as [|k ks0 IH]; intros c; cbn [fold_left].
  - split_and!; try done. intros ks Habs. rewrite filter_all; [done|].
    apply Forall_forall. intros x _. apply not_elem_of_nil.
  - destruct (IH (V2.delete k now (w, c)).2) as (Hm & Hp & Hc & Ha).
    split_and!.
    + by rewrite Hm, v2_delete_map.
    + eapply v2_same_payload_trans; [apply v2_delete_payload|done].
    + eapply v2_same_config_trans; [apply v2_delete_config|done].
    + intros ks Habs. apply (v2_delete_abs k now w), Ha in Habs.
      rewrite list_filter_filter in Habs.
      erewrite list_filter_iff; [exact Habs|].
      intros x. simpl. rewrite not_elem_of_cons. tauto.
Qed.

Lemma v2_expired_keys_elem now c k :
  NoDup (V2.map c).*1 ->
  k ∈ v2_expired_keys now c
  <-> exists a, jm_get k (V2.map c) = Some a
                /\ V2.isExpired now (V2.nodes c) a = true.
Proof.
  intros Hnd. unfold v2_expired_keys. rewrite list_elem_of_fmap. split.
  - intros ([k' a] & -> & [He Hin]%list_elem_of_filter). exists a.
    split; [by apply jm_get_elem|done].
  - intros (a & Hget%jm_get_Some_elem & He). exists (k, a).
    split; [done|]. by apply list_elem_of_filter.
Qed.

Lemma v2_cleanExpired_map now c :
  NoDup (V2.map c).*1 ->
  V2.map (V2.cleanExpired now c)
  = filter (fun ka => V2.isExpired now (V2.nodes c) ka.2 <> true) (V2.map c).
Proof.
  intros Hnd. rewrite (v2_cleanExpired_fold now c None).
  rewrite (proj1 (v2_fold_delete now None _ c)).
  rewrite jm_fold_delete_filter by done.
  apply filter_iff_in. intros [k a] Hin. simpl.
  rewrite v2_expired_keys_elem by done.
  rewrite (jm_get_elem k a) by done. split.
  - intros Hne He. apply Hne. eauto.
  - intros Hne (a' & [= <-] & He). done.
Qed.

Lemma v2_cleanExpired_payload now c :
  v2_same_payload (V2.nodes c) (V2.nodes (V2.cleanExpired now c)).
Proof.
  rewrite (v2_cleanExpired_fold now c None). apply v2_fold_delete.
Qed.

Lemma v2_cleanExpired_config now c : v2_same_config c (V2.cleanExpired now c).
Proof.
  rewrite (v2_cleanExpired_fold now c None). apply v2_fold_delete.
Qed.

Lemma v2_cleanExpired_abs now c ks :
  v2_abs c ks ->
  v2_abs (V2.cleanExpired now c)
         (filter (fun k => k ∉ v2_expired_keys now c) ks).
Proof.
  rewrite (v2_cleanExpired_fold now c None). apply v2_fold_delete.
Qed.


Lemma v2_abs_tail_key c ks : v2_abs c ks -> v2_tail_key c = last ks.
Proof.
  intros (L & (Hdll & _ & _ & Hkeys) & <-). unfold v2_tail_key.
  destruct Hdll as (_ & _ & _ & ->).
  rewrite !fmap_last. destruct (last L) as [[k a]|] eqn:El; [|done].
  simpl. apply Hkeys. apply last_Some in El as [? ->]. set_solver.
Qed.

Lemma v2_evictLRU_map now c :
  V2.map (V2.evictLRU now c)
  = let c1 := V2.cleanExpired now c in
    if v2_at_capacity c1 then
      match v2_tail_key c1 with
      | Some kt => jm_delete kt (V2.map c1)
      | None => V2.map c1
      end
    else V2.map c1.
Proof.
  unfold V2.evictLRU, v2_at_capacity, v2_tail_key, V2.removeTail.
  cbv zeta. set (c1 := V2.cleanExpired now c).
  destruct (match V2.maxSize c1 with Some n => _ | None => false end); [|done].
  v2_cbn. destruct (V2.tail (V2.lruList c1)) as [t|]; [|done].
  v2_cbn. cbn [mbind option_bind].
  pose proof (v2_same_payload_key _ _ t
                (fun b => v2_remove_payload t (V2.nodes c1) (V2.lruList c1) b))
    as Hk.
  destruct ((V2.remove t (V2.nodes c1, V2.lruList c1)).1 !! t) as [n|],
    (V2.nodes c1 !! t) as [n1|]; cbn [fmap option_fmap option_map] in *;
    simplify_eq; v2_cbn; try done. by rewrite Hk.
Qed.

Lemma v2_evictLRU_payload now c :
  v2_same_payload (V2.nodes c) (V2.nodes (V2.evictLRU now c)).
Proof.
  unfold V2.evictLRU, V2.removeTail. cbv zeta.
  set (c1 := V2.cleanExpired now c).
  eapply v2_same_payload_trans; [apply (v2_cleanExpired_payload now c)|].
  fold c1. destruct (match V2.maxSize c1 with Some n => _ | None => false end);
    [|done].
  v2_cbn. destruct (V2.tail (V2.lruList c1)) as [t|]; [|done].
  v2_cbn. assert (v2_same_payload (V2.nodes c1)
                    (V2.remove t (V2.nodes c1, V2.lruList c1)).1) as Hp.
  { intros b. apply v2_remove_payload. }
  by destruct ((V2.remove t (V2.nodes c1, V2.lruList c1)).1 !! t).
Qed.

Lemma v2_evictLRU_config now c : v2_same_config c (V2.evictLRU now c).
Proof.
  unfold V2.evictLRU, V2.removeTail. cbv zeta.
  set (c1 := V2.cleanExpired now c).
  eapply v2_same_config_trans; [apply (v2_cleanExpired_config now c)|].
  fold c1. repeat case_match; done.
Qed.

Lemma v2_evictLRU_abs now c ks :
  v2_abs c ks ->
  v2_abs (V2.evictLRU now c)
    (let ks1 := filter (fun k => k ∉ v2_expired_keys now c) ks in
     if v2_at_capacity (V2.cleanExpired now c) then
       match last ks1 with
       | Some kt => filter (fun x => x <> kt) ks1
       | None => ks1
       end
     else ks1).
Proof.
  intros Habs%(v2_cleanExpired_abs now). cbv zeta.
  set (ks1 := filter (fun k => k ∉ v2_expired_keys now c) ks) in *.
  pose proof (v2_abs_tail_key _ _ Habs) as Htk.
  pose proof (v2_abs_tail _ _ Habs) as Htn.
  unfold V2.evictLRU, V2.removeTail, v2_at_capacity. cbv zeta.
  set (c1 := V2.cleanExpired now c) in *.
  destruct (match V2.maxSize c1 with Some n => _ | None => false end); [|done].
  v2_cbn. unfold v2_tail_key in Htk.
  destruct (V2.tail (V2.lruList c1)) as [t|] eqn:Ht.
  2:{ destruct Htn as [Htn _]. specialize (Htn eq_refl).
      rewrite Htn in Habs |- *. exact Habs. }
  v2_cbn. cbn [mbind option_bind] in Htk.
  pose proof (v2_same_payload_key _ _ t
                (fun b => v2_remove_payload t (V2.nodes c1) (V2.lruList c1) b))
    as Hk.
  destruct (last ks1) as [kt|] eqn:El.
  2:{ apply last_None in El. destruct Htn as [_ Htn]. by specialize (Htn El). }
  destruct (V2.nodes c1 !! t) as [n1|] eqn:Hn1; [|done].
  destruct ((V2.remove t (V2.nodes c1, V2.lruList c1)).1 !! t) as [n|] eqn:Hn;
    [|done].
  cbn [fmap option_fmap option_map] in *. simplify_eq. rewrite Hk.
  destruct Habs as (L & Hrep & HL).
  exists (filter (fun x => x.1 <> V2.key n1) L).
  split; [|rewrite <- HL; apply (fmap_filter_fst (fun x => x <> V2.key n1))].
  apply (v2_unlink_rep c1 L (V2.key n1) t Hrep).
  (* the tail node is the node of its key *)
  destruct Hrep as (Hdll & Hnd & Hperm & Hkeys).
  apply jm_get_elem; [by rewrite Hperm|]. rewrite Hperm.
  destruct Hdll as (_ & _ & _ & Htl). rewrite Ht, fmap_last in Htl.
  destruct (last L) as [[k' a']|] eqn:ElL; simplify_eq/=.
  assert ((k', a') ∈ L) as Hin by (apply last_Some in ElL as [? ->]; set_solver).
  specialize (Hkeys _ _ Hin). rewrite Hn1 in Hkeys. by simplify_eq/=.
Qed.


Lemma dll_alter_keep (f : V2.LRUNode (V:=V) -> V2.LRUNode) a h hd tl l :
  (forall n, V2.prev (f n) = V2.prev n) ->
  (forall n, V2.next (f n) = V2.next n) ->
  dll h hd tl l -> dll (alter f a h) hd tl l.
Proof.
  intros Hp Hn (Hnd & Hseg & Hhd & Htl). split_and!; try done.
  eapply dseg_ext; [|done]. intros b Hb Hlt.
  rewrite length_alter. split_and!; [done|..].
  - by apply (rd_prev_keep (Nd:=V2.LRUNode)).
  - by apply (rd_next_keep (Nd:=V2.LRUNode)).
Qed.

Lemma v2_set_eq k v ttlMs now w c :
  (V2.set k v ttlMs now (w, c)).2
  = match jm_get k (V2.map c) with
    | Some a =>
        V2.with_list
          (V2.moveToFront a
             (alter (V2.set_expiresAt (v2_expiry ttlMs now c)) a
                (alter (V2.set_value v) a (V2.nodes c)), V2.lruList c)) c
    | None =>
        let c1 := v2_set_pre now c in
        let a := length (V2.nodes c1) in
        V2.with_map (jm_set k a (V2.map c1))
          (V2.with_list
             (V2.addToFront a
                (V2.nodes c1 ++
                   [{| V2.key := k; V2.value := v;
                       V2.expiresAt := v2_expiry ttlMs now c;
                       V2.prev := None; V2.next := None |}],
                 V2.lruList c1)) c1)
    end.
Proof.
  unfold V2.set, v2_set_pre, v2_expiry, v2_at_capacity, alloc. cbv zeta.
  destruct (jm_get k (V2.map c)) as [a|]; cbn [snd]; [done|].
  by destruct (match V2.maxSize c with Some n => _ | None => false end).
Qed.

Lemma v2_set_pre_abs now c ks :
  v2_abs c ks ->
  v2_abs (v2_set_pre now c)
    (if v2_at_capacity c then
       let ks1 := filter (fun k => k ∉ v2_expired_keys now c) ks in
       if v2_at_capacity (V2.cleanExpired now c) then
         match last ks1 with
         | Some kt => filter (fun x => x <> kt) ks1
         | None => ks1
         end
       else ks1
     else ks).
Proof.
  intros Habs. unfold v2_set_pre.
  destruct (v2_at_capacity c); [by apply v2_evictLRU_abs|done].
Qed.

Lemma v2_set_pre_payload now c :
  v2_same_payload (V2.nodes c) (V2.nodes (v2_set_pre now c)).
Proof.
  unfold v2_set_pre. destruct (v2_at_capacity c); [|done].
  apply v2_evictLRU_payload.
Qed.

Lemma v2_set_pre_config now c : v2_same_config c (v2_set_pre now c).
Proof.
  unfold v2_set_pre. destruct (v2_at_capacity c); [|done].
  apply v2_evictLRU_config.
Qed.

(** Inserting a fresh node for a key the map does not have. *)
Lemma v2_insert_rep c L k (n : V2.LRUNode (V:=V)) :
  v2_rep c L -> k ∉ L.*1 -> V2.key n = k ->
  v2_rep (V2.with_map (jm_set k (length (V2.nodes c)) (V2.map c))
            (V2.with_list
               (V2.addToFront (length (V2.nodes c))
                  (V2.nodes c ++ [n], V2.lruList c)) c))
         ((k, length (V2.nodes c)) :: L).
Proof.
  intros (Hdll & Hnd & Hperm & Hkeys) Hk Hn.
  assert (forall b, b ∈ L.*2 -> (b < length (V2.nodes c))%nat) as Hlt.
  { intros b Hb. eapply dll_valid; eauto. }
  assert (NoDup (V2.map c).*1) as HndM by (by rewrite Hperm).
  unfold v2_rep. v2_cbn. split_and!.
  - rewrite fmap_cons. cbn [snd]. apply v2_addToFront_dll.
    + destruct Hdll as (? & Hseg & ? & ?). split_and!; try done.
      eapply dseg_ext; [|done]. intros b Hb Hb'.
      rewrite length_app. split; [lia|]. by rd_simpl.
    + intros Hin%Hlt. lia.
    + len_solve.
  - rewrite fmap_cons. by apply NoDup_cons.
  - apply jm_set_perm; [done..|]. by rewrite Hperm.
  - intros k' a' Hin.
    rewrite (v2_same_payload_key (V2.nodes c ++ [n]));
      [|intros b; apply v2_addToFront_payload].
    apply elem_of_cons in Hin as [[= -> ->]|Hin].
    + rewrite list_lookup_middle by done. simpl. by f_equal.
    + rewrite lookup_app_l; [by apply Hkeys|].
      apply Hlt. apply list_elem_of_fmap. by eexists (_, _).
Qed.

Lemma v2_set_abs k v ttlMs now w c ks :
  v2_abs c ks ->
  v2_abs (V2.set k v ttlMs now (w, c)).2
    (k :: if jm_has k (V2.map c) then filter (fun x => x <> k) ks
          else if v2_at_capacity c then
                 let ks1 := filter (fun k => k ∉ v2_expired_keys now c) ks in
                 if v2_at_capacity (V2.cleanExpired now c) then
                   match last ks1 with
                   | Some kt => filter (fun x => x <> kt) ks1
                   | None => ks1
                   end
                 else ks1
               else ks).
Proof.
  intros Habs. rewrite v2_set_eq. unfold jm_has.
  destruct (jm_get k (V2.map c)) as [a|] eqn:Hget.
  - destruct Habs as (L & Hrep & <-).
    destruct (v2_rep_lookup _ _ _ _ Hrep Hget) as (L1 & L2 & ->).
    destruct Hrep as (Hdll & Hnd & Hperm & Hkeys).
    exists ((k, a) :: L1 ++ L2). rewrite filter_all_ne_key by done.
    split; [|done]. unfold v2_rep. v2_cbn.
    set (h' := alter (V2.set_expiresAt (v2_expiry ttlMs now c)) a
                 (alter (V2.set_value v) a (V2.nodes c))).
    assert (dll h' (V2.head (V2.lruList c)) (V2.tail (V2.lruList c))
              (L1.*2 ++ a :: L2.*2)) as Hdll'.
    { rewrite fmap_app, fmap_cons in Hdll. unfold h'.
      apply dll_alter_keep; [done|done|].
      apply dll_alter_keep; [done|done|]. exact Hdll. }
    split_and!.
    + rewrite fmap_cons, fmap_app. by apply v2_moveToFront_dll.
    + revert Hnd. rewrite !fmap_cons, !fmap_app, fmap_cons, !NoDup_app,
        !NoDup_cons, !NoDup_app. set_solver.
    + by rewrite Hperm, Permutation_middle.
    + intros k' a' Hin.
      rewrite (v2_same_payload_key h'); [|intros b; apply v2_moveToFront_payload].
      unfold h'. rewrite !list_lookup_alter.
      assert ((k', a') ∈ L1 ++ (k, a) :: L2) as Hin' by set_solver.
      specialize (Hkeys _ _ Hin').
      repeat case_decide; subst; destruct (V2.nodes c !! a');
        simplify_eq/=; done.
  - pose proof (v2_set_pre_abs now c ks Habs) as (L & Hrep & HL).
    exists ((k, length (V2.nodes (v2_set_pre now c))) :: L). split.
    + apply v2_insert_rep; [done| |done].
      rewrite HL. apply jm_get_None in Hget.
      rewrite (v2_abs_keys _ _ Habs) in Hget.
      destruct (v2_at_capacity c); [|done]. cbv zeta.
      repeat case_match; rewrite ?list_elem_of_filter; naive_solver.
    + rewrite fmap_cons. cbn [fst]. f_equal. exact HL.
Qed.


Lemma v2_get_absent k now s :
  jm_get k (V2.map s.2) = None -> V2.get k now s = (None, s).
Proof. destruct s as [w c]. unfold V2.get. cbn [snd]. by intros ->. Qed.

Lemma v2_get_expired k now s a :
  jm_get k (V2.map s.2) = Some a -> V2.isExpired now (V2.nodes s.2) a = true ->
  V2.get k now s = (None, V2.delete k now s).
Proof. destruct s as [w c]. unfold V2.get. cbn [snd]. by intros -> ->. Qed.

Lemma v2_get_live k now w c a :
  jm_get k (V2.map c) = Some a -> V2.isExpired now (V2.nodes c) a = false ->
  V2.get k now (w, c)
  = (V2.value <$> (V2.moveToFront a (V2.the_list c)).1 !! a,
     (w, V2.with_list (V2.moveToFront a (V2.the_list c)) c)).
Proof. unfold V2.get. by intros -> ->. Qed.

Lemma v2_get_abs k now w c ks :
  v2_abs c ks ->
  v2_abs (V2.get k now (w, c)).2.2
    match jm_get k (V2.map c) with
    | None => ks
    | Some a => if V2.isExpired now (V2.nodes c) a
                then filter (fun x => x <> k) ks
                else k :: filter (fun x => x <> k) ks
    end.
Proof.
  intros Habs. destruct (jm_get k (V2.map c)) as [a|] eqn:Hget.
  2:{ by rewrite v2_get_absent. }
  destruct (V2.isExpired now (V2.nodes c) a) eqn:He.
  { rewrite (v2_get_expired _ _ _ a) by done. by apply v2_delete_abs. }
  rewrite (v2_get_live _ _ _ _ a) by done. cbn [snd].
  destruct Habs as (L & Hrep & <-).
  destruct (v2_rep_lookup _ _ _ _ Hrep Hget) as (L1 & L2 & ->).
  destruct Hrep as (Hdll & Hnd & Hperm & Hkeys).
  exists ((k, a) :: L1 ++ L2). rewrite filter_all_ne_key by done.
  split; [|done]. unfold v2_rep. v2_cbn. split_and!.
  - rewrite fmap_cons, fmap_app. apply v2_moveToFront_dll.
    by rewrite fmap_app, fmap_cons in Hdll.
  - revert Hnd. rewrite !fmap_cons, !fmap_app, fmap_cons, !NoDup_app,
      !NoDup_cons, !NoDup_app. set_solver.
  - by rewrite Hperm, Permutation_middle.
  - intros k' a' Hin.
    rewrite (v2_same_payload_key (V2.nodes c));
      [|intros b; apply v2_moveToFront_payload].
    apply Hkeys. set_solver.
Qed.

Lemma v2_get_payload k now w c :
  v2_same_payload (V2.nodes c) (V2.nodes (V2.get k now (w, c)).2.2).
Proof.
  unfold V2.get. destruct (jm_get k (V2.map c)) as [a|]; [|done].
  destruct (V2.isExpired now (V2.nodes c) a).
  - apply v2_delete_payload.
  - cbn [snd]. intros b. apply v2_moveToFront_payload.
Qed.

Lemma v2_get_map k now w c :
  V2.map (V2.get k now (w, c)).2.2
  = match jm_get k (V2.map c) with
    | Some a => if V2.isExpired now (V2.nodes c) a
                then jm_delete k (V2.map c) else V2.map c
    | None => V2.map c
    end.
Proof.
  unfold V2.get. destruct (jm_get k (V2.map c)) as [a|]; [|done].
  destruct (V2.isExpired now (V2.nodes c) a); [|done].
  apply v2_delete_map.
Qed.

Lemma v2_get_config k now w c : v2_same_config c (V2.get k now (w, c)).2.2.
Proof.
  unfold V2.get. destruct (jm_get k (V2.map c)) as [a|]; [|done].
  destruct (V2.isExpired now (V2.nodes c) a); [|done].
  apply v2_delete_config.
Qed.

Lemma v2_has_state k now s :
  (V2.has k now s).2
  = match jm_get k (V2.map s.2) with
    | Some a => if V2.isExpired now (V2.nodes s.2) a
                then V2.delete k now s else s
    | None => s
    end.
Proof. unfold V2.has. by repeat case_match. Qed.

Lemma v2_has_abs k now w c ks :
  v2_abs c ks ->
  v2_abs (V2.has k now (w, c)).2.2
    match jm_get k (V2.map c) with
    | None => ks
    | Some a => if V2.isExpired now (V2.nodes c) a
                then filter (fun x => x <> k) ks else ks
    end.
Proof.
  intros Habs. rewrite v2_has_state. cbn [snd].
  destruct (jm_get k (V2.map c)) as [a|]; [|done].
  destruct (V2.isExpired now (V2.nodes c) a); [by apply v2_delete_abs|done].
Qed.

Lemma v2_clear_abs now w c : v2_abs (V2.clear now (w, c)).2 [].
Proof.
  exists []. split; [|done]. unfold V2.clear, v2_rep. cbn.
  split_and!; try done; try apply NoDup_nil_2.
  - apply dll_nil.
  - by intros k a ?%elem_of_nil.
Qed.

Lemma v2_size_abs now w c ks :
  v2_abs c ks ->
  v2_abs (V2.size now (w, c)).2.2
         (filter (fun k => k ∉ v2_expired_keys now c) ks).
Proof. apply v2_cleanExpired_abs. Qed.

(** ** Restoring from the store *)

Lemma v2_restore_abs now (d : list (string * option (V2.SerializedEntry (V:=V))))
    c ks :
  v2_abs c ks ->
  NoDup (ks ++ (v2_restorable now d).*1) ->
  v2_abs (V2.restore now d c) (rev (v2_restorable now d).*1 ++ ks)
  /\ (V2.map (V2.restore now d c)).*1
     = (V2.map c).*1 ++ (v2_restorable now d).*1
  /\ v2_same_config c (V2.restore now d c).
Proof.
  revert c ks. induction d as [|[str [e|]] d IH]; intros c ks Habs Hnd;
    cbn [V2.restore v2_restorable] in *.
  - rewrite app_nil_r. by split_and!.
  - destruct (match V2.ser_expiresAt e with Some t => _ | None => false end);
      [by apply IH|].
    unfold alloc. cbv zeta.
    rewrite fmap_cons in Hnd. cbn [fst] in Hnd.
    set (k := V2.convertKey str) in *.
    set (n := {| V2.key := k; V2.value := V2.ser_value e;
                 V2.expiresAt := V2.ser_expiresAt e;
                 V2.prev := None; V2.next := None |}).
    assert (k ∉ ks) as Hk.
    { apply NoDup_app in Hnd as (_ & Hd & _). intros Hin.
      apply (Hd _ Hin). left. }
    set (c1 := V2.with_map (jm_set k (length (V2.nodes c)) (V2.map c))
                 (V2.with_list
                    (V2.addToFront (length (V2.nodes c))
                       (V2.nodes c ++ [n], V2.lruList c)) c)).
    assert (v2_abs c1 (k :: ks)) as Habs1.
    { destruct Habs as (L & Hrep & <-).
      exists ((k, length (V2.nodes c)) :: L). split; [|done].
      by apply v2_insert_rep. }
    assert ((V2.map c1).*1 = (V2.map c).*1 ++ [k]) as Hm1.
    { unfold c1. v2_cbn. rewrite jm_set_keys.
      assert (jm_has k (V2.map c) = false) as ->; [|done].
      apply jm_has_false. by rewrite (v2_abs_keys _ _ Habs). }
    destruct (IH c1 (k :: ks) Habs1) as (Ha & Hm & Hc).
    { revert Hnd. rewrite !NoDup_app, !NoDup_cons. set_solver. }
    fold c1 in Ha, Hm, Hc |- *.
    change (V2.with_map (jm_set k (length (V2.nodes c))
              (V2.map (V2.with_list (V2.addToFront (length (V2.nodes c))
                 (V2.the_list (V2.with_nodes (V2.nodes c ++ [n]) c)))
                 (V2.with_nodes (V2.nodes c ++ [n]) c))))
              (V2.with_list (V2.addToFront (length (V2.nodes c))
                 (V2.the_list (V2.with_nodes (V2.nodes c ++ [n]) c)))
                 (V2.with_nodes (V2.nodes c ++ [n]) c))) with c1.
    split_and!.
    + csimpl. rewrite <- app_assoc. done.
    + rewrite Hm, Hm1, <- app_assoc. done.
    + eapply v2_same_config_trans; [|exact Hc]. done.
  - rewrite app_nil_r. by split_and!.
Qed.

End V2Ops.

(** ** Traces, bounds, results of calls *)

Section V1Reach.
Context `{JsNum} {V : Type}.
Implicit Types (c : V1.SmartCache (V:=V)) (k : SerializableKey)
  (ks : list SerializableKey)
  (w : V1.World (V:=V)) (s : V1.World (V:=V) * V1.SmartCache (V:=V)).

Lemma v1_empty_abs o sk :
  v1_abs (V:=V) {| V1.cache := []; V1.lruMap := []; V1.nodes := [];
            V1.head := None; V1.tail := None; V1.options := o;
            V1.storageKey := sk |} [].
Proof.
  exists []. unfold v1_lru_rep. cbn.
  split_and!; try done; try apply NoDup_nil_2.
  - apply dll_nil.
  - by intros k a ?%elem_of_nil.
Qed.

Lemma v1_new_wf maxSize_ defaultTTL_ persist_ now w :
  storage_ok w -> v1_wf (V1.new maxSize_ defaultTTL_ persist_ now w).
Proof.
  intros Hok. unfold V1.new. cbv zeta.
  destruct (truthy_persist _); [|eexists; apply v1_empty_abs].
  unfold V1.loadFromStorage. cbn [V1.storageKey].
  destruct (truthy_string _); [|eexists; apply v1_empty_abs].
  destruct w as [st|]; [|eexists; apply v1_empty_abs].
  destruct (getItem _ st) as [[|d]|] eqn:Hget; try (eexists; apply v1_empty_abs).
  eexists. eapply v1_restore_abs; [apply v1_empty_abs|].
  cbn [V1.cache]. simpl. apply v1_restorable_NoDup. eapply Hok; eauto.
Qed.

Lemma v1_step_wf o now s : v1_wf s.2 -> v1_wf (v1_step o now s).2.
Proof.
  destruct s as [w c]. intros [ks Habs]. cbn [snd] in *.
  destruct o as [k v ttl|k|k|k| |]; cbn [v1_step]; eexists.
  - by apply v1_set_abs.
  - by apply v1_get_abs.
  - by apply v1_has_abs.
  - by apply v1_delete_abs.
  - apply v1_clear_abs.
  - by apply v1_size_abs.
Qed.

Lemma v1_run_wf tr s : v1_wf s.2 -> v1_wf (v1_run tr s).2.
Proof.
  revert s. induction tr as [|[o now] tr IH]; intros s Hwf; [done|].
  cbn [v1_run fold_left]. apply IH. by apply v1_step_wf.
Qed.

Lemma v1_reachable_wf s : v1_reachable s -> v1_wf s.2.
Proof.
  intros (N & dttl & p & now0 & w0 & tr & Hok & ->).
  apply v1_run_wf. cbn [snd]. by apply v1_new_wf.
Qed.

End V1Reach.

Section V2Reach.
Context `{JsNum} {V : Type}.
Implicit Types (c : V2.SmartCache (V:=V)) (k : SerializableKey)
  (ks : list SerializableKey)
  (w : V2.World (V:=V)) (s : V2.World (V:=V) * V2.SmartCache (V:=V)).

Lemma v2_empty_abs ms dt pk :
  v2_abs (V:=V) {| V2.map := []; V2.lruList := {| V2.head := None; V2.tail := None |};
            V2.nodes := []; V2.maxSize := ms; V2.defaultTTL := dt;
            V2.persistKey := pk |} [].
Proof.
  exists []. unfold v2_rep. cbn.
  split_and!; try done; try apply NoDup_nil_2.
  - apply dll_nil.
  - by intros k a ?%elem_of_nil.
Qed.

Lemma v2_step_wf o now s : v2_wf s.2 -> v2_wf (v2_step o now s).2.
Proof.
  destruct s as [w c]. intros [ks Habs]. cbn [snd] in *.
  destruct o as [k v ttl|k|k|k| |]; cbn [v2_step]; eexists.
  - by apply v2_set_abs.
  - by apply v2_get_abs.
  - by apply v2_has_abs.
  - by apply v2_delete_abs.
  - apply v2_clear_abs.
  - by apply v2_size_abs.
Qed.

Lemma v2_run_wf tr s : v2_wf s.2 -> v2_wf (v2_run tr s).2.
Proof.
  revert s. induction tr as [|[o now] tr IH]; intros s Hwf; [done|].
  cbn [v2_run fold_left]. apply IH. by apply v2_step_wf.
Qed.

End V2Reach.

Lemma length_filter_ne {A} `{EqDecision A} (k : A) (ks : list A) :
  NoDup ks -> k ∈ ks -> S (length (filter (fun x => x <> k) ks)) = length ks.
Proof.
  induction ks as [|x ks IH]; [by intros _ ?%elem_of_nil|].
  intros [Hx Hnd]%NoDup_cons Hin. rewrite filter_cons.
  destruct (decide (x = k)) as [->|Hne].
  - rewrite decide_False by (by intros ?). simpl. f_equal.
    f_equal. apply filter_all. apply Forall_forall. by intros y Hy ->.
  - rewrite decide_True by done. simpl. f_equal. apply IH; [done|].
    apply elem_of_cons in Hin as [->|]; done.
Qed.

Section V1Bound.
Context `{JsNum} {V : Type}.
Implicit Types (c : V1.SmartCache (V:=V)) (k : SerializableKey)
  (ks : list SerializableKey)
  (w : V1.World (V:=V)) (s : V1.World (V:=V) * V1.SmartCache (V:=V)).

Lemma v1_restore_length now d c :
  (length (V1.cache c) <= length (V1.cache (V1.restore now d c)))%nat.
Proof.
  revert c. induction d as [|[str [e|]] d IH]; intros c; cbn [V1.restore];
    [done| |done].
  case_match; [apply IH|]. etrans; [|apply IH].
  rewrite (proj1 (v1_addToLRU_frame _ _)). cbn [V1.with_cache V1.cache].
  rewrite jm_set_length. destruct (jm_has _ _); lia.
Qed.

Lemma v1_restore_empty now d c :
  V1.cache (V1.restore now d c) = [] -> V1.restore now d c = c.
Proof.
  revert c. induction d as [|[str [e|]] d IH]; intros c; cbn [V1.restore];
    [done| |done].
  case_match; [apply IH|]. intros Hnil.
  pose proof (v1_restore_length now d
    (V1.addToLRU (V1.parseKey str)
       (V1.with_cache (jm_set (V1.parseKey str) e (V1.cache c)) c))) as Hle.
  rewrite Hnil in Hle. rewrite (proj1 (v1_addToLRU_frame _ _)) in Hle.
  cbn [V1.with_cache V1.cache] in Hle. rewrite jm_set_length in Hle.
  destruct (V1.cache c); [simpl in Hle; lia|].
  destruct (jm_has _ _); simpl in Hle; lia.
Qed.

Lemma v1_restore_options now d c :
  V1.options (V1.restore now d c) = V1.options c
  /\ V1.storageKey (V1.restore now d c) = V1.storageKey c.
Proof.
  revert c. induction d as [|[str [e|]] d IH]; intros c; cbn [V1.restore];
    [done| |done].
  case_match; [apply IH|].
  destruct (IH (V1.addToLRU (V1.parseKey str)
       (V1.with_cache (jm_set (V1.parseKey str) e (V1.cache c)) c))) as [-> ->].
  by rewrite (proj1 (proj2 (v1_addToLRU_frame _ _))),
             (proj2 (proj2 (v1_addToLRU_frame _ _))).
Qed.

Lemma v1_new_options maxSize_ defaultTTL_ persist_ now w :
  V1.options (V1.new maxSize_ defaultTTL_ persist_ now w)
  = {| V1.maxSize := maxSize_; V1.defaultTTL := default 0 defaultTTL_;
       V1.persist := default (PBool false) persist_ |}.
Proof.
  unfold V1.new. cbv zeta. destruct (truthy_persist _); [|done].
  unfold V1.loadFromStorage. repeat case_match; try done.
  all: by rewrite (proj1 (v1_restore_options _ _ _)).
Qed.

Lemma v1_new_empty maxSize_ defaultTTL_ persist_ now w :
  V1.cache (V1.new maxSize_ defaultTTL_ persist_ now w) = [] ->
  v1_abs (V1.new maxSize_ defaultTTL_ persist_ now w) [].
Proof.
  unfold V1.new. cbv zeta. destruct (truthy_persist _); [|intros _; apply v1_empty_abs].
  unfold V1.loadFromStorage. repeat case_match; try (intros _; apply v1_empty_abs).
  all: intros ->%v1_restore_empty; apply v1_empty_abs.
Qed.

Lemma v1_step_options o now w c :
  V1.options (v1_step o now (w, c)).2 = V1.options c.
Proof.
  destruct o as [k v ttl|k|k|k| |]; cbn [v1_step].
  - apply v1_set_options.
  - apply v1_get_options.
  - rewrite v1_has_state. cbn [snd]. repeat case_match; try done.
    apply v1_delete_options.
  - apply v1_delete_options.
  - done.
  - apply v1_cleanExpired_options.
Qed.

(** One call keeps the number of entries within [maxSize], when that is at
    least one. *)
Lemma v1_step_bound o now w c ks :
  v1_abs c ks -> 1 <= V1.maxSize (V1.options c) ->
  Z.of_nat (length ks) <= V1.maxSize (V1.options c) ->
  exists ks', v1_abs (v1_step o now (w, c)).2 ks'
              /\ Z.of_nat (length ks') <= V1.maxSize (V1.options c).
Proof.
  intros Habs HN Hle. pose proof (v1_abs_NoDup _ _ Habs) as Hnd.
  pose proof (v1_abs_length _ _ Habs) as Hlen.
  assert (forall k, k ∈ (V1.cache c).*1 -> k ∈ ks) as Hin.
  { intros k. destruct Habs as (L & _ & <- & _ & Hiff). apply Hiff. }
  pose proof (length_filter (fun x => x ∉ v1_expired_keys now c) ks) as Hf.
  destruct o as [k v ttl|k|k|k| |]; cbn [v1_step]; eexists;
    (split; [first [by apply v1_set_abs | by apply v1_get_abs
                   | by apply v1_has_abs | by apply v1_delete_abs
                   | apply v1_clear_abs | by apply v1_size_abs]|]).
  - destruct (jm_has k (V1.cache c)) eqn:Hhas.
    { apply jm_has_true, Hin in Hhas.
      pose proof (length_filter_ne k ks Hnd Hhas). simpl. lia. }
    case_bool_decide as Hfull; [|unfold jm_size in Hfull; simpl; lia].
    pose proof (v1_victim_spec now c ks Habs) as Hv.
    destruct (v1_victim now c) as [j|].
    + destruct Hv as [Hj%Hin _].
      pose proof (length_filter_ne j ks Hnd Hj). simpl. lia.
    + subst ks. simpl in *. lia.
  - destruct (jm_get k (V1.cache c)) as [e|] eqn:Hget; [|done].
    pose proof (length_filter (fun x => x <> k) ks).
    destruct (V1.isExpired now e); [lia|].
    assert (k ∈ ks) as Hk.
    { apply Hin, jm_get_is_Some. by rewrite Hget. }
    pose proof (length_filter_ne k ks Hnd Hk). simpl. lia.
  - pose proof (length_filter (fun x => x <> k) ks).
    repeat case_match; lia.
  - pose proof (length_filter (fun x => x <> k) ks). lia.
  - simpl. lia.
  - lia.
Qed.

Lemma v1_run_bound tr w c ks :
  v1_abs c ks -> 1 <= V1.maxSize (V1.options c) ->
  Z.of_nat (length ks) <= V1.maxSize (V1.options c) ->
  exists ks', v1_abs (v1_run tr (w, c)).2 ks'
              /\ Z.of_nat (length ks') <= V1.maxSize (V1.options c).
Proof.
  revert w c ks. induction tr as [|[o now] tr IH]; intros w c ks Habs HN Hle.
  - by exists ks.
  - cbn [v1_run fold_left fst snd].
    destruct (v1_step_bound o now w c ks Habs HN Hle) as (ks1 & Habs1 & Hle1).
    pose proof (v1_step_options o now w c) as Ho.
    destruct (v1_step o now (w, c)) as [w1 c1]. cbn [snd] in *.
    rewrite <- Ho in *. by apply (IH w1 c1 ks1).
Qed.

Lemma v1_size_result now w c ks :
  v1_abs c ks ->
  (V1.size now (w, c)).1
  = Z.of_nat (length (filter (fun k => k ∉ v1_expired_keys now c) ks)).
Proof.
  intros Habs. unfold V1.size. cbn [fst]. unfold jm_size. f_equal.
  by apply v1_abs_length, v1_cleanExpired_abs.
Qed.

End V1Bound.

Section V2Bound.
Context `{JsNum} {V : Type}.
Implicit Types (c : V2.SmartCache (V:=V)) (k : SerializableKey)
  (ks : list SerializableKey)
  (w : V2.World (V:=V)) (s : V2.World (V:=V) * V2.SmartCache (V:=V)).

Lemma v2_restore_length now d c :
  (length (V2.map c) <= length (V2.map (V2.restore now d c)))%nat.
Proof.
  revert c. induction d as [|[str [e|]] d IH]; intros c; cbn [V2.restore];
    [done| |done].
  case_match; [apply IH|]. unfold alloc. cbv zeta beta iota.
  etrans; [|apply IH]. v2_cbn.
  rewrite jm_set_length. destruct (jm_has _ _); lia.
Qed.

Lemma v2_restore_empty now d c :
  V2.map (V2.restore now d c) = [] -> V2.restore now d c = c.
Proof.
  revert c. induction d as [|[str [e|]] d IH]; intros c; cbn [V2.restore];
    [done| |done].
  case_match; [apply IH|]. unfold alloc. cbv zeta beta iota. intros Hnil.
  match goal with
  | |- V2.restore now d ?c1 = _ => pose proof (v2_restore_length now d c1) as Hle
  end.
  rewrite Hnil in Hle. v2_cbn.
  rewrite jm_set_length in Hle. simpl in Hle.
  destruct (V2.map c); [simpl in Hle; lia|].
  destruct (jm_has _ _); simpl in Hle; lia.
Qed.

Lemma v2_restore_config now d c : v2_same_config c (V2.restore now d c).
Proof.
  revert c. induction d as [|[str [e|]] d IH]; intros c; cbn [V2.restore];
    [done| |done].
  case_match; [apply IH|]. unfold alloc. cbv zeta beta iota.
  eapply v2_same_config_trans; [|apply IH]. done.
Qed.

Lemma v2_new_config maxSize_ defaultTTL_ persist_ now w :
  V2.maxSize (V2.new maxSize_ defaultTTL_ persist_ now w) = maxSize_
  /\ V2.defaultTTL (V2.new maxSize_ defaultTTL_ persist_ now w) = defaultTTL_.
Proof.
  unfold V2.new, V2.loadFromStorage. repeat case_match; try done.
  all: match goal with
  | |- context [V2.restore ?n ?d ?c] =>
      by destruct (v2_restore_config n d c) as (-> & -> & _)
  end.
Qed.

Lemma v2_new_empty maxSize_ defaultTTL_ persist_ now w :
  V2.map (V2.new maxSize_ defaultTTL_ persist_ now w) = [] ->
  v2_abs (V2.new maxSize_ defaultTTL_ persist_ now w) [].
Proof.
  unfold V2.new, V2.loadFromStorage.
  repeat case_match; try (intros _; apply v2_empty_abs).
  all: intros ->%v2_restore_empty; apply v2_empty_abs.
Qed.

Lemma v2_set_config k v ttlMs now w c :
  v2_same_config c (V2.set k v ttlMs now (w, c)).2.
Proof.
  rewrite v2_set_eq. destruct (jm_get k (V2.map c)); [done|].
  cbv zeta. destruct (v2_set_pre_config now c) as (? & ? & ?). done.
Qed.

Lemma v2_step_config o now w c : v2_same_config c (v2_step o now (w, c)).2.
Proof.
  destruct o as [k v ttl|k|k|k| |]; cbn [v2_step].
  - apply v2_set_config.
  - apply v2_get_config.
  - rewrite v2_has_state. cbn [snd]. repeat case_match;
      try apply v2_same_config_refl. apply v2_delete_config.
  - apply v2_delete_config.
  - done.
  - apply v2_cleanExpired_config.
Qed.

Lemma v2_at_capacity_abs c ks n :
  v2_abs c ks -> V2.maxSize c = Some n ->
  v2_at_capacity c = bool_decide (Z.of_nat (length ks) >= n).
Proof.
  intros Habs Hn. unfold v2_at_capacity, jm_size.
  by rewrite Hn, (v2_abs_length _ _ Habs).
Qed.

(** One call keeps the number of entries within [maxSize], when that is at
    least one. *)
Lemma v2_step_bound o now w c ks n :
  v2_abs c ks -> V2.maxSize c = Some n -> 1 <= n ->
  Z.of_nat (length ks) <= n ->
  exists ks', v2_abs (v2_step o now (w, c)).2 ks' /\ Z.of_nat (length ks') <= n.
Proof.
  intros Habs Hn HN Hle. pose proof (v2_abs_NoDup _ _ Habs) as Hnd.
  assert (forall k, k ∈ (V2.map c).*1 -> k ∈ ks) as Hin.
  { intros k. by rewrite (v2_abs_keys _ _ Habs). }
  pose proof (length_filter (fun x => x ∉ v2_expired_keys now c) ks) as Hf.
  destruct o as [k v ttl|k|k|k| |]; cbn [v2_step]; eexists;
    (split; [first [by apply v2_set_abs | by apply v2_get_abs
                   | by apply v2_has_abs | by apply v2_delete_abs
                   | apply v2_clear_abs | by apply v2_size_abs]|]).
  - destruct (jm_has k (V2.map c)) eqn:Hhas.
    { apply jm_has_true, Hin in Hhas.
      pose proof (length_filter_ne k ks Hnd Hhas). simpl. lia. }
    rewrite (v2_at_capacity_abs c ks n) by done.
    case_bool_decide as Hfull; [|simpl; lia].
    pose proof (v2_cleanExpired_abs now c ks Habs) as Habs1.
    rewrite (v2_at_capacity_abs _ _ n Habs1)
      by (by rewrite (proj1 (v2_cleanExpired_config now c))).
    cbv zeta. set (ks1 := filter _ ks) in *.
    case_bool_decide as Hfull1; [|simpl; lia].
    destruct (last ks1) as [kt|] eqn:El.
    + assert (kt ∈ ks1) as Hkt.
      { apply last_Some in El as [? ->]. set_solver. }
      pose proof (length_filter_ne kt ks1 (v2_abs_NoDup _ _ Habs1) Hkt).
      simpl. lia.
    + apply last_None in El. rewrite El in *. simpl in *. lia.
  - destruct (jm_get k (V2.map c)) as [a|] eqn:Hget; [|done].
    pose proof (length_filter (fun x => x <> k) ks).
    destruct (V2.isExpired now _ a); [lia|].
    assert (k ∈ ks) as Hk.
    { apply Hin, jm_get_is_Some. by rewrite Hget. }
    pose proof (length_filter_ne k ks Hnd Hk). simpl. lia.
  - pose proof (length_filter (fun x => x <> k) ks).
    repeat case_match; lia.
  - pose proof (length_filter (fun x => x <> k) ks). lia.
  - simpl. lia.
  - lia.
Qed.

Lemma v2_run_bound tr w c ks n :
  v2_abs c ks -> V2.maxSize c = Some n -> 1 <= n ->
  Z.of_nat (length ks) <= n ->
  exists ks', v2_abs (v2_run tr (w, c)).2 ks' /\ Z.of_nat (length ks') <= n.
Proof.
  revert w c ks. induction tr as [|[o now] tr IH]; intros w c ks Habs Hn HN Hle.
  - by exists ks.
  - cbn [v2_run fold_left fst snd].
    destruct (v2_step_bound o now w c ks n Habs Hn HN Hle) as (ks1 & Habs1 & Hle1).
    pose proof (v2_step_config o now w c) as (Ho & _).
    destruct (v2_step o now (w, c)) as [w1 c1]. cbn [snd] in *.
    apply (IH w1 c1 ks1); [done|congruence|done|done].
Qed.

Lemma v2_size_result now w c ks :
  v2_abs c ks ->
  (V2.size now (w, c)).1
  = Z.of_nat (length (filter (fun k => k ∉ v2_expired_keys now c) ks)).
Proof.
  intros Habs. unfold V2.size. cbn [fst snd]. unfold jm_size. f_equal.
  by apply v2_abs_length, v2_cleanExpired_abs.
Qed.

End V2Bound.

Section V1Results.
Context `{JsNum} {V : Type}.
Implicit Types (c : V1.SmartCache (V:=V)) (k : SerializableKey)
  (ks : list SerializableKey)
  (w : V1.World (V:=V)) (s : V1.World (V:=V) * V1.SmartCache (V:=V)).

Lemma v1_get_result k now s :
  (V1.get k now s).1
  = match jm_get k (V1.cache s.2) with
    | Some e => if V1.isExpired now e then None else Some (V1.value e)
    | None => None
    end.
Proof.
  destruct s as [w c]. unfold V1.get. cbn [snd].
  destruct (jm_get k (V1.cache c)) as [e|]; [|done].
  by destruct (V1.isExpired now e).
Qed.

Lemma v1_has_result k now s :
  (V1.has k now s).1
  = match jm_get k (V1.cache s.2) with
    | Some e => negb (V1.isExpired now e)
    | None => false
    end.
Proof.
  unfold V1.has. destruct (jm_get k (V1.cache s.2)) as [e|]; [|done].
  by destruct (V1.isExpired now e).
Qed.

Lemma v1_set_entry k v ttlMs now w c :
  jm_get k (V1.cache (V1.set k v ttlMs now (w, c)).2)
  = Some (v1_entry v ttlMs now (V1.options c)).
Proof. rewrite v1_set_cache. apply jm_get_set_eq. Qed.

End V1Results.

Section V2Results.
Context `{JsNum} {V : Type}.
Implicit Types (c : V2.SmartCache (V:=V)) (k : SerializableKey)
  (ks : list SerializableKey)
  (w : V2.World (V:=V)) (s : V2.World (V:=V) * V2.SmartCache (V:=V)).

Lemma v2_entry_alt c k :
  v2_entry c k
  = a ← jm_get k (V2.map c); snd <$> (v2_payload <$> V2.nodes c !! a).
Proof.
  unfold v2_entry. destruct (jm_get k (V2.map c)) as [a|]; [|done].
  simpl. by destruct (V2.nodes c !! a).
Qed.

Lemma v2_isExpired_entry now c k a :
  jm_get k (V2.map c) = Some a ->
  V2.isExpired now (V2.nodes c) a
  = match v2_entry c k with
    | Some e => v2_entry_expired now e
    | None => false
    end.
Proof.
  intros Hget. unfold v2_entry, V2.isExpired. rewrite Hget. simpl.
  by destruct (V2.nodes c !! a).
Qed.

Lemma v2_get_result k now s :
  (V2.get k now s).1
  = match v2_entry s.2 k with
    | Some e => if v2_entry_expired now e then None else Some (V2.ser_value e)
    | None => None
    end.
Proof.
  destruct s as [w c]. cbn [snd].
  destruct (jm_get k (V2.map c)) as [a|] eqn:Hget.
  2:{ rewrite v2_get_absent by done. unfold v2_entry. by rewrite Hget. }
  pose proof (v2_isExpired_entry now c k a Hget) as He.
  destruct (V2.isExpired now (V2.nodes c) a) eqn:Hx.
  - rewrite (v2_get_expired _ _ _ a) by done. cbn [fst].
    destruct (v2_entry c k); [by rewrite <- He|done].
  - rewrite (v2_get_live _ _ _ _ a) by done. cbn [fst].
    pose proof (v2_moveToFront_payload a (V2.nodes c) (V2.lruList c) a) as Hp.
    unfold V2.the_list. unfold v2_entry. rewrite Hget. simpl.
    unfold V2.isExpired in Hx.
    destruct (V2.nodes c !! a) as [n|] eqn:En;
      destruct ((V2.moveToFront a (V2.nodes c, V2.lruList c)).1 !! a) as [n'|];
      try done.
    simpl in *. injection Hp as Hk Hv Ht.
    unfold v2_entry_expired. simpl. destruct (V2.expiresAt n); simpl in *.
    + rewrite Hx. by rewrite Hv.
    + by rewrite Hv.
Qed.

Lemma v2_has_result k now s :
  (V2.has k now s).1
  = match jm_get k (V2.map s.2) with
    | Some a => negb (V2.isExpired now (V2.nodes s.2) a)
    | None => false
    end.
Proof.
  unfold V2.has. destruct (jm_get k (V2.map s.2)) as [a|]; [|done].
  by destruct (V2.isExpired now _ a).
Qed.

Lemma v2_wf_node c k a :
  v2_wf c -> jm_get k (V2.map c) = Some a ->
  exists n, V2.nodes c !! a = Some n /\ V2.key n = k.
Proof.
  intros (ks & L & Hrep & _) Hget.
  destruct (v2_rep_lookup _ _ _ _ Hrep Hget) as (L1 & L2 & ->).
  destruct Hrep as (_ & _ & _ & Hkeys).
  specialize (Hkeys k a). destruct (V2.nodes c !! a) as [n|].
  - exists n. split; [done|].
    assert (Some (V2.key n) = Some k) as [= ->]; [|done].
    apply Hkeys. set_solver.
  - exfalso. assert (@None SerializableKey = Some k) as [=].
    apply Hkeys. set_solver.
Qed.

(** What [set] leaves under its key. *)
Lemma v2_set_entry k v ttlMs now w c :
  v2_wf c ->
  v2_entry (V2.set k v ttlMs now (w, c)).2 k
  = Some {| V2.ser_value := v; V2.ser_expiresAt := v2_expiry ttlMs now c |}.
Proof.
  intros Hwf. rewrite v2_entry_alt, v2_set_eq.
  destruct (jm_get k (V2.map c)) as [a|] eqn:Hget.
  - destruct (v2_wf_node c k a Hwf Hget) as (n & Hn & Hk).
    v2_cbn. rewrite Hget. cbn [mbind option_bind].
    rewrite v2_moveToFront_payload, !list_lookup_alter, !decide_True by done.
    by rewrite Hn.
  - cbv zeta. v2_cbn. rewrite jm_get_set_eq. cbn [mbind option_bind].
    rewrite v2_addToFront_payload.
    by rewrite lookup_app_r, Nat.sub_diag by lia.
Qed.

End V2Results.

Section JsMapForall.
Context {K A : Type} `{EqDecision K}.
Implicit Types (m : list (K * A)).

Lemma jm_set_Forall (P : K * A -> Prop) k v m :
  P (k, v) -> Forall P m -> Forall P (jm_set k v m).
Proof.
  intros Hv. induction 1 as [|[k' v'] m Hx Hm IH]; cbn [jm_set].
  - by constructor.
  - case_decide; constructor; auto.
Qed.

Lemma jm_delete_Forall (P : K * A -> Prop) k m :
  Forall P m -> Forall P (jm_delete k m).
Proof.
  induction 1 as [|[k' v'] m Hx Hm IH]; cbn [jm_delete]; [done|].
  case_decide; [done|]. by constructor.
Qed.

Lemma jm_get_Forall (P : K * A -> Prop) k v m :
  Forall P m -> jm_get k m = Some v -> P (k, v).
Proof.
  intros HP Hget%jm_get_Some_elem. by apply (proj1 (Forall_forall _ _) HP).
Qed.
End JsMapForall.

Section V1Never.
Context `{JsNum} {V : Type}.
Implicit Types (c : V1.SmartCache (V:=V)) (k : SerializableKey)
  (ks : list SerializableKey)
  (w : V1.World (V:=V)) (s : V1.World (V:=V) * V1.SmartCache (V:=V)).

Lemma v1_abs_has c ks k :
  v1_abs c ks -> jm_has k (V1.cache c) = bool_decide (k ∈ ks).
Proof.
  intros (L & _ & <- & _ & Hiff). case_bool_decide as Hk.
  - by apply jm_has_true, Hiff.
  - apply jm_has_false. by rewrite Hiff.
Qed.

Lemma v1_never_isExpired now c k e :
  v1_never_expires c -> jm_get k (V1.cache c) = Some e ->
  V1.isExpired now e = false.
Proof.
  intros Hn Hget. apply (jm_get_Forall _ _ _ _ Hn) in Hget. simpl in Hget.
  unfold V1.isExpired. by rewrite Hget.
Qed.

Lemma v1_never_victim now c ks :
  v1_abs c ks -> v1_never_expires c -> v1_victim now c = last ks.
Proof.
  intros Habs Hn. pose proof (v1_abs_tail_key _ _ Habs) as Htk.
  pose proof (v1_abs_tail _ _ Habs) as Ht.
  unfold v1_victim. destruct (V1.tail c) as [t|].
  - destruct (find _ _) as [[k e]|] eqn:Hfind; [|done].
    apply find_some in Hfind as [Hin%list_elem_of_In He]. simpl in He.
    apply (proj1 (Forall_forall _ _) Hn) in Hin. simpl in Hin.
    unfold V1.isExpired in He. by rewrite Hin in He.
  - destruct Ht as [Ht _]. by rewrite Ht.
Qed.

Lemma v1_set_never k v now w c :
  v1_never_expires c -> V1.defaultTTL (V1.options c) = 0 ->
  v1_never_expires (V1.set k v None now (w, c)).2.
Proof.
  intros Hn Hd. unfold v1_never_expires. rewrite v1_set_cache.
  apply jm_set_Forall.
  { unfold v1_entry. simpl. rewrite Hd. by rewrite bool_decide_eq_false_2 by lia. }
  unfold v1_set_pre. destruct (jm_has k (V1.cache c)).
  - by rewrite (proj1 (v1_removeFromLRU_frame _ _)).
  - case_bool_decide; [|done]. rewrite v1_evictLRU_delete.
    destruct (v1_victim now c); [|done].
    rewrite v1_delete_cache. by apply jm_delete_Forall.
Qed.

Lemma v1_get_never k now w c :
  v1_never_expires c -> v1_never_expires (V1.get k now (w, c)).2.2.
Proof.
  intros Hn. unfold v1_never_expires.
  destruct (jm_get k (V1.cache c)) as [e|] eqn:Hget.
  2:{ by rewrite v1_get_absent. }
  rewrite (v1_get_live _ _ _ _ e);
    [|done|by eapply v1_never_isExpired].
  cbn [snd]. rewrite (proj1 (v1_moveToFront_frame _ _)).
  cbn [V1.with_cache V1.cache]. apply jm_set_Forall; [|done].
  simpl. by apply (jm_get_Forall _ _ _ _ Hn) in Hget.
Qed.

(** Where nothing expires, [set] of a new key on a full cache evicts the
    last key of the recency order. *)
Lemma v1_set_never_abs k v ttlMs now w c ks :
  v1_abs c ks -> v1_never_expires c ->
  v1_abs (V1.set k v ttlMs now (w, c)).2
    (k :: if bool_decide (k ∈ ks) then filter (fun x => x <> k) ks
          else if bool_decide (Z.of_nat (length ks) >= V1.maxSize (V1.options c))
               then match last ks with
                    | Some j => filter (fun x => x <> j) ks
                    | None => ks
                    end
               else ks).
Proof.
  intros Habs Hn. pose proof (v1_set_abs k v ttlMs now w c ks Habs) as Hs.
  rewrite (v1_abs_has c ks k Habs) in Hs.
  rewrite (v1_never_victim now c ks Habs Hn) in Hs.
  unfold jm_size in Hs. by rewrite (v1_abs_length c ks Habs) in Hs.
Qed.

Lemma v1_get_never_abs k now w c ks :
  v1_abs c ks -> v1_never_expires c -> k ∈ ks ->
  v1_abs (V1.get k now (w, c)).2.2 (k :: filter (fun x => x <> k) ks)
  /\ exists e, jm_get k (V1.cache c) = Some e
               /\ (V1.get k now (w, c)).1 = Some (V1.value e).
Proof.
  intros Habs Hn Hk. pose proof (v1_get_abs k now w c ks Habs) as Hg.
  pose proof (v1_abs_has c ks k Habs) as Hhas.
  rewrite bool_decide_eq_true_2 in Hhas by done.
  unfold jm_has in Hhas. destruct (jm_get k (V1.cache c)) as [e|] eqn:Hget; [|done].
  rewrite (v1_never_isExpired now c k e Hn Hget) in Hg. split; [done|].
  exists e. split; [done|]. rewrite v1_get_result. cbn [snd].
  by rewrite Hget, (v1_never_isExpired now c k e Hn Hget).
Qed.

Lemma v1_has_never_result k now w c ks :
  v1_abs c ks -> v1_never_expires c ->
  (V1.has k now (w, c)).1 = bool_decide (k ∈ ks).
Proof.
  intros Habs Hn. rewrite v1_has_result. cbn [snd].
  pose proof (v1_abs_has c ks k Habs) as Hhas. unfold jm_has in Hhas.
  destruct (jm_get k (V1.cache c)) as [e|] eqn:Hget; [|done].
  by rewrite (v1_never_isExpired now c k e Hn Hget).
Qed.

Lemma v1_size_never_result now w c ks :
  v1_abs c ks -> v1_never_expires c ->
  (V1.size now (w, c)).1 = Z.of_nat (length ks).
Proof.
  intros Habs Hn. rewrite (v1_size_result now w c ks Habs). do 2 f_equal.
  apply filter_all, Forall_forall. intros k _.
  rewrite v1_expired_keys_elem by (by destruct Habs as (? & ? & ? & ? & ?)).
  intros (e & Hget & He). by rewrite (v1_never_isExpired now c k e Hn Hget) in He.
Qed.

End V1Never.

Section V2Never.
Context `{JsNum} {V : Type}.
Implicit Types (c : V2.SmartCache (V:=V)) (k : SerializableKey)
  (ks : list SerializableKey)
  (w : V2.World (V:=V)) (s : V2.World (V:=V) * V2.SmartCache (V:=V)).

Lemma v2_abs_has c ks k :
  v2_abs c ks -> jm_has k (V2.map c) = bool_decide (k ∈ ks).
Proof.
  intros Hk%v2_abs_keys. case_bool_decide as Hin.
  - apply jm_has_true. by rewrite Hk.
  - apply jm_has_false. by rewrite Hk.
Qed.

Lemma v2_never_isExpired now c a :
  v2_never_expires c -> V2.isExpired now (V2.nodes c) a = false.
Proof.
  intros Hn. unfold V2.isExpired. destruct (V2.nodes c !! a) as [n|] eqn:E; [|done].
  simpl. by rewrite (Hn a n E).
Qed.

Lemma v2_never_expired_keys now c :
  v2_never_expires c -> v2_expired_keys now c = [].
Proof.
  intros Hn. unfold v2_expired_keys.
  induction (V2.map c) as [|[k a] m IH]; [done|].
  rewrite filter_cons. simpl. rewrite v2_never_isExpired by done.
  by rewrite decide_False by done.
Qed.

Lemma v2_same_payload_never c c' :
  v2_same_payload (V2.nodes c) (V2.nodes c') ->
  v2_never_expires c -> v2_never_expires c'.
Proof.
  intros Hp Hn b n' Hb. specialize (Hp b). rewrite Hb in Hp. simpl in Hp.
  destruct (V2.nodes c !! b) as [n|] eqn:E; [|done].
  injection Hp as _ _ ->. by apply (Hn b).
Qed.

Lemma v2_set_never k v now w c :
  v2_never_expires c -> V2.defaultTTL c = None ->
  v2_never_expires (V2.set k v None now (w, c)).2.
Proof.
  intros Hn Hd. assert (v2_expiry None now c = None) as Hx.
  { unfold v2_expiry. by rewrite Hd. }
  intros b n'. rewrite v2_set_eq, Hx.
  destruct (jm_get k (V2.map c)) as [a|] eqn:Hget.
  - v2_cbn. intros Hb.
    pose proof (v2_moveToFront_payload a
      (alter (V2.set_expiresAt None) a (alter (V2.set_value v) a (V2.nodes c)))
      (V2.lruList c) b) as Hp.
    rewrite Hb, !list_lookup_alter in Hp.
    destruct (decide (a = b)) as [->|Hne].
    + rewrite ?decide_True in Hp by done.
      destruct (V2.nodes c !! b) as [n|] eqn:E; simpl in Hp; [|done].
      by injection Hp as _ _ ->.
    + rewrite ?decide_False in Hp by done.
      destruct (V2.nodes c !! b) as [n|] eqn:E; simpl in Hp; [|done].
      injection Hp as _ _ ->. by apply (Hn b).
  - cbv zeta. v2_cbn. intros Hb.
    match type of Hb with
    | (V2.addToFront ?a (?h, ?dl)).1 !! _ = _ =>
        pose proof (v2_addToFront_payload a h dl b) as Hp
    end.
    rewrite Hb in Hp. simpl in Hp.
    destruct (decide (b < length (V2.nodes (v2_set_pre now c)))%nat) as [Hlt|Hge].
    + rewrite lookup_app_l in Hp by done.
      destruct (V2.nodes (v2_set_pre now c) !! b) as [n|] eqn:E; [|done].
      injection Hp as _ _ ->.
      by apply (v2_same_payload_never c (v2_set_pre now c)
                  (v2_set_pre_payload now c) Hn b).
    + rewrite lookup_app_r in Hp by lia.
      destruct (b - length (V2.nodes (v2_set_pre now c)))%nat; [|done].
      by injection Hp as _ _ ->.
Qed.

Lemma v2_get_never k now w c :
  v2_never_expires c -> v2_never_expires (V2.get k now (w, c)).2.2.
Proof. apply v2_same_payload_never, v2_get_payload. Qed.

Lemma v2_set_never_abs k v ttlMs now w c ks n :
  v2_abs c ks -> v2_never_expires c -> V2.maxSize c = Some n ->
  v2_abs (V2.set k v ttlMs now (w, c)).2
    (k :: if bool_decide (k ∈ ks) then filter (fun x => x <> k) ks
          else if bool_decide (Z.of_nat (length ks) >= n)
               then match last ks with
                    | Some j => filter (fun x => x <> j) ks
                    | None => ks
                    end
               else ks).
Proof.
  intros Habs Hn Hm. pose proof (v2_set_abs k v ttlMs now w c ks Habs) as Hs.
  rewrite (v2_abs_has c ks k Habs) in Hs.
  rewrite (v2_at_capacity_abs c ks n Habs Hm) in Hs.
  pose proof (v2_cleanExpired_abs now c ks Habs) as Habs1.
  rewrite (v2_at_capacity_abs _ _ n Habs1) in Hs
    by (by rewrite (proj1 (v2_cleanExpired_config now c))).
  cbv zeta in Hs. rewrite (v2_never_expired_keys now c Hn) in Hs.
  rewrite (filter_all (fun k => k ∉ [])) in Hs
    by (apply Forall_forall; intros ? _; apply not_elem_of_nil).
  by destruct (bool_decide (Z.of_nat (length ks) >= n)).
Qed.

Lemma v2_get_never_abs k now w c ks :
  v2_abs c ks -> v2_never_expires c -> k ∈ ks ->
  v2_abs (V2.get k now (w, c)).2.2 (k :: filter (fun x => x <> k) ks)
  /\ exists e, v2_entry c k = Some e
               /\ (V2.get k now (w, c)).1 = Some (V2.ser_value e).
Proof.
  intros Habs Hn Hk. pose proof (v2_get_abs k now w c ks Habs) as Hg.
  pose proof (v2_abs_has c ks k Habs) as Hhas.
  rewrite bool_decide_eq_true_2 in Hhas by done.
  unfold jm_has in Hhas. destruct (jm_get k (V2.map c)) as [a|] eqn:Hget; [|done].
  rewrite (v2_never_isExpired now c a Hn) in Hg. split; [done|].
  destruct (v2_wf_node c k a) as (nd & Hnd & _); [by exists ks|done|].
  exists (v2_payload nd).2. split.
  { unfold v2_entry. rewrite Hget. simpl. by rewrite Hnd. }
  rewrite v2_get_result. cbn [snd]. unfold v2_entry. rewrite Hget. simpl.
  rewrite Hnd. simpl. unfold v2_entry_expired. simpl.
  by rewrite (Hn a nd Hnd).
Qed.

Lemma v2_has_never_result k now w c ks :
  v2_abs c ks -> v2_never_expires c ->
  (V2.has k now (w, c)).1 = bool_decide (k ∈ ks).
Proof.
  intros Habs Hn. rewrite v2_has_result. cbn [snd].
  pose proof (v2_abs_has c ks k Habs) as Hhas. unfold jm_has in Hhas.
  destruct (jm_get k (V2.map c)) as [a|] eqn:Hget; [|done].
  by rewrite (v2_never_isExpired now c a Hn).
Qed.

Lemma v2_size_never_result now w c ks :
  v2_abs c ks -> v2_never_expires c ->
  (V2.size now (w, c)).1 = Z.of_nat (length ks).
Proof.
  intros Habs Hn. rewrite (v2_size_result now w c ks Habs). do 2 f_equal.
  rewrite (v2_never_expired_keys now c Hn).
  apply filter_all, Forall_forall. intros ? _. apply not_elem_of_nil.
Qed.

End V2Never.

Section Live.
Context `{JsNum} {V : Type}.



Lemma v2_new_empty_nodes maxSize_ defaultTTL_ persist_ now (w : V2.World (V:=V)) :
  V2.map (V2.new maxSize_ defaultTTL_ persist_ now w) = [] ->
  V2.nodes (V2.new maxSize_ defaultTTL_ persist_ now w) = [].
Proof.
  unfold V2.new, V2.loadFromStorage. repeat case_match; try done.
  all: by intros ->%v2_restore_empty.
Qed.


Lemma v1_live_set k v now (s : V1.World * V1.SmartCache (V:=V)) ks n :
  v1_live s.2 ks n -> v1_live (V1.set k v None now s).2 (lru_after_set k ks n) n.
Proof.
  destruct s as [w c]. cbn [snd]. intros (Habs & Hn & Hm & Hd).
  split_and!.
  - rewrite <- Hm. by apply v1_set_never_abs.
  - by apply v1_set_never.
  - by rewrite v1_set_options.
  - by rewrite v1_set_options.
Qed.

Lemma v1_live_get k now (s : V1.World * V1.SmartCache (V:=V)) ks n :
  v1_live s.2 ks n -> k ∈ ks ->
  v1_live (V1.get k now s).2.2 (k :: filter (fun x => x <> k) ks) n.
Proof.
  destruct s as [w c]. cbn [snd]. intros (Habs & Hn & Hm & Hd) Hk.
  split_and!.
  - by apply v1_get_never_abs.
  - by apply v1_get_never.
  - by rewrite v1_get_options.
  - by rewrite v1_get_options.
Qed.

Lemma v1_live_has k now (s : V1.World * V1.SmartCache (V:=V)) ks n :
  v1_live s.2 ks n -> (V1.has k now s).1 = bool_decide (k ∈ ks).
Proof. destruct s. intros (? & ? & _). by apply v1_has_never_result. Qed.

Lemma v1_live_size now (s : V1.World * V1.SmartCache (V:=V)) ks n :
  v1_live s.2 ks n -> (V1.size now s).1 = Z.of_nat (length ks).
Proof. destruct s. intros (? & ? & _). by apply v1_size_never_result. Qed.

Lemma v2_live_set k v now (s : V2.World * V2.SmartCache (V:=V)) ks n :
  v2_live s.2 ks n -> v2_live (V2.set k v None now s).2 (lru_after_set k ks n) n.
Proof.
  destruct s as [w c]. cbn [snd]. intros (Habs & Hn & Hm & Hd).
  destruct (v2_set_config k v None now w c) as (Hm' & Hd' & _).
  split_and!.
  - by apply v2_set_never_abs.
  - by apply v2_set_never.
  - congruence.
  - congruence.
Qed.

Lemma v2_live_get k now (s : V2.World * V2.SmartCache (V:=V)) ks n :
  v2_live s.2 ks n -> k ∈ ks ->
  v2_live (V2.get k now s).2.2 (k :: filter (fun x => x <> k) ks) n.
Proof.
  destruct s as [w c]. cbn [snd]. intros (Habs & Hn & Hm & Hd) Hk.
  destruct (v2_get_config k now w c) as (Hm' & Hd' & _).
  split_and!.
  - by apply v2_get_never_abs.
  - by apply v2_get_never.
  - congruence.
  - congruence.
Qed.

Lemma v2_live_has k now (s : V2.World * V2.SmartCache (V:=V)) ks n :
  v2_live s.2 ks n -> (V2.has k now s).1 = bool_decide (k ∈ ks).
Proof. destruct s. intros (? & ? & _). by apply v2_has_never_result. Qed.

Lemma v2_live_size now (s : V2.World * V2.SmartCache (V:=V)) ks n :
  v2_live s.2 ks n -> (V2.size now s).1 = Z.of_nat (length ks).
Proof. destruct s. intros (? & ? & _). by apply v2_size_never_result. Qed.

Lemma lru_after_set_new (k : SerializableKey) ks n :
  k ∉ ks -> Z.of_nat (length ks) < n -> lru_after_set k ks n = k :: ks.
Proof.
  intros Hk Hn. unfold lru_after_set.
  by rewrite !bool_decide_eq_false_2 by (done || lia).
Qed.

Lemma lru_after_set_full (k j : SerializableKey) ks n :
  k ∉ ks -> Z.of_nat (length ks) >= n -> last ks = Some j ->
  lru_after_set k ks n = k :: filter (fun x => x <> j) ks.
Proof.
  intros Hk Hn Hl. unfold lru_after_set.
  rewrite bool_decide_eq_false_2 by done.
  by rewrite bool_decide_eq_true_2, Hl by done.
Qed.

(** The recency order of the scenario of C5. *)
Lemma lru_scenario (a b c d : SerializableKey) :
  NoDup [a; b; c; d] ->
  lru_after_set c (lru_after_set b (lru_after_set a [] 3) 3) 3 = [c; b; a]
  /\ a :: filter (fun x => x <> a) [c; b; a] = [a; c; b]
  /\ lru_after_set d [a; c; b] 3 = [d; a; c].
Proof.
  intros Hnd.
  assert (a <> b /\ a <> c /\ a <> d /\ b <> c /\ b <> d /\ c <> d)
    as (Hab & Hac & Had & Hbc & Hbd & Hcd).
  { repeat match goal with
           | Hx : NoDup (_ :: _) |- _ => apply NoDup_cons in Hx as [? Hx]
           end. set_solver. }
  split_and!.
  - rewrite (lru_after_set_new a []) by (set_solver || (simpl; lia)).
    rewrite (lru_after_set_new b [a]) by (set_solver || (simpl; lia)).
    by rewrite (lru_after_set_new c [b; a]) by (set_solver || (simpl; lia)).
  - rewrite !filter_cons, filter_nil. repeat case_decide; done.
  - rewrite (lru_after_set_full d b [a; c; b] 3); [| |simpl; lia|done].
    + rewrite !filter_cons, filter_nil. repeat case_decide; done.
    + rewrite !elem_of_cons, elem_of_nil. intros [->|[->|[->|[]]]]; done.
Qed.

End Live.

Section V1Evict.
Context `{JsNum} {V : Type}.
Implicit Types (c : V1.SmartCache (V:=V)) (k : SerializableKey)
  (ks : list SerializableKey)
  (w : V1.World (V:=V)) (s : V1.World (V:=V) * V1.SmartCache (V:=V)).

(** The store after [set] of a new key on a full cache. *)
Lemma v1_set_full_cache k v ttlMs now w c :
  jm_has k (V1.cache c) = false ->
  jm_size (V1.cache c) >= V1.maxSize (V1.options c) ->
  V1.cache (V1.set k v ttlMs now (w, c)).2
  = match v1_victim now c with
    | Some j => jm_delete j (V1.cache c)
    | None => V1.cache c
    end ++ [(k, v1_entry v ttlMs now (V1.options c))].
Proof.
  intros Hhas Hfull. rewrite v1_set_cache. unfold v1_set_pre.
  rewrite Hhas, bool_decide_eq_true_2 by done.
  rewrite v1_evictLRU_delete.
  assert (forall (m : list (SerializableKey * V1.CacheEntry (V:=V))) e,
            k ∉ m.*1 -> jm_set k e m = m ++ [(k, e)]) as Happ.
  { intros m e. induction m as [|[k0 e0] m IH]; [done|].
    csimpl. intros [? ?]%not_elem_of_cons. cbn [jm_set].
    rewrite decide_False by done. f_equal. auto. }
  apply jm_has_false in Hhas.
  destruct (v1_victim now c) as [j|]; [|by apply Happ].
  rewrite v1_delete_cache. apply Happ.
  intros [x [-> Hx]]%list_elem_of_fmap. apply Hhas.
  apply list_elem_of_fmap. exists x. split; [done|].
  clear -Hx. induction (V1.cache c) as [|[k0 e0] m IH]; [done|].
  cbn [jm_delete] in Hx. case_decide; [by right|].
  apply elem_of_cons in Hx as [->|Hx]; [left|right; auto].
Qed.

Lemma v1_victim_cases now c j :
  v1_victim now c = Some j ->
  j ∈ v1_expired_keys now c
  \/ (v1_tail_key c = Some j /\ v1_expired_keys now c = []).
Proof.
  unfold v1_victim, v1_tail_key, v1_expired_keys.
  destruct (V1.tail c) as [t|]; [|done].
  destruct (find _ _) as [[k e]|] eqn:Hfind.
  - intros [= ->]. left.
    apply find_some in Hfind as [Hin%list_elem_of_In He].
    apply list_elem_of_fmap. exists (j, e). split; [done|].
    by apply list_elem_of_filter.
  - intros Hk. right. split; [done|].
    induction (V1.cache c) as [|[k0 e0] m IH]; [done|].
    cbn [find] in Hfind. rewrite filter_cons. simpl in *.
    destruct (V1.isExpired now e0); [done|].
    rewrite decide_False by done. auto.
Qed.

End V1Evict.

Section V2Evict.
Context `{JsNum} {V : Type}.
Implicit Types (c : V2.SmartCache (V:=V)) (k : SerializableKey)
  (ks : list SerializableKey)
  (w : V2.World (V:=V)) (s : V2.World (V:=V) * V2.SmartCache (V:=V)).

Lemma v2_cleanExpired_keys now c :
  NoDup (V2.map c).*1 ->
  NoDup (V2.map (V2.cleanExpired now c)).*1
  /\ forall x, x ∈ (V2.map (V2.cleanExpired now c)).*1
               <-> x ∈ (V2.map c).*1 /\ x ∉ v2_expired_keys now c.
Proof.
  intros Hnd. rewrite (v2_cleanExpired_fold now c None).
  rewrite (proj1 (v2_fold_delete now None (v2_expired_keys now c) c)).
  rewrite jm_fold_delete_filter by done. split.
  - eapply sublist_NoDup; [exact Hnd|]. apply fmap_sublist, sublist_filter.
  - intros x. rewrite !list_elem_of_fmap. split.
    + intros ([k a] & -> & [Hk Hin]%list_elem_of_filter). split; [|done].
      by exists (k, a).
    + intros [([k a] & -> & Hin) Hx]. exists (k, a). split; [done|].
      by apply list_elem_of_filter.
Qed.

(** The keys [evictLRU()] leaves: the non-expired ones, less the key of the
    tail node if the purge did not make room. *)
Lemma v2_evictLRU_keys now c :
  NoDup (V2.map c).*1 ->
  forall x, x ∈ (V2.map (V2.evictLRU now c)).*1
    <-> x ∈ (V2.map c).*1 /\ (x ∉ v2_expired_keys now c)
        /\ (v2_at_capacity (V2.cleanExpired now c) = true ->
            v2_tail_key (V2.cleanExpired now c) <> Some x).
Proof.
  intros Hnd x. destruct (v2_cleanExpired_keys now c Hnd) as [Hnd1 Hk1].
  rewrite v2_evictLRU_map. cbv zeta.
  destruct (v2_at_capacity (V2.cleanExpired now c)).
  - destruct (v2_tail_key (V2.cleanExpired now c)) as [kt|].
    + rewrite jm_delete_key_elem, Hk1 by done. naive_solver.
    + rewrite Hk1. naive_solver.
  - rewrite Hk1. naive_solver.
Qed.

(** The keys after [set] of a new key on a full cache. *)
Lemma v2_set_full_keys k v ttlMs now w c :
  NoDup (V2.map c).*1 -> jm_has k (V2.map c) = false ->
  v2_at_capacity c = true ->
  (V2.map (V2.set k v ttlMs now (w, c)).2).*1
  = (V2.map (V2.evictLRU now c)).*1 ++ [k].
Proof.
  intros Hnd Hhas Hfull. rewrite v2_set_eq.
  pose proof Hhas as Hget. unfold jm_has in Hget.
  destruct (jm_get k (V2.map c)); [done|]. cbv zeta. v2_cbn.
  unfold v2_set_pre. rewrite Hfull. rewrite jm_set_keys.
  assert (jm_has k (V2.map (V2.evictLRU now c)) = false) as ->; [|done].
  apply jm_has_false. rewrite v2_evictLRU_keys by done.
  apply jm_has_false in Hhas. tauto.
Qed.

End V2Evict.

Section JsMapSubset.
Context {K A : Type} `{EqDecision K}.
Implicit Types (m : list (K * A)).

Lemma jm_delete_key_subset k m x : x ∈ (jm_delete k m).*1 -> x ∈ m.*1.
Proof.
  induction m as [|[k0 v0] m IH]; cbn [jm_delete]; [done|].
  csimpl. case_decide; [by right|].
  csimpl. intros [->|Hx]%elem_of_cons; [left|right; auto].
Qed.

Lemma jm_fold_delete_key_subset (ks0 : list K) m x :
  x ∈ (fold_left (fun m k => jm_delete k m) ks0 m).*1 -> x ∈ m.*1.
Proof.
  revert m. induction ks0 as [|k ks0 IH]; intros m; cbn [fold_left]; [done|].
  intros Hx%IH. by eapply jm_delete_key_subset.
Qed.

Lemma jm_set_key_elem k v m x :
  x ∈ (jm_set k v m).*1 <-> x = k \/ x ∈ m.*1.
Proof.
  rewrite jm_set_keys. destruct (jm_has k m) eqn:E.
  - apply jm_has_true in E. naive_solver.
  - rewrite elem_of_app, list_elem_of_singleton. tauto.
Qed.
End JsMapSubset.

Section V1Absent.
Context `{JsNum} {V : Type}.
Implicit Types (c : V1.SmartCache (V:=V)) (k : SerializableKey)
  (ks : list SerializableKey)
  (w : V1.World (V:=V)) (s : V1.World (V:=V) * V1.SmartCache (V:=V)).

Lemma v1_cleanExpired_subset now w c x :
  x ∈ (V1.cache (V1.cleanExpired now (w, c)).2).*1 -> x ∈ (V1.cache c).*1.
Proof.
  unfold V1.cleanExpired. rewrite v1_fold_delete_cache.
  apply jm_fold_delete_key_subset.
Qed.

(** A key enters the store only by a [set] of that key. *)
Lemma v1_step_keys o now w c x :
  x ∈ (V1.cache (v1_step o now (w, c)).2).*1 ->
  x ∈ (V1.cache c).*1 \/ sets_key x o.
Proof.
  destruct o as [k v ttl|k|k|k| |]; cbn [v1_step sets_key].
  - rewrite v1_set_cache, jm_set_key_elem. intros [->|Hx]; [by right|left].
    revert Hx. unfold v1_set_pre. destruct (jm_has k (V1.cache c)).
    + by rewrite (proj1 (v1_removeFromLRU_frame _ _)).
    + case_bool_decide; [|done]. rewrite v1_evictLRU_delete.
      destruct (v1_victim now c); [|done]. rewrite v1_delete_cache.
      apply jm_delete_key_subset.
  - intros Hx. left. revert Hx.
    destruct (jm_get k (V1.cache c)) as [e|] eqn:Hget;
      [|by rewrite v1_get_absent].
    destruct (V1.isExpired now e) eqn:He.
    + rewrite (v1_get_expired _ _ _ e) by done. cbn [snd].
      rewrite v1_delete_cache. apply jm_delete_key_subset.
    + rewrite (v1_get_live _ _ _ _ e) by done.
      cbn [snd]. rewrite (proj1 (v1_moveToFront_frame _ _)).
      cbn [V1.with_cache V1.cache]. rewrite jm_set_key_elem.
      intros [->|]; [|done]. apply jm_get_is_Some. by rewrite Hget.
  - intros Hx. left. revert Hx. rewrite v1_has_state. cbn [snd].
    repeat case_match; try done.
    rewrite v1_delete_cache. apply jm_delete_key_subset.
  - intros Hx. left. revert Hx.
    rewrite v1_delete_cache. apply jm_delete_key_subset.
  - by intros ?%elem_of_nil.
  - unfold V1.size. cbn [snd]. intros Hx. left.
    by eapply v1_cleanExpired_subset.
Qed.

Lemma v1_run_absent k tr w c :
  k ∉ (V1.cache c).*1 -> Forall (fun on => ~ sets_key k on.1) tr ->
  k ∉ (V1.cache (v1_run tr (w, c)).2).*1.
Proof.
  revert w c. induction tr as [|[o now] tr IH]; intros w c Hk Hno; [done|].
  apply Forall_cons in Hno as [Ho Hno]. cbn [v1_run fold_left fst snd].
  destruct (v1_step o now (w, c)) as [w1 c1] eqn:E. apply IH; [|done].
  intros Hin. pose proof (v1_step_keys o now w c k) as Hs.
  rewrite E in Hs. destruct (Hs Hin); done.
Qed.

Lemma v1_wf_absent c k :
  v1_wf c -> k ∉ (V1.cache c).*1 -> k ∉ v1_lru_keys c.
Proof.
  intros [ks Habs]. rewrite (v1_abs_lru_keys _ _ Habs).
  destruct Habs as (L & _ & <- & _ & Hiff). by rewrite Hiff.
Qed.

Lemma v1_isExpired_after now (e : V1.CacheEntry (V:=V)) t :
  V1.expiresAt e = Some t -> now > t -> V1.isExpired now e = true.
Proof.
  intros He Ht. unfold V1.isExpired. rewrite He. by apply bool_decide_eq_true.
Qed.

End V1Absent.

Section V2Absent.
Context `{JsNum} {V : Type}.
Implicit Types (c : V2.SmartCache (V:=V)) (k : SerializableKey)
  (ks : list SerializableKey)
  (w : V2.World (V:=V)) (s : V2.World (V:=V) * V2.SmartCache (V:=V)).

Lemma v2_cleanExpired_subset now c x :
  x ∈ (V2.map (V2.cleanExpired now c)).*1 -> x ∈ (V2.map c).*1.
Proof.
  rewrite (v2_cleanExpired_fold now c None).
  rewrite (proj1 (v2_fold_delete now None (v2_expired_keys now c) c)).
  apply jm_fold_delete_key_subset.
Qed.

Lemma v2_evictLRU_subset now c x :
  x ∈ (V2.map (V2.evictLRU now c)).*1 -> x ∈ (V2.map c).*1.
Proof.
  rewrite v2_evictLRU_map. cbv zeta. intros Hx.
  apply (v2_cleanExpired_subset now). revert Hx.
  repeat case_match; try done. apply jm_delete_key_subset.
Qed.

(** A key enters the store only by a [set] of that key. *)
Lemma v2_step_keys o now w c x :
  x ∈ (V2.map (v2_step o now (w, c)).2).*1 ->
  x ∈ (V2.map c).*1 \/ sets_key x o.
Proof.
  destruct o as [k v ttl|k|k|k| |]; cbn [v2_step sets_key].
  - rewrite v2_set_eq. destruct (jm_get k (V2.map c)) as [a|]; [by left|].
    cbv zeta. v2_cbn. rewrite jm_set_key_elem. intros [->|Hx]; [by right|left].
    revert Hx. unfold v2_set_pre. destruct (v2_at_capacity c); [|done].
    apply v2_evictLRU_subset.
  - rewrite v2_get_map. intros Hx. left. revert Hx.
    repeat case_match; try done. apply jm_delete_key_subset.
  - intros Hx. left. revert Hx. rewrite v2_has_state. cbn [snd].
    repeat case_match; try done.
    rewrite v2_delete_map. apply jm_delete_key_subset.
  - intros Hx. left. revert Hx.
    rewrite v2_delete_map. apply jm_delete_key_subset.
  - by intros ?%elem_of_nil.
  - unfold V2.size. cbn [snd]. intros Hx. left.
    by eapply v2_cleanExpired_subset.
Qed.

Lemma v2_run_absent k tr w c :
  k ∉ (V2.map c).*1 -> Forall (fun on => ~ sets_key k on.1) tr ->
  k ∉ (V2.map (v2_run tr (w, c)).2).*1.
Proof.
  revert w c. induction tr as [|[o now] tr IH]; intros w c Hk Hno; [done|].
  apply Forall_cons in Hno as [Ho Hno]. cbn [v2_run fold_left fst snd].
  destruct (v2_step o now (w, c)) as [w1 c1] eqn:E. apply IH; [|done].
  intros Hin. pose proof (v2_step_keys o now w c k) as Hs.
  rewrite E in Hs. destruct (Hs Hin); done.
Qed.

Lemma v2_wf_absent c k :
  v2_wf c -> k ∉ (V2.map c).*1 -> k ∉ v2_lru_keys c.
Proof.
  intros [ks Habs]. rewrite (v2_abs_lru_keys _ _ Habs).
  by rewrite (v2_abs_keys _ _ Habs).
Qed.

Lemma v2_entry_expired_node now c k e :
  v2_entry c k = Some e -> v2_entry_expired now e = true ->
  exists a, jm_get k (V2.map c) = Some a
            /\ V2.isExpired now (V2.nodes c) a = true.
Proof.
  intros He Hx. unfold v2_entry in He.
  destruct (jm_get k (V2.map c)) as [a|] eqn:Hget; [|done].
  exists a. split; [done|].
  rewrite (v2_isExpired_entry now c k a Hget). unfold v2_entry.
  rewrite Hget. simpl in *. by rewrite He.
Qed.

End V2Absent.

Lemma truthy_v1_storage_name p :
  truthy_persist p = true -> truthy_string (v1_storage_name p) = true.
Proof. by destruct p as [[|]|s]. Qed.

Lemma truthy_v2_storage_name p :
  truthy_persist p = true -> truthy_string (v2_storage_name p) = true.
Proof. by destruct p as [[|]|s]. Qed.

Section V1Load.
Context `{JsNum} {V : Type}.
Implicit Types (c : V1.SmartCache (V:=V)) (k : SerializableKey)
  (d : list (string * option (V1.CacheEntry (V:=V)))).

(** A [null] property ends the restore: what follows it is not read, what
    precedes it stays. *)
Lemma v1_restore_null now d1 (str : string) d2 c :
  V1.restore now (d1 ++ (str, None) :: d2) c = V1.restore now d1 c.
Proof.
  revert c. induction d1 as [|[str1 [e|]] d1 IH]; intros c; simpl; [done| |done].
  by destruct (match V1.expiresAt e with Some t => _ | None => _ end).
Qed.

Lemma v1_restorable_live now d :
  Forall (fun kv => V1.isExpired now kv.2 = false) (v1_restorable now d).
Proof.
  induction d as [|[str [e|]] d IH]; simpl; [done| |done].
  destruct (V1.isExpired now e) eqn:E; [done|]. by constructor.
Qed.

(** Construction with persistence on and a [localStorage]. *)
Lemma v1_new_load maxSize_ defaultTTL_ p now st :
  truthy_persist p = true ->
  V1.new maxSize_ defaultTTL_ (Some p) now (Some st)
  = match getItem (v1_storage_name p) st with
    | Some (Doc d) =>
        V1.restore now d (V1.new (V:=V) maxSize_ defaultTTL_ (Some p) now None)
    | _ => V1.new maxSize_ defaultTTL_ (Some p) now None
    end.
Proof.
  intros Hp. pose proof (truthy_v1_storage_name p Hp) as Hn.
  unfold V1.new, V1.loadFromStorage. cbv zeta. simpl.
  rewrite Hp. cbn [V1.storageKey].
  fold (v1_storage_name p). rewrite Hn.
  by destruct (getItem (v1_storage_name p) st) as [[|d]|].
Qed.

Lemma v1_new_None_abs maxSize_ defaultTTL_ p now :
  v1_abs (V1.new (V:=V) maxSize_ defaultTTL_ p now None) []
  /\ V1.cache (V1.new (V:=V) maxSize_ defaultTTL_ p now None) = [].
Proof.
  unfold V1.new, V1.loadFromStorage. cbv zeta.
  destruct (truthy_persist _); [destruct (truthy_string _)|];
    (split; [apply v1_empty_abs|done]).
Qed.

Lemma v1_new_cache maxSize_ defaultTTL_ p now st d :
  truthy_persist p = true ->
  getItem (v1_storage_name p) st = Some (Doc d) -> NoDup d.*1 ->
  let c := V1.new maxSize_ defaultTTL_ (Some p) now (Some st) in
  V1.cache c = v1_restorable now d
  /\ v1_abs c (rev (v1_restorable now d).*1).
Proof.
  intros Hp Hget Hnd c. unfold c. rewrite v1_new_load, Hget by done.
  destruct (v1_new_None_abs maxSize_ defaultTTL_ (Some p) now) as [Habs Hc].
  destruct (v1_restore_abs now d _ [] Habs) as (Ha & Hcache & _).
  { rewrite Hc. simpl. by apply v1_restorable_NoDup. }
  rewrite app_nil_r in Ha. by rewrite Hcache, Hc.
Qed.

End V1Load.

Section V2Load.
Context `{JsNum} {V : Type}.
Implicit Types (c : V2.SmartCache (V:=V)) (k : SerializableKey)
  (d : list (string * option (V2.SerializedEntry (V:=V)))).

Lemma v2_restore_null now d1 (str : string) d2 c :
  V2.restore now (d1 ++ (str, None) :: d2) c = V2.restore now d1 c.
Proof.
  revert c. induction d1 as [|[str1 [e|]] d1 IH]; intros c;
    cbn [V2.restore app]; [done| |done].
  destruct (match V2.ser_expiresAt e with Some t => _ | None => _ end);
    [apply IH|].
  unfold alloc. cbv zeta beta iota. apply IH.
Qed.

Lemma v2_new_load maxSize_ defaultTTL_ p now st :
  truthy_persist p = true ->
  V2.new maxSize_ defaultTTL_ (Some p) now (Some st)
  = match getItem (v2_storage_name p) st with
    | Some (Doc d) =>
        V2.restore now d (V2.new (V:=V) maxSize_ defaultTTL_ (Some p) now None)
    | _ => V2.new maxSize_ defaultTTL_ (Some p) now None
    end.
Proof.
  intros Hp. pose proof (truthy_v2_storage_name p Hp) as Hn.
  unfold V2.new, V2.loadFromStorage. rewrite Hp. cbn [V2.persistKey].
  fold (v2_storage_name p). rewrite Hn.
  by destruct (getItem (v2_storage_name p) st) as [[|d]|].
Qed.

Lemma v2_new_None_abs maxSize_ defaultTTL_ p now :
  v2_abs (V2.new (V:=V) maxSize_ defaultTTL_ p now None) []
  /\ V2.map (V2.new (V:=V) maxSize_ defaultTTL_ p now None) = []
  /\ V2.nodes (V2.new (V:=V) maxSize_ defaultTTL_ p now None) = [].
Proof.
  unfold V2.new, V2.loadFromStorage.
  destruct p as [p|]; [destruct (truthy_persist p)|];
    (split_and!; [apply v2_empty_abs|done|done]).
Qed.


Lemma v2_nodes_live_payload now (h h' : list (V2.LRUNode (V:=V))) :
  v2_same_payload h h' -> v2_nodes_live now h -> v2_nodes_live now h'.
Proof. intros Hp Hl b. by rewrite (v2_isExpired_ext now h h' b Hp). Qed.

Lemma v2_restore_live now d c :
  v2_nodes_live now (V2.nodes c) ->
  v2_nodes_live now (V2.nodes (V2.restore now d c)).
Proof.
  revert c. induction d as [|[str [e|]] d IH]; intros c Hl;
    cbn [V2.restore]; [done| |done].
  destruct (match V2.ser_expiresAt e with Some t => _ | None => _ end) eqn:Ex;
    [by apply IH|].
  unfold alloc. cbv zeta beta iota. apply IH. v2_cbn.
  match goal with
  | |- v2_nodes_live now (V2.addToFront ?a (?h, ?dl)).1 =>
      apply (v2_nodes_live_payload now h);
        [intros b; apply v2_addToFront_payload|]
  end.
  intros b. unfold V2.isExpired.
  destruct (decide (b < length (V2.nodes c))%nat).
  - rewrite lookup_app_l by done. apply Hl.
  - rewrite lookup_app_r by lia.
    destruct (b - length (V2.nodes c))%nat; [|done]. done.
Qed.

Lemma v2_new_keys maxSize_ defaultTTL_ p now st d :
  truthy_persist p = true ->
  getItem (v2_storage_name p) st = Some (Doc d) ->
  NoDup (v2_restorable now d).*1 ->
  let c := V2.new maxSize_ defaultTTL_ (Some p) now (Some st) in
  (V2.map c).*1 = (v2_restorable now d).*1
  /\ v2_abs c (rev (v2_restorable now d).*1)
  /\ v2_nodes_live now (V2.nodes c).
Proof.
  intros Hp Hget Hnd c. unfold c. rewrite v2_new_load, Hget by done.
  destruct (v2_new_None_abs maxSize_ defaultTTL_ (Some p) now)
    as (Habs & Hm & Hh).
  destruct (v2_restore_abs now d _ [] Habs) as (Ha & Hmap & _); [done|].
  rewrite app_nil_r in Ha. rewrite Hmap, Hm. split_and!; [done|done|].
  apply v2_restore_live. rewrite Hh. intros b. done.
Qed.

End V2Load.

Section JsMapFold.
Context {K A : Type} `{EqDecision K}.
Lemma jm_fold_delete_NoDup (ks0 : list K) (m : list (K * A)) :
  NoDup m.*1 -> NoDup (fold_left (fun m k => jm_delete k m) ks0 m).*1.
Proof.
  revert m. induction ks0 as [|k ks0 IH]; intros m Hnd; [done|].
  cbn [fold_left]. by apply IH, jm_delete_NoDup.
Qed.
End JsMapFold.

Section MapNoDup.
Context `{JsNum} {V : Type}.

(** The store of either implementation is a [Map]: no key twice. *)
Lemma v1_step_NoDup o now w (c : V1.SmartCache (V:=V)) :
  NoDup (V1.cache c).*1 -> NoDup (V1.cache (v1_step o now (w, c)).2).*1.
Proof.
  intros Hnd. destruct o as [k v ttl|k|k|k| |]; cbn [v1_step].
  - rewrite v1_set_cache. apply jm_set_NoDup. unfold v1_set_pre.
    destruct (jm_has k (V1.cache c)).
    + by rewrite (proj1 (v1_removeFromLRU_frame _ _)).
    + case_bool_decide; [|done]. rewrite v1_evictLRU_delete.
      destruct (v1_victim now c); [|done].
      rewrite v1_delete_cache. by apply jm_delete_NoDup.
  - destruct (jm_get k (V1.cache c)) as [e|] eqn:Hget;
      [|by rewrite v1_get_absent].
    destruct (V1.isExpired now e) eqn:He.
    + rewrite (v1_get_expired _ _ _ e) by done. cbn [snd].
      rewrite v1_delete_cache. by apply jm_delete_NoDup.
    + rewrite (v1_get_live _ _ _ _ e) by done.
      cbn [snd]. rewrite (proj1 (v1_moveToFront_frame _ _)).
      by apply jm_set_NoDup.
  - rewrite v1_has_state. cbn [snd]. repeat case_match; try done.
    rewrite v1_delete_cache. by apply jm_delete_NoDup.
  - rewrite v1_delete_cache. by apply jm_delete_NoDup.
  - apply NoDup_nil_2.
  - unfold V1.size. cbn [snd]. unfold V1.cleanExpired.
    rewrite v1_fold_delete_cache. by apply jm_fold_delete_NoDup.
Qed.

Lemma v1_restore_NoDup now d (c : V1.SmartCache (V:=V)) :
  NoDup (V1.cache c).*1 -> NoDup (V1.cache (V1.restore now d c)).*1.
Proof.
  revert c. induction d as [|[str [e|]] d IH]; intros c Hnd; cbn [V1.restore];
    [done| |done].
  case_match; apply IH; [done|].
  rewrite (proj1 (v1_addToLRU_frame _ _)). by apply jm_set_NoDup.
Qed.

Lemma v1_reachable_NoDup (s : V1.World * V1.SmartCache (V:=V)) :
  (exists maxSize_ defaultTTL_ persist_ now0 w0 tr,
     s = v1_run tr (w0, V1.new maxSize_ defaultTTL_ persist_ now0 w0)) ->
  NoDup (V1.cache s.2).*1.
Proof.
  intros (N & dttl & p & now0 & w0 & tr & ->).
  assert (NoDup (V1.cache (V1.new (V:=V) N dttl p now0 w0)).*1) as Hnd.
  { unfold V1.new, V1.loadFromStorage. cbv zeta.
    repeat case_match; try apply NoDup_nil_2.
    all: apply v1_restore_NoDup, NoDup_nil_2. }
  generalize dependent (V1.new (V:=V) N dttl p now0 w0). intros c.
  revert w0 c. induction tr as [|[o now] tr IH]; intros w c Hnd; [done|].
  cbn [v1_run fold_left fst snd].
  pose proof (v1_step_NoDup o now w c Hnd) as Hs.
  destruct (v1_step o now (w, c)) as [w1 c1]. by apply IH.
Qed.

Lemma v2_step_NoDup o now w (c : V2.SmartCache (V:=V)) :
  NoDup (V2.map c).*1 -> NoDup (V2.map (v2_step o now (w, c)).2).*1.
Proof.
  intros Hnd. destruct o as [k v ttl|k|k|k| |]; cbn [v2_step].
  - rewrite v2_set_eq. destruct (jm_get k (V2.map c)) as [a|]; [done|].
    cbv zeta. v2_cbn. apply jm_set_NoDup. unfold v2_set_pre.
    destruct (v2_at_capacity c); [|done].
    rewrite v2_evictLRU_map. cbv zeta.
    destruct (v2_cleanExpired_keys now c Hnd) as [Hnd1 _].
    repeat case_match; try done. by apply jm_delete_NoDup.
  - rewrite v2_get_map. repeat case_match; try done. by apply jm_delete_NoDup.
  - rewrite v2_has_state. cbn [snd]. repeat case_match; try done.
    rewrite v2_delete_map. by apply jm_delete_NoDup.
  - rewrite v2_delete_map. by apply jm_delete_NoDup.
  - apply NoDup_nil_2.
  - unfold V2.size. cbn [snd]. by apply v2_cleanExpired_keys.
Qed.

Lemma v2_restore_NoDup now d (c : V2.SmartCache (V:=V)) :
  NoDup (V2.map c).*1 -> NoDup (V2.map (V2.restore now d c)).*1.
Proof.
  revert c. induction d as [|[str [e|]] d IH]; intros c Hnd; cbn [V2.restore];
    [done| |done].
  case_match; [by apply IH|]. unfold alloc. cbv zeta beta iota.
  apply IH. v2_cbn. by apply jm_set_NoDup.
Qed.

Lemma v2_reachable_NoDup (s : V2.World * V2.SmartCache (V:=V)) :
  v2_reachable s -> NoDup (V2.map s.2).*1.
Proof.
  intros (N & dttl & p & now0 & w0 & tr & ->).
  assert (NoDup (V2.map (V2.new (V:=V) N dttl p now0 w0)).*1) as Hnd.
  { unfold V2.new, V2.loadFromStorage.
    repeat case_match; try apply NoDup_nil_2.
    all: apply v2_restore_NoDup, NoDup_nil_2. }
  generalize dependent (V2.new (V:=V) N dttl p now0 w0). intros c.
  revert w0 c. induction tr as [|[o now] tr IH]; intros w c Hnd; [done|].
  cbn [v2_run fold_left fst snd].
  pose proof (v2_step_NoDup o now w c Hnd) as Hs.
  destruct (v2_step o now (w, c)) as [w1 c1]. by apply IH.
Qed.

(** Construction of implementation 2 gives lockstep when the names of the
    entries it restores convert to pairwise distinct keys. *)
Lemma v2_new_wf maxSize_ defaultTTL_ persist_ now (w : V2.World (V:=V)) :
  (forall st name d, w = Some st -> getItem name st = Some (Doc d) ->
     NoDup (v2_restorable now d).*1) ->
  v2_wf (V2.new maxSize_ defaultTTL_ persist_ now w).
Proof.
  intros Hok. unfold V2.new, V2.loadFromStorage.
  repeat case_match; subst; try (eexists; apply v2_empty_abs).
  all: eexists; eapply v2_restore_abs; [apply v2_empty_abs|].
  all: simpl; eapply Hok; eauto.
Qed.

End MapNoDup.

Section V1Persist.
Context `{JsNum} {V : Type}.
Implicit Types (c : V1.SmartCache (V:=V)) (k : SerializableKey)
  (w : V1.World (V:=V)).

Lemma v1_new_None_eq maxSize_ defaultTTL_ p now :
  V1.new (V:=V) maxSize_ defaultTTL_ (Some p) now None
  = {| V1.cache := []; V1.lruMap := []; V1.nodes := []; V1.head := None;
       V1.tail := None;
       V1.options := {| V1.maxSize := maxSize_;
                        V1.defaultTTL := default 0 defaultTTL_;
                        V1.persist := p |};
       V1.storageKey := v1_storage_name p |}.
Proof.
  unfold V1.new, V1.loadFromStorage. cbv zeta. simpl.
  by destruct p as [[|]|str]; simpl; repeat case_match.
Qed.

(** [set] of a new key below capacity: nothing is evicted. *)
Lemma v1_set_fresh k v ttlMs now (s : V1.World * V1.SmartCache (V:=V)) :
  jm_has k (V1.cache s.2) = false ->
  jm_size (V1.cache s.2) < V1.maxSize (V1.options s.2) ->
  V1.set k v ttlMs now s
  = let c' := V1.addToLRU k
                (V1.with_cache
                   (jm_set k (v1_entry v ttlMs now (V1.options s.2))
                      (V1.cache s.2))
                   s.2) in
    (if truthy_persist (V1.persist (V1.options s.2))
     then V1.saveToStorage now c' s.1 else s.1, c').
Proof.
  destruct s as [w c]. cbn [fst snd].
  intros Hhas Hlt. unfold V1.set. rewrite Hhas.
  rewrite bool_decide_eq_false_2 by lia. cbv beta iota zeta. simpl andb.
  cbv beta iota zeta.
  by rewrite (proj1 (proj2 (v1_addToLRU_frame _ _))).
Qed.

Lemma v1_parseKey_nan (str : string) :
  str <> "true" -> str <> "false" -> isNaN (Number str) = true ->
  V1.parseKey str = KStr str.
Proof.
  intros Ht Hf Hn. unfold V1.parseKey.
  rewrite decide_False by (by intros [|]). by rewrite Hn.
Qed.

(** What [saveToStorage()] writes, and where. *)
Lemma v1_saveToStorage_Some now c st :
  truthy_string (V1.storageKey c) = true ->
  exists st', V1.saveToStorage now c (Some st) = Some st'
    /\ getItem (V1.storageKey c) st' = Some (Doc (V1.snapshot now (V1.cache c)))
    /\ forall name, name <> V1.storageKey c -> getItem name st' = getItem name st.
Proof.
  intros Hn. unfold V1.saveToStorage. rewrite Hn. eexists. split; [done|].
  unfold getItem, setItem. split; [apply jm_get_set_eq|].
  intros name Hne. by apply jm_get_set_ne.
Qed.

Lemma v1_saveToStorage_is_Some now c w :
  is_Some w -> is_Some (V1.saveToStorage now c w).
Proof. intros [st ->]. unfold V1.saveToStorage. by destruct (truthy_string _). Qed.

Lemma v1_delete_is_Some k now w c :
  is_Some w -> is_Some (V1.delete k now (w, c)).1.
Proof.
  intros Hw. unfold V1.delete. destruct (jm_has k (V1.cache c)); [|done].
  cbn [fst]. destruct (truthy_persist _); [|done].
  by apply v1_saveToStorage_is_Some.
Qed.

Lemma v1_evictLRU_is_Some now w c :
  is_Some w -> is_Some (V1.evictLRU now (w, c)).1.
Proof.
  intros Hw. unfold V1.evictLRU. cbn [snd].
  repeat case_match; try done; by apply v1_delete_is_Some.
Qed.

Lemma v1_set_storageKey k v ttlMs now w c :
  V1.storageKey (V1.set k v ttlMs now (w, c)).2 = V1.storageKey c.
Proof.
  rewrite v1_set_eq. rewrite (proj2 (proj2 (v1_addToLRU_frame _ _))).
  cbn [V1.with_cache V1.storageKey]. unfold v1_set_pre.
  destruct (jm_has k (V1.cache c)).
  - apply v1_removeFromLRU_frame.
  - case_bool_decide; [|done]. rewrite v1_evictLRU_delete.
    destruct (v1_victim now c); [|done]. apply v1_delete_options.
Qed.

(** The world after [set]: the state [set] leaves is saved over the world
    the eviction left. *)
Lemma v1_set_world k v ttlMs now w c :
  (V1.set k v ttlMs now (w, c)).1
  = let w1 := if jm_has k (V1.cache c) then w
              else if bool_decide (jm_size (V1.cache c)
                                   >= V1.maxSize (V1.options c))
                   then (V1.evictLRU now (w, c)).1 else w in
    if truthy_persist (V1.persist (V1.options c))
    then V1.saveToStorage now (V1.set k v ttlMs now (w, c)).2 w1 else w1.
Proof.
  pose proof (v1_set_options k v ttlMs now w c) as Ho. revert Ho.
  unfold V1.set.
  destruct (jm_has k (V1.cache c)) eqn:Hhas.
  - pose proof (v1_removeFromLRU_frame k c) as (Hc & Ho & _).
    cbv beta iota zeta. rewrite !Hc, !Ho, Hhas, andb_false_r.
    cbv beta iota zeta. cbn [fst snd]. by intros ->.
  - cbv beta iota zeta. rewrite Hhas, andb_true_r.
    case_bool_decide; cbv beta iota zeta.
    + destruct (V1.evictLRU now (w, c)) as [w1 c1] eqn:E. cbn [fst snd].
      by intros ->.
    + cbn [fst snd]. by intros ->.
Qed.

(** With persistence on and a [localStorage], [set] leaves under the
    cache's name the snapshot of the store it leaves. *)
Lemma v1_set_saved k v ttlMs now st c :
  truthy_persist (V1.persist (V1.options c)) = true ->
  truthy_string (V1.storageKey c) = true ->
  let s' := V1.set k v ttlMs now (Some st, c) in
  exists st', s'.1 = Some st'
    /\ getItem (V1.storageKey c) st'
       = Some (Doc (V1.snapshot now (V1.cache s'.2))).
Proof.
  intros Hp Hn s'. unfold s'. rewrite v1_set_world. cbv zeta. rewrite Hp.
  match goal with
  | |- context [V1.saveToStorage now ?c1 ?w1] =>
      assert (is_Some w1) as [st1 ->]
  end.
  { repeat case_match; try done. by apply v1_evictLRU_is_Some. }
  match goal with
  | |- context [V1.saveToStorage now ?c1 (Some st1)] =>
      destruct (v1_saveToStorage_Some now c1 st1) as (st' & -> & Hget & _)
  end.
  { by rewrite v1_set_storageKey. }
  exists st'. split; [done|]. by rewrite v1_set_storageKey in Hget.
Qed.

(** [set] of a new key below capacity appends to the store. *)
Lemma v1_set_fresh_cache k v ttlMs now w c :
  jm_has k (V1.cache c) = false ->
  jm_size (V1.cache c) < V1.maxSize (V1.options c) ->
  V1.cache (V1.set k v ttlMs now (w, c)).2
  = V1.cache c ++ [(k, v1_entry v ttlMs now (V1.options c))].
Proof.
  intros Hhas Hlt. rewrite v1_set_cache. unfold v1_set_pre.
  rewrite Hhas, bool_decide_eq_false_2 by lia.
  apply jm_has_false in Hhas. clear Hlt. revert Hhas.
  generalize (v1_entry v ttlMs now (V1.options c)).
  induction (V1.cache c) as [|[k0 e0] m IH]; intros e; [done|].
  csimpl. intros [? ?]%not_elem_of_cons. cbn [jm_set].
  rewrite decide_False by done. f_equal. auto.
Qed.

End V1Persist.

Lemma omap_ext_in {A B} (f g : A -> option B) (l : list A) :
  (forall x, x ∈ l -> f x = g x) -> omap f l = omap g l.
Proof.
  induction l as [|x l IH]; intros Hfg; [done|].
  cbn [omap list_omap]. rewrite (Hfg x) by left.
  rewrite IH; [done|]. intros y Hy. apply Hfg. by right.
Qed.

Section V2Persist.
Context `{JsNum} {V : Type}.
Implicit Types (c : V2.SmartCache (V:=V)) (k : SerializableKey)
  (w : V2.World (V:=V)).

Lemma v2_new_None_eq maxSize_ defaultTTL_ p now :
  truthy_persist p = true ->
  V2.new (V:=V) maxSize_ defaultTTL_ (Some p) now None
  = {| V2.map := []; V2.lruList := {| V2.head := None; V2.tail := None |};
       V2.nodes := []; V2.maxSize := maxSize_; V2.defaultTTL := defaultTTL_;
       V2.persistKey := Some (v2_storage_name p) |}.
Proof. intros Hp. unfold V2.new, V2.loadFromStorage. by rewrite Hp. Qed.


Lemma v2_wf_valid c : v2_wf c -> v2_valid c.
Proof.
  intros (ks & L & (_ & _ & Hperm & Hkeys) & _) k a Hin.
  rewrite Hperm in Hin. specialize (Hkeys k a Hin).
  apply lookup_lt_is_Some. by destruct (V2.nodes c !! a).
Qed.

Lemma v2_store_keys c : v2_valid c -> (v2_store c).*1 = (V2.map c).*1.
Proof.
  unfold v2_store, v2_valid. induction (V2.map c) as [|[k a] m IH]; [done|].
  intros Hv. cbn [omap list_omap]. simpl.
  destruct (lookup_lt_is_Some_2 (V2.nodes c) a) as [n ->].
  { apply (Hv k). left. }
  csimpl. f_equal. apply IH. intros k' a' Hin. apply (Hv k'). by right.
Qed.

Lemma v2_entry_store c k :
  v2_valid c -> v2_entry c k = jm_get k (v2_store c).
Proof.
  unfold v2_store, v2_valid, v2_entry.
  induction (V2.map c) as [|[k0 a] m IH]; [done|].
  intros Hv. cbn [omap list_omap jm_get]. simpl.
  destruct (lookup_lt_is_Some_2 (V2.nodes c) a) as [n Hn].
  { apply (Hv k0). left. }
  rewrite Hn. csimpl. case_decide; subst.
  - simpl. by rewrite Hn.
  - apply IH. intros k' a' Hin. apply (Hv k'). by right.
Qed.

(** The persisted object is a function of the store. *)
Lemma v2_snapshot_store now c :
  V2.snapshot now c
  = fold_left
      (fun o '(k, e) =>
         if v2_entry_expired now e then o
         else obj_set (String_key k) (Some e) o)
      (v2_store c) [].
Proof.
  unfold V2.snapshot, v2_store. generalize (@nil (string * option (V2.SerializedEntry (V:=V)))).
  induction (V2.map c) as [|[k a] m IH]; intros o; [done|].
  cbn [fold_left omap list_omap]. simpl. unfold V2.isExpired.
  destruct (V2.nodes c !! a) as [n|] eqn:Hn; simpl.
  - rewrite IH. unfold v2_entry_expired. simpl.
    by destruct (V2.expiresAt n).
  - apply IH.
Qed.

Lemma v2_store_ext c c' :
  V2.map c' = V2.map c ->
  (forall k a, (k, a) ∈ V2.map c ->
     v2_payload <$> V2.nodes c' !! a = v2_payload <$> V2.nodes c !! a) ->
  v2_store c' = v2_store c.
Proof.
  intros Hm Hp. unfold v2_store. rewrite Hm. apply omap_ext_in.
  intros [k a] Hin. specialize (Hp k a Hin). simpl.
  destruct (V2.nodes c' !! a) as [n'|], (V2.nodes c !! a) as [n|];
    simpl in *; try done.
  injection Hp as _ Hv He. by rewrite Hv, He.
Qed.

(** Inserting a new key with a new node appends to the store. *)
Lemma v2_insert_store c k (n : V2.LRUNode (V:=V)) :
  v2_valid c -> k ∉ (V2.map c).*1 ->
  v2_store (V2.with_map (jm_set k (length (V2.nodes c)) (V2.map c))
              (V2.with_list
                 (V2.addToFront (length (V2.nodes c))
                    (V2.nodes c ++ [n], V2.lruList c)) c))
  = v2_store c ++ [(k, (v2_payload n).2)].
Proof.
  intros Hv Hk. unfold v2_store. v2_cbn.
  assert (jm_set k (length (V2.nodes c)) (V2.map c)
          = V2.map c ++ [(k, length (V2.nodes c))]) as ->.
  { clear Hv. induction (V2.map c) as [|[k0 a0] m IH]; [done|].
    csimpl in Hk. apply not_elem_of_cons in Hk as [? ?]. cbn [jm_set].
    rewrite decide_False by done. simpl. f_equal. auto. }
  rewrite omap_app. f_equal.
  - apply omap_ext_in. intros [k0 a0] Hin. cbn [fst snd].
    pose proof (v2_addToFront_payload (length (V2.nodes c))
                  (V2.nodes c ++ [n]) (V2.lruList c) a0) as Hp.
    rewrite lookup_app_l in Hp by (by eapply Hv).
    destruct ((V2.addToFront _ _).1 !! a0) as [n'|],
             (V2.nodes c !! a0) as [n0|]; simpl in *; try done.
    injection Hp as _ Hv' He'. by rewrite Hv', He'.
  - cbn [omap list_omap fst snd].
    pose proof (v2_addToFront_payload (length (V2.nodes c))
                  (V2.nodes c ++ [n]) (V2.lruList c) (length (V2.nodes c))) as Hp.
    rewrite lookup_app_r, Nat.sub_diag in Hp by lia.
    destruct ((V2.addToFront _ _).1 !! _) as [n'|]; simpl in *; [|done].
    injection Hp as _ Hv' He'. by rewrite Hv', He'.
Qed.

(** [set] of a new key below capacity appends to the store. *)
Lemma v2_set_fresh_store k v ttlMs now w c :
  v2_valid c -> k ∉ (V2.map c).*1 -> v2_at_capacity c = false ->
  v2_store (V2.set k v ttlMs now (w, c)).2
  = v2_store c
    ++ [(k, {| V2.ser_value := v; V2.ser_expiresAt := v2_expiry ttlMs now c |})].
Proof.
  intros Hv Hk Hcap. rewrite v2_set_eq.
  assert (jm_get k (V2.map c) = None) as -> by (by apply jm_get_None).
  cbv zeta. unfold v2_set_pre. rewrite Hcap. by rewrite v2_insert_store.
Qed.

(** One step of the restore loop. *)
Lemma v2_restore_cons now (str : string) e d c :
  V2.restore now ((str, Some e) :: d) c
  = if match V2.ser_expiresAt e with
       | None => false
       | Some t => bool_decide (now > t)
       end
    then V2.restore now d c
    else
      V2.restore now d
        (V2.with_map
           (jm_set (V2.convertKey str) (length (V2.nodes c)) (V2.map c))
           (V2.with_list
              (V2.addToFront (length (V2.nodes c))
                 (V2.nodes c
                    ++ [{| V2.key := V2.convertKey str;
                           V2.value := V2.ser_value e;
                           V2.expiresAt := V2.ser_expiresAt e;
                           V2.prev := None; V2.next := None |}],
                  V2.lruList c)) c)).
Proof.
  cbn [V2.restore].
  by destruct (match V2.ser_expiresAt e with Some t => _ | None => _ end).
Qed.

Lemma v2_restore_store now d c :
  v2_wf c -> NoDup ((V2.map c).*1 ++ (v2_restorable now d).*1) ->
  v2_store (V2.restore now d c) = v2_store c ++ v2_restorable now d.
Proof.
  revert c. induction d as [|[str [e|]] d IH]; intros c Hwf Hnd;
    [by rewrite app_nil_r| |by rewrite app_nil_r].
  rewrite v2_restore_cons. cbn [v2_restorable] in *.
  destruct (match V2.ser_expiresAt e with Some t => _ | None => _ end);
    [by apply IH|].
  rewrite fmap_cons in Hnd. cbn [fst] in Hnd.
  assert (V2.convertKey str ∉ (V2.map c).*1) as Hk.
  { apply NoDup_app in Hnd as (_ & Hd & _). intros Hin.
    apply (Hd _ Hin). left. }
  destruct Hwf as [ks Habs]. pose proof Habs as (L & Hrep & HL).
  rewrite IH.
  - rewrite v2_insert_store; [|apply v2_wf_valid; by exists ks|done].
    rewrite <- app_assoc. by destruct e.
  - exists (V2.convertKey str :: ks), ((V2.convertKey str, length (V2.nodes c)) :: L).
    split; [|by rewrite <- HL].
    apply (v2_insert_rep c L); [done| |done].
    rewrite HL, <- (v2_abs_keys _ _ Habs). done.
  - v2_cbn. rewrite jm_set_keys.
    assert (jm_has (V2.convertKey str) (V2.map c) = false) as ->
      by (by apply jm_has_false).
    by rewrite <- app_assoc.
Qed.

Lemma v2_syncToStorage_Some now c name st :
  V2.persistKey c = Some name -> truthy_string name = true ->
  V2.syncToStorage now c (Some st)
  = Some (setItem name (Doc (V2.snapshot now c)) st).
Proof. intros Hk Hn. unfold V2.syncToStorage. by rewrite Hk, Hn. Qed.

Lemma v2_set_world k v ttlMs now w c :
  (V2.set k v ttlMs now (w, c)).1
  = V2.syncToStorage now (V2.set k v ttlMs now (w, c)).2 w.
Proof.
  unfold V2.set. cbv zeta. destruct (jm_get k (V2.map c)); [done|].
  unfold alloc. done.
Qed.

End V2Persist.

Section V1RoundTrip.
Context `{JsNum} {V : Type}.
Implicit Types (c : V1.SmartCache (V:=V)) (k : SerializableKey)
  (s : V1.World (V:=V) * V1.SmartCache (V:=V)).

(** [set] of a new key below capacity. *)
Lemma v1_set_fresh_spec k v ttlMs now s :
  jm_has k (V1.cache s.2) = false ->
  jm_size (V1.cache s.2) < V1.maxSize (V1.options s.2) ->
  let s' := V1.set k v ttlMs now s in
  V1.cache s'.2 = V1.cache s.2 ++ [(k, v1_entry v ttlMs now (V1.options s.2))]
  /\ V1.options s'.2 = V1.options s.2
  /\ V1.storageKey s'.2 = V1.storageKey s.2
  /\ (is_Some s.1 ->
      truthy_persist (V1.persist (V1.options s.2)) = true ->
      truthy_string (V1.storageKey s.2) = true ->
      exists st', s'.1 = Some st'
        /\ getItem (V1.storageKey s.2) st'
           = Some (Doc (V1.snapshot now (V1.cache s'.2)))).
Proof.
  destruct s as [w c]. cbn [fst snd]. intros Hhas Hlt.
  split_and!.
  - by apply v1_set_fresh_cache.
  - apply v1_set_options.
  - apply v1_set_storageKey.
  - intros [st ->] Hp Hn. exact (v1_set_saved k v ttlMs now st c Hp Hn).
Qed.

(** [size()] is the number of entries not expired. *)
Lemma v1_size_live now s :
  NoDup (V1.cache s.2).*1 ->
  (V1.size now s).1
  = Z.of_nat (length (filter (fun kv => V1.isExpired now kv.2 <> true)
                        (V1.cache s.2))).
Proof.
  destruct s as [w c]. cbn [snd]. intros Hnd. unfold V1.size. cbn [fst snd].
  by rewrite v1_cleanExpired_cache.
Qed.

End V1RoundTrip.

Section V2RoundTrip.
Context `{JsNum} {V : Type}.
Implicit Types (c : V2.SmartCache (V:=V)) (k : SerializableKey)
  (s : V2.World (V:=V) * V2.SmartCache (V:=V)).

Lemma v2_set_fresh_spec k v ttlMs now s :
  v2_wf s.2 -> k ∉ (V2.map s.2).*1 -> v2_at_capacity s.2 = false ->
  let s' := V2.set k v ttlMs now s in
  v2_wf s'.2
  /\ v2_store s'.2
     = v2_store s.2
       ++ [(k, {| V2.ser_value := v;
                  V2.ser_expiresAt := v2_expiry ttlMs now s.2 |})]
  /\ v2_same_config s.2 s'.2
  /\ (forall st name, s.1 = Some st -> V2.persistKey s.2 = Some name ->
        truthy_string name = true ->
        s'.1 = Some (setItem name (Doc (V2.snapshot now s'.2)) st)).
Proof.
  destruct s as [w c]. cbn [fst snd]. intros Hwf Hk Hcap.
  split_and!.
  - apply (v2_step_wf (OSet k v ttlMs) now (w, c) Hwf).
  - apply v2_set_fresh_store; [by apply v2_wf_valid|done|done].
  - apply v2_set_config.
  - intros st name -> Hpk Hn. rewrite v2_set_world.
    apply v2_syncToStorage_Some; [|done].
    by rewrite (proj2 (proj2 (v2_set_config k v ttlMs now (Some st) c))).
Qed.

(** [size()] is the number of entries not expired. *)
Lemma v2_size_live now s :
  v2_wf s.2 ->
  (V2.size now s).1
  = Z.of_nat (length (filter (fun ke => v2_entry_expired now ke.2 <> true)
                        (v2_store s.2))).
Proof.
  destruct s as [w c]. cbn [snd]. intros Hwf. unfold V2.size. cbn [fst snd].
  rewrite v2_cleanExpired_map by (destruct Hwf; by eapply v2_abs_map_NoDup).
  unfold jm_size. f_equal. apply v2_wf_valid in Hwf.
  unfold v2_store, v2_valid in *.
  induction (V2.map c) as [|[k a] m IH]; [done|].
  destruct (lookup_lt_is_Some_2 (V2.nodes c) a) as [n Hn].
  { apply (Hwf k). left. }
  rewrite filter_cons. cbn [omap list_omap]. cbn [fst snd]. rewrite Hn.
  cbn [mbind option_bind]. rewrite filter_cons. cbn [snd].
  assert (V2.isExpired now (V2.nodes c) a
          = v2_entry_expired now (v2_payload n).2) as ->.
  { unfold V2.isExpired, v2_entry_expired. by rewrite Hn. }
  assert (length (filter (fun ka => V2.isExpired now (V2.nodes c) ka.2 <> true) m)
          = length (filter (fun ke => v2_entry_expired now ke.2 <> true)
                      (omap (fun ka => n ← V2.nodes c !! ka.2;
                                       Some (ka.1, (v2_payload n).2)) m)))
    as IH'.
  { apply IH. intros k' a' Hin. apply (Hwf k'). by right. }
  destruct (decide (v2_entry_expired now (v2_payload n).2 <> true));
    simpl; by rewrite IH'.
Qed.

End V2RoundTrip.

Section V2RoundTripMore.
Context `{JsNum} {V : Type}.
Implicit Types (c : V2.SmartCache (V:=V)) (k : SerializableKey).

Lemma v2_below_capacity c :
  v2_wf c ->
  (forall n, V2.maxSize c = Some n -> Z.of_nat (length (v2_store c)) < n) ->
  v2_at_capacity c = false.
Proof.
  intros Hwf Hlt. unfold v2_at_capacity. destruct (V2.maxSize c) as [n|]; [|done].
  apply bool_decide_eq_false_2. specialize (Hlt n eq_refl).
  unfold jm_size. rewrite <- (length_fmap fst), <- v2_store_keys, length_fmap
    by (by apply v2_wf_valid). lia.
Qed.

Lemma v2_expiry_None now c :
  V2.defaultTTL c = None -> v2_expiry None now c = None.
Proof. intros Hd. unfold v2_expiry. by rewrite Hd. Qed.

(** The store of a cache constructed from a blob. *)
Lemma v2_new_store maxSize_ defaultTTL_ p now
    (st : list (string * blob (V2.SerializedEntry (V:=V)))) d :
  truthy_persist p = true ->
  getItem (v2_storage_name p) st = Some (Doc d) ->
  NoDup (v2_restorable now d).*1 ->
  let c := V2.new maxSize_ defaultTTL_ (Some p) now (Some st) in
  v2_wf c /\ v2_store c = v2_restorable now d.
Proof.
  intros Hp Hget Hnd c. unfold c. rewrite v2_new_load, Hget by done.
  destruct (v2_new_None_abs (V:=V) maxSize_ defaultTTL_ (Some p) now)
    as (Habs & Hm & Hh).
  split.
  - eexists. by eapply v2_restore_abs.
  - rewrite v2_restore_store; [|by eexists|by rewrite Hm].
    unfold v2_store. by rewrite Hm.
Qed.

End V2RoundTripMore.

(** * Main results *)

(** ** What [set] evicts *)

(** C1, at the failing input: an earlier cache of implementation 2 with
    persistence on stores the string keys ["01"], ["x"] and ["001"]; a
    second cache with [maxSize = 2] is constructed on what it saved.  The
    loader converts ["01"] and ["001"] both to the number 1: the store
    holds the keys 1 and ["x"], and the entry of key 1 belongs to the node
    at the head of the list (value 3, restored last), while the tail is
    another node that also carries the key 1.  Nothing is expired and the
    store is full.  [set] of the new key ["y"] removes the tail node and
    deletes its key from the store: the entry of key 1, at the head and
    not expired, is gone, the older ["x"] stays, and the head node stays
    in the list without an entry. *)
Theorem v2_eviction_removes_most_recent :
  let w0 : V2.World (V:=Z) := Some [] in
  let s0 := v2_run [(OSet (KStr "01") 1 None, 1); (OSet (KStr "x") 2 None, 2);
                    (OSet (KStr "001") 3 None, 3)]
              (w0, V2.new (H:=DecNum) (Some 3) None (Some (PStr "p")) 0 w0) in
  let c := V2.new (Some 2) None (Some (PStr "p")) 5 s0.1 in
  let s := V2.set (KStr "y") 4 None 6 (s0.1, c) in
  s0.1 = Some [("p", Doc [("01", Some {| V2.ser_value := 1;
                                         V2.ser_expiresAt := None |});
                          ("x", Some {| V2.ser_value := 2;
                                        V2.ser_expiresAt := None |});
                          ("001", Some {| V2.ser_value := 3;
                                          V2.ser_expiresAt := None |})])]
  /\ jm_has (KStr "y") (V2.map c) = false
  /\ v2_at_capacity c = true
  /\ v2_expired_keys 6 c = []
  /\ V2.map c = [(KNum (Some 1), 2%nat); (KStr "x", 1%nat)]
  /\ v2_order c = [2%nat; 1%nat; 0%nat]
  /\ V2.head (V2.lruList c) = Some 2%nat
  /\ V2.tail (V2.lruList c) = Some 0%nat
  /\ v2_tail_key c = Some (KNum (Some 1))
  /\ v2_entry c (KNum (Some 1))
     = Some {| V2.ser_value := 3; V2.ser_expiresAt := None |}
  /\ V2.map s.2 = [(KStr "x", 1%nat); (KStr "y", 3%nat)]
  /\ v2_order s.2 = [3%nat; 2%nat; 1%nat]
  /\ v2_lru_keys s.2 = [KStr "y"; KNum (Some 1); KStr "x"]
  /\ (V2.get (KNum (Some 1)) 7 s).1 = None
  /\ (V2.get (KStr "x") 7 s).1 = Some 2.
Proof.
  intros w0 s0 c s. split_and!; reflexivity.
Qed.

(** ** Expired entries *)

(** C2, at the failing input: an earlier cache of implementation 2 with
    persistence on stores the string keys ["01"] and ["001"], both
    expiring at time 10; a second cache is constructed on what it saved at
    time 5.  Both names convert to the number 1: the store holds the key 1
    once, the list holds two nodes for it.  At time 11 [get], [has] and
    [size()] report the key absent, and each of them, like [delete],
    removes the entry from the store but only one of the two nodes from
    the list: the key 1 stays in the recency list.  When the key 1 is set
    again later, the next [set] of a new key on the full cache removes
    that stale tail node and with it the fresh entry of key 1, while the
    older ["a"] stays. *)
Theorem v2_expired_key_stays_listed :
  let w0 : V2.World (V:=Z) := Some [] in
  let s0 := v2_run [(OSet (KStr "01") 1 (Some 9), 1);
                    (OSet (KStr "001") 2 (Some 8), 2)]
              (w0, V2.new (H:=DecNum) (Some 2) None (Some (PStr "p")) 0 w0) in
  let c := V2.new (Some 2) None (Some (PStr "p")) 5 s0.1 in
  let s := (s0.1, c) in
  let after (o : op) := (v2_step o 11 s).2 in
  let s' := v2_run [(OGet (KNum (Some 1)), 11); (OSet (KStr "a") 5 None, 12);
                    (OSet (KNum (Some 1)) 6 None, 13);
                    (OSet (KStr "z") 7 None, 14)] s in
  s0.1 = Some [("p", Doc [("01", Some {| V2.ser_value := 1;
                                         V2.ser_expiresAt := Some 10 |});
                          ("001", Some {| V2.ser_value := 2;
                                          V2.ser_expiresAt := Some 10 |})])]
  /\ (V2.map c).*1 = [KNum (Some 1)]
  /\ v2_lru_keys c = [KNum (Some 1); KNum (Some 1)]
  /\ v2_entry c (KNum (Some 1))
     = Some {| V2.ser_value := 2; V2.ser_expiresAt := Some 10 |}
  /\ (V2.get (KNum (Some 1)) 11 s).1 = None
  /\ (V2.has (KNum (Some 1)) 11 s).1 = false
  /\ (V2.size 11 s).1 = 0
  /\ Forall (fun o => V2.map (after o) = []
                      /\ v2_lru_keys (after o) = [KNum (Some 1)])
       [OGet (KNum (Some 1)); OHas (KNum (Some 1)); OSize;
        ODelete (KNum (Some 1))]
  /\ (V2.map s'.2).*1 = [KStr "a"; KStr "z"]
  /\ (V2.get (KNum (Some 1)) 15 s').1 = None
  /\ (V2.get (KStr "a") 15 s').1 = Some 5.
Proof.
  intros w0 s0 c s after s'. split_and!; try reflexivity.
  repeat constructor.
Qed.

(** ** Capacity *)

(** C3, counterexample: with [maxSize = 0] one [set] on the empty cache
    leaves one entry, in both implementations. *)
Lemma capacity_zero_exceeded :
  let s1 := V1.set (H:=DecNum) (V:=Z) (KStr "a") 1 None 0
              (None, V1.new 0 None None 0 None) in
  let s2 := V2.set (H:=DecNum) (V:=Z) (KStr "a") 1 None 0
              (None, V2.new (Some 0) None None 0 None) in
  (V1.size 0 s1).1 = 1 /\ (V2.size 0 s2).1 = 1
  /\ ~ (V1.size 0 s1).1 <= 0 /\ ~ (V2.size 0 s2).1 <= 0.
Proof.
  intros s1 s2.
  assert ((V1.size 0 s1).1 = 1) as E1 by (vm_compute; reflexivity).
  assert ((V2.size 0 s2).1 = 1) as E2 by (vm_compute; reflexivity).
  rewrite E1, E2. repeat split; lia.
Qed.

(** C3 (amended): for [maxSize = N] with [N >= 1], after any sequence of
    calls (in particular of [set] calls) on a cache constructed empty,
    [size()] is at most [N]; this holds in both implementations. *)
Theorem capacity_bound `{JsNum} {V : Type} (N : Z) (dttl1 dttl2 : option Z)
    (p1 p2 : option persist_opt) (now0 now : Z)
    (w1 : V1.World (V:=V)) (w2 : V2.World (V:=V)) (tr : list (op * Z)) :
  1 <= N ->
  let c1 := V1.new N dttl1 p1 now0 w1 in
  let c2 := V2.new (Some N) dttl2 p2 now0 w2 in
  (V1.cache c1 = [] -> (V1.size now (v1_run tr (w1, c1))).1 <= N)
  /\ (V2.map c2 = [] -> (V2.size now (v2_run tr (w2, c2))).1 <= N).
Proof.
  intros HN c1 c2. split.
  - intros Hemp%v1_new_empty.
    destruct (v1_run_bound tr w1 c1 [] Hemp) as (ks & Habs & Hle).
    + unfold c1. by rewrite v1_new_options.
    + unfold c1. rewrite v1_new_options. simpl. lia.
    + unfold c1 in Hle. rewrite v1_new_options in Hle. cbn [V1.maxSize] in Hle.
      destruct (v1_run tr (w1, c1)) as [w c] eqn:E. cbn [snd] in Habs.
      rewrite (v1_size_result now w c ks Habs).
      pose proof (length_filter (fun x => x ∉ v1_expired_keys now c) ks). lia.
  - intros Hemp%v2_new_empty.
    destruct (v2_run_bound tr w2 c2 [] N Hemp) as (ks & Habs & Hle).
    + apply v2_new_config.
    + done.
    + simpl. lia.
    + destruct (v2_run tr (w2, c2)) as [w c] eqn:E. cbn [snd] in Habs.
      rewrite (v2_size_result now w c ks Habs).
      pose proof (length_filter (fun x => x ∉ v2_expired_keys now c) ks). lia.
Qed.

Lemma capacity_bound_witness :
  let tr := [(OSet (KStr "a") 1 None, 1); (OSet (KStr "b") 2 None, 2)] in
  (V1.size (H:=DecNum) (V:=Z) 3 (v1_run tr (None, V1.new 1 None None 0 None))).1 <= 1
  /\ (V2.size (H:=DecNum) (V:=Z) 3 (v2_run tr (None, V2.new (Some 1) None None 0 None))).1 <= 1.
Proof.
  intros tr.
  destruct (capacity_bound (H:=DecNum) (V:=Z) 1 None None None None 0 3 None None tr)
    as [H1 H2]; [lia|].
  split; [apply H1|apply H2]; reflexivity.
Defined.

(** ** An explicit TTL that is zero or negative *)




(** ** Promotion and eviction order *)

Opaque V1.set V1.get V1.has V1.size V1.new V2.set V2.get V2.has V2.size V2.new.

(** C5: on a cache constructed empty with [maxSize = 3] and no TTL, after
    [set(a)], [set(b)], [set(c)], [get(a)], the call [set(d)] evicts [b]:
    [b] was present before it and is absent after it, while [a], [c] and [d]
    are present, in the recency order [d; a; c].  This holds in both
    implementations, for any four distinct keys, values and call times. *)
Theorem lru_promotion_scenario `{JsNum} {V : Type}
    (a b c d : SerializableKey) (va vb vc vd : V) (t1 t2 t3 t4 t5 t6 : Z) :
  NoDup [a; b; c; d] ->
  (forall p now0 (w0 : V1.World),
     let c0 := V1.new 3 None p now0 w0 in
     let s3 := V1.set c vc None t3
                 (V1.set b vb None t2 (V1.set a va None t1 (w0, c0))) in
     let s4 := (V1.get a t4 s3).2 in
     let s5 := V1.set d vd None t5 s4 in
     V1.cache c0 = [] ->
     (V1.has b t5 s4).1 = true
     /\ (V1.has b t6 s5).1 = false
     /\ (V1.has a t6 s5).1 = true /\ (V1.has c t6 s5).1 = true
     /\ (V1.has d t6 s5).1 = true
     /\ v1_lru_keys s5.2 = [d; a; c] /\ (V1.size t6 s5).1 = 3)
  /\ (forall p now0 (w0 : V2.World),
     let c0 := V2.new (Some 3) None p now0 w0 in
     let s3 := V2.set c vc None t3
                 (V2.set b vb None t2 (V2.set a va None t1 (w0, c0))) in
     let s4 := (V2.get a t4 s3).2 in
     let s5 := V2.set d vd None t5 s4 in
     V2.map c0 = [] ->
     (V2.has b t5 s4).1 = true
     /\ (V2.has b t6 s5).1 = false
     /\ (V2.has a t6 s5).1 = true /\ (V2.has c t6 s5).1 = true
     /\ (V2.has d t6 s5).1 = true
     /\ v2_lru_keys s5.2 = [d; a; c] /\ (V2.size t6 s5).1 = 3).
Proof.
  intros Hnd. destruct (lru_scenario a b c d Hnd) as (E3 & E4 & E5).
  assert (a <> b /\ a <> c /\ a <> d /\ b <> c /\ b <> d /\ c <> d)
    as (Hab & Hac & Had & Hbc & Hbd & Hcd).
  { repeat match goal with
           | Hx : NoDup (_ :: _) |- _ => apply NoDup_cons in Hx as [? Hx]
           end. set_solver. }
  split.
  - intros p now0 w0 c0 s3 s4 s5 Hemp.
    assert (v1_live (w0, c0).2 [] 3) as L0.
    { cbn [snd].
      split_and!; [by apply v1_new_empty|unfold v1_never_expires; by rewrite Hemp
                  |unfold c0; by rewrite v1_new_options
                  |unfold c0; by rewrite v1_new_options]. }
    apply (v1_live_set a va t1), (v1_live_set b vb t2), (v1_live_set c vc t3) in L0.
    rewrite E3 in L0. fold s3 in L0.
    apply (v1_live_get a t4) in L0; [|set_solver]. rewrite E4 in L0. fold s4 in L0.
    pose proof (v1_live_set d vd t5 _ _ _ L0) as L5. rewrite E5 in L5. fold s5 in L5.
    rewrite (v1_live_has b t5 s4 _ _ L0), !(v1_live_has _ t6 s5 _ _ L5),
      (v1_live_size t6 s5 _ _ L5).
    rewrite (v1_abs_lru_keys _ _ (proj1 L5)).
    rewrite (bool_decide_eq_true_2 (b ∈ [a; c; b])) by set_solver.
    rewrite (bool_decide_eq_true_2 (a ∈ [d; a; c])) by set_solver.
    rewrite (bool_decide_eq_true_2 (c ∈ [d; a; c])) by set_solver.
    rewrite (bool_decide_eq_true_2 (d ∈ [d; a; c])) by set_solver.
    rewrite (bool_decide_eq_false_2 (b ∈ [d; a; c])); [done|].
    rewrite !elem_of_cons, elem_of_nil. intros [->|[->|[->|[]]]]; done.
  - intros p now0 w0 c0 s3 s4 s5 Hemp.
    assert (v2_live (w0, c0).2 [] 3) as L0.
    { cbn [snd].
      split_and!; [by apply v2_new_empty| |apply v2_new_config|apply v2_new_config].
      intros i nd. unfold c0. by rewrite v2_new_empty_nodes. }
    apply (v2_live_set a va t1), (v2_live_set b vb t2), (v2_live_set c vc t3) in L0.
    rewrite E3 in L0. fold s3 in L0.
    apply (v2_live_get a t4) in L0; [|set_solver]. rewrite E4 in L0. fold s4 in L0.
    pose proof (v2_live_set d vd t5 _ _ _ L0) as L5. rewrite E5 in L5. fold s5 in L5.
    rewrite (v2_live_has b t5 s4 _ _ L0), !(v2_live_has _ t6 s5 _ _ L5),
      (v2_live_size t6 s5 _ _ L5).
    rewrite (v2_abs_lru_keys _ _ (proj1 L5)).
    rewrite (bool_decide_eq_true_2 (b ∈ [a; c; b])) by set_solver.
    rewrite (bool_decide_eq_true_2 (a ∈ [d; a; c])) by set_solver.
    rewrite (bool_decide_eq_true_2 (c ∈ [d; a; c])) by set_solver.
    rewrite (bool_decide_eq_true_2 (d ∈ [d; a; c])) by set_solver.
    rewrite (bool_decide_eq_false_2 (b ∈ [d; a; c])); [done|].
    rewrite !elem_of_cons, elem_of_nil. intros [->|[->|[->|[]]]]; done.
Qed.


Transparent V1.set V1.get V1.has V1.size V1.new V2.set V2.get V2.has V2.size V2.new.

Lemma lru_promotion_scenario_witness :
  let s3 := V1.set (H:=DecNum) (V:=Z) (KStr "c") 3 None 3
              (V1.set (KStr "b") 2 None 2
                 (V1.set (KStr "a") 1 None 1 (None, V1.new 3 None None 0 None))) in
  let s5 := V1.set (KStr "d") 4 None 5 (V1.get (KStr "a") 4 s3).2 in
  (V1.has (KStr "b") 6 s5).1 = false /\ v1_lru_keys s5.2 = [KStr "d"; KStr "a"; KStr "c"].
Proof.
  intros s3 s5.
  destruct (lru_promotion_scenario (H:=DecNum) (V:=Z)
              (KStr "a") (KStr "b") (KStr "c") (KStr "d") 1 2 3 4 1 2 3 4 5 6)
    as [H1 _].
  - apply (bool_decide_unpack _); vm_compute; exact I.
  - destruct (H1 None 0 None) as (_ & Hb & _ & _ & _ & Hk & _); [reflexivity|].
    split; [exact Hb|exact Hk].
Defined.

(** ** Persistence round trip *)

(** C6: a cache with persistence on is given the string keys [x], [y], [z]
    without TTL (so that it holds exactly these three never-expiring
    entries); a second cache is then constructed against the same name,
    with any capacity and default TTL, at any later time.  The second
    cache returns the three values and has size 3.  Both implementations;
    [Number] of the three names is [NaN]. *)
Theorem persistence_round_trip `{JsNum} {V : Type} (vx vy vz : V)
    (N N' : Z) (ms ms' dttl' : option Z) (p : persist_opt)
    (t0 t1 t2 t3 t4 t5 : Z)
    (st1 : list (string * blob (V1.CacheEntry (V:=V))))
    (st2 : list (string * blob (V2.SerializedEntry (V:=V))))
    (w1 : V1.World (V:=V)) (w2 : V2.World (V:=V)) :
  isNaN (Number "x") = true -> isNaN (Number "y") = true ->
  isNaN (Number "z") = true ->
  truthy_persist p = true ->
  3 <= N -> (forall n, ms = Some n -> 3 <= n) ->
  w1 = Some st1 -> getItem (v1_storage_name p) st1 = None ->
  w2 = Some st2 -> getItem (v2_storage_name p) st2 = None ->
  (let s3 := V1.set (KStr "z") vz None t3
               (V1.set (KStr "y") vy None t2
                  (V1.set (KStr "x") vx None t1
                     (w1, V1.new N None (Some p) t0 w1))) in
   let s' := (s3.1, V1.new N' dttl' (Some p) t4 s3.1) in
   (V1.cache s3.2).*1 = [KStr "x"; KStr "y"; KStr "z"]
   /\ (V1.get (KStr "x") t5 s').1 = Some vx
   /\ (V1.get (KStr "y") t5 s').1 = Some vy
   /\ (V1.get (KStr "z") t5 s').1 = Some vz
   /\ (V1.size t5 s').1 = 3)
  /\ (let s3 := V2.set (KStr "z") vz None t3
                  (V2.set (KStr "y") vy None t2
                     (V2.set (KStr "x") vx None t1
                        (w2, V2.new ms None (Some p) t0 w2))) in
      let s' := (s3.1, V2.new ms' dttl' (Some p) t4 s3.1) in
      (V2.map s3.2).*1 = [KStr "x"; KStr "y"; KStr "z"]
      /\ (V2.get (KStr "x") t5 s').1 = Some vx
      /\ (V2.get (KStr "y") t5 s').1 = Some vy
      /\ (V2.get (KStr "z") t5 s').1 = Some vz
      /\ (V2.size t5 s').1 = 3).
Proof.
  intros Hx Hy Hz Hp HN Hms -> Hf1 -> Hf2.
  assert (V1.parseKey "x" = KStr "x" /\ V1.parseKey "y" = KStr "y"
          /\ V1.parseKey "z" = KStr "z") as (Px & Py & Pz).
  { split_and!; by apply v1_parseKey_nan. }
  assert (V2.convertKey "x" = KStr "x" /\ V2.convertKey "y" = KStr "y"
          /\ V2.convertKey "z" = KStr "z") as (Qx & Qy & Qz).
  { unfold V2.convertKey. by rewrite Hx, Hy, Hz. }
  split.
  - rewrite v1_new_load, Hf1 by done.
    match goal with
    | |- context [V1.set (KStr "x") vx None t1 ?s] => set (s0 := s)
    end.
    assert (V1.cache s0.2 = [] /\ V1.options s0.2
                = {| V1.maxSize := N; V1.defaultTTL := 0; V1.persist := p |}
            /\ V1.storageKey s0.2 = v1_storage_name p /\ is_Some s0.1)
      as (C0 & O0 & K0 & W0).
    { unfold s0. cbn [fst snd]. by rewrite v1_new_None_eq. }
    clearbody s0.
    pose proof (truthy_v1_storage_name p Hp) as Hn.
    destruct (v1_set_fresh_spec (KStr "x") vx None t1 s0) as (C1 & O1 & K1 & S1).
    { by rewrite C0. } { rewrite C0, O0. simpl. unfold jm_size. simpl. lia. }
    set (s1 := V1.set (KStr "x") vx None t1 s0) in *. clearbody s1.
    rewrite C0, O0 in C1. rewrite O0 in O1. rewrite K0 in K1.
    destruct S1 as (st1' & W1 & _); [done|by rewrite O0|by rewrite K0|].
    destruct (v1_set_fresh_spec (KStr "y") vy None t2 s1) as (C2 & O2 & K2 & S2).
    { by rewrite C1. } { rewrite C1, O1. unfold jm_size. simpl. lia. }
    set (s2 := V1.set (KStr "y") vy None t2 s1) in *. clearbody s2.
    rewrite C1, O1 in C2. rewrite O1 in O2. rewrite K1 in K2.
    destruct S2 as (st2' & W2 & _);
      [by rewrite W1|by rewrite O1|by rewrite K1|].
    destruct (v1_set_fresh_spec (KStr "z") vz None t3 s2) as (C3 & O3 & K3 & S3).
    { by rewrite C2. } { rewrite C2, O2. unfold jm_size. simpl. lia. }
    set (s3 := V1.set (KStr "z") vz None t3 s2) in *. clearbody s3.
    rewrite C2, O2 in C3. rewrite O2 in O3. rewrite K2 in K3.
    destruct S3 as (st3 & W3 & G3);
      [by rewrite W2|by rewrite O2|by rewrite K2|].
    rewrite K2, C3 in G3. cbv zeta. rewrite W3.
    match type of G3 with
    | _ = Some (Doc ?d) =>
        assert (d = [("x", Some {| V1.value := vx; V1.expiresAt := None;
                                   V1.lastUsed := t1 |});
                     ("y", Some {| V1.value := vy; V1.expiresAt := None;
                                   V1.lastUsed := t2 |});
                     ("z", Some {| V1.value := vz; V1.expiresAt := None;
                                   V1.lastUsed := t3 |})]) as Hd
          by reflexivity;
        rewrite Hd in G3; clear Hd
    end.
    destruct (v1_new_cache N' dttl' p t4 st3 _ Hp G3) as [Cn An].
    { apply (bool_decide_unpack _). vm_compute. exact I. }
    cbn [v1_restorable V1.isExpired V1.expiresAt] in Cn, An.
    rewrite Px, Py, Pz in Cn, An.
    set (c' := V1.new N' dttl' (Some p) t4 (Some st3)) in *. clearbody c'.
    split_and!.
    + by rewrite C3.
    + rewrite v1_get_result. cbn [snd]. by rewrite Cn.
    + rewrite v1_get_result. cbn [snd]. by rewrite Cn.
    + rewrite v1_get_result. cbn [snd]. by rewrite Cn.
    + rewrite v1_size_live; cbn [snd]; rewrite Cn; [done|].
      apply (bool_decide_unpack _). vm_compute. exact I.
  - rewrite v2_new_load, Hf2 by done.
    match goal with
    | |- context [V2.set (KStr "x") vx None t1 ?s] => set (s0 := s)
    end.
    assert (v2_wf s0.2 /\ v2_store s0.2 = [] /\ V2.maxSize s0.2 = ms
            /\ V2.defaultTTL s0.2 = None
            /\ V2.persistKey s0.2 = Some (v2_storage_name p)
            /\ s0.1 = Some st2)
      as (F0 & C0 & M0 & D0 & K0 & W0).
    { unfold s0. cbn [fst snd]. rewrite v2_new_None_eq by done.
      split_and!; try done. eexists. apply v2_empty_abs. }
    clearbody s0.
    pose proof (truthy_v2_storage_name p Hp) as Hn.
    destruct (v2_set_fresh_spec (KStr "x") vx None t1 s0)
      as (F1 & C1 & (M1 & D1 & K1) & S1).
    { done. }
    { rewrite <- v2_store_keys, C0 by (by apply v2_wf_valid).
      apply not_elem_of_nil. }
    { apply v2_below_capacity; [done|]. rewrite C0, M0.
      intros n Hn'%Hms. simpl. lia. }
    set (s1 := V2.set (KStr "x") vx None t1 s0) in *. clearbody s1.
    rewrite C0, v2_expiry_None in C1 by done.
    specialize (S1 _ _ W0 K0 Hn).
    destruct (v2_set_fresh_spec (KStr "y") vy None t2 s1)
      as (F2 & C2 & (M2 & D2 & K2) & S2).
    { done. }
    { rewrite <- v2_store_keys, C1 by (by apply v2_wf_valid).
      apply (bool_decide_unpack _). vm_compute. exact I. }
    { apply v2_below_capacity; [done|]. rewrite C1, M1, M0.
      intros n Hn'%Hms. simpl. lia. }
    set (s2 := V2.set (KStr "y") vy None t2 s1) in *. clearbody s2.
    rewrite C1, v2_expiry_None in C2 by congruence.
    specialize (S2 _ _ S1 (eq_trans K1 K0) Hn).
    destruct (v2_set_fresh_spec (KStr "z") vz None t3 s2)
      as (F3 & C3 & (M3 & D3 & K3) & S3).
    { done. }
    { rewrite <- v2_store_keys, C2 by (by apply v2_wf_valid).
      apply (bool_decide_unpack _). vm_compute. exact I. }
    { apply v2_below_capacity; [done|]. rewrite C2, M2, M1, M0.
      intros n Hn'%Hms. simpl. lia. }
    set (s3 := V2.set (KStr "z") vz None t3 s2) in *. clearbody s3.
    rewrite C2, v2_expiry_None in C3 by congruence.
    specialize (S3 _ _ S2 (eq_trans K2 (eq_trans K1 K0)) Hn).
    cbv zeta. rewrite S3.
    match goal with
    | |- context [V2.new ms' dttl' (Some p) t4 (Some ?st)] =>
        destruct (v2_new_store ms' dttl' p t4 st
                    [("x", Some {| V2.ser_value := vx; V2.ser_expiresAt := None |});
                     ("y", Some {| V2.ser_value := vy; V2.ser_expiresAt := None |});
                     ("z", Some {| V2.ser_value := vz; V2.ser_expiresAt := None |})]
                    Hp) as [Fn Cn]
    end.
    { unfold getItem, setItem. rewrite jm_get_set_eq.
      by rewrite v2_snapshot_store, C3. }
    { cbn [v2_restorable V2.ser_expiresAt]. rewrite Qx, Qy, Qz.
      apply (bool_decide_unpack _). vm_compute. exact I. }
    cbn [v2_restorable V2.ser_expiresAt] in Cn. rewrite Qx, Qy, Qz in Cn.
    match goal with
    | |- context [V2.new ms' dttl' (Some p) t4 ?w] =>
        set (c' := V2.new ms' dttl' (Some p) t4 w) in *; clearbody c'
    end.
    split_and!.
    + by rewrite <- v2_store_keys, C3 by (by apply v2_wf_valid).
    + rewrite v2_get_result. cbn [snd].
      by rewrite v2_entry_store, Cn by (by apply v2_wf_valid).
    + rewrite v2_get_result. cbn [snd].
      by rewrite v2_entry_store, Cn by (by apply v2_wf_valid).
    + rewrite v2_get_result. cbn [snd].
      by rewrite v2_entry_store, Cn by (by apply v2_wf_valid).
    + rewrite v2_size_live by done. cbn [snd]. by rewrite Cn.
Qed.

Lemma persistence_round_trip_witness :
  let s3 := V1.set (H:=DecNum) (V:=Z) (KStr "z") 3 None 3
              (V1.set (KStr "y") 2 None 2
                 (V1.set (KStr "x") 100 None 1
                    (Some [], V1.new 5 None (Some (PBool true)) 0 (Some [])))) in
  (V1.get (KStr "x") 9 (s3.1, V1.new 1 None (Some (PBool true)) 8 s3.1)).1
  = Some 100.
Proof.
  intros s3.
  destruct (persistence_round_trip (H:=DecNum) (V:=Z) 100 2 3 5 1 (Some 5) None
              None (PBool true) 0 1 2 3 8 9 [] [] (Some []) (Some []))
    as [(_ & Hx & _) _];
    [reflexivity|reflexivity|reflexivity|reflexivity|lia
    |intros n [= <-]; lia|reflexivity|reflexivity|reflexivity|reflexivity
    |exact Hx].
Defined.

(** ** Decoding persisted keys *)




(** ** Restoring a damaged blob *)

(** C8, counterexample: a blob whose second property is [null] leaves the
    entry before it in the new cache, in both implementations. *)
Lemma restore_partial_on_null :
  let e1 := {| V1.value := 1; V1.expiresAt := None; V1.lastUsed := 0 |} in
  let e2 := {| V2.ser_value := 1; V2.ser_expiresAt := None |} in
  V1.cache (V1.new (H:=DecNum) (V:=Z) 10 None (Some (PStr "p")) 5
              (Some [("p", Doc [("a", Some e1); ("b", None)])]))
  = [(KStr "a", e1)]
  /\ (V2.map (V2.new (H:=DecNum) (V:=Z) (Some 10) None (Some (PStr "p")) 5
                (Some [("p", Doc [("a", Some e2); ("b", None)])]))).*1
     = [KStr "a"].
Proof. split; reflexivity. Qed.

(** C8 (amended): a stored text that does not parse restores nothing: the
    new cache is the one built without a [localStorage].  A [null] property
    in a blob that parses ends the restore where it stands: the properties
    after it are not read, the non-expired entries before it stay in the
    cache, and nothing is rolled back.  Both implementations. *)
Theorem restore_on_corrupt_blob `{JsNum} {V : Type}
    (N : Z) (ms dttl : option Z) (p : persist_opt) (now : Z)
    (st1 : list (string * blob (V1.CacheEntry (V:=V))))
    (st2 : list (string * blob (V2.SerializedEntry (V:=V)))) :
  truthy_persist p = true ->
  let new1 := V1.new N dttl (Some p) now in
  let new2 := V2.new ms dttl (Some p) now in
  (V1.cache (new1 None) = []
   /\ (getItem (v1_storage_name p) st1 = Some Unparsable ->
       new1 (Some st1) = new1 None)
   /\ (forall d1 str d2,
         getItem (v1_storage_name p) st1 = Some (Doc (d1 ++ (str, None) :: d2)) ->
         new1 (Some st1) = V1.restore now d1 (new1 None)
         /\ (NoDup d1.*1 -> V1.cache (new1 (Some st1)) = v1_restorable now d1)))
  /\ (V2.map (new2 None) = []
      /\ (getItem (v2_storage_name p) st2 = Some Unparsable ->
          new2 (Some st2) = new2 None)
      /\ (forall d1 str d2,
            getItem (v2_storage_name p) st2
            = Some (Doc (d1 ++ (str, None) :: d2)) ->
            new2 (Some st2) = V2.restore now d1 (new2 None)
            /\ (NoDup (v2_restorable now d1).*1 ->
                (V2.map (new2 (Some st2))).*1 = (v2_restorable now d1).*1))).
Proof.
  intros Hp. cbv zeta. split.
  - destruct (v1_new_None_abs (V:=V) N dttl (Some p) now) as [Habs Hc].
    split_and!; [done| |].
    + intros Hget. by rewrite v1_new_load, Hget.
    + intros d1 str d2 Hget.
      assert (V1.new N dttl (Some p) now (Some st1)
              = V1.restore now d1 (V1.new N dttl (Some p) now None)) as E.
      { by rewrite v1_new_load, Hget, v1_restore_null. }
      split; [done|]. intros Hnd. rewrite E.
      destruct (v1_restore_abs now d1 _ [] Habs) as (_ & Hcache & _).
      { rewrite Hc. simpl. by apply v1_restorable_NoDup. }
      by rewrite Hcache, Hc.
  - destruct (v2_new_None_abs (V:=V) ms dttl (Some p) now) as (Habs & Hm & _).
    split_and!; [done| |].
    + intros Hget. by rewrite v2_new_load, Hget.
    + intros d1 str d2 Hget.
      assert (V2.new ms dttl (Some p) now (Some st2)
              = V2.restore now d1 (V2.new ms dttl (Some p) now None)) as E.
      { by rewrite v2_new_load, Hget, v2_restore_null. }
      split; [done|]. intros Hnd. rewrite E.
      destruct (v2_restore_abs now d1 _ [] Habs) as (_ & Hmap & _); [done|].
      by rewrite Hmap, Hm.
Qed.

Lemma restore_on_corrupt_blob_witness :
  let e1 := {| V1.value := 1; V1.expiresAt := None; V1.lastUsed := 0 |} in
  V1.new (H:=DecNum) (V:=Z) 10 None (Some (PStr "p")) 5
    (Some [("p", Doc [("a", Some e1); ("b", None); ("c", Some e1)])])
  = V1.restore 5 [("a", Some e1)] (V1.new 10 None (Some (PStr "p")) 5 None).
Proof.
  intros e1.
  destruct (restore_on_corrupt_blob (H:=DecNum) (V:=Z) 10 None None (PStr "p") 5
              [("p", Doc [("a", Some e1); ("b", None); ("c", Some e1)])] [])
    as [(_ & _ & H1) _]; [reflexivity|].
  apply (H1 [("a", Some e1)] "b" [("c", Some e1)]). reflexivity.
Defined.

(** ** Restore and capacity *)

(** C10, counterexample: in implementation 2, with [maxSize = 1], a blob
    with the two non-expired entries ["01"] and ["001"] gives a cache whose
    [size()] is 1: the two names convert to the same key. *)
Lemma v2_restore_size_not_exceeding :
  let e := {| V2.ser_value := 1; V2.ser_expiresAt := None |} in
  (V2.size 5
     (None,
      V2.new (H:=DecNum) (V:=Z) (Some 1) None (Some (PStr "p")) 5
        (Some [("p", Doc [("01", Some e); ("001", Some e)])]))).1 = 1.
Proof. vm_compute. reflexivity. Qed.

(** C10 (amended): the restore does not look at [maxSize].  Right after
    construction from a blob, [size()] is the number of entries restored,
    that is of the non-expired entries that come before any [null]
    property, whatever [maxSize] is; so it exceeds [maxSize] when there are
    more of them.  In implementation 2 this needs the names of these
    entries to convert to pairwise distinct keys; in implementation 1
    distinct names always do. *)
Theorem restore_ignores_capacity `{JsNum} {V : Type}
    (N : Z) (ms dttl : option Z) (p : persist_opt) (now : Z)
    (st1 : list (string * blob (V1.CacheEntry (V:=V))))
    (st2 : list (string * blob (V2.SerializedEntry (V:=V)))) :
  truthy_persist p = true ->
  (forall d w, getItem (v1_storage_name p) st1 = Some (Doc d) -> NoDup d.*1 ->
     let n := (V1.size now (w, V1.new N dttl (Some p) now (Some st1))).1 in
     n = Z.of_nat (length (v1_restorable now d))
     /\ (Z.of_nat (length (v1_restorable now d)) > N -> n > N))
  /\ (forall d w, getItem (v2_storage_name p) st2 = Some (Doc d) ->
        NoDup (v2_restorable now d).*1 ->
        let n := (V2.size now (w, V2.new ms dttl (Some p) now (Some st2))).1 in
        n = Z.of_nat (length (v2_restorable now d))
        /\ (forall m, ms = Some m ->
              Z.of_nat (length (v2_restorable now d)) > m -> n > m)).
Proof.
  intros Hp. split.
  - intros d w Hget Hnd n.
    destruct (v1_new_cache N dttl p now st1 d Hp Hget Hnd) as [Hc Habs].
    assert (n = Z.of_nat (length (v1_restorable now d))) as E; [|split; [done|lia]].
    unfold n, V1.size. cbn [fst snd].
    rewrite v1_cleanExpired_cache by (rewrite Hc; by apply v1_restorable_NoDup).
    rewrite Hc. unfold jm_size. do 2 f_equal.
    apply filter_all. eapply Forall_impl; [apply v1_restorable_live|].
    intros kv Hkv. simpl in *. by rewrite Hkv.
  - intros d w Hget Hnd n.
    destruct (v2_new_keys ms dttl p now st2 d Hp Hget Hnd) as (Hk & Habs & Hl).
    assert (n = Z.of_nat (length (v2_restorable now d))) as E.
    2:{ split; [done|]. intros m _ ?. lia. }
    unfold n, V2.size. cbn [fst snd].
    rewrite v2_cleanExpired_map by (rewrite Hk; done).
    unfold jm_size. f_equal. rewrite filter_all.
    + by rewrite <- (length_fmap fst), Hk, length_fmap.
    + apply Forall_forall. intros [k a] _. simpl. by rewrite Hl.
Qed.

Lemma restore_ignores_capacity_witness :
  let e := {| V1.value := 1; V1.expiresAt := None; V1.lastUsed := 0 |} in
  (V1.size 5
     (None,
      V1.new (H:=DecNum) (V:=Z) 1 None (Some (PStr "p")) 5
        (Some [("p", Doc [("a", Some e); ("b", Some e)])]))).1 > 1.
Proof.
  intros e.
  destruct (restore_ignores_capacity (H:=DecNum) (V:=Z) 1 None None (PStr "p") 5
              [("p", Doc [("a", Some e); ("b", Some e)])] [])
    as [H1 _]; [reflexivity|].
  destruct (H1 [("a", Some e); ("b", Some e)] None) as [_ Hn].
  - reflexivity.
  - apply (bool_decide_unpack _). vm_compute. exact I.
  - apply Hn. vm_compute. reflexivity.
Defined.

(** ** Lockstep of store and recency list *)

(** C9, at the failing input: implementation 2 restores the blob with the
    names ["01"], ["x"], ["001"] into a store of two keys and a recency list
    of three nodes, two of them for the key 1; store and list are not in
    lockstep.  A later [set] of a new key on this full cache then removes
    the tail node, which carries the key 1, and with it the entry of key 1
    restored last, while the older ["x"] stays. *)
Theorem v2_restore_breaks_lockstep :
  let e i := {| V2.ser_value := i; V2.ser_expiresAt := None |} in
  let c := V2.new (H:=DecNum) (V:=Z) (Some 2) None (Some (PStr "p")) 5
             (Some [("p", Doc [("01", Some (e 1)); ("x", Some (e 2));
                               ("001", Some (e 3))])]) in
  let s := V2.set (KStr "y") 4 None 6 (None, c) in
  (V2.map c).*1 = [KNum (Some 1); KStr "x"]
  /\ v2_lru_keys c = [KNum (Some 1); KStr "x"; KNum (Some 1)]
  /\ ~ v2_wf c
  /\ (V2.get (KNum (Some 1)) 6 (None, c)).1 = Some 3
  /\ (V2.get (KNum (Some 1)) 7 s).1 = None
  /\ (V2.has (KStr "x") 7 s).1 = true.
Proof.
  intros e c s.
  assert ((V2.map c).*1 = [KNum (Some 1); KStr "x"]) as Hm by reflexivity.
  assert (v2_lru_keys c = [KNum (Some 1); KStr "x"; KNum (Some 1)]) as Hl
    by reflexivity.
  split_and!; try reflexivity.
  intros [ks Habs]. pose proof (v2_abs_length _ _ Habs) as Hlen.
  rewrite <- (v2_abs_lru_keys _ _ Habs), Hl in Hlen.
  rewrite <- (length_fmap fst), Hm in Hlen. discriminate.
Qed.

(** * Further properties *)

(** ** Lockstep *)

Section LockstepFacts.
Context `{JsNum} {V : Type}.

Lemma v1_abs_keys_perm (c : V1.SmartCache (V:=V)) ks :
  v1_abs c ks -> (V1.cache c).*1 ≡ₚ ks /\ (V1.lruMap c).*1 ≡ₚ ks.
Proof.
  intros Habs. pose proof (v1_abs_NoDup _ _ Habs) as Hnd.
  destruct Habs as (L & (_ & _ & Hperm & _) & <- & HndC & Hiff). split.
  - by apply NoDup_Permutation.
  - by rewrite Hperm.
Qed.

Lemma v1_abs_head_key (c : V1.SmartCache (V:=V)) ks :
  v1_abs c ks ->
  (a ← V1.head c; V1.key <$> V1.nodes c !! a) = head ks.
Proof.
  intros (L & (Hdll & _ & _ & Hkeys) & <- & _).
  destruct Hdll as (_ & _ & -> & _).
  destruct L as [|[k a] L]; [done|]. simpl. apply Hkeys. left.
Qed.



End LockstepFacts.

(** X1: In implementation 1 every reachable state is in lockstep: the keys of
    the store, the keys of the [lruMap] and the keys met on the walk from
    [head] along [next] are the same keys, each once; the walk ends in the
    node [tail] points to and starts in the node [head] points to. *)
Theorem v1_reachable_lockstep `{JsNum} {V : Type}
    (s : V1.World * V1.SmartCache (V:=V)) :
  v1_reachable s ->
  let c := s.2 in
  let ks := v1_lru_keys c in
  NoDup ks
  /\ (V1.cache c).*1 ≡ₚ ks /\ (V1.lruMap c).*1 ≡ₚ ks
  /\ (a ← V1.head c; V1.key <$> V1.nodes c !! a) = head ks
  /\ v1_tail_key c = last ks
  /\ jm_size (V1.cache c) = Z.of_nat (length ks).
Proof.
  intros [ks Habs]%v1_reachable_wf. cbv zeta.
  rewrite (v1_abs_lru_keys _ _ Habs).
  destruct (v1_abs_keys_perm _ _ Habs) as [Hc Hl].
  split_and!; try done.
  - by eapply v1_abs_NoDup.
  - by apply v1_abs_head_key.
  - by apply v1_abs_tail_key.
  - unfold jm_size. by rewrite (v1_abs_length _ _ Habs).
Qed.

Lemma v1_reachable_lockstep_witness :
  let s := v1_run (H:=DecNum) (V:=Z)
             [(OSet (KStr "a") 1 None, 1); (OSet (KStr "b") 2 None, 2);
              (OGet (KStr "a"), 3)]
             (None, V1.new 2 None None 0 None) in
  (V1.cache s.2).*1 ≡ₚ v1_lru_keys s.2.
Proof.
  intros s.
  destruct (v1_reachable_lockstep (H:=DecNum) (V:=Z) s) as (_ & Hp & _);
    [|exact Hp].
  exists 2, None, None, 0, None,
    [(OSet (KStr "a") 1 None, 1); (OSet (KStr "b") 2 None, 2);
     (OGet (KStr "a"), 3)].
  split; [|reflexivity]. intros st name d. discriminate.
Defined.


(** ** Reading, overwriting and deleting one key *)

Section EntryFrame.
Context `{JsNum} {V : Type}.
Implicit Types (c : V2.SmartCache (V:=V)) (k j : SerializableKey).

Lemma v2_entry_ext c c' j :
  jm_get j (V2.map c') = jm_get j (V2.map c) ->
  (forall b, jm_get j (V2.map c) = Some b ->
     v2_payload <$> V2.nodes c' !! b = v2_payload <$> V2.nodes c !! b) ->
  v2_entry c' j = v2_entry c j.
Proof.
  intros Hm Hp. rewrite !v2_entry_alt, Hm.
  destruct (jm_get j (V2.map c)) as [b|]; [|done]. simpl. by rewrite Hp.
Qed.

(** A node carries one key: two keys of a store in lockstep have two
    nodes. *)
Lemma v2_wf_addr_inj c k j a :
  v2_wf c -> jm_get k (V2.map c) = Some a -> jm_get j (V2.map c) = Some a ->
  k = j.
Proof.
  intros Hwf Hk Hj.
  destruct (v2_wf_node c k a Hwf Hk) as (n & Hn & <-).
  destruct (v2_wf_node c j a Hwf Hj) as (n' & Hn' & <-). congruence.
Qed.

Lemma v2_set_existing_other k v ttlMs now w c j :
  v2_wf c -> jm_has k (V2.map c) = true -> j <> k ->
  v2_entry (V2.set k v ttlMs now (w, c)).2 j = v2_entry c j.
Proof.
  intros Hwf Hhas Hne. unfold jm_has in Hhas.
  destruct (jm_get k (V2.map c)) as [a|] eqn:Hget; [|done].
  apply v2_entry_ext; rewrite v2_set_eq, Hget; [done|].
  intros b Hb. v2_cbn. rewrite v2_moveToFront_payload.
  assert (a <> b) as Hab.
  { intros ->. apply Hne. by eapply v2_wf_addr_inj. }
  by rewrite !list_lookup_alter_ne.
Qed.

Lemma v2_delete_other k now w c j :
  j <> k -> v2_entry (V2.delete k now (w, c)).2 j = v2_entry c j.
Proof.
  intros Hne. apply v2_entry_ext.
  - rewrite v2_delete_map. by apply jm_get_delete_ne.
  - intros b _. apply v2_delete_payload.
Qed.

End EntryFrame.

(** X3: [get] of a key that is present and not expired returns its value,
    moves the key to the front of the recency order and leaves the order
    of the other keys, the stored entries (but for the time of last use
    that implementation 1 records) and the persisted blob as they were. *)
Theorem get_promotes `{JsNum} {V : Type} (k : SerializableKey) (now : Z) :
  (forall (w : V1.World) (c : V1.SmartCache (V:=V)) e,
     v1_wf c -> jm_get k (V1.cache c) = Some e -> V1.isExpired now e = false ->
     let r := V1.get k now (w, c) in
     r.1 = Some (V1.value e) /\ r.2.1 = w
     /\ v1_lru_keys r.2.2 = k :: filter (fun x => x <> k) (v1_lru_keys c)
     /\ (V1.cache r.2.2).*1 = (V1.cache c).*1
     /\ jm_get k (V1.cache r.2.2)
        = Some {| V1.value := V1.value e; V1.expiresAt := V1.expiresAt e;
                  V1.lastUsed := now |}
     /\ forall j, j <> k -> jm_get j (V1.cache r.2.2) = jm_get j (V1.cache c))
  /\ (forall (w : V2.World) (c : V2.SmartCache (V:=V)) e,
        v2_wf c -> v2_entry c k = Some e -> v2_entry_expired now e = false ->
        let r := V2.get k now (w, c) in
        r.1 = Some (V2.ser_value e) /\ r.2.1 = w
        /\ v2_lru_keys r.2.2 = k :: filter (fun x => x <> k) (v2_lru_keys c)
        /\ V2.map r.2.2 = V2.map c
        /\ forall j, v2_entry r.2.2 j = v2_entry c j).
Proof.
  split.
  - intros w c e [ks Habs] Hget He. cbv zeta.
    pose proof (v1_get_abs k now w c ks Habs) as Hg. rewrite Hget, He in Hg.
    rewrite (v1_abs_lru_keys _ _ Hg), (v1_abs_lru_keys _ _ Habs).
    rewrite (v1_get_live _ _ _ _ e) by done. cbn [fst snd].
    rewrite (proj1 (v1_moveToFront_frame _ _)). cbn [V1.with_cache V1.cache].
    split_and!; try done.
    + rewrite jm_set_keys.
      assert (jm_has k (V1.cache c) = true) as ->; [|done].
      unfold jm_has. by rewrite Hget.
    + apply jm_get_set_eq.
    + intros j Hne. by apply jm_get_set_ne.
  - intros w c e [ks Habs] Hent He. cbv zeta.
    assert (exists a, jm_get k (V2.map c) = Some a
                      /\ V2.isExpired now (V2.nodes c) a = false)
      as (a & Hget & Hx).
    { pose proof Hent as Hent'. unfold v2_entry in Hent'.
      destruct (jm_get k (V2.map c)) as [a|] eqn:Hget; [|done].
      exists a. split; [done|].
      by rewrite (v2_isExpired_entry now c k a Hget), Hent. }
    pose proof (v2_get_abs k now w c ks Habs) as Hg. rewrite Hget, Hx in Hg.
    pose proof (v2_get_map k now w c) as Hm. rewrite Hget, Hx in Hm.
    pose proof (v2_get_result k now (w, c)) as Hr. cbn [snd] in Hr.
    rewrite Hent, He in Hr.
    rewrite (v2_abs_lru_keys _ _ Hg), (v2_abs_lru_keys _ _ Habs).
    split_and!; try done.
    + by rewrite (v2_get_live _ _ _ _ a).
    + intros j. apply v2_entry_ext; [by rewrite Hm|].
      intros b _. apply v2_get_payload.
Qed.

(** X4: [set] of a key that is already present never evicts, whatever the
    capacity: it replaces the entry of the key, moves the key to the front
    of the recency order and leaves the set of keys, the Map order and the
    entries of the other keys as they were. *)
Theorem set_existing_key `{JsNum} {V : Type}
    (k : SerializableKey) (v : V) (ttlMs : option Z) (now : Z) :
  (forall (w : V1.World) (c : V1.SmartCache (V:=V)),
     v1_wf c -> jm_has k (V1.cache c) = true ->
     let c' := (V1.set k v ttlMs now (w, c)).2 in
     (V1.cache c').*1 = (V1.cache c).*1
     /\ v1_lru_keys c' = k :: filter (fun x => x <> k) (v1_lru_keys c)
     /\ jm_get k (V1.cache c') = Some (v1_entry v ttlMs now (V1.options c))
     /\ forall j, j <> k -> jm_get j (V1.cache c') = jm_get j (V1.cache c))
  /\ (forall (w : V2.World) (c : V2.SmartCache (V:=V)),
        v2_wf c -> jm_has k (V2.map c) = true ->
        let c' := (V2.set k v ttlMs now (w, c)).2 in
        V2.map c' = V2.map c
        /\ v2_lru_keys c' = k :: filter (fun x => x <> k) (v2_lru_keys c)
        /\ v2_entry c' k
           = Some {| V2.ser_value := v;
                     V2.ser_expiresAt := v2_expiry ttlMs now c |}
        /\ forall j, j <> k -> v2_entry c' j = v2_entry c j).
Proof.
  split.
  - intros w c [ks Habs] Hhas. cbv zeta.
    pose proof (v1_set_abs k v ttlMs now w c ks Habs) as Hs. rewrite Hhas in Hs.
    rewrite (v1_abs_lru_keys _ _ Hs), (v1_abs_lru_keys _ _ Habs).
    rewrite v1_set_cache. unfold v1_set_pre. rewrite Hhas.
    rewrite (proj1 (v1_removeFromLRU_frame _ _)).
    split_and!; try done.
    + by rewrite jm_set_keys, Hhas.
    + apply jm_get_set_eq.
    + intros j Hne. by apply jm_get_set_ne.
  - intros w c Hwf Hhas. cbv zeta. pose proof Hwf as [ks Habs].
    pose proof (v2_set_abs k v ttlMs now w c ks Habs) as Hs. rewrite Hhas in Hs.
    rewrite (v2_abs_lru_keys _ _ Hs), (v2_abs_lru_keys _ _ Habs).
    split_and!; try done.
    + rewrite v2_set_eq. unfold jm_has in Hhas.
      by destruct (jm_get k (V2.map c)).
    + by apply v2_set_entry.
    + intros j Hne. by apply v2_set_existing_other.
Qed.

(** X5: [delete] of a key that is absent changes nothing, the persisted blob
    included.  [delete] of a present key removes it from the store and
    from the recency order and leaves the other keys, their order and
    their entries as they were. *)
Theorem delete_removes_one_key `{JsNum} {V : Type}
    (k : SerializableKey) (now : Z) :
  (forall (w : V1.World) (c : V1.SmartCache (V:=V)),
     (jm_has k (V1.cache c) = false -> V1.delete k now (w, c) = (w, c))
     /\ (v1_wf c ->
         let c' := (V1.delete k now (w, c)).2 in
         v1_wf c'
         /\ V1.cache c' = jm_delete k (V1.cache c)
         /\ v1_lru_keys c' = filter (fun x => x <> k) (v1_lru_keys c)
         /\ (k ∉ (V1.cache c').*1)
         /\ forall j, j <> k -> jm_get j (V1.cache c') = jm_get j (V1.cache c)))
  /\ (forall (w : V2.World) (c : V2.SmartCache (V:=V)),
        (jm_has k (V2.map c) = false -> V2.delete k now (w, c) = (w, c))
        /\ (v2_wf c ->
            let c' := (V2.delete k now (w, c)).2 in
            v2_wf c'
            /\ V2.map c' = jm_delete k (V2.map c)
            /\ v2_lru_keys c' = filter (fun x => x <> k) (v2_lru_keys c)
            /\ (k ∉ (V2.map c').*1)
            /\ forall j, j <> k -> v2_entry c' j = v2_entry c j)).
Proof.
  split.
  - intros w c. split.
    + intros Hhas. unfold V1.delete. by rewrite Hhas.
    + intros [ks Habs]. cbv zeta.
      pose proof (v1_delete_abs k now w c ks Habs) as Hd.
      rewrite (v1_abs_lru_keys _ _ Hd), (v1_abs_lru_keys _ _ Habs).
      rewrite v1_delete_cache.
      assert (NoDup (V1.cache c).*1) as Hnd
        by (by destruct Habs as (? & ? & ? & ? & ?)).
      split_and!; try done.
      * by exists (filter (fun x => x <> k) ks).
      * rewrite jm_delete_key_elem by done. tauto.
      * intros j Hne. by apply jm_get_delete_ne.
  - intros w c. split.
    + intros Hhas. unfold V2.delete, jm_has in *.
      by destruct (jm_get k (V2.map c)).
    + intros [ks Habs]. cbv zeta.
      pose proof (v2_delete_abs k now w c ks Habs) as Hd.
      rewrite (v2_abs_lru_keys _ _ Hd), (v2_abs_lru_keys _ _ Habs).
      rewrite v2_delete_map.
      split_and!; try done.
      * by exists (filter (fun x => x <> k) ks).
      * rewrite jm_delete_key_elem by (by eapply v2_abs_map_NoDup). tauto.
      * intros j Hne. by apply v2_delete_other.
Qed.

(** ** [clear] *)

(** X6: After [clear] the store and the recency order are empty, [size()] is
    0 and every key is reported absent, at any time; with persistence on
    the blob under the cache's name is the empty object. *)
Theorem clear_empties `{JsNum} {V : Type} (now : Z) :
  (forall (w : V1.World) (c : V1.SmartCache (V:=V)),
     let s' := V1.clear now (w, c) in
     V1.cache s'.2 = [] /\ v1_lru_keys s'.2 = [] /\ v1_wf s'.2
     /\ (forall t, (V1.size t s').1 = 0)
     /\ (forall k t, (V1.get k t s').1 = None /\ (V1.has k t s').1 = false)
     /\ (forall st, w = Some st ->
           truthy_persist (V1.persist (V1.options c)) = true ->
           truthy_string (V1.storageKey c) = true ->
           exists st', s'.1 = Some st'
             /\ getItem (V1.storageKey c) st' = Some (Doc [])))
  /\ (forall (w : V2.World) (c : V2.SmartCache (V:=V)),
        let s' := V2.clear now (w, c) in
        V2.map s'.2 = [] /\ v2_lru_keys s'.2 = [] /\ v2_wf s'.2
        /\ (forall t, (V2.size t s').1 = 0)
        /\ (forall k t, (V2.get k t s').1 = None /\ (V2.has k t s').1 = false)
        /\ (forall st name, w = Some st -> V2.persistKey c = Some name ->
              truthy_string name = true ->
              s'.1 = Some (setItem name (Doc []) st))).
Proof.
  split.
  - intros w c. cbv zeta.
    pose proof (v1_clear_abs now w c) as Habs.
    assert (V1.cache (V1.clear now (w, c)).2 = []) as Hc by done.
    split_and!.
    + done.
    + by apply v1_abs_lru_keys.
    + by exists [].
    + intros t. destruct (V1.clear now (w, c)) as [w' c'] eqn:E.
      cbn [snd] in *. rewrite (v1_size_result t w' c' [] Habs). done.
    + intros k t. rewrite v1_get_result, v1_has_result, Hc. done.
    + intros st -> Hp Hn. unfold V1.clear. cbn [fst snd V1.options V1.with_cache
        V1.with_lruMap V1.with_head V1.with_tail]. rewrite Hp.
      unfold V1.saveToStorage.
      cbn [V1.storageKey V1.cache V1.with_cache V1.with_lruMap V1.with_head
           V1.with_tail].
      rewrite Hn. eexists. split; [done|]. apply jm_get_set_eq.
  - intros w c. cbv zeta.
    pose proof (v2_clear_abs now w c) as Habs.
    assert (V2.map (V2.clear now (w, c)).2 = []) as Hc by done.
    split_and!.
    + done.
    + by apply v2_abs_lru_keys.
    + by exists [].
    + intros t. destruct (V2.clear now (w, c)) as [w' c'] eqn:E.
      cbn [snd] in *. rewrite (v2_size_result t w' c' [] Habs). done.
    + intros k t. rewrite v2_get_result, v2_has_result.
      unfold v2_entry. rewrite Hc. done.
    + intros st name -> Hk Hn. unfold V2.clear. cbn [fst].
      unfold V2.syncToStorage. v2_cbn. by rewrite Hk, Hn.
Qed.

(** ** Time to live *)

(** X7: The entry [set] stores lives through its expiry instant: with the
    effective TTL [ttlMs ?? defaultTTL], a [get] at time [t] right after the
    [set] at time [now] returns the value unless [t > now + ttl].  In
    implementation 1 only a positive TTL makes an entry expire (so an
    explicit [0] switches a default TTL off); in implementation 2 any TTL
    does, and only a missing one keeps the entry for ever. *)
Theorem ttl_boundary `{JsNum} {V : Type}
    (k : SerializableKey) (v : V) (ttlMs : option Z) (now t : Z) :
  (forall (w w' : V1.World) (c : V1.SmartCache (V:=V)),
     let ttl := default (V1.defaultTTL (V1.options c)) ttlMs in
     (V1.get k t (w', (V1.set k v ttlMs now (w, c)).2)).1
     = if bool_decide (ttl > 0) && bool_decide (t > now + ttl)
       then None else Some v)
  /\ (forall (w w' : V2.World) (c : V2.SmartCache (V:=V)),
        v2_wf c ->
        (V2.get k t (w', (V2.set k v ttlMs now (w, c)).2)).1
        = match match ttlMs with Some x => Some x | None => V2.defaultTTL c end
          with
          | Some ttl => if bool_decide (t > now + ttl) then None else Some v
          | None => Some v
          end).
Proof.
  split.
  - intros w w' c. cbv zeta. rewrite v1_get_result. cbn [snd].
    rewrite v1_set_entry. unfold v1_entry, V1.isExpired. cbn [V1.expiresAt V1.value].
    case_bool_decide; simpl; [|done]. by case_bool_decide.
  - intros w w' c Hwf. rewrite v2_get_result. cbn [snd].
    rewrite v2_set_entry by done. unfold v2_entry_expired, v2_expiry.
    cbn [V2.ser_expiresAt V2.ser_value].
    destruct (match ttlMs with Some x => Some x | None => V2.defaultTTL c end);
      [|done].
    by case_bool_decide.
Qed.

(** ** What is written to [localStorage], and where *)

Section WorldFrame.
Context {E : Type}.
Implicit Types (w : Storage E).

Lemma same_elsewhere_refl name w : same_elsewhere name w w.
Proof. by destruct w. Qed.

Lemma same_elsewhere_trans name w1 w2 w3 :
  same_elsewhere name w1 w2 -> same_elsewhere name w2 w3 ->
  same_elsewhere name w1 w3.
Proof.
  destruct w1, w2, w3; simpl; try done.
  intros H1 H2 n Hn. by rewrite H2, H1.
Qed.

End WorldFrame.

Section V1World.
Context `{JsNum} {V : Type}.
Implicit Types (c : V1.SmartCache (V:=V)) (k : SerializableKey)
  (w : V1.World (V:=V)).

Lemma v1_saveToStorage_frame now c w :
  same_elsewhere (V1.storageKey c) w (V1.saveToStorage now c w).
Proof.
  unfold V1.saveToStorage. destruct (truthy_string _), w; simpl; try done.
  intros n Hn. unfold getItem, setItem. by apply jm_get_set_ne.
Qed.

Lemma v1_delete_frame k now w c :
  same_elsewhere (V1.storageKey c) w (V1.delete k now (w, c)).1
  /\ (truthy_persist (V1.persist (V1.options c)) = false ->
      (V1.delete k now (w, c)).1 = w).
Proof.
  unfold V1.delete. destruct (jm_has k (V1.cache c)); cbn [fst];
    [|split; [apply same_elsewhere_refl|done]].
  rewrite (proj1 (proj2 (v1_removeFromLRU_frame _ _))).
  cbn [V1.with_cache V1.options]. split.
  - destruct (truthy_persist _); [|apply same_elsewhere_refl].
    rewrite <- (proj2 (proj2 (v1_removeFromLRU_frame k
                  (V1.with_cache (jm_delete k (V1.cache c)) c)))) at 1.
    apply v1_saveToStorage_frame.
  - by intros ->.
Qed.

Lemma v1_fold_delete_frame now (ks0 : list SerializableKey) w c :
  let s' := fold_left (fun s k => V1.delete k now s) ks0 (w, c) in
  same_elsewhere (V1.storageKey c) w s'.1
  /\ (truthy_persist (V1.persist (V1.options c)) = false -> s'.1 = w)
  /\ V1.storageKey s'.2 = V1.storageKey c.
Proof.
  revert w c. induction ks0 as [|k ks0 IH]; intros w c; cbn [fold_left].
  - split_and!; [apply same_elsewhere_refl|done|done].
  - destruct (v1_delete_frame k now w c) as [Hf Hoff].
    destruct (v1_delete_options k now w c) as [Ho Hk].
    destruct (V1.delete k now (w, c)) as [w1 c1]. cbn [fst snd] in *.
    destruct (IH w1 c1) as (Hf1 & Hoff1 & Hk1). cbv zeta in *.
    rewrite Hk in *. rewrite Ho in *. split_and!.
    + by eapply same_elsewhere_trans.
    + intros Hp. by rewrite Hoff1, Hoff.
    + done.
Qed.

Lemma v1_evictLRU_frame now w c :
  same_elsewhere (V1.storageKey c) w (V1.evictLRU now (w, c)).1
  /\ (truthy_persist (V1.persist (V1.options c)) = false ->
      (V1.evictLRU now (w, c)).1 = w).
Proof.
  unfold V1.evictLRU. cbn [snd].
  repeat case_match; subst; try apply v1_delete_frame;
    (split; [apply same_elsewhere_refl|done]).
Qed.

Lemma v1_step_storageKey o now w c :
  V1.storageKey (v1_step o now (w, c)).2 = V1.storageKey c.
Proof.
  destruct o as [k v ttl|k|k|k| |]; cbn [v1_step].
  - apply v1_set_storageKey.
  - destruct (jm_get k (V1.cache c)) as [e|] eqn:Hget;
      [|by rewrite v1_get_absent].
    destruct (V1.isExpired now e) eqn:He.
    + rewrite (v1_get_expired _ _ _ e) by done. apply v1_delete_options.
    + rewrite (v1_get_live _ _ _ _ e) by done. cbn [snd].
      by rewrite (proj1 (proj2 (proj2 (v1_moveToFront_frame _ _)))).
  - rewrite v1_has_state. cbn [snd]. repeat case_match; try done.
    apply v1_delete_options.
  - apply v1_delete_options.
  - done.
  - unfold V1.size, V1.cleanExpired. cbn [snd].
    apply (v1_fold_delete_frame now _ w c).
Qed.

Lemma v1_step_frame o now w c :
  same_elsewhere (V1.storageKey c) w (v1_step o now (w, c)).1
  /\ (truthy_persist (V1.persist (V1.options c)) = false ->
      (v1_step o now (w, c)).1 = w).
Proof.
  destruct o as [k v ttl|k|k|k| |]; cbn [v1_step].
  - rewrite v1_set_world. cbv zeta.
    assert (same_elsewhere (V1.storageKey c) w
              (if jm_has k (V1.cache c) then w
               else if bool_decide (jm_size (V1.cache c)
                                    >= V1.maxSize (V1.options c))
                    then (V1.evictLRU now (w, c)).1 else w)
            /\ (truthy_persist (V1.persist (V1.options c)) = false ->
                (if jm_has k (V1.cache c) then w
                 else if bool_decide (jm_size (V1.cache c)
                                      >= V1.maxSize (V1.options c))
                      then (V1.evictLRU now (w, c)).1 else w) = w))
      as [Hf Hoff].
    { repeat case_match; try apply v1_evictLRU_frame;
        (split; [apply same_elsewhere_refl|done]). }
    split.
    + destruct (truthy_persist _); [|done].
      eapply same_elsewhere_trans; [exact Hf|].
      rewrite <- (v1_set_storageKey k v ttl now w c) at 1.
      apply v1_saveToStorage_frame.
    + intros Hp. rewrite Hp. by apply Hoff.
  - destruct (jm_get k (V1.cache c)) as [e|] eqn:Hget.
    2:{ rewrite v1_get_absent by done. split; [apply same_elsewhere_refl|done]. }
    destruct (V1.isExpired now e) eqn:He.
    + rewrite (v1_get_expired _ _ _ e) by done. apply v1_delete_frame.
    + rewrite (v1_get_live _ _ _ _ e) by done.
      split; [apply same_elsewhere_refl|done].
  - rewrite v1_has_state. cbn [snd].
    repeat case_match; try apply v1_delete_frame;
      (split; [apply same_elsewhere_refl|done]).
  - apply v1_delete_frame.
  - unfold V1.clear. cbn [fst]. split.
    + destruct (truthy_persist _); [|apply same_elsewhere_refl].
      match goal with
      | |- same_elsewhere _ _ (V1.saveToStorage now ?c1 w) =>
          apply (v1_saveToStorage_frame now c1 w)
      end.
    + cbn [V1.options V1.with_cache V1.with_lruMap V1.with_head V1.with_tail].
      by intros ->.
  - unfold V1.size, V1.cleanExpired. cbn [fst snd].
    destruct (v1_fold_delete_frame now
                (filter (fun kv => V1.isExpired now kv.2 = true) (V1.cache c)).*1
                w c) as (? & ? & _).
    done.
Qed.

Lemma v1_run_frame tr w c :
  same_elsewhere (V1.storageKey c) w (v1_run tr (w, c)).1
  /\ (truthy_persist (V1.persist (V1.options c)) = false ->
      (v1_run tr (w, c)).1 = w).
Proof.
  revert w c. induction tr as [|[o now] tr IH]; intros w c.
  - split; [apply same_elsewhere_refl|done].
  - cbn [v1_run fold_left fst snd].
    destruct (v1_step_frame o now w c) as [Hf Hoff].
    pose proof (v1_step_storageKey o now w c) as Hk.
    pose proof (v1_step_options o now w c) as Ho.
    destruct (v1_step o now (w, c)) as [w1 c1]. cbn [fst snd] in *.
    destruct (IH w1 c1) as [Hf1 Hoff1]. rewrite Hk, Ho in *. split.
    + by eapply same_elsewhere_trans.
    + intros Hp. change (fold_left _ tr (w1, c1)) with (v1_run tr (w1, c1)).
      by rewrite Hoff1, Hoff.
Qed.

End V1World.

Section V2World.
Context `{JsNum} {V : Type}.
Implicit Types (c : V2.SmartCache (V:=V)) (k : SerializableKey)
  (w : V2.World (V:=V)).

(** Where [syncToStorage()] can write. *)
Lemma v2_syncToStorage_frame now c w :
  (forall name, V2.persistKey c = Some name ->
     same_elsewhere name w (V2.syncToStorage now c w))
  /\ (V2.persistKey c = None -> V2.syncToStorage now c w = w).
Proof.
  unfold V2.syncToStorage. split.
  - intros name ->. destruct w as [st|]; [|done].
    destruct (truthy_string name); simpl; [|done].
    intros n Hn. unfold getItem, setItem. by apply jm_get_set_ne.
  - by intros ->.
Qed.

Lemma v2_delete_frame k now w c :
  (forall name, V2.persistKey c = Some name ->
     same_elsewhere name w (V2.delete k now (w, c)).1)
  /\ (V2.persistKey c = None -> (V2.delete k now (w, c)).1 = w).
Proof.
  unfold V2.delete. destruct (jm_get k (V2.map c)) as [a|]; cbn [fst].
  - match goal with
    | |- context [V2.syncToStorage now ?c1 w] =>
        exact (v2_syncToStorage_frame now c1 w)
    end.
  - split; [intros; apply same_elsewhere_refl|done].
Qed.

Lemma v2_step_frame o now w c :
  (forall name, V2.persistKey c = Some name ->
     same_elsewhere name w (v2_step o now (w, c)).1)
  /\ (V2.persistKey c = None -> (v2_step o now (w, c)).1 = w).
Proof.
  destruct o as [k v ttl|k|k|k| |]; cbn [v2_step].
  - rewrite v2_set_world.
    destruct (v2_set_config k v ttl now w c) as (_ & _ & Hk).
    destruct (v2_syncToStorage_frame now (V2.set k v ttl now (w, c)).2 w)
      as [Hf Hoff].
    rewrite Hk in Hf, Hoff. by split.
  - destruct (jm_get k (V2.map c)) as [a|] eqn:Hget.
    2:{ rewrite v2_get_absent by done.
        split; [intros; apply same_elsewhere_refl|done]. }
    destruct (V2.isExpired now (V2.nodes c) a) eqn:He.
    + rewrite (v2_get_expired _ _ _ a) by done. apply v2_delete_frame.
    + rewrite (v2_get_live _ _ _ _ a) by done.
      split; [intros; apply same_elsewhere_refl|done].
  - rewrite v2_has_state. cbn [snd].
    repeat case_match; try apply v2_delete_frame;
      (split; [intros; apply same_elsewhere_refl|done]).
  - apply v2_delete_frame.
  - unfold V2.clear. cbn [fst].
    match goal with
    | |- context [V2.syncToStorage now ?c1 w] =>
        exact (v2_syncToStorage_frame now c1 w)
    end.
  - unfold V2.size. cbn [fst snd].
    split; [intros; apply same_elsewhere_refl|done].
Qed.

Lemma v2_run_frame tr w c :
  (forall name, V2.persistKey c = Some name ->
     same_elsewhere name w (v2_run tr (w, c)).1)
  /\ (V2.persistKey c = None -> (v2_run tr (w, c)).1 = w).
Proof.
  revert w c. induction tr as [|[o now] tr IH]; intros w c.
  - split; [intros; apply same_elsewhere_refl|done].
  - cbn [v2_run fold_left fst snd].
    destruct (v2_step_frame o now w c) as [Hf Hoff].
    destruct (v2_step_config o now w c) as (_ & _ & Hk).
    destruct (v2_step o now (w, c)) as [w1 c1]. cbn [fst snd] in *.
    destruct (IH w1 c1) as [Hf1 Hoff1]. rewrite Hk in *. split.
    + intros name Hn. eapply same_elsewhere_trans; [by apply Hf|by apply Hf1].
    + intros Hn. change (fold_left _ tr (w1, c1)) with (v2_run tr (w1, c1)).
      by rewrite Hoff1, Hoff.
Qed.

End V2World.

(** X8: Whatever calls are made, a cache writes to [localStorage] under its
    own name only: every other item is left as it was, nothing at all is
    written when persistence is off, and a missing [localStorage] stays
    missing (the calls go through all the same). *)
Theorem storage_isolation `{JsNum} {V : Type} (tr : list (op (V:=V) * Z)) :
  (forall (w : V1.World) (c : V1.SmartCache (V:=V)),
     let w' := (v1_run tr (w, c)).1 in
     (w = None -> w' = None)
     /\ (truthy_persist (V1.persist (V1.options c)) = false -> w' = w)
     /\ (forall st, w = Some st ->
           exists st', w' = Some st'
             /\ forall n, n <> V1.storageKey c -> getItem n st' = getItem n st))
  /\ (forall (w : V2.World) (c : V2.SmartCache (V:=V)),
        let w' := (v2_run tr (w, c)).1 in
        (w = None -> w' = None)
        /\ (V2.persistKey c = None -> w' = w)
        /\ (forall st name, w = Some st -> V2.persistKey c = Some name ->
              exists st', w' = Some st'
                /\ forall n, n <> name -> getItem n st' = getItem n st)).
Proof.
  split.
  - intros w c. cbv zeta. destruct (v1_run_frame tr w c) as [Hf Hoff].
    split_and!; [|done|].
    + intros ->. by destruct (v1_run _ _).1.
    + intros st ->. destruct (v1_run _ _).1 as [st'|]; [|done].
      by exists st'.
  - intros w c. cbv zeta. destruct (v2_run_frame tr w c) as [Hf Hoff].
    split_and!; [|done|].
    + intros ->. destruct (V2.persistKey c) as [name|] eqn:Hk.
      * specialize (Hf name eq_refl). by destruct (v2_run _ _).1.
      * by apply Hoff.
    + intros st name -> Hk. specialize (Hf name Hk).
      destruct (v2_run _ _).1 as [st'|]; [|done]. by exists st'.
Qed.

(** ** The persisted object *)

Section ObjFacts.
Context {E : Type}.
Implicit Types (o : list (string * E)) (k : string).

Lemma obj_insert_index_perm i k e o : obj_insert_index i k e o ≡ₚ (k, e) :: o.
Proof.
  induction o as [|[k' e'] o IH]; cbn [obj_insert_index]; [done|].
  destruct (array_index k') as [j|]; [|done].
  destruct (j <? i)%N; [|done]. rewrite IH. apply Permutation_swap.
Qed.

Lemma obj_set_proto e o : obj_set "__proto__" e o = o.
Proof. unfold obj_set. by rewrite decide_True. Qed.

Lemma obj_set_elem k e o x :
  k <> "__proto__" -> NoDup o.*1 ->
  x ∈ obj_set k e o <-> x = (k, e) \/ (x.1 <> k /\ x ∈ o).
Proof.
  intros Hk Hnd. unfold obj_set. rewrite decide_False by done.
  destruct (jm_has k o) eqn:Hhas.
  - by apply jm_set_elem.
  - apply jm_has_false in Hhas.
    assert (x ∈ (k, e) :: o <-> x = (k, e) \/ x.1 <> k /\ x ∈ o) as Hx.
    { rewrite elem_of_cons. split; [|tauto]. intros [->|Hin]; [by left|right].
      split; [|done]. intros <-. apply Hhas. apply list_elem_of_fmap. by exists x. }
    destruct (array_index k) as [i|].
    + by rewrite obj_insert_index_perm.
    + rewrite <- Hx, elem_of_app, list_elem_of_singleton, elem_of_cons. tauto.
Qed.

Lemma obj_set_NoDup k e o : NoDup o.*1 -> NoDup (obj_set k e o).*1.
Proof.
  intros Hnd. unfold obj_set. case_decide; [done|].
  destruct (jm_has k o) eqn:Hhas.
  - by apply jm_set_NoDup.
  - apply jm_has_false in Hhas.
    assert (NoDup ((k, e) :: o).*1) as Hc by (csimpl; by apply NoDup_cons).
    destruct (array_index k) as [i|].
    + by rewrite obj_insert_index_perm.
    + rewrite fmap_app. csimpl. apply NoDup_app. split_and!; [done| |apply NoDup_singleton].
      intros y Hy ->%list_elem_of_singleton. done.
Qed.

(** No assignment creates a property named [__proto__]. *)
Lemma obj_set_no_proto k e o :
  "__proto__" ∉ o.*1 -> "__proto__" ∉ (obj_set k e o).*1.
Proof.
  intros Ho. unfold obj_set. case_decide as Hk; [done|].
  intros Hin. apply Ho. destruct (jm_has k o) eqn:Hhas.
  - by rewrite jm_set_keys, Hhas in Hin.
  - destruct (array_index k) as [i|].
    + rewrite obj_insert_index_perm in Hin. csimpl in Hin.
      by apply elem_of_cons in Hin as [<-|?].
    + rewrite fmap_app in Hin. csimpl in Hin.
      apply elem_of_app in Hin as [?|<-%list_elem_of_singleton]; done.
Qed.

End ObjFacts.

Section SnapshotFold.
Context `{JsNum} {E : Type} (expired : E -> bool).
Implicit Types (m : list (SerializableKey * E)) (o : list (string * option E)).

Lemma snapshot_step_eq o k e :
  snapshot_step expired o (k, e)
  = if expired e then o else obj_set (String_key k) (Some e) o.
Proof. done. Qed.

Lemma snapshot_fold_sound m o :
  NoDup o.*1 ->
  let r := fold_left (snapshot_step expired) m o in
  NoDup r.*1
  /\ forall str x, (str, x) ∈ r ->
       (str, x) ∈ o
       \/ exists k e, x = Some e /\ str = String_key k /\ str <> "__proto__"
                      /\ (k, e) ∈ m /\ expired e = false.
Proof.
  revert o. induction m as [|[k e] m IH]; intros o Hnd; cbn [fold_left];
    rewrite ?snapshot_step_eq.
  - split; [done|]. intros str x Hin. by left.
  - assert (forall o', NoDup o'.*1 ->
              (forall y, y ∈ o' ->
                 y ∈ o \/ (y = (String_key k, Some e)
                           /\ String_key k <> "__proto__"
                           /\ expired e = false)) ->
              NoDup (fold_left (snapshot_step expired) m o').*1
              /\ forall str x, (str, x) ∈ fold_left (snapshot_step expired) m o' ->
                   (str, x) ∈ o
                   \/ exists k0 e0, x = Some e0 /\ str = String_key k0
                        /\ str <> "__proto__" /\ (k0, e0) ∈ (k, e) :: m
                        /\ expired e0 = false) as Hstep.
    { intros o' Hnd' Ho'. destruct (IH o' Hnd') as [Hr Hs]. split; [done|].
      intros str x Hin.
      destruct (Hs str x Hin) as [Hy|(k' & e' & ? & ? & ? & ? & ?)].
      - destruct (Ho' _ Hy) as [?|([= -> ->] & ? & ?)]; [by left|].
        right. exists k, e. split_and!; try done. left.
      - right. exists k', e'. split_and!; try done. by right. }
    destruct (expired e) eqn:He; [apply Hstep; [done|by left]|].
    apply Hstep; [by apply obj_set_NoDup|].
    intros y Hy. destruct (decide (String_key k = "__proto__")) as [Hp|Hp].
    + rewrite Hp, obj_set_proto in Hy. by left.
    + apply obj_set_elem in Hy as [->|[_ ?]]; [by right|by left|done|done].
Qed.

Lemma snapshot_fold_keep m o x :
  NoDup o.*1 -> x ∈ o ->
  (forall k e, (k, e) ∈ m -> expired e = false -> String_key k <> x.1) ->
  x ∈ fold_left (snapshot_step expired) m o.
Proof.
  revert o. induction m as [|[k e] m IH]; intros o Hnd Hx Hne; cbn [fold_left];
    rewrite ?snapshot_step_eq; [done|].
  destruct (expired e) eqn:He.
  - apply IH; [done|done|]. intros k' e' Hin. apply Hne. by right.
  - apply IH; [by apply obj_set_NoDup| |].
    + destruct (decide (String_key k = "__proto__")) as [Hp|Hp].
      * by rewrite Hp, obj_set_proto.
      * apply obj_set_elem; [done|done|]. right. split; [|done].
        intros Heq. apply (Hne k e); [left|done|done].
    + intros k' e' Hin. apply Hne. by right.
Qed.

Lemma snapshot_fold_complete m o k e :
  NoDup o.*1 -> NoDup m.*1 ->
  (forall k1 e1 k2 e2, (k1, e1) ∈ m -> (k2, e2) ∈ m ->
     expired e1 = false -> expired e2 = false ->
     String_key k1 = String_key k2 -> k1 = k2) ->
  (k, e) ∈ m -> expired e = false -> String_key k <> "__proto__" ->
  (String_key k, Some e)
  ∈ fold_left (snapshot_step expired) m o.
Proof.
  revert o. induction m as [|[k0 e0] m IH]; intros o Hnd HndM Hinj Hin He Hp;
    [by apply elem_of_nil in Hin|].
  cbn [fold_left]. rewrite snapshot_step_eq. csimpl in HndM.
  apply NoDup_cons in HndM as [Hk0 HndM].
  apply elem_of_cons in Hin as [[= <- <-]|Hin].
  - rewrite He. apply snapshot_fold_keep.
    + by apply obj_set_NoDup.
    + apply obj_set_elem; [done|done|]. by left.
    + intros k' e' Hin' He' Heq. simpl in Heq.
      assert (k' = k) as ->.
      { apply (Hinj k' e' k e); [by right|left|done|done|done]. }
      apply Hk0. apply list_elem_of_fmap. by exists (k, e').
  - assert (forall k1 e1 k2 e2, (k1, e1) ∈ m -> (k2, e2) ∈ m ->
              expired e1 = false -> expired e2 = false ->
              String_key k1 = String_key k2 -> k1 = k2) as Hinj'.
    { intros k1 e1 k2 e2 H1 H2. apply Hinj; by right. }
    destruct (expired e0); apply IH; try done.
    by apply obj_set_NoDup.
Qed.

End SnapshotFold.

Section V1Snapshot.
Context `{JsNum} {V : Type}.

(** What [loadFromStorage()] takes from a blob without [null]. *)
Lemma v1_restorable_elem now (d : list (string * option (V1.CacheEntry (V:=V)))) k e :
  Forall (fun x => is_Some x.2) d ->
  (k, e) ∈ v1_restorable now d
  <-> exists str : string, (str, Some e) ∈ d /\ k = V1.parseKey str
                           /\ V1.isExpired now e = false.
Proof.
  induction 1 as [|[str [e0|]] d [? Hx] Hd IH]; cbn [v1_restorable];
    try done.
  - split; [by intros ?%elem_of_nil|]. by intros (? & ?%elem_of_nil & _).
  - destruct (V1.isExpired now e0) eqn:He.
    + rewrite IH. split.
      * intros (s' & ? & ? & ?). exists s'. split_and!; try done. by right.
      * intros (s' & [[= -> ->]|?]%elem_of_cons & ? & ?); [congruence|].
        by exists s'.
    + rewrite elem_of_cons, IH. split.
      * intros [[= -> ->]|(s' & ? & ? & ?)].
        -- exists str. split_and!; try done. left.
        -- exists s'. split_and!; try done. by right.
      * intros (s' & [[= -> ->]|?]%elem_of_cons & -> & ?); [by left|].
        right. by exists s'.
Qed.


Lemma v1_snapshot_eq now (m : list (SerializableKey * V1.CacheEntry (V:=V))) :
  V1.snapshot now m = fold_left (snapshot_step (V1.isExpired now)) m [].
Proof. done. Qed.

Lemma v2_snapshot_eq now (c : V2.SmartCache (V:=V)) :
  V2.snapshot now c
  = fold_left (snapshot_step (v2_entry_expired now)) (v2_store c) [].
Proof. by rewrite v2_snapshot_store. Qed.

Lemma v2_restorable_elem now
    (d : list (string * option (V2.SerializedEntry (V:=V)))) k e :
  Forall (fun x => is_Some x.2) d ->
  (k, e) ∈ v2_restorable now d
  <-> exists str : string, (str, Some e) ∈ d /\ k = V2.convertKey str
                           /\ v2_entry_expired now e = false.
Proof.
  induction 1 as [|[str [e0|]] d [? Hx] Hd IH]; cbn [v2_restorable];
    try done.
  - split; [by intros ?%elem_of_nil|]. by intros (? & ?%elem_of_nil & _).
  - fold (v2_entry_expired now e0).
    destruct (v2_entry_expired now e0) eqn:He.
    + rewrite IH. split.
      * intros (s' & ? & ? & ?). exists s'. split_and!; try done. by right.
      * intros (s' & [[= -> ->]|?]%elem_of_cons & ? & ?); [congruence|].
        by exists s'.
    + rewrite elem_of_cons, IH. split.
      * intros [[= -> ->]|(s' & ? & ? & ?)].
        -- exists str. split_and!; try done. left.
        -- exists s'. split_and!; try done. by right.
      * intros (s' & [[= -> ->]|?]%elem_of_cons & -> & ?); [by left|].
        right. by exists s'.
Qed.

Lemma v2_restorable_NoDup_inj now
    (d : list (string * option (V2.SerializedEntry (V:=V)))) :
  Forall (fun x => is_Some x.2) d -> NoDup d.*1 ->
  (forall s1 s2 : string, s1 ∈ d.*1 -> s2 ∈ d.*1 ->
     V2.convertKey s1 = V2.convertKey s2 -> s1 = s2) ->
  NoDup (v2_restorable now d).*1.
Proof.
  intros Hs Hnd Hinj. induction d as [|[str [e0|]] d IH]; cbn [v2_restorable];
    [apply NoDup_nil_2| |apply NoDup_nil_2].
  apply Forall_cons in Hs as [_ Hs]. csimpl in Hnd.
  apply NoDup_cons in Hnd as [Hstr Hnd].
  assert (NoDup (v2_restorable now d).*1) as IH'.
  { apply IH; [done|done|]. intros s1 s2 H1 H2. apply Hinj; by right. }
  fold (v2_entry_expired now e0). destruct (v2_entry_expired now e0); [done|].
  csimpl. apply NoDup_cons. split; [|done].
  intros ([k e] & Hk & Hin)%list_elem_of_fmap. simpl in Hk.
  apply v2_restorable_elem in Hin as (s' & Hin & -> & _); [|done].
  assert (s' ∈ d.*1) as Hs'.
  { apply list_elem_of_fmap. by exists (s', Some e). }
  assert (str = s') as ->; [|done].
  apply Hinj; [left|by right|done].
Qed.

Lemma v1_isExpired_mono t t' (e : V1.CacheEntry (V:=V)) :
  t <= t' -> V1.isExpired t' e = false -> V1.isExpired t e = false.
Proof.
  unfold V1.isExpired. destruct (V1.expiresAt e); [|done].
  intros Ht Hf. apply bool_decide_eq_false in Hf. apply bool_decide_eq_false. lia.
Qed.

Lemma v2_entry_expired_mono t t' (e : V2.SerializedEntry (V:=V)) :
  t <= t' -> v2_entry_expired t' e = false -> v2_entry_expired t e = false.
Proof.
  unfold v2_entry_expired. destruct (V2.ser_expiresAt e); [|done].
  intros Ht Hf. apply bool_decide_eq_false in Hf. apply bool_decide_eq_false. lia.
Qed.

(** What a blob written by [saveToStorage()] restores to. *)
Lemma v1_restorable_snapshot t t'
    (m : list (SerializableKey * V1.CacheEntry (V:=V))) :
  NoDup m.*1 ->
  (forall k e, (k, e) ∈ m -> V1.parseKey (String_key k) = k) ->
  t <= t' ->
  v1_restorable t' (V1.snapshot t m)
  ≡ₚ filter (fun kv => V1.isExpired t' kv.2 = false
                       /\ String_key kv.1 <> "__proto__") m.
Proof.
  intros Hnd Hrt Ht. rewrite v1_snapshot_eq.
  destruct (snapshot_fold_sound (V1.isExpired t) m [] (NoDup_nil_2 (A:=string)))
    as [Hd Hsound].
  set (d := fold_left _ m []) in *.
  assert (Forall (fun x => is_Some x.2) d) as Hsome.
  { apply Forall_forall. intros [str x] Hin.
    destruct (Hsound str x Hin) as [?%elem_of_nil|(k & e & -> & _)]; by eauto. }
  apply NoDup_Permutation.
  - eapply NoDup_fmap_1, v1_restorable_NoDup, Hd.
  - apply NoDup_filter. by eapply NoDup_fmap_1.
  - intros [k e]. rewrite v1_restorable_elem, list_elem_of_filter by done.
    cbn [fst snd]. split.
    + intros (str & Hin & -> & He).
      destruct (Hsound str _ Hin)
        as [?%elem_of_nil|(k & e' & [= <-] & -> & Hp & Hm & _)]; [done|].
      by rewrite (Hrt k e).
    + intros [[He Hp] Hin]. exists (String_key k).
      split_and!; [|by rewrite (Hrt k e)|done].
      apply snapshot_fold_complete; try done; [apply NoDup_nil_2| |].
      * intros k1 e1 k2 e2 H1 H2 _ _ Heq.
        by rewrite <- (Hrt k1 e1), <- (Hrt k2 e2), Heq.
      * by eapply v1_isExpired_mono.
Qed.

End V1Snapshot.

Section V2Snapshot.
Context `{JsNum} {V : Type}.

(** What a blob written by [syncToStorage()] restores to. *)
Lemma v2_restorable_snapshot t t' (c : V2.SmartCache (V:=V)) :
  v2_wf c ->
  (forall k, k ∈ (V2.map c).*1 -> V2.convertKey (String_key k) = k) ->
  t <= t' ->
  NoDup (v2_restorable t' (V2.snapshot t c)).*1
  /\ v2_restorable t' (V2.snapshot t c)
     ≡ₚ filter (fun ke => v2_entry_expired t' ke.2 = false
                          /\ String_key ke.1 <> "__proto__") (v2_store c).
Proof.
  intros Hwf Hrt Ht. rewrite v2_snapshot_eq.
  assert (NoDup (v2_store c).*1) as Hnd.
  { rewrite v2_store_keys by by apply v2_wf_valid.
    destruct Hwf as [ks Habs]. by eapply v2_abs_map_NoDup. }
  assert (forall k e, (k, e) ∈ v2_store c -> V2.convertKey (String_key k) = k)
    as Hrt'.
  { intros k e Hin. apply Hrt. rewrite <- v2_store_keys by by apply v2_wf_valid.
    apply list_elem_of_fmap. by exists (k, e). }
  generalize dependent (v2_store c). intros m Hnd Hrt'.
  destruct (snapshot_fold_sound (v2_entry_expired t) m []
              (NoDup_nil_2 (A:=string))) as [Hd Hsound].
  set (d := fold_left _ m []) in *.
  assert (Forall (fun x => is_Some x.2) d) as Hsome.
  { apply Forall_forall. intros [str x] Hin.
    destruct (Hsound str x Hin) as [?%elem_of_nil|(k & e & -> & _)]; by eauto. }
  assert (NoDup (v2_restorable t' d).*1) as Hr.
  { apply v2_restorable_NoDup_inj; [done|done|].
    intros s1 s2 ([s1' x1] & -> & H1)%list_elem_of_fmap
      ([s2' x2] & -> & H2)%list_elem_of_fmap. cbn [fst].
    destruct (Hsound _ _ H1)
      as [?%elem_of_nil|(k1 & e1 & _ & -> & _ & Hm1 & _)]; [done|].
    destruct (Hsound _ _ H2)
      as [?%elem_of_nil|(k2 & e2 & _ & -> & _ & Hm2 & _)]; [done|].
    rewrite (Hrt' k1 e1), (Hrt' k2 e2) by done. by intros ->. }
  split; [done|].
  apply NoDup_Permutation.
  - by eapply NoDup_fmap_1.
  - apply NoDup_filter. by eapply NoDup_fmap_1.
  - intros [k e]. rewrite v2_restorable_elem, list_elem_of_filter by done.
    cbn [fst snd]. split.
    + intros (str & Hin & -> & He).
      destruct (Hsound str _ Hin)
        as [?%elem_of_nil|(k & e' & [= <-] & -> & Hp & Hm & _)]; [done|].
      by rewrite (Hrt' k e).
    + intros [[He Hp] Hin]. exists (String_key k).
      split_and!; [|by rewrite (Hrt' k e)|done].
      apply snapshot_fold_complete; try done; [apply NoDup_nil_2| |].
      * intros k1 e1 k2 e2 H1 H2 _ _ Heq.
        by rewrite <- (Hrt' k1 e1), <- (Hrt' k2 e2), Heq.
      * by eapply v2_entry_expired_mono.
Qed.

Lemma v2_store_elem (c : V2.SmartCache (V:=V)) k e :
  v2_wf c -> (k, e) ∈ v2_store c <-> v2_entry c k = Some e.
Proof.
  intros Hwf. rewrite v2_entry_store by by apply v2_wf_valid.
  assert (NoDup (v2_store c).*1) as Hnd.
  { rewrite v2_store_keys by by apply v2_wf_valid.
    destruct Hwf as [ks Habs]. by eapply v2_abs_map_NoDup. }
  split; [by apply jm_get_elem|apply jm_get_Some_elem].
Qed.

Lemma v2_store_NoDup (c : V2.SmartCache (V:=V)) :
  v2_wf c -> NoDup (v2_store c).*1.
Proof.
  intros Hwf. rewrite v2_store_keys by by apply v2_wf_valid.
  destruct Hwf as [ks Habs]. by eapply v2_abs_map_NoDup.
Qed.

End V2Snapshot.

(** X9: the object that [saveToStorage()] / [syncToStorage()] builds
    (implementation 2: from a state in lockstep).  It has each property
    name once, no [null] property and no property named [__proto__]; every
    property is a non-expired entry of the store under the string form of
    its key.  Every non-expired entry whose key has a string form other
    than [__proto__] has its property, when the keys of the store are
    distinct and the string forms of the non-expired keys are distinct (a
    number and the string of its digits share one property name).  An
    entry under the key [__proto__] is not saved. *)
Theorem snapshot_faithful `{JsNum} {V : Type} (now : Z) :
  (forall m : list (SerializableKey * V1.CacheEntry (V:=V)),
     let d := V1.snapshot now m in
     NoDup d.*1
     /\ ("__proto__" ∉ d.*1)
     /\ (forall str x, (str, x) ∈ d ->
           exists k e, x = Some e /\ str = String_key k /\ (k, e) ∈ m
                       /\ V1.isExpired now e = false)
     /\ (NoDup m.*1 ->
         (forall k1 e1 k2 e2, (k1, e1) ∈ m -> (k2, e2) ∈ m ->
            V1.isExpired now e1 = false -> V1.isExpired now e2 = false ->
            String_key k1 = String_key k2 -> k1 = k2) ->
         forall k e, (k, e) ∈ m -> V1.isExpired now e = false ->
                     String_key k <> "__proto__" ->
                     (String_key k, Some e) ∈ d))
  /\ (forall c : V2.SmartCache (V:=V),
     v2_wf c ->
     let d := V2.snapshot now c in
     NoDup d.*1
     /\ ("__proto__" ∉ d.*1)
     /\ (forall str x, (str, x) ∈ d ->
           exists k e, x = Some e /\ str = String_key k /\ v2_entry c k = Some e
                       /\ v2_entry_expired now e = false)
     /\ ((forall k1 e1 k2 e2, v2_entry c k1 = Some e1 -> v2_entry c k2 = Some e2 ->
            v2_entry_expired now e1 = false -> v2_entry_expired now e2 = false ->
            String_key k1 = String_key k2 -> k1 = k2) ->
         forall k e, v2_entry c k = Some e -> v2_entry_expired now e = false ->
                     String_key k <> "__proto__" ->
                     (String_key k, Some e) ∈ d)).
Proof.
  split.
  - intros m d. unfold d. rewrite v1_snapshot_eq.
    destruct (snapshot_fold_sound (V1.isExpired now) m []
                (NoDup_nil_2 (A:=string))) as [Hd Hsound].
    split_and!; [done| | |].
    + intros ([str x] & Hs & Hin)%list_elem_of_fmap. cbn [fst] in Hs. subst str.
      by destruct (Hsound _ x Hin)
        as [?%elem_of_nil|(? & ? & _ & _ & Hp & _)].
    + intros str x Hin.
      destruct (Hsound str x Hin)
        as [?%elem_of_nil|(k & e & ? & ? & _ & ? & ?)]; [done|].
      by exists k, e.
    + intros Hnd Hinj k e Hin He Hp.
      apply snapshot_fold_complete; try done. apply NoDup_nil_2.
  - intros c Hwf d. unfold d. rewrite v2_snapshot_eq.
    destruct (snapshot_fold_sound (v2_entry_expired now) (v2_store c) []
                (NoDup_nil_2 (A:=string))) as [Hd Hsound].
    split_and!; [done| | |].
    + intros ([str x] & Hs & Hin)%list_elem_of_fmap. cbn [fst] in Hs. subst str.
      by destruct (Hsound _ x Hin)
        as [?%elem_of_nil|(? & ? & _ & _ & Hp & _)].
    + intros str x Hin.
      destruct (Hsound str x Hin)
        as [?%elem_of_nil|(k & e & ? & ? & _ & Hm & ?)]; [done|].
      exists k, e. split_and!; try done. by apply v2_store_elem.
    + intros Hinj k e Hin He Hp.
      apply snapshot_fold_complete; try done.
      * apply NoDup_nil_2.
      * by apply v2_store_NoDup.
      * intros k1 e1 k2 e2 H1%v2_store_elem H2%v2_store_elem; [|done|done].
        by apply Hinj.
      * by apply v2_store_elem.
Qed.

Section WriteThrough.
Context `{JsNum} {V : Type}.



End WriteThrough.


(** X11: what a saved blob restores to.  If the item under the storage name
    is the object built at time [t] from a store with distinct keys that
    all survive the trip through their string form (implementation 2: from
    a state in lockstep), a cache constructed on it at a time [t' >= t]
    holds exactly the entries of that store that are not expired at [t']
    and whose key has a string form other than [__proto__], whatever its
    capacity, with store and recency list in lockstep.  An entry under
    the key [__proto__] is not in the object and is not restored. *)
Theorem restore_after_save `{JsNum} {V : Type} (p : persist_opt) (t t' : Z) :
  truthy_persist p = true -> t <= t' ->
  (forall (m : list (SerializableKey * V1.CacheEntry (V:=V))) st N dttl,
     NoDup m.*1 ->
     (forall k e, (k, e) ∈ m -> V1.parseKey (String_key k) = k) ->
     getItem (v1_storage_name p) st = Some (Doc (V1.snapshot t m)) ->
     let c' := V1.new N dttl (Some p) t' (Some st) in
     v1_wf c'
     /\ V1.cache c'
        ≡ₚ filter (fun kv => V1.isExpired t' kv.2 = false
                             /\ String_key kv.1 <> "__proto__") m)
  /\ (forall (c : V2.SmartCache (V:=V)) st ms dttl,
     v2_wf c ->
     (forall k, k ∈ (V2.map c).*1 -> V2.convertKey (String_key k) = k) ->
     getItem (v2_storage_name p) st = Some (Doc (V2.snapshot t c)) ->
     let c' := V2.new ms dttl (Some p) t' (Some st) in
     v2_wf c'
     /\ (forall k e, v2_entry c' k = Some e
                     <-> v2_entry c k = Some e /\ v2_entry_expired t' e = false
                         /\ String_key k <> "__proto__")
     /\ length (V2.map c')
        = length (filter (fun ke => v2_entry_expired t' ke.2 = false
                                    /\ String_key ke.1 <> "__proto__")
                         (v2_store c))).
Proof.
  intros Hp Ht. split.
  - intros m st N dttl Hnd Hrt Hget c'.
    destruct (snapshot_fold_sound (V1.isExpired t) m []
                (NoDup_nil_2 (A:=string))) as [Hd _].
    destruct (v1_new_cache N dttl p t' st _ Hp Hget Hd) as [Hc Habs].
    split; [by eexists|]. unfold c'. rewrite Hc.
    by apply v1_restorable_snapshot.
  - intros c st ms dttl Hwf Hrt Hget c'.
    destruct (v2_restorable_snapshot t t' c Hwf Hrt Ht) as [Hnd Hperm].
    destruct (v2_new_store ms dttl p t' st _ Hp Hget Hnd) as [Hwf' Hst].
    fold c' in Hwf', Hst. split_and!; [done| |].
    + intros k e. rewrite <- !v2_store_elem by done.
      rewrite Hst, Hperm, list_elem_of_filter. cbn [fst snd]. tauto.
    + rewrite <- (length_fmap fst (V2.map c')), <- v2_store_keys, length_fmap
        by by apply v2_wf_valid.
      by rewrite Hst, Hperm.
Qed.

(** A cache of implementation 1 saves the entries [x], [7] and [__proto__]
    at time 0; a second cache constructed at time 1 holds the first two. *)
Lemma restore_after_save_witness :
  let m : list (SerializableKey * V1.CacheEntry (V:=nat)) :=
    [(KStr "x", {| V1.value := 1%nat; V1.expiresAt := None; V1.lastUsed := 0 |});
     (KNum (Some 7), {| V1.value := 2%nat; V1.expiresAt := Some 5;
                        V1.lastUsed := 0 |});
     (KStr "__proto__", {| V1.value := 3%nat; V1.expiresAt := None;
                           V1.lastUsed := 0 |})] in
  let st := [("p", Doc (V1.snapshot 0 m))] in
  let c' := V1.new 1 None (Some (PStr "p")) 1 (Some st) in
  v1_wf c'
  /\ V1.cache c'
     ≡ₚ filter (fun kv => V1.isExpired 1 kv.2 = false
                          /\ String_key kv.1 <> "__proto__") m.
Proof.
  intros m st c'.
  assert (truthy_persist (PStr "p") = true) as Hp by reflexivity.
  assert (0 <= 1) as Ht by lia.
  apply (proj1 (restore_after_save (PStr "p") 0 1 Hp Ht) m st 1 None).
  - apply (bool_decide_unpack _). vm_compute. exact I.
  - intros k e Hin. unfold m in Hin.
    rewrite !elem_of_cons, elem_of_nil in Hin.
    destruct Hin as [[= -> _]|[[= -> _]|[[= -> _]|[]]]]; reflexivity.
  - reflexivity.
Defined.

(** X12: [parseKey] of implementation 1 decodes a property name to a key whose
    string form is that name again, so two different names never decode to
    the same key; a name that is no boolean literal and is not a number
    stays a string. *)
Theorem parseKey_prints_back `{JsNum} (str : string) :
  String_key (V1.parseKey str) = str
  /\ (forall str', V1.parseKey str = V1.parseKey str' -> str = str')
  /\ (str <> "true" -> str <> "false" -> isNaN (Number str) = true ->
      V1.parseKey str = KStr str)
  /\ (forall b, V1.parseKey (String_key (KBool b)) = KBool b).
Proof.
  split_and!.
  - apply v1_parseKey_String.
  - intros str'. apply v1_parseKey_inj.
  - apply v1_parseKey_nan.
  - by intros [|].
Qed.

(** X13: [set] of a new key below capacity removes nothing, expired entries
    included: the entry is appended to the store, the key becomes the most
    recently used one and everything else stays. *)
Theorem set_new_key_below_capacity `{JsNum} {V : Type}
    (k : SerializableKey) (v : V) (ttlMs : option Z) (now : Z) :
  (forall (w : V1.World) (c : V1.SmartCache (V:=V)),
     v1_wf c -> jm_has k (V1.cache c) = false ->
     jm_size (V1.cache c) < V1.maxSize (V1.options c) ->
     let c' := (V1.set k v ttlMs now (w, c)).2 in
     v1_wf c'
     /\ V1.cache c' = V1.cache c ++ [(k, v1_entry v ttlMs now (V1.options c))]
     /\ v1_lru_keys c' = k :: v1_lru_keys c)
  /\ (forall (w : V2.World) (c : V2.SmartCache (V:=V)),
     v2_wf c -> jm_has k (V2.map c) = false ->
     (forall n, V2.maxSize c = Some n -> jm_size (V2.map c) < n) ->
     let c' := (V2.set k v ttlMs now (w, c)).2 in
     v2_wf c'
     /\ (V2.map c').*1 = (V2.map c).*1 ++ [k]
     /\ v2_entry c' k
        = Some {| V2.ser_value := v; V2.ser_expiresAt := v2_expiry ttlMs now c |}
     /\ (forall j, j <> k -> v2_entry c' j = v2_entry c j)
     /\ v2_lru_keys c' = k :: v2_lru_keys c).
Proof.
  split.
  - intros w c [ks Habs] Hhas Hlt c'.
    pose proof (v1_set_abs k v ttlMs now w c ks Habs) as Habs'.
    rewrite Hhas, bool_decide_eq_false_2 in Habs' by lia.
    split_and!.
    + by eexists.
    + by apply v1_set_fresh_cache.
    + unfold c'. by rewrite (v1_abs_lru_keys _ _ Habs'), (v1_abs_lru_keys _ _ Habs).
  - intros w c Hwf Hhas Hlt c'.
    assert (v2_at_capacity c = false) as Hcap.
    { unfold v2_at_capacity. destruct (V2.maxSize c) as [n|]; [|done].
      apply bool_decide_eq_false_2. specialize (Hlt n eq_refl). lia. }
    pose proof Hwf as [ks Habs].
    pose proof (v2_set_abs k v ttlMs now w c ks Habs) as Habs'.
    rewrite Hhas, Hcap in Habs'.
    assert (v2_wf c') as Hwf' by by eexists.
    destruct (v2_set_fresh_spec k v ttlMs now (w, c) Hwf) as (_ & Hst & _).
    { by apply jm_has_false. } { done. }
    cbn [fst snd] in Hst. fold c' in Hst.
    split_and!.
    + done.
    + rewrite <- !v2_store_keys by by apply v2_wf_valid.
      rewrite Hst, fmap_app. done.
    + apply v2_store_elem; [done|]. rewrite Hst. apply elem_of_app. right. left.
    + intros j Hj. rewrite !v2_entry_store by by apply v2_wf_valid.
      rewrite Hst. clear -Hj. induction (v2_store c) as [|[j' e'] m IH]; simpl.
      * by rewrite decide_False by (by intros ->).
      * by destruct (decide (j' = j)).
    + unfold c'. by rewrite (v2_abs_lru_keys _ _ Habs'), (v2_abs_lru_keys _ _ Habs).
Qed.

Section FilterFacts.
Context {K A : Type} `{EqDecision K}.

Lemma filter_filter_none (P Q : K * A -> Prop) `{!forall x, Decision (P x)}
    `{!forall x, Decision (Q x)} (m : list (K * A)) :
  (forall x, x ∈ m -> Q x -> P x -> False) -> filter P (filter Q m) = [].
Proof.
  intros Hex. induction m as [|x m IH]; [done|].
  rewrite (filter_cons Q). destruct (decide (Q x)) as [HQ|].
  - rewrite filter_cons, decide_False.
    + apply IH. intros y Hy. apply Hex. by right.
    + intros HP. apply (Hex x); [left|done|done].
  - apply IH. intros y Hy. apply Hex. by right.
Qed.

Lemma jm_get_filter (P : K * A -> Prop) `{!forall x, Decision (P x)} k
    (m : list (K * A)) :
  NoDup m.*1 ->
  jm_get k (filter P m)
  = match jm_get k m with
    | Some a => if decide (P (k, a)) then Some a else None
    | None => None
    end.
Proof.
  induction m as [|[k' a'] m IH]; [done|]. csimpl. intros [Hk' Hnd]%NoDup_cons.
  rewrite filter_cons. destruct (decide (k' = k)) as [->|Hne].
  - destruct (decide (P (k, a'))) as [HP|HP]; simpl.
    + by rewrite decide_True.
    + rewrite IH by done. assert (jm_get k m = None) as ->; [|done].
      by apply jm_get_None.
  - destruct (decide (P (k', a'))); simpl; [rewrite decide_False by done|];
      by apply IH.
Qed.

End FilterFacts.

Section Purge.
Context `{JsNum} {V : Type}.

Lemma v1_cleanExpired_again now (s : V1.World * V1.SmartCache (V:=V)) :
  NoDup (V1.cache s.2).*1 ->
  V1.cleanExpired now (V1.cleanExpired now s) = V1.cleanExpired now s.
Proof.
  intros Hnd. destruct s as [w c]. cbn [snd] in Hnd.
  unfold V1.cleanExpired at 1.
  rewrite v1_cleanExpired_cache by done.
  rewrite filter_filter_none.
  - reflexivity.
  - intros x _ Hx Hx'. by apply Hx.
Qed.

Lemma v2_isExpired_payload now (h h' : list (V2.LRUNode (V:=V))) a :
  v2_payload <$> h' !! a = v2_payload <$> h !! a ->
  V2.isExpired now h' a = V2.isExpired now h a.
Proof.
  unfold V2.isExpired. intros Hp.
  destruct (h' !! a) as [n'|], (h !! a) as [n|]; try done.
  cbn [mbind option_bind]. unfold v2_payload in Hp.
  injection Hp as _ _ He. by rewrite He.
Qed.

Lemma v2_cleanExpired_again now (c : V2.SmartCache (V:=V)) :
  NoDup (V2.map c).*1 ->
  V2.cleanExpired now (V2.cleanExpired now c) = V2.cleanExpired now c.
Proof.
  intros Hnd. unfold V2.cleanExpired at 1.
  rewrite v2_cleanExpired_map by done.
  rewrite filter_filter_none.
  - reflexivity.
  - intros [k a] _ Hx Hx'. cbn [snd] in *. apply Hx. rewrite <- Hx'.
    symmetry. apply v2_isExpired_payload, v2_cleanExpired_payload.
Qed.

Lemma v2_cleanExpired_entry now (c : V2.SmartCache (V:=V)) k :
  NoDup (V2.map c).*1 ->
  v2_entry (V2.cleanExpired now c) k
  = match v2_entry c k with
    | Some e => if v2_entry_expired now e then None else Some e
    | None => None
    end.
Proof.
  intros Hnd. rewrite !v2_entry_alt, v2_cleanExpired_map, jm_get_filter by done.
  destruct (jm_get k (V2.map c)) as [a|] eqn:Ha; [|done].
  cbn [snd mbind option_bind].
  pose proof (v2_isExpired_entry now c k a Ha) as He.
  rewrite v2_entry_alt, Ha in He. cbn [mbind option_bind] in He. rewrite He.
  destruct (V2.nodes c !! a) as [n|] eqn:Hn; cbn [fmap option_fmap option_map].
  - destruct (v2_entry_expired now (v2_payload n).2) eqn:Hx.
    + by rewrite decide_False by (by intros []).
    + rewrite decide_True by done. cbn [mbind option_bind].
      by rewrite v2_cleanExpired_payload, Hn.
  - rewrite decide_True by done. cbn [mbind option_bind].
    by rewrite v2_cleanExpired_payload, Hn.
Qed.

End Purge.

(** X14: [size()] purges.  It removes exactly the entries that are expired at
    the time of the call and keeps the others with their contents and their
    recency order; store and recency list stay in lockstep; a second call
    at the same time changes nothing.  Implementation 2 leaves
    [localStorage] as it is. *)
Theorem size_purges_expired `{JsNum} {V : Type} (now : Z) :
  (forall (w : V1.World) (c : V1.SmartCache (V:=V)),
     v1_wf c ->
     let r := V1.size now (w, c) in
     V1.cache r.2.2
     = filter (fun kv => V1.isExpired now kv.2 <> true) (V1.cache c)
     /\ r.1 = Z.of_nat (length (V1.cache r.2.2))
     /\ v1_wf r.2.2
     /\ v1_lru_keys r.2.2
        = filter (fun k => k ∉ v1_expired_keys now c) (v1_lru_keys c)
     /\ V1.size now r.2 = r)
  /\ (forall (w : V2.World) (c : V2.SmartCache (V:=V)),
     v2_wf c ->
     let r := V2.size now (w, c) in
     r.2.1 = w
     /\ (forall k, v2_entry r.2.2 k
                   = match v2_entry c k with
                     | Some e => if v2_entry_expired now e then None else Some e
                     | None => None
                     end)
     /\ r.1 = Z.of_nat (length (V2.map r.2.2))
     /\ v2_wf r.2.2
     /\ v2_lru_keys r.2.2
        = filter (fun k => k ∉ v2_expired_keys now c) (v2_lru_keys c)
     /\ V2.size now r.2 = r).
Proof.
  split.
  - intros w c [ks Habs] r.
    assert (NoDup (V1.cache c).*1) as Hnd.
    { destruct Habs as (_ & _ & _ & ? & _). done. }
    pose proof (v1_cleanExpired_abs now w c ks Habs) as Habs'.
    unfold r, V1.size. cbn [fst snd]. split_and!.
    + by apply v1_cleanExpired_cache.
    + done.
    + by eexists.
    + by rewrite (v1_abs_lru_keys _ _ Habs'), (v1_abs_lru_keys _ _ Habs).
    + by rewrite v1_cleanExpired_again.
  - intros w c [ks Habs] r.
    assert (NoDup (V2.map c).*1) as Hnd by by eapply v2_abs_map_NoDup.
    pose proof (v2_cleanExpired_abs now c ks Habs) as Habs'.
    unfold r, V2.size. cbn [fst snd]. split_and!.
    + done.
    + intros k. by apply v2_cleanExpired_entry.
    + done.
    + by eexists.
    + by rewrite (v2_abs_lru_keys _ _ Habs'), (v2_abs_lru_keys _ _ Habs).
    + by rewrite v2_cleanExpired_again.
Qed.

Section ListOps.
Context `{JsNum} {V : Type}.
Implicit Types (h : list (V2.LRUNode (V:=V))) (dl : V2.DoublyLinkedList)
  (a : addr) (L : list addr).

Lemma filter_ne_split (l1 l2 : list addr) a :
  NoDup (l1 ++ a :: l2) -> filter (fun b => b <> a) (l1 ++ a :: l2) = l1 ++ l2.
Proof.
  intros (Hnd1 & Hdisj & [Ha2 Hnd2]%NoDup_cons)%NoDup_app.
  rewrite filter_app, filter_cons, decide_False by (intros Hx; by apply Hx).
  f_equal; apply filter_all, Forall_forall; intros b Hb ->; [|done].
  apply (Hdisj a Hb). left.
Qed.

Lemma v2_removeTail_dll h dl L :
  dll h (V2.head dl) (V2.tail dl) L ->
  let r := V2.removeTail (h, dl) in
  r.1 = last L
  /\ dll r.2.1 (V2.head r.2.2) (V2.tail r.2.2) (removelast L).
Proof.
  intros Hdll r. unfold r, V2.removeTail. cbn [snd].
  pose proof Hdll as (_ & _ & _ & Htl). rewrite Htl.
  destruct (last L) as [a|] eqn:Hlast.
  - apply last_Some in Hlast as [l' ->]. cbn [fst snd].
    split; [done|]. rewrite removelast_last.
    rewrite <- (app_nil_r l'). by apply (v2_remove_dll a h dl l' []).
  - apply last_None in Hlast as ->. done.
Qed.

End ListOps.

(** X15: the operations of [DoublyLinkedList].  On a well-formed list whose
    nodes are [L] from head to tail: following [next] from [head] visits
    exactly [L] and [tail] is the last node; [addToFront] of a node that is
    not linked puts it first; [remove] of a linked node takes it out and
    keeps the order of the others; [moveToFront] makes it the first;
    [removeTail] returns the last node and unlinks it, and returns [null]
    on the empty list.  The result is again well formed, and only links
    change: no node loses its key, value or expiry. *)
Theorem linked_list_operations `{JsNum} {V : Type}
    (h : list (V2.LRUNode (V:=V))) (dl : V2.DoublyLinkedList) (L : list addr) :
  dll h (V2.head dl) (V2.tail dl) L ->
  walk (length h) h (V2.head dl) = L
  /\ V2.tail dl = last L
  /\ (forall a, a ∉ L -> (a < length h)%nat ->
        let r := V2.addToFront a (h, dl) in
        dll r.1 (V2.head r.2) (V2.tail r.2) (a :: L)
        /\ v2_same_payload h r.1)
  /\ (forall a, a ∈ L ->
        (let r := V2.remove a (h, dl) in
         dll r.1 (V2.head r.2) (V2.tail r.2) (filter (fun b => b <> a) L)
         /\ v2_same_payload h r.1)
        /\ (let r := V2.moveToFront a (h, dl) in
            dll r.1 (V2.head r.2) (V2.tail r.2)
                (a :: filter (fun b => b <> a) L)
            /\ v2_same_payload h r.1))
  /\ (let r := V2.removeTail (h, dl) in
      r.1 = last L
      /\ dll r.2.1 (V2.head r.2.2) (V2.tail r.2.2) (removelast L)
      /\ v2_same_payload h r.2.1).
Proof.
  intros Hdll. split_and!.
  - by eapply dll_walk.
  - by destruct Hdll as (_ & _ & _ & ?).
  - intros a Ha Hlt r. split; [by apply v2_addToFront_dll|].
    intros b. apply v2_addToFront_payload.
  - intros a [l1 [l2 ->]]%list_elem_of_split.
    pose proof Hdll as (Hnd & _). rewrite filter_ne_split by done. split.
    + intros r. split; [by apply v2_remove_dll|]. intros b. apply v2_remove_payload.
    + intros r. split; [by apply v2_moveToFront_dll|].
      intros b. apply v2_moveToFront_payload.
  - intros r. destruct (v2_removeTail_dll h dl L Hdll) as [Hr Hd].
    split_and!; [done|done|]. intros b. unfold r, V2.removeTail. cbn [snd].
    destruct (V2.tail dl); [|done]. apply v2_remove_payload.
Qed.

(** Two linked nodes and an unlinked third one. *)
Lemma linked_list_operations_witness :
  let nd (p n : option addr) : V2.LRUNode (V:=nat) :=
    {| V2.key := KBool true; V2.value := 0%nat; V2.expiresAt := None;
       V2.prev := p; V2.next := n |} in
  let h := [nd None (Some 1%nat); nd (Some 0%nat) None; nd None None] in
  let dl := {| V2.head := Some 0%nat; V2.tail := Some 1%nat |} in
  dll h (V2.head dl) (V2.tail dl) [0%nat; 1%nat]
  /\ (let r := V2.addToFront 2%nat (h, dl) in
      dll r.1 (V2.head r.2) (V2.tail r.2) [2%nat; 0%nat; 1%nat])
  /\ (V2.removeTail (h, dl)).1 = Some 1%nat.
Proof.
  intros nd h dl.
  assert (dll h (V2.head dl) (V2.tail dl) [0%nat; 1%nat]) as Hdll.
  { split_and!; [|simpl; split_and!; try done; lia|done|done].
    apply (bool_decide_unpack _). vm_compute. exact I. }
  destruct (linked_list_operations h dl [0%nat; 1%nat] Hdll)
    as (_ & _ & Hadd & _ & Hrt & _).
  split_and!; [done| |exact Hrt].
  apply (Hadd 2%nat); [|simpl; lia].
  rewrite !elem_of_cons, elem_of_nil. intros [?|[?|[]]]; done.
Defined.

(** ** What a key holds after other calls *)

Section MapSub.
Context {K A : Type} `{EqDecision K}.

Lemma jm_get_delete_sub (j k : K) (m : list (K * A)) e :
  NoDup m.*1 -> jm_get k (jm_delete j m) = Some e -> jm_get k m = Some e.
Proof.
  intros Hnd. destruct (decide (j = k)) as [->|Hne].
  - by rewrite jm_get_delete_eq.
  - by rewrite jm_get_delete_ne.
Qed.

End MapSub.

Section V1Entry.
Context `{JsNum} {V : Type}.
Implicit Types (c : V1.SmartCache (V:=V)) (k : SerializableKey).

Lemma v1_delete_entry j now w c k e :
  NoDup (V1.cache c).*1 ->
  jm_get k (V1.cache (V1.delete j now (w, c)).2) = Some e ->
  jm_get k (V1.cache c) = Some e.
Proof. rewrite v1_delete_cache. apply jm_get_delete_sub. Qed.

Lemma v1_step_entry o now w c k e' :
  NoDup (V1.cache c).*1 -> ~ sets_key k o ->
  jm_get k (V1.cache (v1_step o now (w, c)).2) = Some e' ->
  exists e, jm_get k (V1.cache c) = Some e /\ V1.value e' = V1.value e
            /\ V1.expiresAt e' = V1.expiresAt e.
Proof.
  intros Hnd Hk. destruct o as [k' v ttlMs|k'|k'|k'| |]; cbn [v1_step].
  - cbn [sets_key] in Hk. rewrite v1_set_eq.
    rewrite (proj1 (v1_addToLRU_frame _ _)). cbn [V1.with_cache V1.cache].
    rewrite jm_get_set_ne by done. unfold v1_set_pre.
    destruct (jm_has k' (V1.cache c)).
    + rewrite (proj1 (v1_removeFromLRU_frame _ _)). by eauto.
    + case_bool_decide; [|by eauto]. rewrite v1_evictLRU_delete.
      destruct (v1_victim now c) as [j|]; [|by eauto].
      intros He%v1_delete_entry; by eauto.
  - destruct (jm_get k' (V1.cache c)) as [e0|] eqn:Hget.
    + destruct (V1.isExpired now e0) eqn:Hx.
      * rewrite (v1_get_expired k' now (w, c) e0) by done. cbn [snd].
        intros He%v1_delete_entry; by eauto.
      * rewrite (v1_get_live k' now w c e0) by done. cbn [snd].
        rewrite (proj1 (v1_moveToFront_frame _ _)). cbn [V1.with_cache V1.cache].
        destruct (decide (k' = k)) as [->|Hne].
        -- rewrite jm_get_set_eq. intros [= <-]. by eauto.
        -- rewrite jm_get_set_ne by done. by eauto.
    + rewrite (v1_get_absent k' now (w, c)) by done. by eauto.
  - rewrite v1_has_state. cbn [snd].
    destruct (jm_get k' (V1.cache c)) as [e0|]; [|by eauto].
    destruct (V1.isExpired now e0); [|by eauto].
    intros He%v1_delete_entry; by eauto.
  - intros He%v1_delete_entry; by eauto.
  - done.
  - unfold V1.size. cbn [snd]. rewrite v1_cleanExpired_cache by done.
    rewrite jm_get_filter by done.
    destruct (jm_get k (V1.cache c)) as [e|]; [|done].
    case_decide; [|done]. intros [= <-]. by eauto.
Qed.

Lemma v1_run_entry tr (s : V1.World * V1.SmartCache (V:=V)) k e' :
  NoDup (V1.cache s.2).*1 -> Forall (fun on => ~ sets_key k on.1) tr ->
  jm_get k (V1.cache (v1_run tr s).2) = Some e' ->
  exists e, jm_get k (V1.cache s.2) = Some e /\ V1.value e' = V1.value e
            /\ V1.expiresAt e' = V1.expiresAt e.
Proof.
  intros Hnd Htr. revert s Hnd. unfold v1_run.
  induction Htr as [|[o now] tr Ho Htr IH]; intros [w c] Hnd; cbn [fold_left];
    [by eauto|].
  cbn [fst snd] in *. intros He.
  destruct (v1_step o now (w, c)) as [w1 c1] eqn:Hs.
  apply (IH (w1, c1)) in He as (e1 & He1 & Hv & Hx).
  - destruct (v1_step_entry o now w c k e1 Hnd Ho) as (e & ? & ? & ?).
    { by rewrite Hs. }
    exists e. split_and!; [done|congruence|congruence].
  - pose proof (v1_step_NoDup o now w c Hnd) as Hnd'. by rewrite Hs in Hnd'.
Qed.

End V1Entry.

Section V2Entry.
Context `{JsNum} {V : Type}.
Implicit Types (c : V2.SmartCache (V:=V)) (k : SerializableKey).

Lemma v2_entry_sub c c' k e :
  (forall a, jm_get k (V2.map c') = Some a -> jm_get k (V2.map c) = Some a) ->
  v2_same_payload (V2.nodes c) (V2.nodes c') ->
  v2_entry c' k = Some e -> v2_entry c k = Some e.
Proof.
  intros Hm Hp. rewrite !v2_entry_alt.
  destruct (jm_get k (V2.map c')) as [a|]; [|done].
  rewrite (Hm a eq_refl). cbn [mbind option_bind]. by rewrite Hp.
Qed.

Lemma v2_delete_entry j now w c k e :
  NoDup (V2.map c).*1 ->
  v2_entry (V2.delete j now (w, c)).2 k = Some e -> v2_entry c k = Some e.
Proof.
  intros Hnd. apply v2_entry_sub; [|apply v2_delete_payload].
  intros a. rewrite v2_delete_map. by apply jm_get_delete_sub.
Qed.

Lemma v2_evictLRU_entry now c k e :
  NoDup (V2.map c).*1 ->
  v2_entry (V2.evictLRU now c) k = Some e -> v2_entry c k = Some e.
Proof.
  intros Hnd. apply v2_entry_sub; [|apply v2_evictLRU_payload].
  intros a. rewrite v2_evictLRU_map. cbv zeta.
  destruct (v2_cleanExpired_keys now c Hnd) as [Hnd' _].
  assert (jm_get k (V2.map (V2.cleanExpired now c)) = Some a ->
          jm_get k (V2.map c) = Some a) as Hc.
  { rewrite v2_cleanExpired_map, jm_get_filter by done.
    destruct (jm_get k (V2.map c)); [|done]. by case_decide. }
  destruct (v2_at_capacity _); [|done].
  destruct (v2_tail_key _); [|done].
  intros Ha. apply Hc. by eapply jm_get_delete_sub.
Qed.

Lemma v2_set_other k' v ttlMs now w c k e :
  v2_wf c -> k <> k' ->
  v2_entry (V2.set k' v ttlMs now (w, c)).2 k = Some e -> v2_entry c k = Some e.
Proof.
  intros Hwf Hne. destruct (jm_has k' (V2.map c)) eqn:Hhas.
  { by rewrite v2_set_existing_other. }
  assert (jm_get k' (V2.map c) = None) as Hget.
  { unfold jm_has in Hhas. by destruct (jm_get k' (V2.map c)). }
  pose proof Hwf as [ks Habs].
  pose proof (v2_set_pre_abs now c ks Habs) as Habs1.
  assert (v2_wf (v2_set_pre now c)) as Hwf1 by by eexists.
  assert (v2_entry (v2_set_pre now c) k = Some e -> v2_entry c k = Some e) as Hpre.
  { unfold v2_set_pre. destruct (v2_at_capacity c); [|done].
    apply v2_evictLRU_entry. by eapply v2_abs_map_NoDup. }
  intros He. apply Hpre. revert He.
  rewrite v2_set_eq, Hget. cbv zeta.
  set (c1 := v2_set_pre now c) in *.
  rewrite !v2_entry_alt. v2_cbn. rewrite jm_get_set_ne by done.
  destruct (jm_get k (V2.map c1)) as [b|] eqn:Hb; [|done].
  cbn [mbind option_bind]. rewrite v2_addToFront_payload.
  destruct (v2_wf_node c1 k b Hwf1 Hb) as (n & Hn & _).
  by rewrite lookup_app_l by (by eapply lookup_lt_Some).
Qed.

Lemma v2_step_entry o now w c k e :
  v2_wf c -> ~ sets_key k o ->
  v2_entry (v2_step o now (w, c)).2 k = Some e -> v2_entry c k = Some e.
Proof.
  intros Hwf Hk.
  assert (NoDup (V2.map c).*1) as Hnd.
  { destruct Hwf as [ks Habs]. by eapply v2_abs_map_NoDup. }
  destruct o as [k' v ttlMs|k'|k'|k'| |]; cbn [v2_step].
  - cbn [sets_key] in Hk. apply v2_set_other; [done|]. by intros ->.
  - apply v2_entry_sub; [|apply v2_get_payload].
    intros a. rewrite v2_get_map.
    destruct (jm_get k' (V2.map c)) as [a'|]; [|done].
    destruct (V2.isExpired now (V2.nodes c) a'); [|done].
    by apply jm_get_delete_sub.
  - rewrite v2_has_state. cbn [snd].
    destruct (jm_get k' (V2.map c)) as [a'|]; [|done].
    destruct (V2.isExpired now (V2.nodes c) a'); [|done].
    by apply v2_delete_entry.
  - by apply v2_delete_entry.
  - done.
  - unfold V2.size. cbn [snd]. rewrite v2_cleanExpired_entry by done.
    destruct (v2_entry c k) as [e0|]; [|done].
    by destruct (v2_entry_expired now e0).
Qed.

Lemma v2_run_entry tr (s : V2.World * V2.SmartCache (V:=V)) k e :
  v2_wf s.2 -> Forall (fun on => ~ sets_key k on.1) tr ->
  v2_entry (v2_run tr s).2 k = Some e -> v2_entry s.2 k = Some e.
Proof.
  intros Hwf Htr. revert s Hwf. unfold v2_run.
  induction Htr as [|[o now] tr Ho Htr IH]; intros [w c] Hwf; cbn [fold_left];
    [done|].
  cbn [fst snd] in *. intros He.
  destruct (v2_step o now (w, c)) as [w1 c1] eqn:Hs.
  apply (IH (w1, c1)) in He.
  - apply (v2_step_entry o now w c k e Hwf Ho). by rewrite Hs.
  - pose proof (v2_step_wf o now (w, c) Hwf) as Hwf'. by rewrite Hs in Hwf'.
Qed.

End V2Entry.

(** X16: no stale value.  After [set(k, v, ttl)] at time [t] and any further
    calls that do not set [k] again, [get(k)] returns either nothing or [v],
    and [v] only while the entry written by that [set] is not expired. *)
Theorem get_last_set_value `{JsNum} {V : Type}
    (k : SerializableKey) (v : V) (ttlMs : option Z) (t now : Z)
    (tr : list (op (V:=V) * Z)) :
  Forall (fun on => ~ sets_key k on.1) tr ->
  (forall s : V1.World * V1.SmartCache (V:=V),
     NoDup (V1.cache s.2).*1 ->
     let r := (V1.get k now (v1_run tr (V1.set k v ttlMs t s))).1 in
     r = None
     \/ (r = Some v
         /\ V1.isExpired now (v1_entry v ttlMs t (V1.options s.2)) = false))
  /\ (forall s : V2.World * V2.SmartCache (V:=V),
     v2_wf s.2 ->
     let r := (V2.get k now (v2_run tr (V2.set k v ttlMs t s))).1 in
     r = None
     \/ (r = Some v
         /\ forall x, v2_expiry ttlMs t s.2 = Some x -> now <= x)).
Proof.
  intros Htr. split.
  - intros [w c] Hnd r. unfold r. cbn [snd] in *. rewrite v1_get_result.
    destruct (jm_get k (V1.cache (v1_run tr (V1.set k v ttlMs t (w, c))).2))
      as [e'|] eqn:He'; [|by left].
    apply v1_run_entry in He' as (e & He & Hv & Hx); [| |done].
    + rewrite v1_set_entry in He. injection He as <-.
      assert (V1.isExpired now e'
              = V1.isExpired now (v1_entry v ttlMs t (V1.options c))) as ->.
      { unfold V1.isExpired. by rewrite Hx. }
      destruct (V1.isExpired now _); [by left|right]. by rewrite Hv.
    + apply (v1_step_NoDup (OSet k v ttlMs) t w c Hnd).
  - intros [w c] Hwf r. unfold r. cbn [snd] in *. rewrite v2_get_result.
    destruct (v2_entry (v2_run tr (V2.set k v ttlMs t (w, c))).2 k)
      as [e'|] eqn:He'; [|by left].
    apply v2_run_entry in He'; [| |done].
    + rewrite v2_set_entry in He' by done. injection He' as <-.
      unfold v2_entry_expired. cbn [V2.ser_expiresAt V2.ser_value].
      destruct (v2_expiry ttlMs t c) as [x|]; [|by right].
      case_bool_decide; [by left|right]. split; [done|].
      intros ? [= <-]. lia.
    + apply (v2_step_wf (OSet k v ttlMs) t (w, c) Hwf).
Qed.

(** A cache of capacity 1: [a] is set, then [b] evicts it, and [get(a)]
    finds nothing. *)
Lemma get_last_set_value_witness :
  let s0 : V1.World * V1.SmartCache (V:=nat) :=
    (None, V1.new 1 None None 0 None) in
  let r := (V1.get (KStr "a") 5
              (v1_run [(OSet (KStr "b") 2%nat None, 1)]
                 (V1.set (KStr "a") 1%nat None 0 s0))).1 in
  r = None
  \/ (r = Some 1%nat
      /\ V1.isExpired 5 (v1_entry 1%nat None 0 (V1.options s0.2)) = false).
Proof.
  intros s0.
  assert (Forall (fun on : op (V:=nat) * Z => ~ sets_key (KStr "a") on.1)
            [(OSet (KStr "b") 2%nat None, 1)]) as Htr.
  { repeat constructor. simpl. discriminate. }
  apply (proj1 (get_last_set_value (KStr "a") 1%nat None 0 5 _ Htr) s0).
  apply NoDup_nil_2.
Defined.

Section Victim.
Context `{JsNum} {V : Type}.

Lemma find_filter_head {A} (P : A -> bool) (l : list A) x r :
  filter (fun y => P y = true) l = x :: r -> List.find P l = Some x.
Proof.
  induction l as [|y l IH]; [done|]. rewrite filter_cons. cbn [List.find].
  destruct (P y) eqn:Hy.
  - rewrite decide_True by done. by intros [= -> _].
  - rewrite decide_False by done. apply IH.
Qed.

Lemma v1_victim_first_expired now (c : V1.SmartCache (V:=V)) j rest :
  v1_wf c -> v1_expired_keys now c = j :: rest -> v1_victim now c = Some j.
Proof.
  intros [ks Habs] Hx. unfold v1_expired_keys in Hx.
  destruct (filter _ (V1.cache c)) as [|[j' e] r] eqn:Hf; [done|].
  injection Hx as -> _.
  assert ((j, e) ∈ V1.cache c) as Hin.
  { eapply (list_elem_of_filter (fun kv => V1.isExpired now kv.2 = true)).
    rewrite Hf. left. }
  unfold v1_victim. destruct (V1.tail c) as [t|] eqn:Ht.
  - by rewrite (find_filter_head (fun kv => V1.isExpired now kv.2) _ _ _ Hf).
  - apply (v1_abs_tail _ _ Habs) in Ht as ->.
    destruct Habs as (_ & _ & _ & _ & Hk).
    exfalso. eapply elem_of_nil, Hk, list_elem_of_fmap. by exists (j, e).
Qed.

End Victim.

(** X17: what a [set] of a new key on a full cache in lockstep removes when
    entries are expired.  Implementation 1 removes one entry only, the
    first expired one in insertion order, and keeps the other expired
    entries stored.  Implementation 2 removes every expired entry, and no
    other entry when that brings the store below capacity. *)
Theorem eviction_prefers_expired `{JsNum} {V : Type}
    (k : SerializableKey) (v : V) (ttlMs : option Z) (now : Z) :
  (forall (w : V1.World) (c : V1.SmartCache (V:=V)) j rest,
     v1_wf c -> jm_has k (V1.cache c) = false ->
     jm_size (V1.cache c) >= V1.maxSize (V1.options c) ->
     v1_expired_keys now c = j :: rest ->
     V1.cache (V1.set k v ttlMs now (w, c)).2
     = jm_delete j (V1.cache c) ++ [(k, v1_entry v ttlMs now (V1.options c))])
  /\ (forall (w : V2.World) (c : V2.SmartCache (V:=V)) n,
     v2_wf c -> jm_has k (V2.map c) = false ->
     V2.maxSize c = Some n -> jm_size (V2.map c) >= n ->
     Z.of_nat (length (filter
                 (fun ka => V2.isExpired now (V2.nodes c) ka.2 <> true)
                 (V2.map c))) < n ->
     let c' := (V2.set k v ttlMs now (w, c)).2 in
     (V2.map c').*1
     = (filter (fun ka => V2.isExpired now (V2.nodes c) ka.2 <> true)
          (V2.map c)).*1 ++ [k]
     /\ forall j e, j <> k -> v2_entry c j = Some e ->
          v2_entry_expired now e = false -> v2_entry c' j = Some e).
Proof.
  split.
  - intros w c j rest Hwf Hhas Hfull Hx.
    rewrite v1_set_full_cache by done.
    by rewrite (v1_victim_first_expired now c j rest).
  - intros w c n Hwf Hhas Hn Hfull Hlive c'.
    assert (NoDup (V2.map c).*1) as Hnd.
    { destruct Hwf as [ks Habs]. by eapply v2_abs_map_NoDup. }
    assert (v2_at_capacity c = true) as Hcap.
    { unfold v2_at_capacity. rewrite Hn. by apply bool_decide_eq_true_2. }
    assert (v2_at_capacity (V2.cleanExpired now c) = false) as Hcap1.
    { unfold v2_at_capacity.
      rewrite (proj1 (v2_cleanExpired_config now c)), Hn.
      apply bool_decide_eq_false_2. rewrite v2_cleanExpired_map by done.
      unfold jm_size. lia. }
    assert (V2.map (V2.evictLRU now c)
            = filter (fun ka => V2.isExpired now (V2.nodes c) ka.2 <> true)
                (V2.map c)) as Hmap.
    { rewrite v2_evictLRU_map. cbv zeta. rewrite Hcap1.
      by apply v2_cleanExpired_map. }
    split.
    + unfold c'. rewrite v2_set_full_keys by done. by rewrite Hmap.
    + intros j e Hj He Hlive'. unfold c'.
      assert (jm_get k (V2.map c) = None) as Hget.
      { unfold jm_has in Hhas. by destruct (jm_get k (V2.map c)). }
      pose proof Hwf as [ks Habs].
      pose proof (v2_set_pre_abs now c ks Habs) as Habs1.
      assert (v2_wf (v2_set_pre now c)) as Hwf1 by by eexists.
      assert (v2_entry (v2_set_pre now c) j = Some e) as Hpre.
      { unfold v2_set_pre. rewrite Hcap.
        rewrite v2_entry_alt in He |- *. rewrite Hmap, jm_get_filter by done.
        destruct (jm_get j (V2.map c)) as [b|] eqn:Hb; [|done].
        cbn [mbind option_bind snd] in *.
        rewrite (v2_isExpired_entry now c j b Hb), v2_entry_alt, Hb.
        cbn [mbind option_bind]. rewrite He, Hlive'.
        rewrite decide_True by done. cbn [mbind option_bind].
        by rewrite v2_evictLRU_payload. }
      rewrite v2_set_eq, Hget. cbv zeta.
      set (c1 := v2_set_pre now c) in *.
      rewrite v2_entry_alt in Hpre |- *. v2_cbn.
      rewrite jm_get_set_ne by done.
      destruct (jm_get j (V2.map c1)) as [b|] eqn:Hb; [|done].
      cbn [mbind option_bind] in *. rewrite v2_addToFront_payload.
      destruct (v2_wf_node c1 j b Hwf1 Hb) as (nd & Hnd1 & _).
      by rewrite lookup_app_l by (by eapply lookup_lt_Some).
Qed.

(** ** What [set] evicts, key by key *)

(** X18: when [set] inserts a new key into a full cache whose store holds
    each key once, every key it removes from the store is the key of an
    expired entry or the key carried by the tail node at removal time.
    Implementation 1 removes at most one key: an expired one if there is
    one, the tail's otherwise.  Implementation 2 removes every expired key
    and then, if the store is still full, the tail's key, so at most one
    key that is not expired.  Where store and recency list are in
    lockstep, the tail key is the least recently used key (of the
    non-expired keys, in implementation 2), and a non-empty store loses a
    key. *)
Theorem eviction_contract `{JsNum} {V : Type}
    (k : SerializableKey) (v : V) (ttlMs : option Z) (now : Z) :
  (forall (w : V1.World) (c : V1.SmartCache),
     let c' := (V1.set k v ttlMs now (w, c)).2 in
     jm_has k (V1.cache c) = false ->
     jm_size (V1.cache c) >= V1.maxSize (V1.options c) ->
     (forall j, j ∈ (V1.cache c).*1 -> j ∉ (V1.cache c').*1 ->
        j ∈ v1_expired_keys now c
        \/ (v1_tail_key c = Some j /\ v1_expired_keys now c = []))
     /\ (forall j j', j ∈ (V1.cache c).*1 -> j ∉ (V1.cache c').*1 ->
           j' ∈ (V1.cache c).*1 -> j' ∉ (V1.cache c').*1 -> j = j')
     /\ (v1_wf c ->
         v1_tail_key c = last (v1_lru_keys c)
         /\ (V1.cache c <> [] ->
             exists j, j ∈ (V1.cache c).*1 /\ j ∉ (V1.cache c').*1)))
  /\ (forall (w : V2.World) (c : V2.SmartCache),
     let c' := (V2.set k v ttlMs now (w, c)).2 in
     NoDup (V2.map c).*1 ->
     jm_has k (V2.map c) = false ->
     v2_at_capacity c = true ->
     (forall j, j ∈ (V2.map c).*1 -> j ∉ (V2.map c').*1 ->
        j ∈ v2_expired_keys now c
        \/ v2_tail_key (V2.cleanExpired now c) = Some j)
     /\ (forall j, j ∈ v2_expired_keys now c -> j ∉ (V2.map c').*1)
     /\ (forall j j', j ∈ (V2.map c).*1 -> j ∉ (V2.map c').*1 ->
           j' ∈ (V2.map c).*1 -> j' ∉ (V2.map c').*1 ->
           j ∉ v2_expired_keys now c -> j' ∉ v2_expired_keys now c -> j = j')
     /\ (v2_wf c ->
         v2_tail_key (V2.cleanExpired now c)
         = last (filter (fun x => x ∉ v2_expired_keys now c) (v2_lru_keys c))
         /\ (V2.map c <> [] ->
             exists j, j ∈ (V2.map c).*1 /\ j ∉ (V2.map c').*1))).
Proof.
  split.
  - intros w c c' Hhas Hfull.
    assert (forall j, j ∈ (V1.cache c).*1 -> j ∉ (V1.cache c').*1 ->
              v1_victim now c = Some j) as Hrem.
    { intros j Hj Hj'. unfold c' in Hj'.
      rewrite v1_set_full_cache, fmap_app, elem_of_app in Hj' by done.
      destruct (v1_victim now c) as [j0|]; [|tauto].
      destruct (decide (j = j0)) as [->|Hne]; [done|]. exfalso. apply Hj'. left.
      clear -Hj Hne. induction (V1.cache c) as [|[k0 e0] m IH]; [done|].
      cbn [jm_delete]. csimpl in Hj. case_decide; subst.
      - apply elem_of_cons in Hj as [->|Hj]; done.
      - csimpl. apply elem_of_cons in Hj as [->|Hj]; [left|right; auto]. }
    split_and!.
    + intros j Hj Hj'. by apply v1_victim_cases, Hrem.
    + intros j j' Hj Hj' Hi Hi'.
      pose proof (Hrem j Hj Hj'). pose proof (Hrem j' Hi Hi'). congruence.
    + intros [ks Habs]. split.
      * rewrite (v1_abs_lru_keys _ _ Habs). by apply v1_abs_tail_key.
      * intros Hne. pose proof (v1_victim_spec now c ks Habs) as Hv.
        unfold c'. rewrite v1_set_full_cache by done.
        destruct (v1_victim now c) as [j|].
        -- destruct Hv as [Hj _]. exists j. split; [done|].
           rewrite fmap_app, elem_of_app. intros [Hin|Hin].
           ++ apply jm_delete_key_elem in Hin as [? _]; [done|].
              by destruct Habs as (? & ? & ? & ? & ?).
           ++ csimpl in Hin. apply list_elem_of_singleton in Hin as ->.
              by apply jm_has_false in Hhas.
        -- subst ks. apply v1_abs_length in Habs.
           destruct (V1.cache c); [done|discriminate].
  - intros w c c' Hnd Hhas Hfull.
    assert (forall j, j ∈ (V2.map c').*1
              <-> j = k \/ (j ∈ (V2.map c).*1 /\ (j ∉ v2_expired_keys now c)
                  /\ (v2_at_capacity (V2.cleanExpired now c) = true ->
                      v2_tail_key (V2.cleanExpired now c) <> Some j))) as Hk'.
    { intros j. unfold c'. rewrite v2_set_full_keys by done.
      rewrite elem_of_app, list_elem_of_singleton, v2_evictLRU_keys by done.
      tauto. }
    split_and!.
    + intros j Hj Hj'. rewrite Hk' in Hj'.
      destruct (decide (j ∈ v2_expired_keys now c)); [by left|]. right.
      destruct (decide (v2_tail_key (V2.cleanExpired now c) = Some j)); [done|].
      exfalso. apply Hj'. right. done.
    + intros j Hj. rewrite Hk'. intros [->|(_ & ? & _)]; [|done].
      apply jm_has_false in Hhas. apply Hhas.
      apply list_elem_of_fmap in Hj as ([k0 a] & -> & [_ Hin]%list_elem_of_filter).
      apply list_elem_of_fmap. by exists (k0, a).
    + intros j j' Hj Hj' Hi Hi' Hx Hx'. rewrite Hk' in Hj', Hi'.
      destruct (decide (v2_tail_key (V2.cleanExpired now c) = Some j)) as [E|];
        [|exfalso; apply Hj'; right; done].
      destruct (decide (v2_tail_key (V2.cleanExpired now c) = Some j')) as [E'|];
        [|exfalso; apply Hi'; right; done].
      congruence.
    + intros [ks Habs].
      pose proof (v2_cleanExpired_abs now c ks Habs) as Habs1.
      rewrite (v2_abs_lru_keys _ _ Habs). split.
      * by apply v2_abs_tail_key.
      * intros Hne.
        destruct (v2_expired_keys now c) as [|j0 l0] eqn:Hexp.
        -- rewrite (filter_all (fun x => x ∉ [])) in Habs1
             by (apply Forall_forall; intros ? _; apply not_elem_of_nil).
           assert (v2_at_capacity (V2.cleanExpired now c) = true) as Hfull1.
           { unfold v2_at_capacity in *.
             rewrite (proj1 (v2_cleanExpired_config now c)).
             destruct (V2.maxSize c); [|done]. unfold jm_size in *.
             by rewrite (v2_abs_length _ _ Habs1), <- (v2_abs_length _ _ Habs). }
           pose proof (v2_abs_tail_key _ _ Habs1) as Ht.
           destruct (last ks) as [kt|] eqn:El.
           ++ exists kt. split.
              ** rewrite (v2_abs_keys _ _ Habs).
                 apply last_Some in El as [? ->]. set_solver.
              ** rewrite Hk'. intros [->|(_ & _ & Hc)]; [|by apply Hc].
                 apply jm_has_false in Hhas. apply Hhas.
                 rewrite (v2_abs_keys _ _ Habs).
                 apply last_Some in El as [? ->]. set_solver.
           ++ apply last_None in El. subst ks.
              apply v2_abs_length in Habs. destruct (V2.map c); done.
        -- assert (j0 ∈ v2_expired_keys now c) as Hj0 by (rewrite Hexp; left).
           exists j0. split.
           ++ apply list_elem_of_fmap in Hj0
                as ([k0 a] & -> & [_ Hin]%list_elem_of_filter).
              apply list_elem_of_fmap. by exists (k0, a).
           ++ rewrite Hk'. intros [->|(_ & Hc & _)]; [|apply Hc; first [exact Hj0 | left]].
              apply jm_has_false in Hhas. apply Hhas.
              apply list_elem_of_fmap in Hj0
                as ([k0 a] & -> & [_ Hin]%list_elem_of_filter).
              apply list_elem_of_fmap. by exists (k0, a).
Qed.

Lemma eviction_contract_witness :
  let c := (V1.set (H:=DecNum) (V:=Z) (KStr "b") 2 None 1
              (V1.set (KStr "a") 1 (Some 5) 0
                 (None, V1.new 2 None None 0 None))).2 in
  KStr "a" ∈ v1_expired_keys 10 c
  \/ (v1_tail_key c = Some (KStr "a") /\ v1_expired_keys 10 c = []).
Proof.
  intros c.
  destruct (eviction_contract (H:=DecNum) (V:=Z) (KStr "c") 3 None 10)
    as [H1 _].
  destruct (H1 None c) as (Hrem & _); [reflexivity|vm_compute; discriminate|].
  apply Hrem; apply (bool_decide_unpack _); vm_compute; exact I.
Defined.

(** ** Expired entries, in any state *)

(** X19: in a state whose store holds each key once, let an entry be
    stored under a key with expiry [t], and let [now > t].  Then [get]
    returns nothing and [has] returns [false], each leaving the state that
    [delete] of the key leaves; [size()] counts the entries that are not
    expired; after [delete] or [size()] the key is not in the store and,
    where store and list were in lockstep, not in the recency list, and
    lockstep is kept.  A key that is absent stays absent, with [get] and
    [has] reporting so and changing nothing, over any calls other than a
    [set] of that key.  Both implementations. *)
Theorem expiry_invariant `{JsNum} {V : Type} (k : SerializableKey) (now : Z) :
  (forall (w : V1.World) (c : V1.SmartCache) (e : V1.CacheEntry (V:=V)) t,
     NoDup (V1.cache c).*1 ->
     jm_get k (V1.cache c) = Some e -> V1.expiresAt e = Some t -> now > t ->
     V1.get k now (w, c) = (None, V1.delete k now (w, c))
     /\ V1.has k now (w, c) = (false, V1.delete k now (w, c))
     /\ (V1.size now (w, c)).1
        = Z.of_nat (length (filter (fun kv => V1.isExpired now kv.2 <> true)
                              (V1.cache c)))
     /\ (k ∉ (V1.cache (V1.delete k now (w, c)).2).*1)
     /\ (k ∉ (V1.cache (V1.size now (w, c)).2.2).*1)
     /\ (v1_wf c ->
         v1_wf (V1.delete k now (w, c)).2
         /\ v1_wf (V1.size now (w, c)).2.2
         /\ (k ∉ v1_lru_keys (V1.delete k now (w, c)).2)
         /\ (k ∉ v1_lru_keys (V1.size now (w, c)).2.2)))
  /\ (forall (w : V1.World) (c : V1.SmartCache (V:=V)) tr now',
        k ∉ (V1.cache c).*1 -> Forall (fun on => ~ sets_key k on.1) tr ->
        let s' := v1_run tr (w, c) in
        V1.get k now' s' = (None, s') /\ V1.has k now' s' = (false, s')
        /\ (k ∉ (V1.cache s'.2).*1) /\ (v1_wf c -> k ∉ v1_lru_keys s'.2))
  /\ (forall (w : V2.World) (c : V2.SmartCache) (e : V2.SerializedEntry (V:=V)) t,
     NoDup (V2.map c).*1 ->
     v2_entry c k = Some e -> V2.ser_expiresAt e = Some t -> now > t ->
     V2.get k now (w, c) = (None, V2.delete k now (w, c))
     /\ V2.has k now (w, c) = (false, V2.delete k now (w, c))
     /\ (V2.size now (w, c)).1
        = Z.of_nat (length (filter
                     (fun ka => V2.isExpired now (V2.nodes c) ka.2 <> true)
                     (V2.map c)))
     /\ (k ∉ (V2.map (V2.delete k now (w, c)).2).*1)
     /\ (k ∉ (V2.map (V2.size now (w, c)).2.2).*1)
     /\ (v2_wf c ->
         v2_wf (V2.delete k now (w, c)).2
         /\ v2_wf (V2.size now (w, c)).2.2
         /\ (k ∉ v2_lru_keys (V2.delete k now (w, c)).2)
         /\ (k ∉ v2_lru_keys (V2.size now (w, c)).2.2)))
  /\ (forall (w : V2.World) (c : V2.SmartCache (V:=V)) tr now',
        k ∉ (V2.map c).*1 -> Forall (fun on => ~ sets_key k on.1) tr ->
        let s' := v2_run tr (w, c) in
        V2.get k now' s' = (None, s') /\ V2.has k now' s' = (false, s')
        /\ (k ∉ (V2.map s'.2).*1) /\ (v2_wf c -> k ∉ v2_lru_keys s'.2)).
Proof.
  split_and!.
  - intros w c e t Hnd Hget He Ht.
    pose proof (v1_isExpired_after now e t He Ht) as Hx.
    assert (k ∉ (V1.cache (V1.delete k now (w, c)).2).*1) as Hd.
    { rewrite v1_delete_cache, jm_delete_key_elem by done. tauto. }
    assert (k ∉ (V1.cache (V1.size now (w, c)).2.2).*1) as Hs.
    { unfold V1.size. cbn [snd]. rewrite v1_cleanExpired_cache by done.
      intros ([k0 e0] & -> & [Hne Hin]%list_elem_of_filter)%list_elem_of_fmap.
      simpl in *. rewrite (jm_get_elem _ _ _ Hnd Hin) in Hget.
      by injection Hget as ->. }
    split_and!; try done.
    + by apply (v1_get_expired k now (w, c) e).
    + unfold V1.has. cbn [snd]. by rewrite Hget, Hx.
    + unfold V1.size. cbn [fst snd]. by rewrite v1_cleanExpired_cache.
    + intros Hwf.
      assert (v1_wf (V1.delete k now (w, c)).2) as Hwd.
      { apply (v1_step_wf (ODelete k) now (w, c) Hwf). }
      assert (v1_wf (V1.size now (w, c)).2.2) as Hws.
      { apply (v1_step_wf OSize now (w, c) Hwf). }
      split_and!; try done; by apply v1_wf_absent.
  - intros w c tr now' Hk Hno s'.
    pose proof (v1_run_absent k tr w c Hk Hno) as Hk'. fold s' in Hk'.
    assert (jm_get k (V1.cache s'.2) = None) as Hget by (by apply jm_get_None).
    split_and!; try done.
    + by apply v1_get_absent.
    + unfold V1.has. by rewrite Hget.
    + intros Hwf. apply v1_wf_absent; [|done]. by apply v1_run_wf.
  - intros w c e t Hnd Hent He Ht.
    assert (v2_entry_expired now e = true) as Hx.
    { unfold v2_entry_expired. rewrite He. by apply bool_decide_eq_true. }
    destruct (v2_entry_expired_node now c k e Hent Hx) as (a & Hget & Hxa).
    assert (k ∉ (V2.map (V2.delete k now (w, c)).2).*1) as Hd.
    { rewrite v2_delete_map, jm_delete_key_elem by done. tauto. }
    assert (k ∉ (V2.map (V2.size now (w, c)).2.2).*1) as Hs.
    { unfold V2.size. cbn [snd]. rewrite v2_cleanExpired_map by done.
      intros ([k0 a0] & -> & [Hne Hin]%list_elem_of_filter)%list_elem_of_fmap.
      simpl in *. rewrite (jm_get_elem _ _ _ Hnd Hin) in Hget.
      by injection Hget as ->. }
    split_and!; try done.
    + by apply (v2_get_expired k now (w, c) a).
    + unfold V2.has. cbn [snd]. by rewrite Hget, Hxa.
    + unfold V2.size. cbn [fst snd]. by rewrite v2_cleanExpired_map.
    + intros Hwf.
      assert (v2_wf (V2.delete k now (w, c)).2) as Hwd.
      { apply (v2_step_wf (ODelete k) now (w, c) Hwf). }
      assert (v2_wf (V2.size now (w, c)).2.2) as Hws.
      { apply (v2_step_wf OSize now (w, c) Hwf). }
      split_and!; try done; by apply v2_wf_absent.
  - intros w c tr now' Hk Hno s'.
    pose proof (v2_run_absent k tr w c Hk Hno) as Hk'. fold s' in Hk'.
    assert (jm_get k (V2.map s'.2) = None) as Hget by (by apply jm_get_None).
    split_and!; try done.
    + by apply v2_get_absent.
    + unfold V2.has. by rewrite Hget.
    + intros Hwf. apply v2_wf_absent; [|done]. by apply v2_run_wf.
Qed.

Lemma expiry_invariant_witness :
  let c := (V1.set (H:=DecNum) (V:=Z) (KStr "a") 1 (Some 5) 0
              (None, V1.new 2 None None 0 None)).2 in
  V1.get (KStr "a") 10 (None, c) = (None, V1.delete (KStr "a") 10 (None, c))
  /\ (KStr "a" ∉ (V1.cache (V1.delete (KStr "a") 10 (None, c)).2).*1).
Proof.
  intros c.
  destruct (expiry_invariant (H:=DecNum) (V:=Z) (KStr "a") 10) as [H1 _].
  destruct (H1 None c {| V1.value := 1; V1.expiresAt := Some 5;
                         V1.lastUsed := 0 |} 5)
    as (Hg & _ & _ & Hd & _); [|reflexivity|reflexivity|lia|by split].
  apply (bool_decide_unpack _). vm_compute. exact I.
Defined.

(** ** Instances *)

Section FreshRuns.
Context `{JsNum} {V : Type}.

(** A cache constructed without [localStorage], after any calls. *)
Lemma v1_fresh_run_wf N dttl p now0 (tr : list (op (V:=V) * Z)) :
  v1_wf (v1_run tr (None, V1.new N dttl p now0 None)).2.
Proof. apply v1_run_wf, v1_new_wf. intros st name d. discriminate. Qed.

Lemma v2_fresh_run_wf ms dttl p now0 (tr : list (op (V:=V) * Z)) :
  v2_wf (v2_run tr (None, V2.new ms dttl p now0 None)).2.
Proof. apply v2_run_wf, v2_new_wf. intros st name d. discriminate. Qed.

End FreshRuns.

(** [a] and [b] are set, then [get(a)] returns the value of [a] and makes
    [a] the most recently used key. *)
Lemma get_promotes_witness :
  let c := (v1_run (H:=DecNum) (V:=Z)
              [(OSet (KStr "a") 1 None, 1); (OSet (KStr "b") 2 None, 2)]
              (None, V1.new 2 None None 0 None)).2 in
  (V1.get (KStr "a") 3 (None, c)).1 = Some 1
  /\ v1_lru_keys (V1.get (KStr "a") 3 (None, c)).2.2
     = KStr "a" :: filter (fun x => x <> KStr "a") (v1_lru_keys c).
Proof.
  intros c.
  destruct (proj1 (get_promotes (H:=DecNum) (V:=Z) (KStr "a") 3) None c
              {| V1.value := 1; V1.expiresAt := None; V1.lastUsed := 1 |})
    as (H1 & _ & H3 & _).
  - apply v1_fresh_run_wf.
  - reflexivity.
  - reflexivity.
  - split; [exact H1|exact H3].
Defined.

(** [a] and [b] are set, then [a] is set again. *)
Lemma set_existing_key_witness :
  let c := (v1_run (H:=DecNum) (V:=Z)
              [(OSet (KStr "a") 1 None, 1); (OSet (KStr "b") 2 None, 2)]
              (None, V1.new 2 None None 0 None)).2 in
  let c' := (V1.set (KStr "a") 7 None 3 (None, c)).2 in
  (V1.cache c').*1 = (V1.cache c).*1
  /\ v1_lru_keys c' = KStr "a" :: filter (fun x => x <> KStr "a") (v1_lru_keys c).
Proof.
  intros c c'.
  destruct (proj1 (set_existing_key (H:=DecNum) (V:=Z) (KStr "a") 7 None 3)
              None c) as (H1 & H2 & _).
  - apply v1_fresh_run_wf.
  - reflexivity.
  - split; [exact H1|exact H2].
Defined.

(** [a] and [b] are set, then [a] is deleted. *)
Lemma delete_removes_one_key_witness :
  let c := (v2_run (H:=DecNum) (V:=Z)
              [(OSet (KStr "a") 1 None, 1); (OSet (KStr "b") 2 None, 2)]
              (None, V2.new (Some 2) None None 0 None)).2 in
  let c' := (V2.delete (KStr "a") 3 (None, c)).2 in
  v2_wf c' /\ V2.map c' = jm_delete (KStr "a") (V2.map c).
Proof.
  intros c c'.
  destruct (proj2 (proj2 (delete_removes_one_key (H:=DecNum) (V:=Z)
                            (KStr "a") 3) None c)) as (H1 & H2 & _).
  - apply v2_fresh_run_wf.
  - split; [exact H1|exact H2].
Defined.

(** A cache of capacity 3 holds [a]; [b] is set. *)
Lemma set_new_key_below_capacity_witness :
  let c := (v1_run (H:=DecNum) (V:=Z) [(OSet (KStr "a") 1 (Some 1), 1)]
              (None, V1.new 3 None None 0 None)).2 in
  let c' := (V1.set (KStr "b") 2 None 9 (None, c)).2 in
  v1_lru_keys c' = KStr "b" :: v1_lru_keys c.
Proof.
  intros c c'.
  destruct (proj1 (set_new_key_below_capacity (H:=DecNum) (V:=Z)
                     (KStr "b") 2 None 9) None c) as (_ & _ & H3).
  - apply v1_fresh_run_wf.
  - reflexivity.
  - vm_compute. reflexivity.
  - exact H3.
Defined.

(** [a] is set for 1 ms, [b] without expiry; [size()] is called later. *)
Lemma size_purges_expired_witness :
  let c := (v2_run (H:=DecNum) (V:=Z)
              [(OSet (KStr "a") 1 (Some 1), 1); (OSet (KStr "b") 2 None, 2)]
              (None, V2.new (Some 2) None None 0 None)).2 in
  let r := V2.size 9 (None, c) in
  r.1 = Z.of_nat (length (V2.map r.2.2)) /\ V2.size 9 r.2 = r.
Proof.
  intros c r.
  destruct (proj2 (size_purges_expired (H:=DecNum) (V:=Z) 9) None c)
    as (_ & _ & H3 & _ & _ & H6).
  - apply v2_fresh_run_wf.
  - split; [exact H3|exact H6].
Defined.

(** A full cache of capacity 2 whose entry [a] is expired; [c] is set. *)
Lemma eviction_prefers_expired_witness :
  let c := (v1_run (H:=DecNum) (V:=Z)
              [(OSet (KStr "a") 1 (Some 1), 1); (OSet (KStr "b") 2 None, 2)]
              (None, V1.new 2 None None 0 None)).2 in
  V1.cache (V1.set (KStr "c") 3 None 9 (None, c)).2
  = jm_delete (KStr "a") (V1.cache c)
    ++ [(KStr "c", v1_entry 3 None 9 (V1.options c))].
Proof.
  intros c.
  apply (proj1 (eviction_prefers_expired (H:=DecNum) (V:=Z) (KStr "c") 3 None 9)
           None c (KStr "a") []).
  - apply v1_fresh_run_wf.
  - reflexivity.
  - vm_compute. discriminate.
  - reflexivity.
Defined.



(** A persisting cache is cleared. *)
Lemma clear_empties_witness :
  let c := (v1_run (H:=DecNum) (V:=Z) [(OSet (KStr "a") 1 None, 1)]
              (Some [], V1.new 2 None (Some (PStr "p")) 0 (Some []))).2 in
  let s' := V1.clear 2 (Some [], c) in
  exists st', s'.1 = Some st' /\ getItem (V1.storageKey c) st' = Some (Doc []).
Proof.
  intros c.
  destruct (proj1 (clear_empties (H:=DecNum) (V:=Z) 2) (Some []) c)
    as (_ & _ & _ & _ & _ & H6).
  exact (H6 [] eq_refl eq_refl eq_refl).
Defined.

(** An entry of implementation 2 with a time to live of 10 ms, read at its
    expiry instant. *)
Lemma ttl_boundary_witness :
  let c := V2.new (H:=DecNum) (V:=Z) (Some 2) None None 0 None in
  (V2.get (KStr "a") 11 (None, (V2.set (KStr "a") 5 (Some 10) 1 (None, c)).2)).1
  = Some 5.
Proof.
  intros c.
  apply (proj2 (ttl_boundary (H:=DecNum) (V:=Z) (KStr "a") 5 (Some 10) 1 11)
           None None c).
  apply (v2_fresh_run_wf (H:=DecNum) (V:=Z) (Some 2) None None 0 []).
Defined.

(** A persisting cache next to a foreign item. *)
Lemma storage_isolation_witness :
  let st : list (string * blob (V1.CacheEntry (V:=Z))) := [("other", Unparsable)] in
  let c := V1.new (H:=DecNum) 2 None (Some (PStr "p")) 0 (Some st) in
  exists st',
    (v1_run [(OSet (KStr "a") 1 None, 1); (OClear, 2)] (Some st, c)).1 = Some st'
    /\ getItem "other" st' = getItem "other" st.
Proof.
  intros st c.
  destruct (proj1 (storage_isolation (H:=DecNum) (V:=Z)
                     [(OSet (KStr "a") 1 None, 1); (OClear, 2)]) (Some st) c)
    as (_ & _ & H3).
  destruct (H3 st eq_refl) as (st' & Hw & Hn).
  exists st'. split; [exact Hw|]. apply Hn. discriminate.
Defined.

(** A store with a live entry, an expired entry and an entry under
    [__proto__]. *)
Lemma snapshot_faithful_witness :
  let e1 := {| V1.value := 1; V1.expiresAt := None; V1.lastUsed := 0 |} in
  let e2 := {| V1.value := 2; V1.expiresAt := Some 3; V1.lastUsed := 0 |} in
  let d := V1.snapshot (H:=DecNum) 5
             [(KStr "a", e1); (KStr "b", e2); (KStr "__proto__", e1)] in
  (String_key (H:=DecNum) (KStr "a"), Some e1) ∈ d /\ ("__proto__" ∉ d.*1).
Proof.
  intros e1 e2 d.
  destruct (proj1 (snapshot_faithful (H:=DecNum) (V:=Z) 5)
              [(KStr "a", e1); (KStr "b", e2); (KStr "__proto__", e1)])
    as (_ & H2 & _ & H4).
  split; [|exact H2]. apply H4.
  - apply (bool_decide_unpack _). vm_compute. exact I.
  - intros k1 x1 k2 x2 H1 H3 L1 L2 Heq.
    rewrite !elem_of_cons, elem_of_nil in H1, H3.
    destruct H1 as [[= -> ->]|[[= -> ->]|[[= -> ->]|[]]]];
      destruct H3 as [[= -> ->]|[[= -> ->]|[[= -> ->]|[]]]];
      try done; discriminate.
  - left.
  - reflexivity.
  - discriminate.
Defined.

(** The name [x] is no boolean literal and no number. *)
Lemma parseKey_prints_back_witness :
  V1.parseKey (H:=DecNum) "x" = KStr "x".
Proof.
  apply (proj1 (proj2 (proj2 (parseKey_prints_back (H:=DecNum) "x"))));
    [discriminate|discriminate|reflexivity].
Defined.
